(** * RobustTrees: the robust column-wise split finder

    A shallow embedding of [src/tree/updater_robust_colmaker.cc]
    (class [RobustColMaker::Builder]) and the properties of its split
    enumeration, commit phase and position encoding.

    Conventions of the embedding.
    - [bst_float], [float] and [double] values are elements of one abstract
      carrier with the operations the source applies to them (class
      [FloatOps]).  No arithmetic law is built in: every theorem lists the
      laws it relies on, and [FixedPoint] gives an executable instance
      (integers counting units of [kRtEps = 1e-6]).
    - [std::vector]s are lists read with stdpp's lookup.  An index out of
      range is undefined behaviour in the source; the model reads the
      default element and drops the write ([alter] past the end is the
      identity).
    - A [const Entry *] into the scanned column is its offset together with
      the [Entry] stored there (the column is never written while it is
      scanned).
    - [position_] holds C [int]s: integers, [~x] is [Z.lnot x].
    - The [printf] diagnostics guarded by [robust_training_verbose], and the
      counters that only they read ([n_node_point], [c_right_counter]),
      leave the state of the builder untouched and are left out.
    - An OpenMP loop is run iteration after iteration, a parallel region
      thread after thread: a thread writes its own row of [stemp_] only.
      Where the schedule decides which thread runs an iteration, the
      thread is a parameter ([thread_of]).
    - What the global random engine decides is a parameter as well: the
      outcomes of the coin flips of the subsampling ([coin_flip]) and the
      features that the sampling of the columns keeps ([feat_set]).
    - A CHECK that fails aborts the build: the functions that contain one
      return an [option], [None] being the abort. *)

From Stdlib Require Import ZArith Lia.
From stdpp Require Import base list sorting gmap.

#[local] Open Scope Z_scope.

(** ** Numbers *)

Class FloatOps (F : Type) := {
  F0 : F;
  Fadd : F → F → F;
  Fsub : F → F → F;
  Fmul : F → F → F;
  Fneg : F → F;
  Fabs : F → F;                 (* std::abs *)
  Fhalf : F → F;                (* x * 0.5f *)
  Fltb : F → F → bool;          (* x < y *)
  Fleb : F → F → bool;          (* x <= y *)
  Feqb : F → F → bool;          (* x == y *)
  kRtEps : F;                   (* const bst_float kRtEps = 1e-6f *)
}.

Section float_derived.
Context {F : Type} `{!FloatOps F}.

(* x >= y *)
Definition Fgeb (x y : F) : bool := Fleb y x.
(* x > y *)
Definition Fgtb (x y : F) : bool := Fltb y x.
(* x != y *)
Definition Fneb (x y : F) : bool := negb (Feqb x y).

#[global] Instance F_inhabited : Inhabited F := populate F0.
End float_derived.

(** The laws of exact arithmetic that individual theorems assume. *)

(** [<] is a strict partial order (true of IEEE comparison as well). *)
Class StrictOrderLaws (F : Type) `{!FloatOps F} : Prop := {
  Fltb_irrefl : ∀ x : F, Fltb x x = false;
  Fltb_trans : ∀ x y z : F, Fltb x y = true → Fltb y z = true → Fltb x z = true;
}.

(** Sums of gradient statistics are exact: [+] and [-] form a commutative
group. *)
Class GroupLaws (F : Type) `{!FloatOps F} : Prop := {
  Fadd_comm : ∀ x y : F, Fadd x y = Fadd y x;
  Fadd_assoc : ∀ x y z : F, Fadd x (Fadd y z) = Fadd (Fadd x y) z;
  Fadd_0_r : ∀ x : F, Fadd x F0 = x;
  Fadd_sub : ∀ x y : F, Fsub (Fadd x y) y = x;
}.

(** The laws of a total order with exact halving, for the comparison of
thresholds: [<] is connected, [<=] and [==] are the relations it defines,
the half of a sum lies between its terms, and the closing threshold of the
forward sweep, x + (|x| + kRtEps), lies above x. *)
Class OrderedLaws (F : Type) `{!FloatOps F} : Prop := {
  Fltb_connected : ∀ x y : F, Fltb x y = false → Fltb y x = false → x = y;
  Fleb_not_gt : ∀ x y : F, Fleb x y = negb (Fltb y x);
  Feqb_eq : ∀ x y : F, Feqb x y = true ↔ x = y;
  Fhalf_between : ∀ x y : F, Fltb x y = true →
    Fltb (Fhalf (Fadd y x)) x = false ∧ Fltb y (Fhalf (Fadd y x)) = false;
  closing_above : ∀ x : F, Fltb x (Fadd x (Fadd (Fabs x) kRtEps)) = true;
}.

(** ** Gradient pairs and gradient statistics *)

Record GradientPair (F : Type) := mkGradientPair { grad : F; hess : F }.
Arguments mkGradientPair {F} _ _.
Arguments grad {F} _.
Arguments hess {F} _.

Module GradStats.
(** Modelled from the spec: [GradStats] is declared in [param.h], which is
    not part of the sources; the spec gives it as the accumulator
    (sum_grad, sum_hess). *)
Record t (F : Type) := mk { sum_grad : F; sum_hess : F }.
Arguments mk {F} _ _.
Arguments sum_grad {F} _.
Arguments sum_hess {F} _.

Section ops.
Context {F : Type} `{!FloatOps F}.

(** Modelled from the spec: [Clear()] resets both sums to zero. *)
Definition Clear : t F := mk F0 F0.

(** Modelled from the spec: [Add(gpair, info, ridx)] adds the gradient
    pair [p = gpair[ridx]] of one row to both sums. *)
Definition Add (s : t F) (p : GradientPair F) : t F :=
  mk (Fadd (sum_grad s) (grad p)) (Fadd (sum_hess s) (hess p)).

(** Modelled from the spec: [Subtract(gpair, info, ridx)] takes the
    gradient pair [p = gpair[ridx]] of one row off both sums. *)
Definition Subtract (s : t F) (p : GradientPair F) : t F :=
  mk (Fsub (sum_grad s) (grad p)) (Fsub (sum_hess s) (hess p)).

(** Modelled from the spec: [s.Add(b)], with [b] another accumulator, adds
    the sums of [b] to the sums of [s] ("add(other)"). *)
Definition AddStats (s b : t F) : t F :=
  mk (Fadd (sum_grad s) (sum_grad b)) (Fadd (sum_hess s) (sum_hess b)).

(** Modelled from the spec: [c.SetSubstract(a, b)] sets [c] to the
    componentwise difference [a - b]. *)
Definition SetSubstract (a b : t F) : t F :=
  mk (Fsub (sum_grad a) (sum_grad b)) (Fsub (sum_hess a) (sum_hess b)).

(** Modelled from the spec: [c.SetUnion(a, b)] sets [c] to the
    componentwise sum [a + b] (union is the same as add). *)
Definition SetUnion (a b : t F) : t F :=
  mk (Fadd (sum_grad a) (sum_grad b)) (Fadd (sum_hess a) (sum_hess b)).

(** Modelled from the spec: [Empty()] is the emptiness test on the
    hessian sum. *)
Definition Empty (s : t F) : bool := Feqb (sum_hess s) F0.

#[global] Instance inhabited : Inhabited (t F) := populate Clear.
End ops.
End GradStats.

#[global] Instance GradientPair_inhabited {F} `{!FloatOps F} :
Inhabited (GradientPair F) := populate (mkGradientPair F0 F0).

(** ** Split entries *)

Module SplitEntry.
(** Modelled from the spec: [SplitEntry] is declared in [param.h], which is
    not part of the sources; the spec gives it as (loss_chg, feature id,
    threshold, default_left). *)
Record t (F : Type) := mk {
  loss_chg : F;
  sindex : nat;
  split_value : F;
  default_left : bool;
}.
Arguments mk {F} _ _ _ _.
Arguments loss_chg {F} _.
Arguments sindex {F} _.
Arguments split_value {F} _.
Arguments default_left {F} _.

Section ops.
Context {F : Type} `{!FloatOps F}.

(** Modelled from the spec: a split entry starts without gain. *)
Definition init : t F := mk F0 0%nat F0 false.

(** Modelled from the spec: [SplitIndex()] reads the feature id. *)
Definition SplitIndex (e : t F) : nat := sindex e.
(** Modelled from the spec: [DefaultLeft()] reads the default direction. *)
Definition DefaultLeft (e : t F) : bool := default_left e.

(** Modelled from the spec: the update rule is "replace only if a new
    candidate has strictly higher loss_chg, tie-broken by lower feature id
    then lower threshold". *)
Definition NeedReplace (e : t F) (new_loss_chg : F) (split_index : nat)
    (new_split_value : F) : bool :=
  Fgtb new_loss_chg (loss_chg e)
  || (Feqb new_loss_chg (loss_chg e)
      && ((split_index <? SplitIndex e)%nat
          || ((split_index =? SplitIndex e)%nat
              && Fltb new_split_value (split_value e)))).

(** Modelled from the spec:
    [e.Update(new_loss_chg, split_index, new_split_value, default_left)]
    stores the candidate when the update rule asks for it and leaves the
    entry as it is otherwise. *)
Definition Update (e : t F) (new_loss_chg : F) (split_index : nat)
    (new_split_value : F) (dleft : bool) : t F :=
  if NeedReplace e new_loss_chg split_index new_split_value
  then mk new_loss_chg split_index new_split_value dleft
  else e.

(** Modelled from the spec: [e.Update(o)], with [o] another split entry,
    applies the same update rule to the fields of [o]. *)
Definition UpdateEntry (e o : t F) : t F :=
  Update e (loss_chg o) (SplitIndex o) (split_value o) (DefaultLeft o).

(** Modelled from the spec: "a distinct mutator [that] sets threshold
    without touching loss_chg". *)
Definition update_split_value (e : t F) (new_split_value : F) : t F :=
  mk (loss_chg e) (sindex e) new_split_value (default_left e).

#[global] Instance inhabited : Inhabited (t F) := populate init.
End ops.
End SplitEntry.

(** ** Column entries and pointers into a column *)

Record Entry (F : Type) := mkEntry { index : nat; fvalue : F }.
Arguments mkEntry {F} _ _.
Arguments index {F} _.
Arguments fvalue {F} _.

(** [const Entry *it]: the offset [off] from [c.data] and the entry there. *)
Record EntryPtr (F : Type) := mkPtr { off : Z; ent : Entry F }.
Arguments mkPtr {F} _ _.
Arguments off {F} _.
Arguments ent {F} _.

(** ** Per-thread and per-node records *)

Record ThreadEntry (F : Type) := mkThreadEntry {
  stats : GradStats.t F;
  stats_left : GradStats.t F;
  stats_c_left : GradStats.t F;
  c_left_counter : Z;                       (* unsigned int *)
  stats_unc_right : GradStats.t F;
  stats_unc : GradStats.t F;
  stats_extra : GradStats.t F;
  data_unc_right : list (EntryPtr F);       (* std::deque<const Entry*> *)
  data_unc : list (EntryPtr F);
  last_fvalue : F;
  first_fvalue : F;
  best : SplitEntry.t F;
}.
Arguments mkThreadEntry {F} _ _ _ _ _ _ _ _ _ _ _ _.
Arguments stats {F} _.
Arguments stats_left {F} _.
Arguments stats_c_left {F} _.
Arguments c_left_counter {F} _.
Arguments stats_unc_right {F} _.
Arguments stats_unc {F} _.
Arguments stats_extra {F} _.
Arguments data_unc_right {F} _.
Arguments data_unc {F} _.
Arguments last_fvalue {F} _.
Arguments first_fvalue {F} _.
Arguments best {F} _.

Record NodeEntry (F : Type) := mkNodeEntry {
  node_stats : GradStats.t F;               (* NodeEntry::stats *)
  root_gain : F;
  weight : F;
  node_best : SplitEntry.t F;               (* NodeEntry::best *)
}.
Arguments mkNodeEntry {F} _ _ _ _.
Arguments node_stats {F} _.
Arguments root_gain {F} _.
Arguments weight {F} _.
Arguments node_best {F} _.

#[global] Instance ThreadEntry_inhabited {F} `{!FloatOps F} :
Inhabited (ThreadEntry F) :=
populate (mkThreadEntry GradStats.Clear GradStats.Clear GradStats.Clear 0
          GradStats.Clear GradStats.Clear GradStats.Clear [] [] F0 F0
          SplitEntry.init).

#[global] Instance NodeEntry_inhabited {F} `{!FloatOps F} :
Inhabited (NodeEntry F) :=
populate (mkNodeEntry GradStats.Clear F0 F0 SplitEntry.init).

(** Modelled from the spec: [TrainParam] is declared in [param.h], which is
    not part of the sources; these are the fields that the builder reads in
    the code embedded here. *)
Record TrainParam (F : Type) := mkTrainParam {
  learning_rate : F;
  min_child_weight : F;
  robust_eps : F;
}.
Arguments mkTrainParam {F} _ _ _.
Arguments learning_rate {F} _.
Arguments min_child_weight {F} _.
Arguments robust_eps {F} _.

(** The injected split evaluator ([split_evaluator.h]); only the scoring
call of the enumeration is needed. *)
Class SplitEvaluator (F : Type) := {
  ComputeSplitScore : nat → nat → GradStats.t F → GradStats.t F → F;
}.


(** ** The enumeration over one column *)

(** The arguments of one call [e.best.Update(loss_chg, fid, split_value,
default_left)]: a candidate offered to the best split of a (worker, node)
pair. *)
Record Candidate (F : Type) := mkCandidate {
  cand_loss_chg : F;
  cand_fid : nat;
  cand_split_value : F;
  cand_default_left : bool;
}.
Arguments mkCandidate {F} _ _ _ _.
Arguments cand_loss_chg {F} _.
Arguments cand_fid {F} _.
Arguments cand_split_value {F} _.
Arguments cand_default_left {F} _.

Section enumerate.
Context {F : Type} `{!FloatOps F} `{!SplitEvaluator F}.
(* the members of [Builder] the enumeration reads, and its argument gpair *)
Context (param_ : TrainParam F).
Context (position_ : list Z).
Context (snode_ : list (NodeEntry F)).
Context (qexpand_ : list nat).
Context (gpair : list (GradientPair F)).

Definition offer (b : SplitEntry.t F) (c : option (Candidate F)) : SplitEntry.t F :=
  match c with
  | Some c => SplitEntry.Update b (cand_loss_chg c) (cand_fid c)
                (cand_split_value c) (cand_default_left c)
  | None => b
  end.

Definition set_best (e : ThreadEntry F) (b : SplitEntry.t F) : ThreadEntry F :=
  mkThreadEntry (stats e) (stats_left e) (stats_c_left e) (c_left_counter e)
    (stats_unc_right e) (stats_unc e) (stats_extra e) (data_unc_right e)
    (data_unc e) (last_fvalue e) (first_fvalue e) b.

(** *** Order of the scan (lines 554-576 and the loop header of line 627) *)

(* the pointer c.data + p, when it points into the column *)
Definition deref (data : list (Entry F)) (p : Z) : option (EntryPtr F) :=
  if p <? 0 then None else mkPtr p <$> data !! Z.to_nat p.

(* bool descent = (begin->fvalue) > ((end-d_step)->fvalue) *)
Definition descent (data : list (Entry F)) (begin end_ d_step : Z) : bool :=
  match deref data begin, deref data (end_ - d_step) with
  | Some b, Some l => Fgtb (fvalue (ent b)) (fvalue (ent l))
  | _, _ => false
  end.

(* for (it = first; counter <= length; it += step, counter++) *)
Definition walk (data : list (Entry F)) (first step : Z) (length : nat)
    : list (EntryPtr F) :=
  omap (λ k, deref data (first + step * k)) (seqZ 0 (Z.of_nat length)).

Definition scan (data : list (Entry F)) (begin end_ d_step : Z)
    : list (EntryPtr F) :=
  let first := if descent data begin end_ d_step then end_ - d_step else begin in
  let step := if descent data begin end_ d_step then - d_step else d_step in
  walk data first step (Z.abs_nat (begin - end_)).

(** *** Clearing the scan state (lines 589-600) *)

Definition clear_scan (e : ThreadEntry F) : ThreadEntry F :=
  mkThreadEntry GradStats.Clear GradStats.Clear GradStats.Clear 0
    GradStats.Clear GradStats.Clear (stats_extra e) [] []
    (last_fvalue e) (first_fvalue e) (best e).

Definition clear_pass (temp : list (ThreadEntry F)) : list (ThreadEntry F) :=
  foldl (λ temp nid, alter clear_scan nid temp) temp qexpand_.

(** *** The main sweep (lines 627-800) *)

(* while (!e.data_unc_right.empty()) { ... }, lines 669-678 *)
Fixpoint drain_unc_right (eta : F) (q : list (EntryPtr F))
    (s_left s_unc_right : GradStats.t F)
    : list (EntryPtr F) * GradStats.t F * GradStats.t F :=
  match q with
  | [] => ([], s_left, s_unc_right)
  | unadded_front :: q' =>
      if Fltb (fvalue (ent unadded_front)) eta then
        let unadded_front_ridx := index (ent unadded_front) in
        drain_unc_right eta q'
          (GradStats.Add s_left (gpair !!! unadded_front_ridx))
          (GradStats.Subtract s_unc_right (gpair !!! unadded_front_ridx))
      else (q, s_left, s_unc_right)
  end.

(* while (!e.data_unc.empty()) { ... }, lines 680-691; [bound] is eta - eps *)
Fixpoint drain_unc (bound : F) (q : list (EntryPtr F))
    (s_c_left : GradStats.t F) (counter : Z) (s_unc : GradStats.t F)
    : list (EntryPtr F) * GradStats.t F * Z * GradStats.t F :=
  match q with
  | [] => ([], s_c_left, counter, s_unc)
  | unc_front :: q' =>
      if Fltb (fvalue (ent unc_front)) bound then
        let unc_front_ridx := index (ent unc_front) in
        drain_unc bound q'
          (GradStats.Add s_c_left (gpair !!! unc_front_ridx))
          ((counter + 1) mod 2 ^ 32)
          (GradStats.Subtract s_unc (gpair !!! unc_front_ridx))
      else (q, s_c_left, counter, s_unc)
  end.

(* the two loops applied to the entry of a node *)
Definition drain (eta : F) (e : ThreadEntry F) : ThreadEntry F :=
  let '(q_r, s_left, s_unc_right) :=
    drain_unc_right eta (data_unc_right e) (stats_left e) (stats_unc_right e) in
  let '(q_u, s_c_left, counter, s_unc) :=
    drain_unc (Fsub eta (robust_eps param_)) (data_unc e) (stats_c_left e)
      (c_left_counter e) (stats_unc e) in
  mkThreadEntry (stats e) s_left s_c_left counter s_unc_right s_unc
    (stats_extra e) q_r q_u (last_fvalue e) (first_fvalue e) (best e).

(* static_cast<bst_float>(ComputeSplitScore(nid, fid, ., .) - root_gain),
   the statistics of the scanned side in [left]: a backward sweep
   (d_step == -1) passes the two sides to the evaluator in the other order *)
Definition split_loss_chg (nid fid : nat) (d_step : Z)
    (left right : GradStats.t F) : F :=
  if d_step =? -1
  then Fsub (ComputeSplitScore nid fid right left) (root_gain (snode_ !!! nid))
  else Fsub (ComputeSplitScore nid fid left right) (root_gain (snode_ !!! nid)).

(* if (x < loss_chg) loss_chg = x *)
Definition lower (loss_chg x : F) : F := if Fltb x loss_chg then x else loss_chg.

(* "try to find a split", lines 705-788: the candidate passed to
   e.best.Update in line 786, if that line is reached *)
Definition robust_candidate (nid fid : nat) (d_step : Z) (fv eta : F)
    (e : ThreadEntry F) : option (Candidate F) :=
  if Fneb fv (last_fvalue e)
     && Fgeb (GradStats.sum_hess (stats e)) (min_child_weight param_) then
    let c := GradStats.SetSubstract (node_stats (snode_ !!! nid)) (stats_left e) in
    if Fgeb (GradStats.sum_hess c) (min_child_weight param_) then
      let loss_chg := split_loss_chg nid fid d_step (stats_left e) c in
      let loss_chg :=
        match data_unc e with
        | [] => loss_chg
        | _ :: _ =>
            (* all uncertainty to left *)
            let all_left := GradStats.SetUnion (stats_c_left e) (stats_unc e) in
            let c_right :=
              GradStats.SetSubstract (node_stats (snode_ !!! nid)) all_left in
            let loss_chg :=
              lower loss_chg (split_loss_chg nid fid d_step all_left c_right) in
            (* all uncertainty to right *)
            let all_right :=
              GradStats.SetSubstract (node_stats (snode_ !!! nid)) (stats_c_left e) in
            let loss_chg :=
              lower loss_chg
                (split_loss_chg nid fid d_step (stats_c_left e) all_right) in
            (* swap *)
            let swap_left :=
              GradStats.SetUnion (stats_c_left e) (stats_unc_right e) in
            let swap_right :=
              GradStats.SetSubstract (node_stats (snode_ !!! nid)) swap_left in
            lower loss_chg (split_loss_chg nid fid d_step swap_left swap_right)
        end in
      Some (mkCandidate loss_chg fid eta (d_step =? -1))
    else None
  else None.

(* "update the statistics" and "add data to the two queues": lines 653-658
   of the first hit and lines 790-796 *)
Definition absorb (e : ThreadEntry F) (it : EntryPtr F) : ThreadEntry F :=
  let ridx := index (ent it) in
  mkThreadEntry (GradStats.Add (stats e) (gpair !!! ridx)) (stats_left e)
    (stats_c_left e) (c_left_counter e)
    (GradStats.Add (stats_unc_right e) (gpair !!! ridx))
    (GradStats.Add (stats_unc e) (gpair !!! ridx)) (stats_extra e)
    (data_unc_right e ++ [it]) (data_unc e ++ [it])
    (fvalue (ent it)) (first_fvalue e) (best e).

(* the body of the loop for an entry of node nid, lines 639-797 *)
Definition robust_update (nid fid : nat) (d_step : Z) (e : ThreadEntry F)
    (it : EntryPtr F) : ThreadEntry F :=
  let fv := fvalue (ent it) in
  let eta := Fsub fv (robust_eps param_) in
  if GradStats.Empty (stats e) then absorb e it
  else
    let e := drain eta e in
    let e := set_best e (offer (best e) (robust_candidate nid fid d_step fv eta e)) in
    absorb e it.

Definition sweep_step (fid : nat) (d_step : Z) (temp : list (ThreadEntry F))
    (it : EntryPtr F) : list (ThreadEntry F) :=
  match position_ !! index (ent it) with
  | Some nid =>
      if nid <? 0 then temp
      else alter (λ e, robust_update (Z.to_nat nid) fid d_step e it)
             (Z.to_nat nid) temp
  | None => temp
  end.

(** *** The closing pass (lines 806-829) *)

Definition closing_candidate (nid fid : nat) (d_step : Z) (e : ThreadEntry F)
    : option (Candidate F) :=
  let c := GradStats.SetSubstract (node_stats (snode_ !!! nid)) (stats e) in
  if Fgeb (GradStats.sum_hess (stats e)) (min_child_weight param_)
     && Fgeb (GradStats.sum_hess c) (min_child_weight param_) then
    let loss_chg := split_loss_chg nid fid d_step (stats e) c in
    let gap := Fadd (Fadd (Fabs (last_fvalue e)) kRtEps) (robust_eps param_) in
    let delta := if d_step =? 1 then gap else Fneg gap in
    Some (mkCandidate loss_chg fid (Fadd (last_fvalue e) delta) (d_step =? -1))
  else None.

Definition closing_update (fid : nat) (d_step : Z) (nid : nat)
    (e : ThreadEntry F) : ThreadEntry F :=
  set_best e (offer (best e) (closing_candidate nid fid d_step e)).

Definition closing_pass (fid : nat) (d_step : Z) (temp : list (ThreadEntry F))
    : list (ThreadEntry F) :=
  foldl (λ temp nid, alter (closing_update fid d_step nid) nid temp) temp qexpand_.

(** *** Moving thresholds to midpoints (lines 831-856) *)

Record MidState := mkMidState {
  mid_temp : list (ThreadEntry F);
  last_fvalue_map : gmap nat F;       (* std::map<int,bst_float> *)
  updated_nid : gset nat;             (* std::set<int> *)
}.

Definition move_to_mid (v : F) (e : ThreadEntry F) : ThreadEntry F :=
  set_best e (SplitEntry.update_split_value (best e) v).

Definition midpoint_step (fid : nat) (st : MidState) (it : EntryPtr F)
    : MidState :=
  match position_ !! index (ent it) with
  | Some nid =>
      if nid <? 0 then st
      else
        let n := Z.to_nat nid in
        let e := mid_temp st !!! n in
        if negb (SplitEntry.SplitIndex (best e) =? fid)%nat
           || bool_decide (n ∈ updated_nid st)
        then st
        else
          match last_fvalue_map st !! n with
          | Some last =>
              if Fltb last (SplitEntry.split_value (best e))
                 && Fleb (SplitEntry.split_value (best e)) (fvalue (ent it))
              then
                mkMidState
                  (alter (move_to_mid (Fhalf (Fadd (fvalue (ent it)) last))) n
                     (mid_temp st))
                  (<[n := fvalue (ent it)]> (last_fvalue_map st))
                  ({[n]} ∪ updated_nid st)
              else
                mkMidState (mid_temp st)
                  (<[n := fvalue (ent it)]> (last_fvalue_map st))
                  (updated_nid st)
          | None =>
              mkMidState (mid_temp st)
                (<[n := fvalue (ent it)]> (last_fvalue_map st))
                (updated_nid st)
          end
  | None => st
  end.

Definition midpoint_pass (fid : nat) (its : list (EntryPtr F))
    (temp : list (ThreadEntry F)) : list (ThreadEntry F) :=
  mid_temp (foldl (midpoint_step fid) (mkMidState temp ∅ ∅) its).

(** *** [EnumerateSplit] *)

Definition main_sweep (fid : nat) (d_step : Z) (its : list (EntryPtr F))
    (temp : list (ThreadEntry F)) : list (ThreadEntry F) :=
  foldl (sweep_step fid d_step) temp its.

Definition EnumerateSplit (data : list (Entry F)) (begin end_ d_step : Z)
    (fid : nat) (temp : list (ThreadEntry F)) : list (ThreadEntry F) :=
  let its := scan data begin end_ d_step in
  let temp := clear_pass temp in
  let temp := main_sweep fid d_step its temp in
  let temp := closing_pass fid d_step temp in
  midpoint_pass fid its temp.

End enumerate.

(** ** The enumeration without uncertainty: [EnumerateSplitCacheOpt] *)

Section standard.
Context {F : Type} `{!FloatOps F} `{!SplitEvaluator F}.
Context (param_ : TrainParam F).
Context (position_ : list Z).
Context (snode_ : list (NodeEntry F)).
Context (qexpand_ : list nat).
Context (gpair : list (GradientPair F)).

(* e.stats.Add(gstats); e.last_fvalue = fvalue *)
Definition add_stats (e : ThreadEntry F) (gstats : GradientPair F) (fv : F)
    : ThreadEntry F :=
  mkThreadEntry (GradStats.Add (stats e) gstats) (stats_left e)
    (stats_c_left e) (c_left_counter e) (stats_unc_right e) (stats_unc e)
    (stats_extra e) (data_unc_right e) (data_unc e) fv (first_fvalue e)
    (best e).

(* "try to find a split", lines 439-456 *)
Definition standard_candidate (nid fid : nat) (d_step : Z) (fv : F)
    (e : ThreadEntry F) : option (Candidate F) :=
  if Fneb fv (last_fvalue e)
     && Fgeb (GradStats.sum_hess (stats e)) (min_child_weight param_) then
    let c := GradStats.SetSubstract (node_stats (snode_ !!! nid)) (stats e) in
    if Fgeb (GradStats.sum_hess c) (min_child_weight param_) then
      Some (mkCandidate (split_loss_chg snode_ nid fid d_step (stats e) c) fid
              (Fhalf (Fadd fv (last_fvalue e))) (d_step =? -1))
    else None
  else None.

(* lines 428-461 *)
Definition UpdateEnumeration (nid : nat) (gstats : GradientPair F) (fv : F)
    (d_step : Z) (fid : nat) (e : ThreadEntry F) : ThreadEntry F :=
  if GradStats.Empty (stats e) then add_stats e gstats fv
  else
    let e := set_best e (offer (best e) (standard_candidate nid fid d_step fv e)) in
    add_stats e gstats fv.

Definition clear_stats (e : ThreadEntry F) : ThreadEntry F :=
  mkThreadEntry GradStats.Clear (stats_left e) (stats_c_left e)
    (c_left_counter e) (stats_unc_right e) (stats_unc e) (stats_extra e)
    (data_unc_right e) (data_unc e) (last_fvalue e) (first_fvalue e) (best e).

Definition standard_step (fid : nat) (d_step : Z) (temp : list (ThreadEntry F))
    (it : EntryPtr F) : list (ThreadEntry F) :=
  match position_ !! index (ent it) with
  | Some nid =>
      if nid <? 0 then temp
      else alter (UpdateEnumeration (Z.to_nat nid) (gpair !!! index (ent it))
                    (fvalue (ent it)) d_step fid) (Z.to_nat nid) temp
  | None => temp
  end.

(* lines 518-537 *)
Definition standard_closing_candidate (nid fid : nat) (d_step : Z)
    (e : ThreadEntry F) : option (Candidate F) :=
  let c := GradStats.SetSubstract (node_stats (snode_ !!! nid)) (stats e) in
  if Fgeb (GradStats.sum_hess (stats e)) (min_child_weight param_)
     && Fgeb (GradStats.sum_hess c) (min_child_weight param_) then
    let loss_chg := split_loss_chg snode_ nid fid d_step (stats e) c in
    let gap := Fadd (Fabs (last_fvalue e)) kRtEps in
    let delta := if d_step =? 1 then gap else Fneg gap in
    Some (mkCandidate loss_chg fid (Fadd (last_fvalue e) delta) (d_step =? -1))
  else None.

Definition standard_closing_update (fid : nat) (d_step : Z) (nid : nat)
    (e : ThreadEntry F) : ThreadEntry F :=
  set_best e (offer (best e) (standard_closing_candidate nid fid d_step e)).

(* lines 463-538.  The two loops read position_ and gpair through a buffer
   of 32 entries; the entries are visited one by one from begin to end. *)
Definition EnumerateSplitCacheOpt (data : list (Entry F)) (begin end_ d_step : Z)
    (fid : nat) (temp : list (ThreadEntry F)) : list (ThreadEntry F) :=
  let its := walk data begin d_step (Z.abs_nat (begin - end_)) in
  let temp := foldl (λ temp nid, alter clear_stats nid temp) temp qexpand_ in
  let temp := foldl (standard_step fid d_step) temp its in
  foldl (λ temp nid, alter (standard_closing_update fid d_step nid) nid temp)
    temp qexpand_.

End standard.

(** ** The regression tree *)

Module RegTree.
(** Modelled from the spec: [RegTree] is declared in [tree_model.h], which
    is not part of the sources.  The spec gives the tree as "an
    index-addressable array with parent/child pointers stored as node
    ids"; a node keeps its split (feature, default direction) and one
    value, the leaf value or the threshold. *)
Record Node (F : Type) := mkNode {
  parent : Z;
  cleft : Z;
  cright : Z;
  sindex : nat;
  default_left : bool;
  info : F;                      (* leaf_value or split_cond *)
}.
Arguments mkNode {F} _ _ _ _ _ _.
Arguments parent {F} _.
Arguments cleft {F} _.
Arguments cright {F} _.
Arguments sindex {F} _.
Arguments default_left {F} _.
Arguments info {F} _.

Section ops.
Context {F : Type} `{!FloatOps F}.

(** Modelled from the spec: a node without left child (-1) is a leaf. *)
Definition IsLeaf (n : Node F) : bool := cleft n =? -1.
(** Modelled from the spec: the child pointers are node ids. *)
Definition LeftChild (n : Node F) : Z := cleft n.
(** Modelled from the spec: the child pointers are node ids. *)
Definition RightChild (n : Node F) : Z := cright n.
(** Modelled from the spec: the parent pointer is a node id. *)
Definition Parent (n : Node F) : Z := parent n.
(** Modelled from the spec: the feature of the split of a node. *)
Definition SplitIndex (n : Node F) : nat := sindex n.
(** Modelled from the spec: the default direction of the split. *)
Definition DefaultLeft (n : Node F) : bool := default_left n.
(** Modelled from the spec: the threshold of the split. *)
Definition SplitCond (n : Node F) : F := info n.
(** Modelled from the spec: the value of a leaf. *)
Definition LeafValue (n : Node F) : F := info n.

(** Modelled from the spec: [SetLeaf] stores the leaf value and the
    right-child mark that separates fresh leaves (0) from finished ones
    (-1). *)
Definition SetLeaf (value : F) (right : Z) (n : Node F) : Node F :=
  mkNode (parent n) (-1) right (sindex n) (default_left n) value.

(** Modelled from the spec: [SetSplit] stores feature, threshold and
    default direction. *)
Definition SetSplit (split_index : nat) (split_cond : F) (dleft : bool)
    (n : Node F) : Node F :=
  mkNode (parent n) (cleft n) (cright n) split_index dleft split_cond.

(** Modelled from the spec: the child pointers written by [AddChilds]. *)
Definition SetChildren (pleft pright : Z) (n : Node F) : Node F :=
  mkNode (parent n) pleft pright (sindex n) (default_left n) (info n).

(** Modelled from the spec: a newly allocated node, a leaf below [pidx]. *)
Definition fresh (pidx : Z) : Node F := mkNode pidx (-1) (-1) 0%nat false F0.

(** Modelled from the spec: [AddChilds] allocates two new nodes at the end
    of the array and makes them the children of [nid]. *)
Definition AddChilds (nid : nat) (tree : list (Node F)) : list (Node F) :=
  let pleft := Z.of_nat (length tree) in
  let pright := Z.of_nat (length tree) + 1 in
  alter (SetChildren pleft pright) nid tree
    ++ [fresh (Z.of_nat nid); fresh (Z.of_nat nid)].

#[global] Instance inhabited : Inhabited (Node F) := populate (fresh (-1)).
End ops.
End RegTree.

(** ** Committing the splits of a level (lines 919-931 of [FindSplit]) *)

Section commit.
Context {F : Type} `{!FloatOps F}.
Context (param_ : TrainParam F).
Context (snode_ : list (NodeEntry F)).

Definition commit_node (tree : list (RegTree.Node F)) (nid : nat)
    : list (RegTree.Node F) :=
  let e := snode_ !!! nid in
  if Fgtb (SplitEntry.loss_chg (node_best e)) kRtEps then
    let tree := RegTree.AddChilds nid tree in
    let tree :=
      alter (RegTree.SetSplit (SplitEntry.SplitIndex (node_best e))
               (SplitEntry.split_value (node_best e))
               (SplitEntry.DefaultLeft (node_best e))) nid tree in
    let tree :=
      alter (RegTree.SetLeaf F0 0)
        (Z.to_nat (RegTree.LeftChild (tree !!! nid))) tree in
    alter (RegTree.SetLeaf F0 0)
      (Z.to_nat (RegTree.RightChild (tree !!! nid))) tree
  else
    alter (RegTree.SetLeaf (Fmul (weight e) (learning_rate param_)) (-1))
      nid tree.

Definition commit (qexpand : list nat) (tree : list (RegTree.Node F))
    : list (RegTree.Node F) :=
  foldl commit_node tree qexpand.

End commit.

(** ** Instance positions (lines 934-1025) *)

Section position.
Context {F : Type} `{!FloatOps F}.

(* lines 1014-1017 *)
Definition DecodePosition (position_ : list Z) (ridx : nat) : Z :=
  let pid := position_ !!! ridx in
  if pid <? 0 then Z.lnot pid else pid.

(* lines 1019-1025 *)
Definition SetEncodePosition (position_ : list Z) (ridx : nat) (nid : Z)
    : list Z :=
  if position_ !!! ridx <? 0
  then <[ridx := Z.lnot nid]> position_
  else <[ridx := nid]> position_.

(* the body of the loop over a column, lines 997-1007 *)
Definition nondefault_entry (tree : list (RegTree.Node F)) (fid : nat)
    (position_ : list Z) (e : Entry F) : list Z :=
  let ridx := index e in
  let nid := DecodePosition position_ ridx in
  let node := tree !!! Z.to_nat nid in
  if negb (RegTree.IsLeaf node) && (RegTree.SplitIndex node =? fid)%nat then
    if Fltb (fvalue e) (RegTree.SplitCond node)
    then SetEncodePosition position_ ridx (RegTree.LeftChild node)
    else SetEncodePosition position_ ridx (RegTree.RightChild node)
  else position_.

(* std::sort followed by std::unique *)
Definition sort_unique (l : list nat) : list nat :=
  merge_sort Nat.le (remove_dups l).

(* lines 977-1011; a batch maps a feature id to its column *)
Definition SetNonDefaultPosition (qexpand : list nat)
    (batches : list (list (list (Entry F)))) (tree : list (RegTree.Node F))
    (position_ : list Z) : list Z :=
  let fsplits :=
    sort_unique
      (RegTree.SplitIndex <$>
         filter (λ n, RegTree.IsLeaf n = false) ((tree !!!.) <$> qexpand)) in
  foldl (λ position_ batch,
           foldl (λ position_ fid,
                    foldl (nondefault_entry tree fid) position_ (batch !!! fid))
             position_ fsplits)
    position_ batches.

(* the body of the loop over the rows, lines 948-964; the CHECK_LT of
   line 949 aborts the build *)
Definition reset_row (tree : list (RegTree.Node F)) (position_ : list Z)
    (ridx : nat) : option (list Z) :=
  if bool_decide (ridx < length position_)%nat then
    let nid := DecodePosition position_ ridx in
    let node := tree !!! Z.to_nat nid in
    if RegTree.IsLeaf node then
      if RegTree.RightChild node =? -1
      then Some (<[ridx := Z.lnot nid]> position_)
      else Some position_
    else if RegTree.DefaultLeft node
      then Some (SetEncodePosition position_ ridx (RegTree.LeftChild node))
      else Some (SetEncodePosition position_ ridx (RegTree.RightChild node))
  else None.

Fixpoint reset_rows (tree : list (RegTree.Node F)) (rowset : list nat)
    (position_ : list Z) : option (list Z) :=
  match rowset with
  | [] => Some position_
  | ridx :: rowset =>
      match reset_row tree position_ ridx with
      | Some position_ => reset_rows tree rowset position_
      | None => None
      end
  end.

(* lines 934-966 *)
Definition ResetPosition (qexpand : list nat)
    (batches : list (list (list (Entry F)))) (rowset : list nat)
    (tree : list (RegTree.Node F)) (position_ : list Z) : option (list Z) :=
  reset_rows tree rowset (SetNonDefaultPosition qexpand batches tree position_).

End position.

(** ** An executable instance: fixed-point numbers

Integers counting units of 1e-6, so that [kRtEps] is 1. *)

Module FixedPoint.

Definition unit : Z := 1000000.

#[global] Instance ops : FloatOps Z := {|
  F0 := 0;
  Fadd := Z.add;
  Fsub := Z.sub;
  Fmul := λ x y, x * y / unit;
  Fneg := Z.opp;
  Fabs := Z.abs;
  Fhalf := λ x, x / 2;
  Fltb := Z.ltb;
  Fleb := Z.leb;
  Feqb := Z.eqb;
  kRtEps := 1;
|}.

(* n as a fixed-point number *)
Definition fp (n : Z) : Z := n * unit.

(* the gain G^2 / H of a node without regularisation, 0 for an empty node *)
Definition gain (s : GradStats.t Z) : Z :=
  if GradStats.sum_hess s =? 0 then 0
  else GradStats.sum_grad s * GradStats.sum_grad s / GradStats.sum_hess s.

Definition evaluator : SplitEvaluator Z := {|
  ComputeSplitScore := λ _ _ left right, gain left + gain right;
|}.

End FixedPoint.

(** ** Vocabulary of the statements *)

(** A loop body that updates the element selected by the key of its
argument, as the loops over a column do with [temp[nid]]. *)
Definition keyed_step {A B : Type} (key : B → option nat) (f : nat → B → A → A)
    (l : list A) (x : B) : list A :=
  match key x with
  | Some n => alter (f n x) n l
  | None => l
  end.

(** The node an entry of the column is counted for: [position_[ridx]] when
it is not negative. *)
Definition node_of {F : Type} (position_ : list Z) (it : EntryPtr F) : option nat :=
  match position_ !! index (ent it) with
  | Some nid => if nid <? 0 then None else Some (Z.to_nat nid)
  | None => None
  end.

(** The entries of a list of pointers that are counted for node [n]. *)
Definition entries_of {F : Type} (position_ : list Z) (n : nat)
    (its : list (EntryPtr F)) : list (EntryPtr F) :=
  filter (λ it, node_of position_ it = Some n) its.

Section vocabulary.
Context {F : Type} `{!FloatOps F} `{!SplitEvaluator F}.
Context (param_ : TrainParam F).
Context (snode_ : list (NodeEntry F)).
Context (gpair : list (GradientPair F)).

(** The statistics of a list of column entries: their gradient pairs added
up from [Clear], in the order of the list. *)
Definition gsum (its : list (EntryPtr F)) : GradStats.t F :=
  foldl GradStats.Add GradStats.Clear ((λ it, gpair !!! index (ent it)) <$> its).

(** The adversarial budget is not negative: lowering a threshold by eps
does not let more values pass below it. *)
Definition nonneg_budget (eps : F) : Prop :=
  ∀ x y : F, Fltb x (Fsub y eps) = true → Fltb x y = true.

(** The state of the two queues of a node after the entries [sc] of that
node have been scanned: [data_unc] is what is left of [sc] after [j] pops
and [data_unc_right] what is left of it after [i] pops. *)
Definition queues_at (sc : list (EntryPtr F)) (j i : nat) (e : ThreadEntry F)
    : Prop :=
  (j ≤ i ≤ length sc)%nat
  ∧ data_unc e = drop j sc
  ∧ data_unc_right e = drop i sc.

(** The accumulators of a node in terms of the entries scanned and popped. *)
Definition sums_at (sc : list (EntryPtr F)) (j i : nat) (e : ThreadEntry F)
    : Prop :=
  stats e = gsum sc
  ∧ stats_left e = gsum (take i sc)
  ∧ stats_c_left e = gsum (take j sc)
  ∧ stats_unc_right e = gsum (drop i sc)
  ∧ stats_unc e = gsum (drop j sc).

(** The loss change of the partition of node [nid] with [left] on the
scanned side and the rest of the node on the other side: the score of the
split less the gain of the node, split_score(left, rest) - root_gain; in
a backward sweep the scanned side is the right-hand side of the split,
split_score(rest, left) - root_gain. *)
Definition partition_loss_chg (nid fid : nat) (d_step : Z) (left : GradStats.t F)
    : F :=
  let rest := GradStats.SetSubstract (node_stats (snode_ !!! nid)) left in
  if d_step =? -1
  then Fsub (ComputeSplitScore nid fid rest left) (root_gain (snode_ !!! nid))
  else Fsub (ComputeSplitScore nid fid left rest) (root_gain (snode_ !!! nid)).

(** The scanned sides of the four partitions compared at a threshold. *)
Definition nominal_left (e : ThreadEntry F) : GradStats.t F := stats_left e.
Definition all_uncertain_left (e : ThreadEntry F) : GradStats.t F :=
  GradStats.SetUnion (stats_c_left e) (stats_unc e).
Definition all_uncertain_right (e : ThreadEntry F) : GradStats.t F :=
  stats_c_left e.
Definition swap_left (e : ThreadEntry F) : GradStats.t F :=
  GradStats.SetUnion (stats_c_left e) (stats_unc_right e).

Definition four_partitions (e : ThreadEntry F) : list (GradStats.t F) :=
  [nominal_left e; all_uncertain_left e; all_uncertain_right e; swap_left e].

(** [x] is a minimum of [l]: it occurs in [l] and nothing in [l] is
smaller. *)
Definition is_minimum (x : F) (l : list F) : Prop :=
  x ∈ l ∧ ∀ y, y ∈ l → Fltb y x = false.

(** The gate of the evaluation at a threshold (lines 705-709), on the
drained entry. *)
Definition gate (nid : nat) (fv : F) (e : ThreadEntry F) : bool :=
  Fneb fv (last_fvalue e)
  && Fgeb (GradStats.sum_hess (stats e)) (min_child_weight param_)
  && Fgeb (GradStats.sum_hess
             (GradStats.SetSubstract (node_stats (snode_ !!! nid)) (stats_left e)))
       (min_child_weight param_).

End vocabulary.

(** sign(d) * x, for the direction d of a sweep. *)
Definition sign_times {F : Type} `{!FloatOps F} (d : Z) (x : F) : F :=
  match d with
  | Z0 => F0
  | Zpos _ => x
  | Zneg _ => Fneg x
  end.

(** A leaf that is not fresh: no left child, and the right-child mark -1. *)
Definition finished_leaf {F : Type} (n : RegTree.Node F) : Prop :=
  RegTree.IsLeaf n = true ∧ RegTree.RightChild n = -1.

(** The children of every inner node are node ids. *)
Definition children_are_nodes {F : Type} (tree : list (RegTree.Node F)) : Prop :=
  ∀ i n, tree !! i = Some n → RegTree.IsLeaf n = false →
    0 ≤ RegTree.LeftChild n ∧ 0 ≤ RegTree.RightChild n.

(** What a pass over the positions may do to the position [p0] of an
instance: keep its sign, or replace a non-negative position by the
complement of a finished leaf. *)
Definition exclusion_kept {F : Type} `{!FloatOps F}
    (tree : list (RegTree.Node F)) (p0 p : Z)
    : Prop :=
  (p0 < 0 ∧ p < 0)
  ∨ (0 ≤ p0 ∧ 0 ≤ p)
  ∨ (0 ≤ p0 ∧ p < 0 ∧ finished_leaf (tree !!! Z.to_nat (Z.lnot p))).

Section admissibility.
Context {F : Type} `{!FloatOps F} `{!SplitEvaluator F}.
Context (param_ : TrainParam F).
Context (snode_ : list (NodeEntry F)).

(** Both sides of the partition with [left] on the scanned side have
sum_hess >= min_child_weight. *)
Definition admissible (nid : nat) (left : GradStats.t F) : bool :=
  Fgeb (GradStats.sum_hess left) (min_child_weight param_)
  && Fgeb (GradStats.sum_hess
             (GradStats.SetSubstract (node_stats (snode_ !!! nid)) left))
       (min_child_weight param_).

(** The reading of the evaluation in which each of the four partitions is
tested on both sides and only the admissible ones are compared: the loss
change of the candidate is a minimum over the admissible partitions. *)
Definition only_admissible_compared (nid fid : nat) (d_step : Z) (fv eta : F)
    (e : ThreadEntry F) : Prop :=
  ∀ cand,
    robust_candidate param_ snode_ nid fid d_step fv eta e = Some cand →
    is_minimum (cand_loss_chg cand)
      (partition_loss_chg snode_ nid fid d_step
         <$> filter (λ left, admissible nid left = true) (four_partitions e)).

End admissibility.

(** ** Vocabulary of the main sweep *)

Section sweep_vocabulary.
Context {F : Type} `{!FloatOps F} `{!SplitEvaluator F}.
Context (param_ : TrainParam F).
Context (position_ : list Z).
Context (snode_ : list (NodeEntry F)).
Context (qexpand_ : list nat).
Context (gpair : list (GradientPair F)).




End sweep_vocabulary.

(** ** A small scenario

One node, the column 0.0, 2.0 of two instances with gradients 2 and -2 and
hessians 1, min_child_weight 1 and eps 1. *)

Module Scenario.
Import FixedPoint.

#[global] Existing Instance evaluator.

Definition param : TrainParam Z := mkTrainParam (fp 1) (fp 1) (fp 1).
Definition gpair : list (GradientPair Z) :=
  [mkGradientPair (fp 2) (fp 1); mkGradientPair (fp (-2)) (fp 1)].
Definition data : list (Entry Z) := [mkEntry 0%nat (fp 0); mkEntry 1%nat (fp 2)].
Definition position : list Z := [0; 0].
Definition snode : list (NodeEntry Z) :=
  [mkNodeEntry (GradStats.mk 0 (fp 2)) 0 0 SplitEntry.init].
Definition qexpand : list nat := [0%nat].
Definition temp : list (ThreadEntry Z) := [inhabitant].
Definition it0 : EntryPtr Z := mkPtr 0 (mkEntry 0%nat (fp 0)).
Definition it1 : EntryPtr Z := mkPtr 1 (mkEntry 1%nat (fp 2)).

(* the entry of the node after the first entry of the column *)
Definition after_first : ThreadEntry Z := absorb gpair (clear_scan inhabitant) it0.

(* ... and when the split is evaluated at the second entry, eta = 1.0 *)
Definition at_second : ThreadEntry Z := drain param gpair (fp 1) after_first.

(* the node once its best split, with loss change 8.0, has been found *)
Definition snode_found : list (NodeEntry Z) :=
  [mkNodeEntry (GradStats.mk 0 (fp 2)) 0 0 (SplitEntry.mk (fp 8) 0%nat (fp 1) false)].
Definition tree : list (RegTree.Node Z) := [RegTree.fresh (-1)].

End Scenario.

(** ** A scenario with a hessian of zero

One node, the column 0.0, 2.0 of two instances with gradients -2 and 2 and
hessians 0 and 1; min_child_weight is 0 and eps is 0. *)

Module ZeroHessian.
Import FixedPoint.

#[global] Existing Instance evaluator.

Definition param : TrainParam Z := mkTrainParam (fp 1) 0 0.
Definition gpair : list (GradientPair Z) :=
  [mkGradientPair (fp (-2)) 0; mkGradientPair (fp 2) (fp 1)].
Definition data : list (Entry Z) := [mkEntry 0%nat (fp 0); mkEntry 1%nat (fp 2)].
Definition position : list Z := [0; 0].
Definition snode : list (NodeEntry Z) :=
  [mkNodeEntry (GradStats.mk 0 (fp 1)) 0 0 SplitEntry.init].
Definition qexpand : list nat := [0%nat].
Definition temp : list (ThreadEntry Z) := [inhabitant].
Definition it0 : EntryPtr Z := mkPtr 0 (mkEntry 0%nat (fp 0)).
Definition it1 : EntryPtr Z := mkPtr 1 (mkEntry 1%nat (fp 2)).

(* the entry of the node after the first entry of the column *)
Definition after_first : ThreadEntry Z := absorb gpair (clear_scan inhabitant) it0.

End ZeroHessian.

(** ** Vocabulary of the comparison with the enumeration without uncertainty *)

Section comparison_vocabulary.
Context {F : Type} `{!FloatOps F} `{!SplitEvaluator F}.
Context (gpair : list (GradientPair F)).

(** The feature values do not decrease along a list of entries. *)
Definition ascending (its : list (EntryPtr F)) : Prop :=
  StronglySorted (λ a b, Fltb (fvalue (ent b)) (fvalue (ent a)) = false) its.



(** The best split [b0] that a node holds before feature [fid] is
enumerated does not meet the tie-break on the threshold: it is on another
feature, or it is on [fid] with a threshold that is not above any value
of the node in the column (as the threshold 0 of a fresh node is, on
feature 0, when no value of the node is negative). *)
Definition threshold_clear (b0 : SplitEntry.t F) (fid : nat)
    (sc : list (EntryPtr F)) : Prop :=
  SplitEntry.sindex b0 = fid →
  ∀ x, x ∈ sc → Fltb (fvalue (ent x)) (SplitEntry.split_value b0) = false.


(** The pass that moves thresholds to midpoints, seen from one node: its
thread entry, its recorded previous value and whether it is marked as
corrected. *)
Definition mid_node_step (fid : nat)
    (s : ThreadEntry F * option F * bool) (it : EntryPtr F)
    : ThreadEntry F * option F * bool :=
  let '(e, prev, upd) := s in
  if negb (SplitEntry.SplitIndex (best e) =? fid)%nat || upd then s
  else
    match prev with
    | Some last =>
        if Fltb last (SplitEntry.split_value (best e))
           && Fleb (SplitEntry.split_value (best e)) (fvalue (ent it))
        then (move_to_mid (Fhalf (Fadd (fvalue (ent it)) last)) e,
              Some (fvalue (ent it)), true)
        else (e, Some (fvalue (ent it)), upd)
    | None => (e, Some (fvalue (ent it)), upd)
    end.

Definition mid_view (n : nat) (st : MidState)
    : option (ThreadEntry F) * option F * bool :=
  (mid_temp st !! n, last_fvalue_map st !! n, bool_decide (n ∈ updated_nid st)).

(** The first two consecutive values of [prev :: vs] that enclose [t]: the
first pair (a, b) with a < t <= b. *)
Fixpoint first_bracket (t prev : F) (vs : list F) : option (F * F) :=
  match vs with
  | [] => None
  | cur :: vs =>
      if Fltb prev t && Fleb t cur then Some (prev, cur)
      else first_bracket t cur vs
  end.

Definition bracket (t : F) (vs : list F) : option (F * F) :=
  match vs with
  | [] => None
  | v :: vs => first_bracket t v vs
  end.

(** What the pass that moves thresholds to midpoints makes of the entry
[e] of a node whose values in the column are [vs], in the order of the
scan: when the best split is on the scanned feature and two consecutive
values enclose its threshold, the threshold becomes the average of the
first such pair and nothing else changes; otherwise [e] is left as it
is. *)
Definition midpoint_corrected (fid : nat) (vs : list F) (e : ThreadEntry F)
    : ThreadEntry F :=
  if (SplitEntry.sindex (best e) =? fid)%nat then
    match bracket (SplitEntry.split_value (best e)) vs with
    | Some (prev, cur) =>
        set_best e
          (SplitEntry.mk (SplitEntry.loss_chg (best e))
             (SplitEntry.sindex (best e)) (Fhalf (Fadd cur prev))
             (SplitEntry.default_left (best e)))
    | None => e
    end
  else e.

End comparison_vocabulary.

(** ** A scenario with a missing value

One node with three instances of gradients 6, -6, 12 and hessians 1; the
column of feature 1 holds the values 1.0 and 2.0 of the first two
instances, the third instance has no value; eps is 0. *)

Module MissingValue.
Import FixedPoint.

#[global] Existing Instance evaluator.

Definition param : TrainParam Z := mkTrainParam (fp 1) (fp 1) 0.
Definition gpair : list (GradientPair Z) :=
  [mkGradientPair (fp 6) (fp 1); mkGradientPair (fp (-6)) (fp 1);
   mkGradientPair (fp 12) (fp 1)].
Definition data : list (Entry Z) := [mkEntry 0%nat (fp 1); mkEntry 1%nat (fp 2)].
Definition position : list Z := [0; 0; 0].
Definition snode : list (NodeEntry Z) :=
  [mkNodeEntry (GradStats.mk (fp 12) (fp 3)) (fp 48) 0 SplitEntry.init].
Definition qexpand : list nat := [0%nat].
Definition temp : list (ThreadEntry Z) := [inhabitant].
Definition fid : nat := 1.

(* the calls of UpdateSolution: forward, and backward *)
Definition robust_forward : list (ThreadEntry Z) :=
  EnumerateSplit param position snode qexpand gpair data 0 2 1 fid temp.
Definition standard_forward : list (ThreadEntry Z) :=
  EnumerateSplitCacheOpt param position snode qexpand gpair data 0 2 1 fid temp.

End MissingValue.

(** ** Two clusters

One node with six instances; the column of feature 0 holds the values
1, 1, 1, 10, 10, 10, the gradients are 1, 1, 1, -1, -1, -1 and the
hessians 1; min_child_weight is 1 and eps is 0. *)

Module Clusters.
Import FixedPoint.

#[global] Existing Instance evaluator.

Definition param : TrainParam Z := mkTrainParam (fp 1) (fp 1) 0.
Definition gpair : list (GradientPair Z) :=
  [mkGradientPair (fp 1) (fp 1); mkGradientPair (fp 1) (fp 1);
   mkGradientPair (fp 1) (fp 1); mkGradientPair (fp (-1)) (fp 1);
   mkGradientPair (fp (-1)) (fp 1); mkGradientPair (fp (-1)) (fp 1)].
Definition data : list (Entry Z) :=
  [mkEntry 0%nat (fp 1); mkEntry 1%nat (fp 1); mkEntry 2%nat (fp 1);
   mkEntry 3%nat (fp 10); mkEntry 4%nat (fp 10); mkEntry 5%nat (fp 10)].
Definition position : list Z := [0; 0; 0; 0; 0; 0].
Definition snode : list (NodeEntry Z) :=
  [mkNodeEntry (GradStats.mk 0 (fp 6)) 0 0 SplitEntry.init].
Definition qexpand : list nat := [0%nat].
Definition temp : list (ThreadEntry Z) := [inhabitant].
Definition fid : nat := 0.

Definition robust_forward : list (ThreadEntry Z) :=
  EnumerateSplit param position snode qexpand gpair data 0 6 1 fid temp.
Definition standard_forward : list (ThreadEntry Z) :=
  EnumerateSplitCacheOpt param position snode qexpand gpair data 0 6 1 fid temp.

(* the entries of the node before the thresholds are moved to midpoints *)
Definition swept : list (ThreadEntry Z) :=
  closing_pass param snode qexpand fid 1
    (main_sweep param position snode gpair fid 1 (scan data 0 6 1)
       (clear_pass qexpand temp)).

End Clusters.

(** ** A fresh node with a negative value

One node with two instances of gradients 2 and -2 and hessians 1; the
column of feature 0 holds the values -3.0 and 1.0; min_child_weight is 2,
so that no split is admitted, and eps is 0. *)

Module NegativeValue.
Import FixedPoint.

#[global] Existing Instance evaluator.

Definition param : TrainParam Z := mkTrainParam (fp 1) (fp 2) 0.
Definition gpair : list (GradientPair Z) :=
  [mkGradientPair (fp 2) (fp 1); mkGradientPair (fp (-2)) (fp 1)].
Definition data : list (Entry Z) := [mkEntry 0%nat (fp (-3)); mkEntry 1%nat (fp 1)].
Definition position : list Z := [0; 0].
Definition snode : list (NodeEntry Z) :=
  [mkNodeEntry (GradStats.mk 0 (fp 2)) 0 0 SplitEntry.init].
Definition qexpand : list nat := [0%nat].
Definition temp : list (ThreadEntry Z) := [inhabitant].
Definition fid : nat := 0.

Definition robust_forward : list (ThreadEntry Z) :=
  EnumerateSplit param position snode qexpand gpair data 0 2 1 fid temp.
Definition standard_forward : list (ThreadEntry Z) :=
  EnumerateSplitCacheOpt param position snode qexpand gpair data 0 2 1 fid temp.

End NegativeValue.

(** ** Advancing the frontier (lines 270-280) *)

Section frontier.
Context {F : Type} `{!FloatOps F}.

(* lines 270-280; p_newnodes->clear() makes the result start empty *)
Definition UpdateQueueExpand (tree : list (RegTree.Node F)) (qexpand : list nat)
    : list Z :=
  foldl (λ newnodes nid,
           if negb (RegTree.IsLeaf (tree !!! nid))
           then newnodes ++ [RegTree.LeftChild (tree !!! nid)]
                         ++ [RegTree.RightChild (tree !!! nid)]
           else newnodes)
    [] qexpand.

End frontier.

(** ** Vocabulary of the statements on a level *)

Section level_vocabulary.
Context {F : Type} `{!FloatOps F}.

(** The value of instance [r] for feature [fid]: the one of its first entry
in the columns of [fid], in the order of the batches. *)
Definition first_value (batches : list (list (list (Entry F)))) (fid r : nat)
    : option F :=
  fvalue <$> head (filter (λ e, index e = r)
                     (concat ((λ batch, batch !!! fid) <$> batches))).

(** The child of an inner node an instance belongs to: by its value for the
feature of the split when it has one, the default child otherwise. *)
Definition child_for (node : RegTree.Node F) (v : option F) : Z :=
  match v with
  | Some v =>
      if Fltb v (RegTree.SplitCond node)
      then RegTree.LeftChild node else RegTree.RightChild node
  | None =>
      if RegTree.DefaultLeft node
      then RegTree.LeftChild node else RegTree.RightChild node
  end.

(** [c] is the id of a leaf of the tree that is still to be expanded. *)
Definition fresh_leaf_at (tree : list (RegTree.Node F)) (c : Z) : Prop :=
  0 ≤ c
  ∧ RegTree.IsLeaf (tree !!! Z.to_nat c) = true
  ∧ RegTree.RightChild (tree !!! Z.to_nat c) ≠ -1.

(** Every eligible instance of [rowset] is on a node of [frontier]. *)
Definition rows_on_frontier (rowset : list nat) (frontier : list Z)
    (position_ : list Z) : Prop :=
  ∀ r, r ∈ rowset → 0 ≤ position_ !!! r → position_ !!! r ∈ frontier.

End level_vocabulary.

(** ** A level of a small tree

The root of the scenario above once its best split (feature 0, threshold
1.0, missing values to the right) has been found, three instances of which
the third has no value for the feature, and the same root when no split
has been found. *)

Module LevelScenario.
Import FixedPoint Scenario.

Definition batches : list (list (list (Entry Z))) := [[data]].
Definition rowset : list nat := [0; 1; 2]%nat.
Definition position : list Z := [0; 0; 0].

(* the tree after the commit of the root with its best split ... *)
Definition tree_split : list (RegTree.Node Z) :=
  commit param snode_found qexpand tree.
(* ... and without one *)
Definition tree_leaf : list (RegTree.Node Z) :=
  commit param snode qexpand tree.

End LevelScenario.

(** ** Reducing the best splits of the threads (lines 969-976) *)

Section sync.
Context {F : Type} `{!FloatOps F}.
(* the members nthread_ and stemp_ of [Builder] *)
Context (nthread_ : nat).
Context (stemp_ : list (list (ThreadEntry F))).

Definition set_node_best (e : NodeEntry F) (b : SplitEntry.t F) : NodeEntry F :=
  mkNodeEntry (node_stats e) (root_gain e) (weight e) b.

(* for (int tid = 0; tid < this->nthread_; ++tid)
     e.best.Update(stemp_[tid][nid].best); *)
Definition sync_node (nid : nat) (e : NodeEntry F) : NodeEntry F :=
  foldl (λ e tid,
           set_node_best e
             (SplitEntry.UpdateEntry (node_best e) (best ((stemp_ !!! tid) !!! nid))))
    e (seq 0 nthread_).

Definition SyncBestSolution (qexpand : list nat) (snode_ : list (NodeEntry F))
    : list (NodeEntry F) :=
  foldl (λ snode_ nid, alter (sync_node nid) nid snode_) snode_ qexpand.

End sync.

(** ** The statistics of new nodes (lines 229-268) *)

(** The part of the injected split evaluator ([split_evaluator.h]) that
[InitNewNode] calls; the parent id is passed as a [bst_uint]. *)
Class WeightEvaluator (F : Type) := {
  ComputeWeight : Z → GradStats.t F → F;
  ComputeScore : Z → GradStats.t F → F → F;
}.

Section init_new_node.
Context {F : Type} `{!FloatOps F} `{!WeightEvaluator F}.
Context (position_ : list Z).
Context (gpair : list (GradientPair F)).
Context (rowset : list nat).
Context (tree : list (RegTree.Node F)).
(* omp_get_thread_num() in iteration i of the parallel loop of line 245 *)
Context (thread_of : nat → nat).

Definition set_stats (e : ThreadEntry F) (s : GradStats.t F) : ThreadEntry F :=
  mkThreadEntry s (stats_left e) (stats_c_left e) (c_left_counter e)
    (stats_unc_right e) (stats_unc e) (stats_extra e) (data_unc_right e)
    (data_unc e) (last_fvalue e) (first_fvalue e) (best e).

Definition set_node_stats (e : NodeEntry F) (s : GradStats.t F) : NodeEntry F :=
  mkNodeEntry s (root_gain e) (weight e) (node_best e).

(* the body of the loop of lines 245-250 run by thread [tid] for [ridx].
   A thread only writes its own row of stemp_, and visits its iterations
   in increasing order: the loop is the fold over the iterations *)
Definition add_row (stemp_ : list (list (ThreadEntry F))) (it : nat * nat)
    : list (list (ThreadEntry F)) :=
  let '(tid, ridx) := it in
  if position_ !!! ridx <? 0 then stemp_
  else
    alter (alter (λ e, set_stats e (GradStats.Add (stats e) (gpair !!! ridx)))
             (Z.to_nat (position_ !!! ridx)))
      tid stemp_.

(* GradStats stats(param_); for (auto& s : stemp_) stats.Add(s[nid].stats); *)
Definition node_sum (stemp_ : list (list (ThreadEntry F))) (nid : nat)
    : GradStats.t F :=
  foldl (λ sum s, GradStats.AddStats sum (stats (s !!! nid))) GradStats.Clear stemp_.

(* lines 262-266 *)
Definition set_weight (nid : nat) (e : NodeEntry F) : NodeEntry F :=
  let parentid := RegTree.Parent (tree !!! nid) `mod` 2 ^ 32 in
  let w := ComputeWeight parentid (node_stats e) in
  mkNodeEntry (node_stats e) (ComputeScore parentid (node_stats e) w) w
    (node_best e).

(* lines 229-268; tree.param.num_nodes is the number of nodes of the tree.
   [ThreadEntry(param_)] and [NodeEntry(param_)] are the entries with
   cleared statistics (the fields the constructor of ThreadEntry does not
   mention are given the value 0) *)
Definition InitNewNode (qexpand : list nat)
    (stemp_ : list (list (ThreadEntry F))) (snode_ : list (NodeEntry F))
    : list (list (ThreadEntry F)) * list (NodeEntry F) :=
  let stemp_ := resize (length tree) inhabitant <$> stemp_ in
  let snode_ := resize (length tree) inhabitant snode_ in
  let stemp_ := foldl add_row stemp_ (imap (λ i ridx, (thread_of i, ridx)) rowset) in
  let snode_ :=
    foldl (λ snode_ nid,
             alter (λ e, set_node_stats e (node_sum stemp_ nid)) nid snode_)
      snode_ qexpand in
  let snode_ :=
    foldl (λ snode_ nid, alter (set_weight nid) nid snode_) snode_ qexpand in
  (stemp_, snode_).

End init_new_node.

(** ** The first positions (lines 155-191 and 217-223 of [InitData]) *)

(** The value of an unsigned int read as an int. *)
Definition to_int (x : Z) : Z := (x + 2 ^ 31) `mod` 2 ^ 32 - 2 ^ 31.

Section init_data.
Context {F : Type} `{!FloatOps F}.
(* param_.subsample and the constant 1.0f *)
Context (subsample one : F).
(* the outcome of the k-th call of coin_flip(rnd) *)
Context (coin_flip : nat → bool).
Context (gpair : list (GradientPair F)).
(* fmat.Info().root_index_, a vector of unsigned *)
Context (root_index : list Z).
Context (rowset : list nat).
(* tree.param.num_nodes and tree.param.num_roots, two ints *)
Context (num_nodes num_roots : Z).

(* lines 165-175; the CHECK_LT of line 173 aborts the build *)
Definition set_root (position_ : list Z) (ridx : nat) : option (list Z) :=
  if root_index !!! ridx <? num_roots `mod` 2 ^ 32
  then Some (<[ridx := to_int (root_index !!! ridx)]> position_)
  else None.

Fixpoint set_roots (rows : list nat) (position_ : list Z) : option (list Z) :=
  match rows with
  | [] => Some position_
  | ridx :: rows =>
      match set_root position_ ridx with
      | Some position_ => set_roots rows position_
      | None => None
      end
  end.

(* "mark delete for the deleted datas", lines 177-180 *)
Definition mark_deleted (position_ : list Z) (ridx : nat) : list Z :=
  if Fltb (hess (gpair !!! ridx)) F0
  then <[ridx := Z.lnot (position_ !!! ridx)]> position_
  else position_.

(* "mark subsample", the body of the loop of lines 185-189, with the
   number of draws made so far *)
Definition mark_subsample (st : list Z * nat) (ridx : nat) : list Z * nat :=
  let '(position_, draws) := st in
  if Fltb (hess (gpair !!! ridx)) F0 then st
  else if negb (coin_flip draws)
    then (<[ridx := Z.lnot (position_ !!! ridx)]> position_, S draws)
    else (position_, S draws).

(* lines 158-191: the positions after [InitData]; the CHECK_EQ of line 158
   and the CHECK_LT of line 173 abort the build *)
Definition InitData_position (position_ : list Z) : option (list Z) :=
  if negb (num_nodes =? num_roots) then None
  else
    let position_ := resize (length gpair) 0 position_ in
    let rooted :=
      match root_index with
      | [] => Some (foldl (λ position_ ridx, <[ridx := 0]> position_)
                      position_ rowset)
      | _ :: _ => set_roots rowset position_
      end in
    match rooted with
    | Some position_ =>
        let position_ := foldl mark_deleted position_ rowset in
        Some (if Fltb subsample one
              then (foldl mark_subsample (position_, 0%nat) rowset).1
              else position_)
    | None => None
    end.

(* lines 217-223: for (int i = 0; i < num_roots; ++i) qexpand_.push_back(i) *)
Definition InitData_qexpand : list nat := seq 0 (Z.to_nat num_roots).

End init_data.

(** ** Positions after pruning (lines 1077-1090) *)

Section update_position.
Context {F : Type} `{!FloatOps F}.
(* [RegTree::Node::IsDeleted], declared in [tree_model.h] *)
Context (IsDeleted : RegTree.Node F → bool).
Context (tree : list (RegTree.Node F)).

(* while (tree[nid].IsDeleted()) { nid = tree[nid].Parent(); CHECK_GE(nid, 0); }
   [None] when the loop is still running after [fuel] turns, [Some None]
   when the CHECK_GE fails *)
Fixpoint live_ancestor (fuel : nat) (nid : Z) : option (option Z) :=
  if IsDeleted (tree !!! Z.to_nat nid) then
    match fuel with
    | O => None
    | S fuel =>
        let nid := RegTree.Parent (tree !!! Z.to_nat nid) in
        if 0 <=? nid then live_ancestor fuel nid else Some None
    end
  else Some (Some nid).

Fixpoint UpdatePosition (fuel : nat) (rowset : list nat) (position_ : list Z)
    : option (option (list Z)) :=
  match rowset with
  | [] => Some (Some position_)
  | ridx :: rowset =>
      match live_ancestor fuel (DecodePosition position_ ridx) with
      | Some (Some nid) => UpdatePosition fuel rowset (<[ridx := nid]> position_)
      | Some None => Some None
      | None => None
      end
  end.

End update_position.

(** ** Vocabulary of the statements on the first positions and statistics *)

(** The statistics of a list of instances: their gradient pairs added up
from [Clear], in the order of the list. *)
Definition rows_sum {F : Type} `{!FloatOps F} (gpair : list (GradientPair F))
    (rows : list nat) : GradStats.t F :=
  foldl GradStats.Add GradStats.Clear ((gpair !!!.) <$> rows).
(** ** The start of a small tree

Two threads, three instances of which the second has a negative hessian,
and subsampling with a coin that fails at every second draw. *)

Module DriverScenario.
Import FixedPoint Scenario.

(* the weight -G/H and the gain G^2/H of a node, without regularisation *)
#[global] Instance weights : WeightEvaluator Z := {|
  ComputeWeight := λ _ s,
    if GradStats.sum_hess s =? 0 then 0
    else - (GradStats.sum_grad s * unit / GradStats.sum_hess s);
  ComputeScore := λ _ s _, gain s;
|}.

Definition nthread : nat := 2.
Definition thread_of (i : nat) : nat := i mod 2.

(* the second thread has found the split of the scenario *)
Definition stemp_found : list (list (ThreadEntry Z)) :=
  [[inhabitant];
   [set_best inhabitant (SplitEntry.mk (fp 8) 0%nat (fp 1) false)]].

Definition gpair3 : list (GradientPair Z) :=
  [mkGradientPair (fp 2) (fp 1); mkGradientPair (fp (-2)) (fp (-1));
   mkGradientPair (fp 1) (fp 1)].
Definition rowset3 : list nat := [0; 1; 2]%nat.
Definition subsample : Z := fp 1 / 2.
Definition coin_flip (draw : nat) : bool := Nat.even draw.

(* a tree of which the pruner has deleted the two children of the root; the
   deleted nodes are marked here by the split index 9 *)
Definition IsDeleted (n : RegTree.Node Z) : bool :=
  (RegTree.SplitIndex n =? 9)%nat.
Definition tree_pruned : list (RegTree.Node Z) :=
  [RegTree.fresh (-1);
   RegTree.mkNode 0 (-1) (-1) 9%nat false 0;
   RegTree.mkNode 0 (-1) (-1) 9%nat false 0].
Definition position_pruned : list Z := [1; Z.lnot 2; 0].

End DriverScenario.

(** ** The distributed builder: non-default positions (lines 1096-1161) *)

Section dist_position.
Context {F : Type} `{!FloatOps F}.
(* rabit::Allreduce<rabit::op::BitOR> on the bits of this worker: the bits
   of all the workers, or-ed *)
Context (allreduce : list bool → list bool).
(* p_fmat->Info().num_col_ *)
Context (num_col : nat).

(* while (fsplits.size() != 0 && fsplits.back() >= num_col) fsplits.pop_back() *)
Fixpoint pop_back_columns (fsplits : list nat) : list nat :=
  match fsplits with
  | [] => []
  | fid :: fsplits =>
      match pop_back_columns fsplits with
      | [] => if (num_col <=? fid)%nat then [] else [fid]
      | rest => fid :: rest
      end
  end.

(* the body of the loop over a column, lines 1128-1137: the positions are
   read only *)
Definition mark_entry (tree : list (RegTree.Node F)) (position_ : list Z)
    (fid : nat) (boolmap_ : list bool) (e : Entry F) : list bool :=
  let ridx := index e in
  let nid := DecodePosition position_ ridx in
  let node := tree !!! Z.to_nat nid in
  if negb (RegTree.IsLeaf node) && (RegTree.SplitIndex node =? fid)%nat then
    if Fltb (fvalue e) (RegTree.SplitCond node) then
      if negb (RegTree.DefaultLeft node) then <[ridx := true]> boolmap_
      else boolmap_
    else
      if RegTree.DefaultLeft node then <[ridx := true]> boolmap_ else boolmap_
  else boolmap_.

(* the bits of this worker, lines 1098-1142 *)
Definition nondefault_bits (qexpand : list nat)
    (batches : list (list (list (Entry F)))) (tree : list (RegTree.Node F))
    (position_ : list Z) : list bool :=
  let fsplits :=
    pop_back_columns
      (sort_unique
         (RegTree.SplitIndex <$>
            filter (λ n, RegTree.IsLeaf n = false) ((tree !!!.) <$> qexpand))) in
  foldl (λ boolmap_ batch,
           foldl (λ boolmap_ fid,
                    foldl (mark_entry tree position_ fid) boolmap_ (batch !!! fid))
             boolmap_ fsplits)
    (replicate (length position_) false) batches.

(* the body of the loop over the rows, lines 1150-1159; the CHECK of line
   1153 aborts the build *)
Definition flip_row (tree : list (RegTree.Node F)) (bitmap_ : list bool)
    (position_ : list Z) (ridx : nat) : option (list Z) :=
  let nid := DecodePosition position_ ridx in
  let node := tree !!! Z.to_nat nid in
  if (bitmap_ !!! ridx : bool) then
    if RegTree.IsLeaf node then None
    else if RegTree.DefaultLeft node
      then Some (SetEncodePosition position_ ridx (RegTree.RightChild node))
      else Some (SetEncodePosition position_ ridx (RegTree.LeftChild node))
  else Some position_.

Fixpoint flip_rows (tree : list (RegTree.Node F)) (bitmap_ : list bool)
    (rowset : list nat) (position_ : list Z) : option (list Z) :=
  match rowset with
  | [] => Some position_
  | ridx :: rowset =>
      match flip_row tree bitmap_ position_ ridx with
      | Some position_ => flip_rows tree bitmap_ rowset position_
      | None => None
      end
  end.

(* lines 1096-1161 *)
Definition SetNonDefaultPosition_dist (qexpand : list nat)
    (batches : list (list (list (Entry F)))) (rowset : list nat)
    (tree : list (RegTree.Node F)) (position_ : list Z) : option (list Z) :=
  let bitmap_ := allreduce (nondefault_bits qexpand batches tree position_) in
  flip_rows tree bitmap_ rowset position_.

(* [ResetPosition] (lines 934-966) in the distributed builder, where the
   call of line 938 is to the override *)
Definition ResetPosition_dist (qexpand : list nat)
    (batches : list (list (list (Entry F)))) (rowset : list nat)
    (tree : list (RegTree.Node F)) (position_ : list Z) : option (list Z) :=
  match SetNonDefaultPosition_dist qexpand batches rowset tree position_ with
  | Some position_ => reset_rows tree rowset position_
  | None => None
  end.

End dist_position.

(** The test of lines 1131-1136 on an entry of the column of [fid]: the
instance is on an inner node that splits on [fid], and its value sends it
to the child that is not the default one. *)
Definition flagged {F : Type} `{!FloatOps F} (tree : list (RegTree.Node F))
    (position_ : list Z) (fid : nat) (e : Entry F) : bool :=
  let node := tree !!! Z.to_nat (DecodePosition position_ (index e)) in
  negb (RegTree.IsLeaf node) && (RegTree.SplitIndex node =? fid)%nat
  && (if Fltb (fvalue e) (RegTree.SplitCond node)
      then negb (RegTree.DefaultLeft node) else RegTree.DefaultLeft node).

(** ** Splitting one column among the threads (lines 283-426) *)

#[global] Instance Entry_inhabited {F : Type} `{!FloatOps F} : Inhabited (Entry F) :=
  populate (mkEntry 0%nat F0).

Section parallel_find_split.
Context {F : Type} `{!FloatOps F} `{!SplitEvaluator F}.
Context (param_ : TrainParam F).
Context (position_ : list Z).
Context (snode_ : list (NodeEntry F)).
Context (qexpand_ : list nat).
Context (gpair : list (GradientPair F)).
Context (nthread_ : nat).

Definition set_first_fvalue (e : ThreadEntry F) (v : F) : ThreadEntry F :=
  mkThreadEntry (stats e) (stats_left e) (stats_c_left e) (c_left_counter e)
    (stats_unc_right e) (stats_unc e) (stats_extra e) (data_unc_right e)
    (data_unc e) (last_fvalue e) v (best e).

Definition set_last_fvalue (e : ThreadEntry F) (v : F) : ThreadEntry F :=
  mkThreadEntry (stats e) (stats_left e) (stats_c_left e) (c_left_counter e)
    (stats_unc_right e) (stats_unc e) (stats_extra e) (data_unc_right e)
    (data_unc e) v (first_fvalue e) (best e).

Definition set_stats_extra (e : ThreadEntry F) (s : GradStats.t F) : ThreadEntry F :=
  mkThreadEntry (stats e) (stats_left e) (stats_c_left e) (c_left_counter e)
    (stats_unc_right e) (stats_unc e) s (data_unc_right e)
    (data_unc e) (last_fvalue e) (first_fvalue e) (best e).

(* stemp_[tid][nid], read and written *)
Definition entry_at (stemp_ : list (list (ThreadEntry F))) (tid nid : nat)
    : ThreadEntry F :=
  (stemp_ !!! tid) !!! nid.

Definition alter_at (f : ThreadEntry F → ThreadEntry F) (tid nid : nat)
    (stemp_ : list (list (ThreadEntry F))) : list (list (ThreadEntry F)) :=
  alter (alter f nid) tid stemp_.

(* the entry of a node in the row of a thread, if there is one *)
Definition lookup_at (stemp_ : list (list (ThreadEntry F))) (tid nid : nat)
    : option (ThreadEntry F) :=
  stemp_ !! tid ≫= (.!! nid).

(* bst_uint step = (col.length + nthread_ - 1) / nthread_;
   bst_uint end = std::min(col.length, step * (tid + 1));
   the entries col[i] for i = tid * step, ..., end - 1 (lengths that fit a
   bst_uint, and at least one thread) *)
Definition chunk (col : list (Entry F)) (tid : nat) : list (Entry F) :=
  let step := ((length col + nthread_ - 1) / nthread_)%nat in
  let end_ := (length col `min` (step * (tid + 1)))%nat in
  take (end_ - tid * step) (drop (tid * step) col).

(* the candidate of a partition with the statistics [left] and [right]
   handed to the evaluator in this order, and its test on both sides *)
Definition offer_partition (nid fid : nat) (left right : GradStats.t F)
    (split_value : F) (dleft : bool) (b : SplitEntry.t F) : SplitEntry.t F :=
  SplitEntry.Update b
    (Fsub (ComputeSplitScore nid fid left right) (root_gain (snode_ !!! nid)))
    fid split_value dleft.

Definition heavy (s : GradStats.t F) : bool :=
  Fgeb (GradStats.sum_hess s) (min_child_weight param_).

(** *** The statistics of the chunks (lines 293-314) *)

(* the body of the loop of lines 303-313 *)
Definition collect_entry (temp : list (ThreadEntry F)) (e : Entry F)
    : list (ThreadEntry F) :=
  match position_ !! index e with
  | Some nid =>
      if nid <? 0 then temp
      else
        alter (λ t,
                 let t := if GradStats.Empty (stats t)
                          then set_first_fvalue t (fvalue e) else t in
                 set_last_fvalue
                   (set_stats t (GradStats.Add (stats t) (gpair !!! index e)))
                   (fvalue e))
          (Z.to_nat nid) temp
  | None => temp
  end.

Definition collect (col : list (Entry F)) (tid : nat)
    (temp : list (ThreadEntry F)) : list (ThreadEntry F) :=
  foldl collect_entry
    (foldl (λ temp j, alter clear_stats j temp) temp qexpand_)
    (chunk col tid).

(** *** The partial sums and the splits between chunks (lines 316-376) *)

(* the first loop over the threads for a node, lines 321-328 *)
Definition prefix_step (nid : nat)
    (st : GradStats.t F * list (list (ThreadEntry F))) (tid : nat)
    : GradStats.t F * list (list (ThreadEntry F)) :=
  let '(sum, stemp_) := st in
  let tmp := stats (entry_at stemp_ tid nid) in
  let stemp_ := alter_at (λ e, set_stats e sum) tid nid stemp_ in
  let sum := GradStats.AddStats sum tmp in
  if (tid =? 0)%nat then (sum, stemp_)
  else
    (* std::swap(stemp_[tid - 1][nid].last_fvalue, stemp_[tid][nid].first_fvalue) *)
    let last := last_fvalue (entry_at stemp_ (tid - 1) nid) in
    let first := first_fvalue (entry_at stemp_ tid nid) in
    (sum,
     alter_at (λ e, set_first_fvalue e last) tid nid
       (alter_at (λ e, set_last_fvalue e first) (tid - 1) nid stemp_)).

(* the second loop over the threads for a node, lines 329-363 *)
Definition boundary_step (nid fid : nat) (need_forward need_backward : bool)
    (sum : GradStats.t F) (stemp_ : list (list (ThreadEntry F))) (tid : nat)
    : list (list (ThreadEntry F)) :=
  let stemp_ := alter_at (λ e, set_stats_extra e sum) tid nid stemp_ in
  let e := entry_at stemp_ tid nid in
  let fsplit :=
    if (tid =? 0)%nat then Some (Fsub (first_fvalue e) kRtEps)
    else
      let last := last_fvalue (entry_at stemp_ (tid - 1) nid) in
      if Fneb last (first_fvalue e)
      then Some (Fhalf (Fadd last (first_fvalue e)))
      else None in
  match fsplit with
  | Some fsplit =>
      let b := best e in
      let b :=
        if need_forward && negb (tid =? 0)%nat then
          let c := GradStats.SetSubstract (node_stats (snode_ !!! nid)) (stats e) in
          if heavy c && heavy (stats e)
          then offer_partition nid fid (stats e) c fsplit false b else b
        else b in
      let b :=
        if need_backward then
          let tmp := GradStats.SetSubstract sum (stats e) in
          let c := GradStats.SetSubstract (node_stats (snode_ !!! nid)) tmp in
          if heavy c && heavy tmp
          then offer_partition nid fid tmp c fsplit true b else b
        else b in
      alter_at (λ e, set_best e b) tid nid stemp_
  | None => stemp_
  end.

(* lines 364-375 *)
Definition closing_boundary (nid fid : nat) (need_backward : bool)
    (sum : GradStats.t F) (stemp_ : list (list (ThreadEntry F)))
    : list (list (ThreadEntry F)) :=
  if need_backward then
    let tmp := sum in
    let e := entry_at stemp_ (nthread_ - 1) nid in
    let c := GradStats.SetSubstract (node_stats (snode_ !!! nid)) tmp in
    if heavy c && heavy tmp then
      alter_at
        (λ e, set_best e
                (offer_partition nid fid tmp c (Fadd (last_fvalue e) kRtEps) true
                   (best e)))
        (nthread_ - 1) nid stemp_
    else stemp_
  else stemp_.

(* the body of the loop over the nodes, lines 319-375 *)
Definition boundaries (fid : nat) (need_forward need_backward : bool)
    (stemp_ : list (list (ThreadEntry F))) (nid : nat)
    : list (list (ThreadEntry F)) :=
  let '(sum, stemp_) :=
    foldl (prefix_step nid) (GradStats.Clear, stemp_) (seq 0 nthread_) in
  let stemp_ :=
    foldl (boundary_step nid fid need_forward need_backward sum) stemp_
      (seq 0 nthread_) in
  closing_boundary nid fid need_backward sum stemp_.

(** *** The splits inside the chunks (lines 378-425) *)

(* lines 391-423, on the entry of the node *)
Definition rescan_update (nid fid : nat) (need_forward need_backward : bool)
    (e : Entry F) (t : ThreadEntry F) : ThreadEntry F :=
  let fv := fvalue e in
  if GradStats.Empty (stats t) then
    set_first_fvalue (set_stats t (GradStats.Add (stats t) (gpair !!! index e))) fv
  else
    let b := best t in
    let b :=
      if Fneb fv (first_fvalue t) then
        let b :=
          if need_forward then
            let c := GradStats.SetSubstract (node_stats (snode_ !!! nid)) (stats t) in
            if heavy c && heavy (stats t)
            then offer_partition nid fid (stats t) c
                   (Fhalf (Fadd fv (first_fvalue t))) false b
            else b
          else b in
        if need_backward then
          let cright := GradStats.SetSubstract (stats_extra t) (stats t) in
          let c := GradStats.SetSubstract (node_stats (snode_ !!! nid)) cright in
          if heavy c && heavy cright
          then offer_partition nid fid c cright
                 (Fhalf (Fadd fv (first_fvalue t))) true b
          else b
        else b
      else b in
    set_first_fvalue
      (set_stats (set_best t b) (GradStats.Add (stats t) (gpair !!! index e))) fv.

(* the body of the loop of lines 385-424 *)
Definition rescan_entry (fid : nat) (need_forward need_backward : bool)
    (temp : list (ThreadEntry F)) (e : Entry F) : list (ThreadEntry F) :=
  match position_ !! index e with
  | Some nid =>
      if nid <? 0 then temp
      else alter (rescan_update (Z.to_nat nid) fid need_forward need_backward e)
             (Z.to_nat nid) temp
  | None => temp
  end.

(** *** [ParallelFindSplit]

Each of the three parallel regions is run thread after thread (and node
after node): a thread of the first and of the third region only touches
its own row of stemp_, an iteration of the second one only the entries of
its node. *)
Definition ParallelFindSplit (need_forward need_backward : bool)
    (col : list (Entry F)) (fid : nat) (stemp_ : list (list (ThreadEntry F)))
    : list (list (ThreadEntry F)) :=
  let stemp_ :=
    foldl (λ stemp_ tid, alter (collect col tid) tid stemp_) stemp_
      (seq 0 nthread_) in
  let stemp_ := foldl (boundaries fid need_forward need_backward) stemp_ qexpand_ in
  foldl (λ stemp_ tid,
           alter (λ temp,
                    foldl (rescan_entry fid need_forward need_backward) temp
                      (chunk col tid))
             tid stemp_)
    stemp_ (seq 0 nthread_).

End parallel_find_split.

(** ** The candidates of a batch of columns (lines 860-896) *)

Section update_solution.
Context {F : Type} `{!FloatOps F} `{!SplitEvaluator F}.
Context (param_ : TrainParam F).
Context (position_ : list Z).
Context (snode_ : list (NodeEntry F)).
Context (qexpand_ : list nat).
Context (gpair : list (GradientPair F)).
Context (nthread_ : nat).
(* param_.NeedForwardSearch, param_.NeedBackwardSearch and
   param_.parallel_option ([param.h]); fmat.GetColDensity *)
Context (NeedForwardSearch NeedBackwardSearch : F → bool → bool).
Context (parallel_option : Z).
Context (GetColDensity : nat → F).
(* omp_get_thread_num() in iteration i of the loop of line 876 *)
Context (thread_of : nat → nat).

(* c.length != 0 && c.data[0].fvalue == c.data[c.length - 1].fvalue *)
Definition single_valued (c : list (Entry F)) : bool :=
  negb (length c =? 0)%nat
  && Feqb (fvalue (c !!! 0%nat)) (fvalue (c !!! (length c - 1)%nat)).

(* int poption = param_.parallel_option;
   if (poption == 2) poption = num_features * 2 < nthread_ ? 1 : 0 *)
Definition poption (num_features : nat) : Z :=
  if parallel_option =? 2
  then (if Z.of_nat num_features * 2 <? Z.of_nat nthread_ then 1 else 0)
  else parallel_option.

(* the body of the loop of lines 876-889, on the row of its thread *)
Definition enumerate_feature (batch : list (list (Entry F))) (fid : nat)
    (temp : list (ThreadEntry F)) : list (ThreadEntry F) :=
  let c := batch !!! fid in
  let ind := single_valued c in
  let temp :=
    if NeedForwardSearch (GetColDensity fid) ind
    then EnumerateSplit param_ position_ snode_ qexpand_ gpair c 0
           (Z.of_nat (length c)) 1 fid temp
    else temp in
  if NeedBackwardSearch (GetColDensity fid) ind
  then EnumerateSplit param_ position_ snode_ qexpand_ gpair c
         (Z.of_nat (length c) - 1) (-1) (-1) fid temp
  else temp.

(* the features of which UpdateSolution scans the columns *)
Definition scanned (feat_set : list nat) (fid : nat) : Prop :=
  if poption (length feat_set) =? 0
  then fid ∈ feat_set else (fid < length feat_set)%nat.

(* lines 283-292: ParallelFindSplit with its two flags *)
Definition parallel_feature (batch : list (list (Entry F))) (fid : nat)
    (stemp_ : list (list (ThreadEntry F))) : list (list (ThreadEntry F)) :=
  let col := batch !!! fid in
  let ind := single_valued col in
  ParallelFindSplit param_ position_ snode_ qexpand_ gpair nthread_
    (NeedForwardSearch (GetColDensity fid) ind)
    (NeedBackwardSearch (GetColDensity fid) ind) col fid stemp_.

Definition UpdateSolution (batch : list (list (Entry F))) (feat_set : list nat)
    (stemp_ : list (list (ThreadEntry F))) : list (list (ThreadEntry F)) :=
  let num_features := length feat_set in
  if poption num_features =? 0 then
    foldl (λ stemp_ i,
             alter (enumerate_feature batch (feat_set !!! i)) (thread_of i) stemp_)
      stemp_ (seq 0 num_features)
  else
    foldl (λ stemp_ fid, parallel_feature batch fid stemp_)
      stemp_ (seq 0 num_features).

End update_solution.

(** ** Vocabulary of the rows of the threads *)

Section stemp_vocabulary.
Context {F : Type} `{!FloatOps F}.

(** Every entry of a row is still there afterwards, and related to what it
was by [R]. *)
Definition row_rel (R : ThreadEntry F → ThreadEntry F → Prop)
    (temp temp' : list (ThreadEntry F)) : Prop :=
  ∀ n e, temp !! n = Some e → ∃ e', temp' !! n = Some e' ∧ R e e'.

(** ... and the same for the rows of all threads. *)
Definition stemp_rel (R : ThreadEntry F → ThreadEntry F → Prop)
    (s s' : list (list (ThreadEntry F))) : Prop :=
  ∀ tid nid e, lookup_at s tid nid = Some e →
    ∃ e', lookup_at s' tid nid = Some e' ∧ R e e'.

(** A relation between best splits, as a relation between entries. *)
Definition on_best (P : SplitEntry.t F → SplitEntry.t F → Prop)
    (e e' : ThreadEntry F) : Prop :=
  P (best e) (best e').

(** The instances of the entries of a column that sit on node [nid], in
the order of the column. *)
Definition node_rows (position_ : list Z) (nid : nat) (es : list (Entry F))
    : list nat :=
  index <$> filter (λ e, position_ !! index e = Some (Z.of_nat nid)) es.

(** The statistics [f 0], ..., [f (k - 1)] added up from [Clear]. *)
Definition prefix_sum (f : nat → GradStats.t F) (k : nat) : GradStats.t F :=
  foldl (λ acc t, GradStats.AddStats acc (f t)) GradStats.Clear (seq 0 k).

End stemp_vocabulary.

(** ** Vocabulary of the statistics of the rows *)

Section sums_vocabulary.
Context {F : Type} `{!FloatOps F}.

(** The statistics of an entry are what they were. *)
Definition keeps_stats (e e' : ThreadEntry F) : Prop :=
  stats e' = stats e.

(** ... and its total is still [sum] if it was. *)
Definition keeps_sums (sum : GradStats.t F) (e e' : ThreadEntry F) : Prop :=
  stats e' = stats e ∧ (stats_extra e = sum → stats_extra e' = sum).

(** The statistics of node [nid] in the rows of the first [k] threads,
added up. *)
Definition threads_sum (stemp_ : list (list (ThreadEntry F))) (nid k : nat)
    : GradStats.t F :=
  prefix_sum (λ t, stats (entry_at stemp_ t nid)) k.

End sums_vocabulary.

(** ** Two threads on the column of the scenario *)

Module ParallelScenario.
Import FixedPoint Scenario.

(* both sweeps for every column, whatever its density *)
Definition NeedForwardSearch (col_density : Z) (indicator : bool) : bool := true.
Definition NeedBackwardSearch (col_density : Z) (indicator : bool) : bool := true.
Definition GetColDensity (fid : nat) : Z := fp 1.
Definition batch : list (list (Entry Z)) := [data].
Definition feat_set : list nat := [0%nat].
Definition stemp_start : list (list (ThreadEntry Z)) := [[inhabitant]; [inhabitant]].

End ParallelScenario.

(** ** The splits of a level: [FindSplit] (lines 898-932)

Of the sampling of the features of the level (lines 903-911), which is
done when colsample_bylevel is not 1, the model has the
CHECK_GT(param_.colsample_bylevel, 0U) of line 908, which aborts the build
when it fails.  The std::shuffle with the global random engine and the
resize are not computed: [feat_set] is the vector once they are done,
feat_index_ itself when colsample_bylevel is 1.  The function works on
stemp_, snode_ and the tree. *)

Section find_split.
Context {F : Type} `{!FloatOps F} `{!SplitEvaluator F}.
Context (param_ : TrainParam F).
Context (position_ : list Z).
Context (qexpand_ : list nat).
Context (gpair : list (GradientPair F)).
Context (nthread_ : nat).
Context (NeedForwardSearch NeedBackwardSearch : F → bool → bool).
Context (parallel_option : Z).
Context (GetColDensity : nat → F).
(* omp_get_thread_num() in iteration i of the loop of line 876, in the call
   of UpdateSolution for the k-th batch *)
Context (thread_of : nat → nat → nat).
(* param_.colsample_bylevel and the constant 1.0f *)
Context (colsample_bylevel one : F).

(* while (iter->Next()) this->UpdateSolution(iter->Value(), feat_set, gpair, *p_fmat) *)
Definition scan_batches (snode_ : list (NodeEntry F)) (feat_set : list nat)
    (batches : list (list (list (Entry F))))
    (stemp_ : list (list (ThreadEntry F))) : list (list (ThreadEntry F)) :=
  foldl (λ stemp_ kb,
           UpdateSolution param_ position_ snode_ qexpand_ gpair nthread_
             NeedForwardSearch NeedBackwardSearch parallel_option GetColDensity
             (thread_of kb.1) kb.2 feat_set stemp_)
    stemp_ (imap pair batches).

Definition FindSplit (feat_set : list nat) (batches : list (list (list (Entry F))))
    (qexpand : list nat)
    (st : list (list (ThreadEntry F)) * list (NodeEntry F) * list (RegTree.Node F))
    : option (list (list (ThreadEntry F)) * list (NodeEntry F)
              * list (RegTree.Node F)) :=
  (* if (param_.colsample_bylevel != 1.0f) { ...
       CHECK_GT(param_.colsample_bylevel, 0U) ... } *)
  if (if Fneb colsample_bylevel one then Fgtb colsample_bylevel F0 else true)
  then
    let '(stemp_, snode_, tree) := st in
    let stemp_ := scan_batches snode_ feat_set batches stemp_ in
    let snode_ := SyncBestSolution nthread_ stemp_ qexpand snode_ in
    Some (stemp_, snode_, commit param_ snode_ qexpand tree)
  else None.

End find_split.

(** ** Growing a tree: [Builder::Update] (lines 112-151)

The split evaluator is an object with a state, which AddSplit changes:
[E] is the type of its states, and the scoring functions are those of
its current state.  Of the sampling of the features (lines 192-205 of
InitData and 903-911 of FindSplit) the model has the two CHECK_GT, on
colsample_bytree and on colsample_bylevel; the std::shuffle with the
global random engine and the resize are not computed, [feat_set_at depth]
being their outcome for the level [depth].  The leaf vector of line 149
is left out. *)

Record BuilderState (F E : Type) := mkBuilderState {
  st_position : list Z;                       (* position_ *)
  st_stemp : list (list (ThreadEntry F));     (* stemp_ *)
  st_snode : list (NodeEntry F);              (* snode_ *)
  st_qexpand : list nat;                      (* qexpand_ *)
  st_tree : list (RegTree.Node F);            (* *p_tree *)
  st_evaluator : E;                           (* *spliteval_ *)
}.
Arguments mkBuilderState {F E} _ _ _ _ _ _.
Arguments st_position {F E} _.
Arguments st_stemp {F E} _.
Arguments st_snode {F E} _.
Arguments st_qexpand {F E} _.
Arguments st_tree {F E} _.
Arguments st_evaluator {F E} _.

(* the fields of p_tree->Stat(nid) that lines 146-148 write *)
Record NodeStat (F : Type) := mkNodeStat {
  stat_loss_chg : F;
  stat_base_weight : F;
  stat_sum_hess : F;
}.
Arguments mkNodeStat {F} _ _ _.
Arguments stat_loss_chg {F} _.
Arguments stat_base_weight {F} _.
Arguments stat_sum_hess {F} _.

Section builder_update.
Context {F : Type} `{!FloatOps F}.
(* the split evaluator ([split_evaluator.h]) *)
Context {E : Type}.
Context (split_evaluator : E → SplitEvaluator F).
Context (weight_evaluator : E → WeightEvaluator F).
(* AddSplit(nodeid, leftid, rightid, featureid, leftweight, rightweight) *)
Context (AddSplit : E → nat → Z → Z → nat → F → F → E).
Context (param_ : TrainParam F).
(* param_.max_depth, param_.subsample, the constant 1.0f,
   param_.colsample_bytree and param_.colsample_bylevel *)
Context (max_depth : Z).
Context (subsample one : F).
Context (colsample_bytree colsample_bylevel : F).
Context (coin_flip : nat → bool).
Context (gpair : list (GradientPair F)).
(* p_fmat: the root indices, the row set and the column batches *)
Context (root_index : list Z).
Context (rowset : list nat).
Context (batches : list (list (list (Entry F)))).
(* tree.param.num_roots *)
Context (num_roots : Z).
Context (nthread_ : nat).
Context (NeedForwardSearch NeedBackwardSearch : F → bool → bool).
Context (parallel_option : Z).
Context (GetColDensity : nat → F).
(* the features of FindSplit at a depth *)
Context (feat_set_at : nat → list nat).
(* omp_get_thread_num() in iteration i of the loop of line 876, at a depth
   and for the k-th batch; and in iteration i of the loop of line 245 *)
Context (thread_of : nat → nat → nat → nat).
Context (row_thread_of : nat → nat).

(* lines 155-224; tree.param.num_nodes is the number of nodes of the tree.
   The CHECK_EQ of line 158 and the CHECK_LT of line 173 are those of
   InitData_position; then comes the CHECK_GT of line 203 *)
Definition InitData (st : BuilderState F E) : option (BuilderState F E) :=
  match InitData_position subsample one coin_flip gpair root_index rowset
          (Z.of_nat (length (st_tree st))) num_roots (st_position st) with
  | Some position_ =>
      (* CHECK_GT(param_.colsample_bytree, 0U) *)
      if Fgtb colsample_bytree F0 then
        Some (mkBuilderState position_ (replicate nthread_ []) (st_snode st)
                (InitData_qexpand num_roots) (st_tree st) (st_evaluator st))
      else None
  | None => None
  end.

(* this->InitNewNode(nodes, gpair, *p_fmat, *p_tree) *)
Definition init_new_nodes (nodes : list nat) (st : BuilderState F E)
    : BuilderState F E :=
  let '(stemp_, snode_) :=
    InitNewNode (WeightEvaluator0 := weight_evaluator (st_evaluator st))
      (st_position st) gpair rowset (st_tree st) row_thread_of nodes
      (st_stemp st) (st_snode st) in
  mkBuilderState (st_position st) stemp_ snode_ (st_qexpand st) (st_tree st)
    (st_evaluator st).

(* the loop of lines 123-136 *)
Definition add_splits (st : BuilderState F E) : E :=
  foldl (λ e nid,
           let node := st_tree st !!! nid in
           if RegTree.IsLeaf node then e
           else
             let cleft := RegTree.LeftChild node in
             let cright := RegTree.RightChild node in
             AddSplit e nid cleft cright
               (SplitEntry.SplitIndex (node_best (st_snode st !!! nid)))
               (weight (st_snode st !!! Z.to_nat cleft))
               (weight (st_snode st !!! Z.to_nat cright)))
    (st_evaluator st) (st_qexpand st).

(* the body of the loop over the depths, lines 119-137, up to the test of
   line 139; the CHECK_GT of FindSplit and the CHECK_LT of ResetPosition
   abort the build.  The new nodes are the children of inner nodes, which
   are node ids *)
Definition level (depth : nat) (st : BuilderState F E)
    : option (BuilderState F E) :=
  match
    FindSplit (SplitEvaluator0 := split_evaluator (st_evaluator st))
      param_ (st_position st) (st_qexpand st) gpair nthread_ NeedForwardSearch
      NeedBackwardSearch parallel_option GetColDensity (thread_of depth)
      colsample_bylevel one (feat_set_at depth) batches (st_qexpand st)
      (st_stemp st, st_snode st, st_tree st)
  with
  | Some (stemp_, snode_, tree) =>
      match ResetPosition (st_qexpand st) batches rowset tree (st_position st) with
      | Some position_ =>
          let newnodes := Z.to_nat <$> UpdateQueueExpand tree (st_qexpand st) in
          let st :=
            init_new_nodes newnodes
              (mkBuilderState position_ stemp_ snode_ (st_qexpand st) tree
                 (st_evaluator st)) in
          Some (mkBuilderState (st_position st) (st_stemp st) (st_snode st)
                  newnodes (st_tree st) (add_splits st))
      | None => None
      end
  | None => None
  end.

(* for (int depth = 0; depth < param_.max_depth; ++depth) { ...;
     if (qexpand_.size() == 0) break; }, with the iterations still to run *)
Fixpoint grow (rounds depth : nat) (st : BuilderState F E)
    : option (BuilderState F E) :=
  match rounds with
  | O => Some st
  | S rounds =>
      match level depth st with
      | Some st =>
          match st_qexpand st with
          | [] => Some st
          | _ :: _ => grow rounds (S depth) st
          end
      | None => None
      end
  end.

(* lines 140-143: "set all the rest expanding nodes to leaf" *)
Definition set_leaves (st : BuilderState F E) : BuilderState F E :=
  mkBuilderState (st_position st) (st_stemp st) (st_snode st) (st_qexpand st)
    (foldl (λ tree nid,
              alter (RegTree.SetLeaf
                       (Fmul (weight (st_snode st !!! nid)) (learning_rate param_))
                       (-1))
                nid tree)
       (st_tree st) (st_qexpand st))
    (st_evaluator st).

(* lines 144-150: "remember auxiliary statistics in the tree node" *)
Definition node_stats_of (st : BuilderState F E) : list (NodeStat F) :=
  (λ nid,
     let e := st_snode st !!! nid in
     mkNodeStat (SplitEntry.loss_chg (node_best e)) (weight e)
       (GradStats.sum_hess (node_stats e)))
  <$> seq 0 (length (st_tree st)).

Definition Update (st : BuilderState F E)
    : option (BuilderState F E * list (NodeStat F)) :=
  match InitData st with
  | Some st =>
      match grow (Z.to_nat max_depth) 0 (init_new_nodes (st_qexpand st) st) with
      | Some st =>
          let st := set_leaves st in
          Some (st, node_stats_of st)
      | None => None
      end
  | None => None
  end.

End builder_update.

(** ** Vocabulary of the growth of a tree *)

Section builder_vocabulary.
Context {F E : Type} `{!FloatOps F}.

(** The node an instance is on, excluded or not. *)
Definition row_node (st : BuilderState F E) (r : nat) : nat :=
  Z.to_nat (DecodePosition (st_position st) r).

(** The state of a builder between two levels: the frontier has no
repetition and consists of nodes of the tree, the children of the inner
nodes are node ids, and every instance of the row set has a position and
is on a node of the frontier or on a leaf. *)
Definition builder_wf (rowset : list nat) (st : BuilderState F E) : Prop :=
  NoDup (st_qexpand st)
  ∧ (∀ m, m ∈ st_qexpand st → (m < length (st_tree st))%nat)
  ∧ children_are_nodes (st_tree st)
  ∧ (∀ r, r ∈ rowset → (r < length (st_position st))%nat)
  ∧ (∀ r, r ∈ rowset →
       (row_node st r < length (st_tree st))%nat
       ∧ (row_node st r ∈ st_qexpand st
          ∨ RegTree.IsLeaf (st_tree st !!! row_node st r) = true)).

End builder_vocabulary.

(** ** Growing the tree of the scenario

An evaluator without state, two levels at most, no subsampling, no
sampling of the columns (colsample_bytree and colsample_bylevel are 1),
and each column shared among the two threads. *)

Module BuilderScenario.
Import FixedPoint Scenario DriverScenario ParallelScenario.

Definition AddSplit (e : ()) (nid : nat) (cleft cright : Z) (fid : nat)
    (wleft wright : Z) : () := e.
Definition max_depth : Z := 2.
Definition rowset2 : list nat := [0; 1]%nat.
Definition start : BuilderState Z () := mkBuilderState [] [] [] [] tree tt.

Definition Update_tree : option (BuilderState Z () * list (NodeStat Z)) :=
  Update (λ _, evaluator) (λ _, weights) AddSplit param max_depth (fp 1) (fp 1)
    (fp 1) (fp 1) coin_flip gpair [] rowset2 [batch] 1 nthread NeedForwardSearch
    NeedBackwardSearch 1 GetColDensity (λ _, feat_set) (λ _ _, thread_of)
    thread_of start.

End BuilderScenario.

(** * Properties *)

(** ** Folding [alter] over a list: the view of one node *)

Section node_view.
Context {A B : Type}.
Context (key : B → option nat) (f : nat → B → A → A).

Lemma foldl_ext_eq (g h : list A → B → list A) (xs : list B) (l : list A) :
  (∀ l x, g l x = h l x) → foldl g l xs = foldl h l xs.
Proof.
  intros Hgh. revert l. induction xs as [|x xs IH]; intros l; simpl; [done|].
  by rewrite Hgh, IH.
Qed.

Lemma keyed_step_length l x : length (keyed_step key f l x) = length l.
Proof. unfold keyed_step. destruct (key x); [apply length_alter | done]. Qed.

Lemma foldl_keyed_lookup (xs : list B) (l : list A) (n : nat) :
  foldl (keyed_step key f) l xs !! n
  = (λ a, foldl (λ a x, f n x a) a (filter (λ x, key x = Some n) xs)) <$> l !! n.
Proof.
  revert l. induction xs as [|x xs IH]; intros l; simpl.
  - by destruct (l !! n).
  - rewrite IH. unfold keyed_step at 1.
    destruct (key x) as [m|] eqn:Hk.
    + destruct (decide (m = n)) as [->|Hne].
      * rewrite filter_cons_True by done.
        rewrite list_lookup_alter_eq. by destruct (l !! n).
      * rewrite filter_cons_False by congruence.
        by rewrite list_lookup_alter_ne.
    + by rewrite filter_cons_False by congruence.
Qed.

Lemma foldl_alter_lookup_notin (g : nat → A → A) (ns : list nat) (l : list A) (n : nat) :
  n ∉ ns →
  foldl (λ l m, alter (g m) m l) l ns !! n = l !! n.
Proof.
  revert l. induction ns as [|m ns IH]; intros l Hnin; simpl; [done|].
  apply not_elem_of_cons in Hnin as [Hm Hns].
  rewrite IH by done. by rewrite list_lookup_alter_ne.
Qed.

Lemma foldl_alter_lookup_in (g : nat → A → A) (ns : list nat) (l : list A) (n : nat) :
  (∀ a, g n (g n a) = g n a) →
  n ∈ ns →
  foldl (λ l m, alter (g m) m l) l ns !! n = g n <$> l !! n.
Proof.
  intros Hidem. revert l. induction ns as [|m ns IH]; intros l Hin; simpl.
  - by apply elem_of_nil in Hin.
  - destruct (decide (n ∈ ns)) as [Hin'|Hnin].
    + rewrite IH by done.
      destruct (decide (m = n)) as [->|Hne].
      * rewrite list_lookup_alter_eq. destruct (l !! n); simpl; by rewrite ?Hidem.
      * by rewrite list_lookup_alter_ne.
    + apply elem_of_cons in Hin as [->|?]; [|done].
      rewrite foldl_alter_lookup_notin by done. apply list_lookup_alter_eq.
Qed.

Lemma foldl_alter_lookup_once (g : nat → A → A) (ns : list nat) (l : list A) (n : nat) :
  NoDup ns → n ∈ ns →
  foldl (λ l m, alter (g m) m l) l ns !! n = g n <$> l !! n.
Proof.
  revert l. induction ns as [|m ns IH]; intros l Hnd Hin; simpl.
  - by apply elem_of_nil in Hin.
  - apply NoDup_cons in Hnd as [Hm Hnd].
    apply elem_of_cons in Hin as [->|Hin].
    + rewrite foldl_alter_lookup_notin by done. apply list_lookup_alter_eq.
    + rewrite IH by done. rewrite list_lookup_alter_ne; [done|].
      intros ->. done.
Qed.

End node_view.

(** ** The enumeration: views of one node *)

Section enumerate_props.
Context {F : Type} `{!FloatOps F} `{!SplitEvaluator F}.
Context (param_ : TrainParam F).
Context (position_ : list Z).
Context (snode_ : list (NodeEntry F)).
Context (qexpand_ : list nat).
Context (gpair : list (GradientPair F)).

#[local] Abbreviation eps := (robust_eps param_).
#[local] Abbreviation mcw := (min_child_weight param_).
#[local] Abbreviation gp := (λ it : EntryPtr F, gpair !!! index (ent it)).

Lemma sweep_step_keyed fid d_step temp it :
  sweep_step param_ position_ snode_ gpair fid d_step temp it
  = keyed_step (node_of position_)
      (λ n it e, robust_update param_ snode_ gpair n fid d_step e it) temp it.
Proof.
  unfold sweep_step, keyed_step, node_of.
  destruct (position_ !! index (ent it)) as [nid|]; [|done].
  by destruct (nid <? 0).
Qed.

Lemma main_sweep_lookup fid d_step its temp n :
  main_sweep param_ position_ snode_ gpair fid d_step its temp !! n
  = (λ e, foldl (robust_update param_ snode_ gpair n fid d_step) e
            (entries_of position_ n its)) <$> temp !! n.
Proof.
  unfold main_sweep.
  rewrite (foldl_ext_eq _
    (keyed_step (node_of position_)
       (λ n it e, robust_update param_ snode_ gpair n fid d_step e it)))
    by (intros; apply sweep_step_keyed).
  apply (foldl_keyed_lookup (node_of position_)
    (λ n it e, robust_update param_ snode_ gpair n fid d_step e it)).
Qed.

Lemma main_sweep_app fid d_step l1 l2 temp :
  main_sweep param_ position_ snode_ gpair fid d_step (l1 ++ l2) temp
  = main_sweep param_ position_ snode_ gpair fid d_step l2
      (main_sweep param_ position_ snode_ gpair fid d_step l1 temp).
Proof. unfold main_sweep. apply foldl_app. Qed.

Lemma clear_scan_idemp (e : ThreadEntry F) : clear_scan (clear_scan e) = clear_scan e.
Proof. done. Qed.

Lemma clear_pass_lookup_in temp nid :
  nid ∈ qexpand_ → clear_pass qexpand_ temp !! nid = clear_scan <$> temp !! nid.
Proof.
  intros Hin. unfold clear_pass.
  apply (foldl_alter_lookup_in (λ _, clear_scan)); [apply clear_scan_idemp | done].
Qed.

Lemma clear_pass_lookup_notin temp nid :
  nid ∉ qexpand_ → clear_pass qexpand_ temp !! nid = temp !! nid.
Proof.
  intros Hin. unfold clear_pass.
  by apply (foldl_alter_lookup_notin (λ _, clear_scan)).
Qed.

(** C7.  [EnumerateSplit] starts by clearing, for every node of the
frontier, the eight fields stats, stats_left, stats_c_left, stats_unc,
stats_unc_right, data_unc_right, data_unc and c_left_counter of the
thread entry; its best split (and the three remaining fields) are as
before, and the entries of the other nodes are not touched. *)
Theorem clear_pass_spec data begin end_ d_step fid temp :
  EnumerateSplit param_ position_ snode_ qexpand_ gpair data begin end_ d_step
    fid temp
  = midpoint_pass position_ fid (scan data begin end_ d_step)
      (closing_pass param_ snode_ qexpand_ fid d_step
         (main_sweep param_ position_ snode_ gpair fid d_step
            (scan data begin end_ d_step) (clear_pass qexpand_ temp)))
  ∧ (∀ nid e, nid ∈ qexpand_ → temp !! nid = Some e →
      ∃ e', clear_pass qexpand_ temp !! nid = Some e'
        ∧ stats e' = GradStats.Clear
        ∧ stats_left e' = GradStats.Clear
        ∧ stats_c_left e' = GradStats.Clear
        ∧ stats_unc e' = GradStats.Clear
        ∧ stats_unc_right e' = GradStats.Clear
        ∧ data_unc_right e' = []
        ∧ data_unc e' = []
        ∧ c_left_counter e' = 0
        ∧ best e' = best e
        ∧ last_fvalue e' = last_fvalue e
        ∧ first_fvalue e' = first_fvalue e
        ∧ stats_extra e' = stats_extra e)
  ∧ (∀ nid, nid ∉ qexpand_ → clear_pass qexpand_ temp !! nid = temp !! nid).
Proof.
  split; [done|]. split.
  - intros nid e Hin He. exists (clear_scan e).
    rewrite clear_pass_lookup_in, He by done. done.
  - intros nid Hnin. by apply clear_pass_lookup_notin.
Qed.

(** ** The two drain loops *)

Lemma drain_unc_right_spec eta q s_left s_unc_right :
  ∃ popped rest,
    q = popped ++ rest
    ∧ Forall (λ p, Fltb (fvalue (ent p)) eta = true) popped
    ∧ (∀ p, head rest = Some p → Fltb (fvalue (ent p)) eta = false)
    ∧ drain_unc_right gpair eta q s_left s_unc_right
      = (rest, foldl GradStats.Add s_left (gp <$> popped),
         foldl GradStats.Subtract s_unc_right (gp <$> popped)).
Proof.
  revert s_left s_unc_right.
  induction q as [|p q IH]; intros s_left s_unc_right; simpl.
  - exists [], []. repeat split; [constructor | intros ? [=]].
  - destruct (Fltb (fvalue (ent p)) eta) eqn:Hp.
    + destruct (IH (GradStats.Add s_left (gp p))
                  (GradStats.Subtract s_unc_right (gp p)))
        as (popped & rest & -> & Hall & Hhd & ->).
      exists (p :: popped), rest. repeat split; [by constructor | done].
    + exists [], (p :: q). repeat split; [constructor|].
      intros ? [= <-]. done.
Qed.


(** ** Invariants of the main sweep *)

Lemma drop_split {A : Type} (l : list A) (n : nat) popped rest :
  drop n l = popped ++ rest →
  rest = drop (n + length popped) l
  ∧ take (n + length popped) l = take n l ++ popped
  ∧ ((n ≤ length l)%nat → (n + length popped ≤ length l)%nat).
Proof.
  intros Hd.
  assert (Hlen : length (drop n l) = (length popped + length rest)%nat)
    by (by rewrite Hd, length_app).
  rewrite length_drop in Hlen.
  rewrite <- (drop_drop l (length popped) n), Hd, drop_app_length.
  split; [done|]. split; [|lia].
  rewrite <- (take_drop n l) at 1.
  destruct (decide (n ≤ length l)%nat) as [Hle|Hgt].
  - rewrite take_app_ge by (rewrite length_take; lia).
    rewrite length_take, Nat.min_l by done.
    replace (n + length popped - n)%nat with (length popped) by lia.
    by rewrite Hd, take_app_length.
  - assert (popped = []) as -> by (destruct popped; [done | simpl in Hlen; lia]).
    simpl. rewrite Nat.add_0_r, app_nil_r. by rewrite take_drop.
Qed.

Lemma drain_unc_split bound q s_c_left counter s_unc :
  ∃ popped rest counter',
    q = popped ++ rest
    ∧ Forall (λ p, Fltb (fvalue (ent p)) bound = true) popped
    ∧ (∀ p, head rest = Some p → Fltb (fvalue (ent p)) bound = false)
    ∧ drain_unc gpair bound q s_c_left counter s_unc
      = (rest, foldl GradStats.Add s_c_left (gp <$> popped), counter',
         foldl GradStats.Subtract s_unc (gp <$> popped)).
Proof.
  revert s_c_left counter s_unc.
  induction q as [|p q IH]; intros s_c_left counter s_unc; simpl.
  - exists [], [], counter. split_and!; [done | constructor | intros ? [=] | done].
  - destruct (Fltb (fvalue (ent p)) bound) eqn:Hp.
    + destruct (IH (GradStats.Add s_c_left (gp p)) ((counter + 1) mod 2 ^ 32)
                  (GradStats.Subtract s_unc (gp p)))
        as (popped & rest & c' & -> & Hall & Hhd & ->).
      exists (p :: popped), rest, c'.
      split_and!; [done | by constructor | done | done].
    + exists [], (p :: q), counter.
      split_and!; [done | constructor | | done].
      intros ? [= <-]. done.
Qed.

Lemma gsum_snoc its it :
  gsum gpair (its ++ [it]) = GradStats.Add (gsum gpair its) (gp it).
Proof. unfold gsum. by rewrite fmap_app, foldl_app. Qed.

Lemma gsum_app its popped :
  gsum gpair (its ++ popped) = foldl GradStats.Add (gsum gpair its) (gp <$> popped).
Proof. unfold gsum. by rewrite fmap_app, foldl_app. Qed.

Lemma Add_comm_r `{!GroupLaws F} (s : GradStats.t F) p q :
  GradStats.Add (GradStats.Add s p) q = GradStats.Add (GradStats.Add s q) p.
Proof.
  unfold GradStats.Add. simpl. f_equal.
  - by rewrite <- !Fadd_assoc, (Fadd_comm (grad p)).
  - by rewrite <- !Fadd_assoc, (Fadd_comm (hess p)).
Qed.

Lemma foldl_Add_comm `{!GroupLaws F} (s : GradStats.t F) p ps :
  foldl GradStats.Add (GradStats.Add s p) ps
  = GradStats.Add (foldl GradStats.Add s ps) p.
Proof.
  revert s. induction ps as [|q ps IH]; intros s; simpl; [done|].
  by rewrite Add_comm_r, IH.
Qed.

Lemma Subtract_Add `{!GroupLaws F} (s : GradStats.t F) p :
  GradStats.Subtract (GradStats.Add s p) p = s.
Proof. destruct s. unfold GradStats.Subtract, GradStats.Add. simpl. by rewrite !Fadd_sub. Qed.

Lemma gsum_pop `{!GroupLaws F} popped rest :
  foldl GradStats.Subtract (gsum gpair (popped ++ rest)) (gp <$> popped)
  = gsum gpair rest.
Proof.
  induction popped as [|p popped IH]; simpl; [done|].
  rewrite <- IH. f_equal. unfold gsum. simpl.
  by rewrite foldl_Add_comm, Subtract_Add.
Qed.

Lemma SetUnion_Clear_r `{!GroupLaws F} (s : GradStats.t F) :
  GradStats.SetUnion s GradStats.Clear = s.
Proof. destruct s. unfold GradStats.SetUnion. simpl. by rewrite !Fadd_0_r. Qed.

Lemma queues_at_absorb sc j i e it :
  queues_at sc j i e → queues_at (sc ++ [it]) j i (absorb gpair e it).
Proof.
  intros ([Hji Hi] & Hu & Hr). unfold queues_at. simpl.
  rewrite length_app, Hu, Hr, !drop_app_le by lia. simpl. split_and!; [lia | lia | done | done].
Qed.

Lemma sums_at_absorb sc j i e it :
  queues_at sc j i e → sums_at gpair sc j i e →
  sums_at gpair (sc ++ [it]) j i (absorb gpair e it).
Proof.
  intros ([Hji Hi] & _ & _) (Hs & Hl & Hc & Hr & Hu). unfold sums_at. simpl.
  rewrite !take_app_le, !drop_app_le by lia.
  rewrite !gsum_snoc, Hs, Hr, Hu. done.
Qed.

Lemma drain_inv eta sc j i e :
  nonneg_budget eps → queues_at sc j i e →
  ∃ j' i',
    (j ≤ j')%nat ∧ (i ≤ i')%nat
    ∧ queues_at sc j' i' (drain param_ gpair eta e)
    ∧ (GroupLaws F → sums_at gpair sc j i e →
       sums_at gpair sc j' i' (drain param_ gpair eta e))
    ∧ stats (drain param_ gpair eta e) = stats e
    ∧ last_fvalue (drain param_ gpair eta e) = last_fvalue e
    ∧ best (drain param_ gpair eta e) = best e.
Proof.
  intros Heps ([Hji Hi] & Hu & Hr).
  destruct (drain_unc_right_spec eta (data_unc_right e) (stats_left e)
              (stats_unc_right e)) as (popped_r & rest_r & Hqr & Hall_r & Hhd_r & Hdr).
  destruct (drain_unc_split (Fsub eta eps) (data_unc e) (stats_c_left e)
              (c_left_counter e) (stats_unc e))
    as (popped_u & rest_u & c' & Hqu & Hall_u & Hhd_u & Hdu).
  unfold drain. rewrite Hdr, Hdu. simpl.
  rewrite Hr in Hqr. rewrite Hu in Hqu.
  destruct (drop_split _ _ _ _ Hqr) as (Hrest_r & Htake_r & Hlen_r).
  destruct (drop_split _ _ _ _ Hqu) as (Hrest_u & Htake_u & Hlen_u).
  exists (j + length popped_u)%nat, (i + length popped_r)%nat.
  assert (Hle : (j + length popped_u ≤ i + length popped_r)%nat).
  { destruct (decide (j + length popped_u ≤ i + length popped_r)%nat) as [|Hgt];
      [done | exfalso].
    assert (Hlt : (i + length popped_r < length sc)%nat) by lia.
    destruct (lookup_lt_is_Some_2 sc _ Hlt) as [x Hx].
    assert (Hxr : head rest_r = Some x).
    { rewrite Hrest_r, head_lookup, lookup_drop. by rewrite Nat.add_0_r. }
    assert (Hxu : popped_u !! (i + length popped_r - j)%nat = Some x).
    { rewrite <- (lookup_app_l popped_u rest_u) by lia.
      rewrite <- Hqu, lookup_drop. rewrite <- Hx. f_equal. lia. }
    pose proof (Hhd_r x Hxr) as Hfalse.
    rewrite (Heps _ _ (proj1 (Forall_lookup _ _) Hall_u _ _ Hxu)) in Hfalse.
    done. }
  split_and!; try done; try lia.
  - unfold queues_at. simpl. split_and!; [lia | lia | done | done].
  - intros HG (Hs & Hl & Hc & Hsr & Hsu). unfold sums_at. simpl.
    rewrite Htake_r, Htake_u, !gsum_app, Hl, Hc, Hs.
    rewrite Hsr, Hsu, Hqr, Hqu, !gsum_pop, <- Hrest_r, <- Hrest_u. done.
Qed.

Lemma robust_update_inv n fid d_step sc j i e it :
  nonneg_budget eps → queues_at sc j i e →
  ∃ j' i',
    (j ≤ j')%nat ∧ (i ≤ i')%nat
    ∧ queues_at (sc ++ [it]) j' i' (robust_update param_ snode_ gpair n fid d_step e it)
    ∧ (GroupLaws F → sums_at gpair sc j i e →
       sums_at gpair (sc ++ [it]) j' i'
         (robust_update param_ snode_ gpair n fid d_step e it)).
Proof.
  intros Heps Hq. unfold robust_update.
  destruct (GradStats.Empty (stats e)).
  - exists j, i. split_and!; [done | done | by apply queues_at_absorb |].
    intros _ Hs. by apply sums_at_absorb.
  - destruct (drain_inv (Fsub (fvalue (ent it)) eps) sc j i e Heps Hq)
      as (j' & i' & Hj & Hi & Hq' & Hs' & _).
    exists j', i'. split_and!; [done | done | |].
    + by apply (queues_at_absorb sc j' i' (set_best _ _)).
    + intros HG Hs.
      apply (sums_at_absorb sc j' i' (set_best _ _)); [done|].
      by apply Hs'.
Qed.

Lemma foldl_robust_update_inv n fid d_step l sc j i e :
  nonneg_budget eps → queues_at sc j i e →
  ∃ j' i',
    (j ≤ j')%nat ∧ (i ≤ i')%nat
    ∧ queues_at (sc ++ l) j' i'
        (foldl (robust_update param_ snode_ gpair n fid d_step) e l)
    ∧ (GroupLaws F → sums_at gpair sc j i e →
       sums_at gpair (sc ++ l) j' i'
         (foldl (robust_update param_ snode_ gpair n fid d_step) e l)).
Proof.
  intros Heps. revert sc j i e.
  induction l as [|it l IH]; intros sc j i e Hq; simpl.
  - exists j, i. rewrite app_nil_r. done.
  - destruct (robust_update_inv n fid d_step sc j i e it Heps Hq)
      as (j1 & i1 & Hj1 & Hi1 & Hq1 & Hs1).
    destruct (IH _ _ _ _ Hq1) as (j2 & i2 & Hj2 & Hi2 & Hq2 & Hs2).
    exists j2, i2. rewrite <- app_assoc in Hq2, Hs2. simpl in Hq2, Hs2.
    split_and!; [lia | lia | done |].
    intros HG Hs. apply Hs2; [done|]. by apply Hs1.
Qed.

Lemma clear_scan_inv (e : ThreadEntry F) :
  queues_at [] 0 0 (clear_scan e) ∧ sums_at gpair [] 0 0 (clear_scan e).
Proof. done. Qed.

(** ** The scan visits every pointer once *)

Lemma NoDup_omap_inj {A B : Type} (f : A → option B) (l : list A) :
  (∀ x y z, f x = Some z → f y = Some z → x = y) →
  NoDup l → NoDup (omap f l).
Proof.
  intros Hinj. induction 1 as [|x l Hx Hnd IH]; simpl; [constructor|].
  destruct (f x) as [z|] eqn:Hfx; [|done].
  constructor; [|done].
  intros (y & Hy & Hfy)%list_elem_of_omap.
  by rewrite (Hinj x y z Hfx Hfy) in Hx.
Qed.

Lemma deref_off (data : list (Entry F)) p (ptr : EntryPtr F) : deref data p = Some ptr → off ptr = p.
Proof.
  unfold deref. destruct (p <? 0); [done|].
  destruct (data !! Z.to_nat p); intros [= <-]. done.
Qed.

Lemma NoDup_walk (data : list (Entry F)) first step length :
  step ≠ 0 → NoDup (walk data first step length).
Proof.
  intros Hstep. unfold walk. apply NoDup_omap_inj; [|apply NoDup_seqZ].
  intros x y z Hx%deref_off Hy%deref_off. nia.
Qed.

Lemma NoDup_scan (data : list (Entry F)) begin end_ d_step :
  d_step ≠ 0 → NoDup (scan data begin end_ d_step).
Proof.
  intros Hd. unfold scan. apply NoDup_walk.
  destruct (descent data begin end_ d_step); lia.
Qed.

Lemma not_elem_of_drop_mono {A : Type} (l l' : list A) (j j' : nat) x :
  NoDup (l ++ l') → x ∈ l → x ∉ drop j l → (j ≤ j')%nat →
  x ∉ drop j' (l ++ l').
Proof.
  intros Hnd [k Hk]%list_elem_of_lookup Hnin Hle [m Hm]%list_elem_of_lookup.
  rewrite lookup_drop in Hm.
  assert (Hk' : (l ++ l') !! k = Some x)
    by (rewrite lookup_app_l; [done | by eapply lookup_lt_Some]).
  pose proof (NoDup_lookup _ _ _ _ Hnd Hk' Hm) as ->.
  apply Hnin, list_elem_of_lookup. exists (j' + m - j)%nat.
  rewrite lookup_drop, <- Hk. f_equal. lia.
Qed.

(** ** The passes after the sweep only write [best] *)

Lemma set_best_set_best (e : ThreadEntry F) b b' :
  set_best (set_best e b) b' = set_best e b'.
Proof. done. Qed.

Lemma closing_pass_scan_fields fid d_step temp n e :
  temp !! n = Some e →
  ∃ b, closing_pass param_ snode_ qexpand_ fid d_step temp !! n
       = Some (set_best e b).
Proof.
  unfold closing_pass. revert temp e.
  induction qexpand_ as [|m ns IH]; intros temp e He; simpl.
  - exists (best e). rewrite He. by destruct e.
  - destruct (decide (m = n)) as [->|Hne].
    + destruct (IH (alter (closing_update param_ snode_ fid d_step n) n temp)
                  (closing_update param_ snode_ fid d_step n e)) as [b Hb].
      { by rewrite list_lookup_alter_eq, He. }
      exists b. rewrite Hb. done.
    + apply IH. by rewrite list_lookup_alter_ne.
Qed.

Lemma midpoint_step_scan_fields fid st it n e :
  mid_temp st !! n = Some e →
  ∃ b, mid_temp (midpoint_step position_ fid st it) !! n = Some (set_best e b).
Proof.
  intros He.
  assert (Hsame : ∃ b, mid_temp st !! n = Some (set_best e b))
    by (exists (best e); rewrite He; by destruct e).
  unfold midpoint_step.
  destruct (position_ !! index (ent it)) as [nid|]; [|done].
  destruct (nid <? 0); [done|].
  destruct (orb _ _); [done|].
  destruct (last_fvalue_map st !! Z.to_nat nid); [|done].
  destruct (andb _ _); [|done]. simpl.
  destruct (decide (Z.to_nat nid = n)) as [->|Hne].
  - rewrite list_lookup_alter_eq, He. simpl. eexists. done.
  - by rewrite list_lookup_alter_ne.
Qed.

Lemma midpoint_fold_scan_fields fid its st n e :
  mid_temp st !! n = Some e →
  ∃ b, mid_temp (foldl (midpoint_step position_ fid) st its) !! n
       = Some (set_best e b).
Proof.
  revert st e. induction its as [|it its IH]; intros st e He; simpl.
  - exists (best e). rewrite He. by destruct e.
  - destruct (midpoint_step_scan_fields fid st it n e He) as [b Hb].
    destruct (IH _ _ Hb) as [b' Hb']. exists b'. by rewrite Hb'.
Qed.

Lemma sweep_from_clear fid d_step l temp n e0 :
  n ∈ qexpand_ → temp !! n = Some e0 →
  main_sweep param_ position_ snode_ gpair fid d_step l (clear_pass qexpand_ temp) !! n
  = Some (foldl (robust_update param_ snode_ gpair n fid d_step) (clear_scan e0)
            (entries_of position_ n l)).
Proof.
  intros Hin He0. by rewrite main_sweep_lookup, clear_pass_lookup_in, He0.
Qed.

(** C4.  For a node of the frontier, after any part [l1] of the scan of a
column: [data_unc_right] is a suffix of [data_unc], which is a suffix of
the entries of the node scanned so far, in the order of the scan; an
entry that has left one of the queues is not in that queue at any later
point [l1 ++ l2] of the scan; and the queues are the same, with the same
suffix property, when [EnumerateSplit] returns. *)
Theorem queues_suffix data begin end_ d_step fid temp nid e0 :
  nonneg_budget eps →
  d_step ≠ 0 →
  nid ∈ qexpand_ →
  temp !! nid = Some e0 →
  (∀ l1 l2 l3, scan data begin end_ d_step = l1 ++ l2 ++ l3 →
    ∃ e1 e2,
      main_sweep param_ position_ snode_ gpair fid d_step l1
        (clear_pass qexpand_ temp) !! nid = Some e1
      ∧ main_sweep param_ position_ snode_ gpair fid d_step (l1 ++ l2)
          (clear_pass qexpand_ temp) !! nid = Some e2
      ∧ data_unc_right e1 `suffix_of` data_unc e1
      ∧ data_unc e1 `suffix_of` entries_of position_ nid l1
      ∧ (∀ x, x ∈ entries_of position_ nid l1 →
           x ∉ data_unc e1 → x ∉ data_unc e2)
      ∧ (∀ x, x ∈ entries_of position_ nid l1 →
           x ∉ data_unc_right e1 → x ∉ data_unc_right e2))
  ∧ (∃ e,
      EnumerateSplit param_ position_ snode_ qexpand_ gpair data begin end_
        d_step fid temp !! nid = Some e
      ∧ data_unc_right e `suffix_of` data_unc e
      ∧ data_unc e `suffix_of` entries_of position_ nid (scan data begin end_ d_step)).
Proof.
  intros Heps Hd Hin He0. split.
  - intros l1 l2 l3 Hscan.
    pose proof (NoDup_scan data begin end_ d_step Hd) as Hnd.
    rewrite Hscan, app_assoc in Hnd. apply NoDup_app in Hnd as (Hnd & _ & _).
    apply (NoDup_filter (λ it, node_of position_ it = Some nid)) in Hnd.
    rewrite filter_app in Hnd.
    rewrite !(sweep_from_clear _ _ _ _ _ e0) by done. unfold entries_of at 2. rewrite filter_app.
    fold (entries_of position_ nid l1) (entries_of position_ nid l2) in *.
    rewrite foldl_app.
    destruct (foldl_robust_update_inv nid fid d_step (entries_of position_ nid l1)
                [] 0 0 (clear_scan e0) Heps (proj1 (clear_scan_inv e0)))
      as (j1 & i1 & _ & _ & Hq1 & _).
    simpl in Hq1.
    destruct (foldl_robust_update_inv nid fid d_step (entries_of position_ nid l2)
                _ _ _ _ Heps Hq1) as (j2 & i2 & Hj & Hi & Hq2 & _).
    destruct Hq1 as ([Hji1 Hi1] & Hu1 & Hr1). destruct Hq2 as (_ & Hu2 & Hr2).
    eexists _, _. split; [done|]. split; [done|].
    rewrite Hu1, Hr1, Hu2, Hr2. split_and!.
    + replace i1 with (j1 + (i1 - j1))%nat by lia.
      rewrite <- drop_drop. apply suffix_drop.
    + apply suffix_drop.
    + intros x Hx Hnx. by apply not_elem_of_drop_mono with j1.
    + intros x Hx Hnx. by apply not_elem_of_drop_mono with i1.
  - unfold EnumerateSplit, midpoint_pass.
    set (its := scan data begin end_ d_step).
    destruct (foldl_robust_update_inv nid fid d_step (entries_of position_ nid its)
                [] 0 0 (clear_scan e0) Heps (proj1 (clear_scan_inv e0)))
      as (j1 & i1 & _ & _ & ([Hji1 Hi1] & Hu1 & Hr1) & _).
    simpl in Hu1, Hr1.
    destruct (closing_pass_scan_fields fid d_step _ nid _
                (sweep_from_clear fid d_step its temp nid e0 Hin He0)) as [b1 Hb1].
    destruct (midpoint_fold_scan_fields fid its (mkMidState _ ∅ ∅) nid _ Hb1)
      as [b2 Hb2].
    eexists. split; [exact Hb2|]. simpl. rewrite Hu1, Hr1. split.
    + replace i1 with (j1 + (i1 - j1))%nat by lia.
      rewrite <- drop_drop. apply suffix_drop.
    + apply suffix_drop.
Qed.

(** ** The candidate of the main sweep *)

Lemma lower_cases (x y : F) :
  (lower x y = y ∧ Fltb y x = true) ∨ (lower x y = x ∧ Fltb y x = false).
Proof. unfold lower. destruct (Fltb y x); auto. Qed.

Lemma lower_minimum4 `{!StrictOrderLaws F} (a b c d : F) :
  is_minimum (lower (lower (lower a b) c) d) [a; b; c; d].
Proof.
  assert (Hlow : ∀ x y z, Fltb z (lower x y) = true → Fltb z x = true).
  { intros x y z Hz. destruct (lower_cases x y) as [[Heq Hlt]|[Heq _]];
      rewrite Heq in Hz; [by eapply Fltb_trans | done]. }
  assert (Hlow' : ∀ x y, Fltb y (lower x y) = false).
  { intros x y. destruct (lower_cases x y) as [[-> _]|[-> ?]];
      [apply Fltb_irrefl | done]. }
  split.
  - destruct (lower_cases (lower (lower a b) c) d) as [[-> _]|[-> _]];
      [set_solver|].
    destruct (lower_cases (lower a b) c) as [[-> _]|[-> _]]; [set_solver|].
    destruct (lower_cases a b) as [[-> _]|[-> _]]; set_solver.
  - intros y Hy. destruct (Fltb y (lower (lower (lower a b) c) d)) eqn:Hlt; [|done].
    assert (Hd := Hlow' (lower (lower a b) c) d).
    assert (H3 := Hlow _ _ _ Hlt).
    assert (Hc := Hlow' (lower a b) c).
    assert (H2 := Hlow _ _ _ H3).
    assert (Hb := Hlow' a b).
    assert (H1 := Hlow _ _ _ H2).
    assert (Ha := Fltb_irrefl a).
    repeat (apply elem_of_cons in Hy as [->|Hy]); [congruence.. |].
    by apply elem_of_nil in Hy.
Qed.







(** ** The closing pass *)

(** C5.  In the closing pass, for a frontier node whose scanned total
[stats] and whose complement [snode[n].stats - stats] both have sum_hess >=
min_child_weight, the candidate handed to the update of the best split has
the loss change of the partition (stats | rest), the threshold
last_fvalue + sign(d) * (|last_fvalue| + kRtEps + eps) and default_left set
exactly when d is -1; for a frontier node that fails the test nothing is
offered. *)
Theorem closing_pass_candidate fid d_step temp nid e :
  NoDup qexpand_ →
  nid ∈ qexpand_ →
  temp !! nid = Some e →
  d_step = 1 ∨ d_step = -1 →
  let c := GradStats.SetSubstract (node_stats (snode_ !!! nid)) (stats e) in
  let admitted :=
    Fgeb (GradStats.sum_hess (stats e)) mcw && Fgeb (GradStats.sum_hess c) mcw in
  let gap := Fadd (Fadd (Fabs (last_fvalue e)) kRtEps) eps in
  closing_pass param_ snode_ qexpand_ fid d_step temp !! nid
  = Some (if admitted
          then set_best e
                 (SplitEntry.Update (best e)
                    (partition_loss_chg snode_ nid fid d_step (stats e)) fid
                    (Fadd (last_fvalue e) (sign_times d_step gap))
                    (d_step =? -1))
          else e).
Proof.
  intros Hnd Hin He Hd c admitted gap. unfold closing_pass.
  rewrite (foldl_alter_lookup_once (closing_update param_ snode_ fid d_step))
    by done.
  rewrite He. simpl. f_equal.
  unfold closing_update, closing_candidate. fold c. fold admitted.
  destruct admitted; simpl.
  - unfold partition_loss_chg. fold c. fold gap.
    by destruct Hd as [-> | ->].
  - by destruct e.
Qed.

(** ** What the evaluation tests *)

(** C2, as the code has it.  The evaluation at a threshold is entered
exactly when the gate of the nominal candidate passes (fvalue differs from
last_fvalue, the running stats and the complement of the nominal left
side have sum_hess >= min_child_weight); otherwise no candidate is
offered.  Once entered, with an empty [data_unc] the candidate is the
nominal one, and with a non-empty [data_unc] the loss changes of all four
partitions are compared, none of them being tested on its sides. *)
Theorem nominal_gate_only `{!StrictOrderLaws F} nid fid d_step fv eta e :
  (robust_candidate param_ snode_ nid fid d_step fv eta e = None
   ↔ gate param_ snode_ nid fv e = false)
  ∧ (gate param_ snode_ nid fv e = true →
     ∃ cand,
       robust_candidate param_ snode_ nid fid d_step fv eta e = Some cand
       ∧ (data_unc e = [] →
          cand_loss_chg cand
          = partition_loss_chg snode_ nid fid d_step (nominal_left e))
       ∧ (data_unc e ≠ [] →
          is_minimum (cand_loss_chg cand)
            (partition_loss_chg snode_ nid fid d_step <$> four_partitions e))).
Proof.
  unfold gate, robust_candidate.
  destruct (Fneb fv (last_fvalue e)
            && Fgeb (GradStats.sum_hess (stats e)) mcw) eqn:Hg1; cbn [andb].
  2: { split; [done | intros [=]]. }
  destruct (Fgeb (GradStats.sum_hess
              (GradStats.SetSubstract (node_stats (snode_ !!! nid)) (stats_left e)))
              mcw) eqn:Hg2.
  2: { split; [done | intros [=]]. }
  split; [split; intros [=]|]. intros _. eexists. split; [done|]. cbn [cand_loss_chg].
  destruct (data_unc e) as [|p q]; split; try done.
  intros _. apply lower_minimum4.
Qed.

End enumerate_props.

(** ** Committing the splits of a level *)

Section commit_props.
Context {F : Type} `{!FloatOps F}.
Context (param_ : TrainParam F).
Context (snode_ : list (NodeEntry F)).

Lemma AddChilds_length (tree : list (RegTree.Node F)) nid :
  length (RegTree.AddChilds nid tree) = (length tree + 2)%nat.
Proof. unfold RegTree.AddChilds. rewrite length_app, length_alter. simpl. lia. Qed.

Lemma commit_node_grows (tree : list (RegTree.Node F)) nid :
  (length tree ≤ length (commit_node param_ snode_ tree nid))%nat.
Proof.
  unfold commit_node. destruct (Fgtb _ _); rewrite !length_alter;
    [rewrite AddChilds_length|]; lia.
Qed.

(* the node and the two children a split is stored in *)
Lemma commit_node_split (tree : list (RegTree.Node F)) nid node :
  tree !! nid = Some node →
  Fgtb (SplitEntry.loss_chg (node_best (snode_ !!! nid))) kRtEps = true →
  commit_node param_ snode_ tree nid
  = alter (RegTree.SetSplit (SplitEntry.SplitIndex (node_best (snode_ !!! nid)))
             (SplitEntry.split_value (node_best (snode_ !!! nid)))
             (SplitEntry.DefaultLeft (node_best (snode_ !!! nid)))
           ∘ RegTree.SetChildren (Z.of_nat (length tree)) (Z.of_nat (length tree) + 1))
      nid tree
    ++ [RegTree.SetLeaf F0 0 (RegTree.fresh (Z.of_nat nid));
        RegTree.SetLeaf F0 0 (RegTree.fresh (Z.of_nat nid))].
Proof.
  intros Hnode Hgt. pose proof (lookup_lt_Some _ _ _ Hnode) as Hlt.
  unfold commit_node. rewrite Hgt. unfold RegTree.AddChilds.
  set (l := Z.of_nat (length tree)).
  set (t1 := alter (RegTree.SetChildren l (l + 1)) nid tree).
  set (kids := [RegTree.fresh (Z.of_nat nid); RegTree.fresh (Z.of_nat nid)]).
  assert (Hlen1 : length t1 = length tree) by apply length_alter.
  assert (Ht2 : alter (RegTree.SetSplit (SplitEntry.SplitIndex (node_best (snode_ !!! nid)))
                   (SplitEntry.split_value (node_best (snode_ !!! nid)))
                   (SplitEntry.DefaultLeft (node_best (snode_ !!! nid)))) nid (t1 ++ kids)
                = alter (RegTree.SetSplit (SplitEntry.SplitIndex (node_best (snode_ !!! nid)))
                   (SplitEntry.split_value (node_best (snode_ !!! nid)))
                   (SplitEntry.DefaultLeft (node_best (snode_ !!! nid)))
                 ∘ RegTree.SetChildren l (l + 1)) nid tree ++ kids).
  { rewrite alter_app_l by lia. unfold t1. by rewrite list_alter_alter_eq. }
  rewrite Ht2.
  set (t2 := alter _ nid tree).
  assert (Hlen2 : length t2 = length tree) by apply length_alter.
  assert (Hn : (t2 ++ kids) !!! nid
               = RegTree.SetSplit (SplitEntry.SplitIndex (node_best (snode_ !!! nid)))
                   (SplitEntry.split_value (node_best (snode_ !!! nid)))
                   (SplitEntry.DefaultLeft (node_best (snode_ !!! nid)))
                   (RegTree.SetChildren l (l + 1) node)).
  { apply list_lookup_total_correct. rewrite lookup_app_l by lia.
    unfold t2. by rewrite list_lookup_alter_eq, Hnode. }
  rewrite Hn. simpl.
  replace (Z.to_nat l) with (length t2 + 0)%nat by (unfold l; lia).
  rewrite alter_app_r. simpl.
  assert (Hn' : (t2 ++ [RegTree.SetLeaf F0 0 (RegTree.fresh (Z.of_nat nid));
                        RegTree.fresh (Z.of_nat nid)]) !!! nid
                = RegTree.SetSplit (SplitEntry.SplitIndex (node_best (snode_ !!! nid)))
                    (SplitEntry.split_value (node_best (snode_ !!! nid)))
                    (SplitEntry.DefaultLeft (node_best (snode_ !!! nid)))
                    (RegTree.SetChildren l (l + 1) node)).
  { apply list_lookup_total_correct. rewrite lookup_app_l by lia.
    unfold t2. by rewrite list_lookup_alter_eq, Hnode. }
  rewrite Hn'. simpl.
  replace (Z.to_nat (l + 1)) with (length t2 + 1)%nat by (unfold l; lia).
  rewrite alter_app_r. done.
Qed.

Lemma commit_node_other (tree : list (RegTree.Node F)) nid k :
  (nid < length tree)%nat → (k < length tree)%nat → k ≠ nid →
  commit_node param_ snode_ tree nid !! k = tree !! k.
Proof.
  intros Hnid Hk Hne.
  destruct (lookup_lt_is_Some_2 tree nid Hnid) as [node Hnode].
  destruct (Fgtb (SplitEntry.loss_chg (node_best (snode_ !!! nid))) kRtEps) eqn:Hgt.
  - rewrite (commit_node_split tree nid node Hnode Hgt).
    rewrite lookup_app_l by (rewrite length_alter; lia).
    by rewrite list_lookup_alter_ne.
  - unfold commit_node. rewrite Hgt. by rewrite list_lookup_alter_ne.
Qed.

Lemma commit_preserves qs (tree : list (RegTree.Node F)) k :
  (∀ m, m ∈ qs → (m < length tree)%nat) →
  (k < length tree)%nat → k ∉ qs →
  commit param_ snode_ qs tree !! k = tree !! k.
Proof.
  unfold commit. revert tree.
  induction qs as [|m qs IH]; intros tree Hqs Hk Hnin; simpl; [done|].
  apply not_elem_of_cons in Hnin as [Hne Hnin].
  pose proof (commit_node_grows tree m) as Hgrow.
  rewrite IH; [| |lia|done].
  - apply commit_node_other; [apply Hqs; set_solver | done | done].
  - intros m' Hm'. assert (m' < length tree)%nat by (apply Hqs; set_solver). lia.
Qed.

(** C9.  At the commit of a level, for every node of the frontier: when
the loss change of its best split is greater than kRtEps the node gets two
new children, which are fresh leaves, and stores feature, threshold and
default direction of the split; otherwise it becomes a finished leaf with
value weight * learning_rate, the split fields of the node are not
written and no node is added for it.  [commit] is a total function: a
loss change that does not exceed kRtEps is no error. *)
Theorem commit_spec qexpand (tree : list (RegTree.Node F)) nid node :
  NoDup qexpand →
  (∀ m, m ∈ qexpand → (m < length tree)%nat) →
  nid ∈ qexpand →
  tree !! nid = Some node →
  let e := snode_ !!! nid in
  let tree' := commit param_ snode_ qexpand tree in
  if Fgtb (SplitEntry.loss_chg (node_best e)) kRtEps then
    ∃ node' left right,
      tree' !! nid = Some node'
      ∧ RegTree.IsLeaf node' = false
      ∧ RegTree.LeftChild node' = Z.of_nat left
      ∧ RegTree.RightChild node' = Z.of_nat right
      ∧ (length tree ≤ left)%nat ∧ right = S left
      ∧ RegTree.SplitIndex node' = SplitEntry.SplitIndex (node_best e)
      ∧ RegTree.SplitCond node' = SplitEntry.split_value (node_best e)
      ∧ RegTree.DefaultLeft node' = SplitEntry.DefaultLeft (node_best e)
      ∧ tree' !! left = Some (RegTree.SetLeaf F0 0 (RegTree.fresh (Z.of_nat nid)))
      ∧ tree' !! right = Some (RegTree.SetLeaf F0 0 (RegTree.fresh (Z.of_nat nid)))
  else
    ∃ node',
      tree' !! nid = Some node'
      ∧ RegTree.IsLeaf node' = true
      ∧ RegTree.RightChild node' = -1
      ∧ RegTree.LeafValue node' = Fmul (weight e) (learning_rate param_)
      ∧ RegTree.SplitIndex node' = RegTree.SplitIndex node
      ∧ RegTree.DefaultLeft node' = RegTree.DefaultLeft node.
Proof.
  intros Hnd Hqs Hin Hnode e tree'.
  apply list_elem_of_split in Hin as (pre & post & ->).
  apply NoDup_app in Hnd as (_ & Hpre & [Hpost _]%NoDup_cons).
  assert (Hnpre : nid ∉ pre) by (intros ?; apply (Hpre nid); set_solver).
  unfold tree', commit. rewrite foldl_app. simpl.
  fold (commit param_ snode_ pre tree).
  set (t1 := commit param_ snode_ pre tree).
  fold (commit param_ snode_ post (commit_node param_ snode_ t1 nid)).
  assert (Hlen1 : (length tree ≤ length t1)%nat).
  { unfold t1, commit. clear. revert tree.
    induction pre as [|m pre IH]; intros tree; simpl; [done|].
    etrans; [apply (commit_node_grows tree m) | apply IH]. }
  assert (Hnode1 : t1 !! nid = Some node).
  { unfold t1. rewrite commit_preserves; [done| |by eapply lookup_lt_Some|done].
    intros m Hm. apply Hqs. set_solver. }
  pose proof (commit_node_grows t1 nid) as Hlen2.
  assert (Hpostlt : ∀ m, m ∈ post →
            (m < length (commit_node param_ snode_ t1 nid))%nat).
  { intros m Hm. assert (m < length tree)%nat by (apply Hqs; set_solver). lia. }
  assert (Hpost_ne : ∀ k, (length tree ≤ k)%nat → k ∉ post).
  { intros k Hk Hkin. assert (k < length tree)%nat by (apply Hqs; set_solver). lia. }
  pose proof (lookup_lt_Some _ _ _ Hnode) as Hnlt.
  destruct (Fgtb (SplitEntry.loss_chg (node_best e)) kRtEps) eqn:Hgt.
  - pose proof (commit_node_split t1 nid node Hnode1 Hgt) as Hsplit.
    assert (Hlen3 : length (commit_node param_ snode_ t1 nid) = (length t1 + 2)%nat).
    { rewrite Hsplit, length_app, length_alter. simpl. lia. }
    eexists _, (length t1), (S (length t1)).
    split_and!.
    + rewrite commit_preserves; [|done|lia|done].
      rewrite Hsplit, lookup_app_l by (rewrite length_alter; lia).
      rewrite list_lookup_alter_eq, Hnode1. done.
    + simpl. unfold RegTree.IsLeaf. simpl. apply Z.eqb_neq. lia.
    + done.
    + simpl. lia.
    + done.
    + done.
    + done.
    + done.
    + done.
    + rewrite commit_preserves; [|done|lia|apply Hpost_ne; lia].
      rewrite Hsplit, lookup_app_r by (rewrite length_alter; lia).
      by rewrite length_alter, Nat.sub_diag.
    + rewrite commit_preserves; [|done|lia|apply Hpost_ne; lia].
      rewrite Hsplit, lookup_app_r by (rewrite length_alter; lia).
      rewrite length_alter. by replace (S (length t1) - length t1)%nat with 1%nat by lia.
  - eexists. split_and!.
    + rewrite commit_preserves; [|done|lia|done].
      unfold commit_node. fold e. rewrite Hgt.
      rewrite list_lookup_alter_eq, Hnode1. done.
    + done.
    + done.
    + done.
    + done.
    + done.
Qed.

End commit_props.

(** ** Encoded positions *)

Section position_props.
Context {F : Type} `{!FloatOps F}.

Lemma SetEncodePosition_length position_ ridx nid :
  length (SetEncodePosition position_ ridx nid) = length position_.
Proof. unfold SetEncodePosition. destruct (_ <? _); apply length_insert. Qed.

Lemma SetEncodePosition_other position_ ridx nid r :
  r ≠ ridx → SetEncodePosition position_ ridx nid !! r = position_ !! r.
Proof.
  intros Hne. unfold SetEncodePosition.
  destruct (_ <? _); by rewrite list_lookup_insert_ne.
Qed.

Lemma SetEncodePosition_same position_ ridx nid :
  (ridx < length position_)%nat →
  SetEncodePosition position_ ridx nid !!! ridx
  = if position_ !!! ridx <? 0 then Z.lnot nid else nid.
Proof.
  intros Hlt. unfold SetEncodePosition.
  destruct (_ <? _); apply list_lookup_total_correct;
    by rewrite list_lookup_insert_eq.
Qed.

Lemma lookup_total_eq {A : Type} `{!Inhabited A} (l k : list A) i :
  l !! i = k !! i → l !!! i = k !!! i.
Proof. intros Heq. by rewrite !list_lookup_total_alt, Heq. Qed.

Lemma DecodePosition_nonneg position_ ridx : 0 ≤ DecodePosition position_ ridx.
Proof.
  unfold DecodePosition. destruct (Z.ltb_spec (position_ !!! ridx) 0);
    [unfold Z.lnot|]; lia.
Qed.

Lemma exclusion_kept_encode (tree : list (RegTree.Node F)) position_ ridx nid p0 :
  (ridx < length position_)%nat → 0 ≤ nid →
  (p0 < 0 ↔ position_ !!! ridx < 0) →
  (p0 < 0 ↔ SetEncodePosition position_ ridx nid !!! ridx < 0).
Proof.
  intros Hlt Hnid Hp. rewrite SetEncodePosition_same by done.
  destruct (Z.ltb_spec (position_ !!! ridx) 0); unfold Z.lnot; lia.
Qed.

(* the first phase keeps every sign *)
Lemma nondefault_entry_sign (tree : list (RegTree.Node F)) fid position_ e :
  children_are_nodes tree →
  length (nondefault_entry tree fid position_ e) = length position_
  ∧ ∀ r, nondefault_entry tree fid position_ e !!! r < 0 ↔ position_ !!! r < 0.
Proof.
  intros Hwf. unfold nondefault_entry.
  set (nid := DecodePosition position_ (index e)).
  destruct (negb (RegTree.IsLeaf (tree !!! Z.to_nat nid)) && _) eqn:Hc; [|done].
  apply andb_true_iff in Hc as [Hleaf%negb_true_iff _].
  assert (Hkids : 0 ≤ RegTree.LeftChild (tree !!! Z.to_nat nid)
                  ∧ 0 ≤ RegTree.RightChild (tree !!! Z.to_nat nid)).
  { destruct (tree !! Z.to_nat nid) as [n|] eqn:Hn.
    - rewrite (list_lookup_total_correct _ _ _ Hn) in *. by eapply Hwf.
    - rewrite list_lookup_total_alt, Hn in Hleaf. done. }
  assert (Hgen : ∀ child, 0 ≤ child →
    length (SetEncodePosition position_ (index e) child) = length position_
    ∧ ∀ r, SetEncodePosition position_ (index e) child !!! r < 0
           ↔ position_ !!! r < 0).
  { intros child Hchild. split; [apply SetEncodePosition_length|]. intros r.
    destruct (decide (r = index e)) as [->|Hne].
    - destruct (decide (index e < length position_)%nat) as [Hlt|Hge].
      + symmetry. by apply (exclusion_kept_encode tree).
      + unfold SetEncodePosition.
        destruct (_ <? _); by rewrite list_insert_ge by lia.
    - by rewrite (lookup_total_eq _ _ _ (SetEncodePosition_other _ _ _ _ Hne)). }
  destruct (Fltb _ _); apply Hgen; tauto.
Qed.

Lemma SetNonDefaultPosition_sign qexpand batches (tree : list (RegTree.Node F))
    position_ :
  children_are_nodes tree →
  length (SetNonDefaultPosition qexpand batches tree position_) = length position_
  ∧ ∀ r, SetNonDefaultPosition qexpand batches tree position_ !!! r < 0
         ↔ position_ !!! r < 0.
Proof.
  intros Hwf. unfold SetNonDefaultPosition.
  generalize (sort_unique (RegTree.SplitIndex <$>
    filter (λ n, RegTree.IsLeaf n = false) ((tree !!!.) <$> qexpand))).
  intros fsplits.
  assert (Hcol : ∀ fid col p,
    length (foldl (nondefault_entry tree fid) p col) = length p
    ∧ ∀ r, foldl (nondefault_entry tree fid) p col !!! r < 0 ↔ p !!! r < 0).
  { intros fid col. induction col as [|e col IH]; intros p; simpl; [done|].
    destruct (IH (nondefault_entry tree fid p e)) as [Hl Hs].
    destruct (nondefault_entry_sign tree fid p e Hwf) as [Hl' Hs'].
    split; [congruence|]. intros r. by rewrite Hs. }
  assert (Hbatch : ∀ (batch : list (list (Entry F))) fs p,
    length (foldl (λ p fid, foldl (nondefault_entry tree fid) p (batch !!! fid)) p fs)
    = length p
    ∧ ∀ r, foldl (λ p fid, foldl (nondefault_entry tree fid) p (batch !!! fid)) p fs
             !!! r < 0 ↔ p !!! r < 0).
  { intros batch fs. induction fs as [|fid fs IH]; intros p; simpl; [done|].
    destruct (IH (foldl (nondefault_entry tree fid) p (batch !!! fid))) as [Hl Hs].
    destruct (Hcol fid (batch !!! fid) p) as [Hl' Hs'].
    split; [congruence|]. intros r. by rewrite Hs. }
  revert position_. induction batches as [|batch batches IH]; intros p; simpl; [done|].
  destruct (IH (foldl (λ p fid, foldl (nondefault_entry tree fid) p (batch !!! fid))
                  p fsplits)) as [Hl Hs].
  destruct (Hbatch batch fsplits p) as [Hl' Hs'].
  split; [congruence|]. intros r. by rewrite Hs.
Qed.

Lemma reset_row_kept (tree : list (RegTree.Node F)) p0s position_ ridx p' :
  children_are_nodes tree →
  length position_ = length p0s →
  (∀ r, exclusion_kept tree (p0s !!! r) (position_ !!! r)) →
  reset_row tree position_ ridx = Some p' →
  length p' = length p0s
  ∧ ∀ r, exclusion_kept tree (p0s !!! r) (p' !!! r).
Proof.
  intros Hwf Hlen Hkept. unfold reset_row.
  case_bool_decide as Hlt; [|done].
  set (nid := DecodePosition position_ ridx).
  pose proof (DecodePosition_nonneg position_ ridx) as Hnid. fold nid in Hnid.
  assert (Hother : ∀ q r, r ≠ ridx →
            exclusion_kept tree (p0s !!! r) (<[ridx:=q]> position_ !!! r)).
  { intros q r Hne.
    rewrite (lookup_total_eq (<[ridx:=q]> position_) position_ r)
      by (by rewrite list_lookup_insert_ne). apply Hkept. }
  assert (Henc : ∀ child, 0 ≤ child →
    RegTree.IsLeaf (tree !!! Z.to_nat nid) = false →
    ∀ r, exclusion_kept tree (p0s !!! r)
           (SetEncodePosition position_ ridx child !!! r)).
  { intros child Hchild Hleaf r.
    destruct (decide (r = ridx)) as [->|Hne].
    - rewrite SetEncodePosition_same by done.
      specialize (Hkept ridx). unfold exclusion_kept in *.
      destruct (Z.ltb_spec (position_ !!! ridx) 0) as [Hneg|Hpos].
      + destruct Hkept as [?|[?|(? & ? & [Hfl _])]]; [left|lia|].
        * unfold Z.lnot. lia.
        * exfalso. unfold nid, DecodePosition in Hleaf.
          rewrite (proj2 (Z.ltb_lt _ _) Hneg) in Hleaf. congruence.
      + destruct Hkept as [?|[?|?]]; [lia|right; left; lia|lia].
    - rewrite (lookup_total_eq _ _ _ (SetEncodePosition_other _ _ _ _ Hne)).
      apply Hkept. }
  destruct (RegTree.IsLeaf (tree !!! Z.to_nat nid)) eqn:Hleaf.
  - destruct (Z.eqb_spec (RegTree.RightChild (tree !!! Z.to_nat nid)) (-1))
      as [Hright|Hright]; intros [= <-]; [|done].
    split; [by rewrite length_insert|]. intros r.
    destruct (decide (r = ridx)) as [->|Hne]; [|by apply Hother].
    rewrite (list_lookup_total_correct (<[ridx:=Z.lnot nid]> position_) ridx
               (Z.lnot nid)) by (by rewrite list_lookup_insert_eq).
    assert (Hfin : finished_leaf (tree !!! Z.to_nat (Z.lnot (Z.lnot nid)))).
    { rewrite Z.lnot_involutive. done. }
    specialize (Hkept ridx). unfold exclusion_kept in *.
    destruct Hkept as [?|[?|?]].
    + left. unfold Z.lnot. lia.
    + right; right. unfold Z.lnot at 1. split_and!; [lia | lia | done].
    + right; right. unfold Z.lnot at 1. split_and!; [lia | lia | done].
  - assert (Hkids : 0 ≤ RegTree.LeftChild (tree !!! Z.to_nat nid)
                    ∧ 0 ≤ RegTree.RightChild (tree !!! Z.to_nat nid)).
    { destruct (tree !! Z.to_nat nid) as [n|] eqn:Hn.
      - rewrite (list_lookup_total_correct _ _ _ Hn) in *. by eapply Hwf.
      - rewrite list_lookup_total_alt, Hn in Hleaf. done. }
    destruct (RegTree.DefaultLeft _); intros [= <-];
      (split; [by rewrite SetEncodePosition_length | apply Henc; tauto]).
Qed.

Lemma reset_rows_kept (tree : list (RegTree.Node F)) p0s rowset position_ p' :
  children_are_nodes tree →
  length position_ = length p0s →
  (∀ r, exclusion_kept tree (p0s !!! r) (position_ !!! r)) →
  reset_rows tree rowset position_ = Some p' →
  length p' = length p0s
  ∧ ∀ r, exclusion_kept tree (p0s !!! r) (p' !!! r).
Proof.
  intros Hwf. revert position_.
  induction rowset as [|ridx rowset IH]; intros position_ Hlen Hkept; simpl.
  - by intros [= <-].
  - destruct (reset_row tree position_ ridx) as [p1|] eqn:Hrow; [|done].
    destruct (reset_row_kept tree p0s position_ ridx p1 Hwf Hlen Hkept Hrow)
      as [Hlen1 Hkept1].
    by apply IH.
Qed.

(** C10.  [SetEncodePosition] keeps an instance excluded or eligible: a
negative position becomes the complement of the new node id, a
non-negative one the node id itself, and either way the new position
decodes to the new node (node ids are not negative).  Hence
[ResetPosition], which otherwise only moves instances with
[SetEncodePosition], changes the sign of a position in one way only: from
eligible to the complement of a finished leaf. *)
Theorem SetEncodePosition_keeps_exclusion :
  (∀ (position_ : list Z) ridx nid,
     (ridx < length position_)%nat → 0 ≤ nid →
     let p' := SetEncodePosition position_ ridx nid in
     (position_ !!! ridx < 0 → p' !!! ridx = Z.lnot nid ∧ p' !!! ridx < 0)
     ∧ (0 ≤ position_ !!! ridx → p' !!! ridx = nid ∧ 0 ≤ p' !!! ridx)
     ∧ DecodePosition p' ridx = nid
     ∧ ∀ r, r ≠ ridx → p' !! r = position_ !! r)
  ∧ (∀ qexpand batches rowset (tree : list (RegTree.Node F)) position_ p',
       children_are_nodes tree →
       ResetPosition qexpand batches rowset tree position_ = Some p' →
       length p' = length position_
       ∧ ∀ r, exclusion_kept tree (position_ !!! r) (p' !!! r)).
Proof.
  split.
  - intros position_ ridx nid Hlt Hnid p'. unfold p', DecodePosition.
    rewrite SetEncodePosition_same by done.
    destruct (Z.ltb_spec (position_ !!! ridx) 0) as [Hneg|Hpos].
    + assert (Z.lnot nid < 0) by (unfold Z.lnot; lia).
      rewrite (proj2 (Z.ltb_lt _ _)) by done. rewrite Z.lnot_involutive.
      split_and!; [done | lia | done |].
      intros r Hr. by apply SetEncodePosition_other.
    + rewrite (proj2 (Z.ltb_ge _ _)) by done.
      split_and!; [lia | done | done |].
      intros r Hr. by apply SetEncodePosition_other.
  - intros qexpand batches rowset tree position_ p' Hwf Hreset.
    unfold ResetPosition in Hreset.
    destruct (SetNonDefaultPosition_sign qexpand batches tree position_ Hwf)
      as [Hlen Hsign].
    apply (reset_rows_kept tree position_ rowset _ p' Hwf Hlen); [|done].
    intros r. specialize (Hsign r). unfold exclusion_kept.
    destruct (Z.ltb_spec (position_ !!! r) 0); [left|right; left]; lia.
Qed.

End position_props.

(** ** Moving thresholds to midpoints *)

Section midpoint_props.
Context {F : Type} `{!FloatOps F} `{!SplitEvaluator F}.
Context (param_ : TrainParam F).
Context (position_ : list Z).
Context (snode_ : list (NodeEntry F)).
Context (qexpand_ : list nat).
Context (gpair : list (GradientPair F)).

#[local] Abbreviation val := (λ it : EntryPtr F, fvalue (ent it)).

Lemma midpoint_step_length fid st it :
  length (mid_temp (midpoint_step position_ fid st it)) = length (mid_temp st).
Proof.
  unfold midpoint_step.
  destruct (position_ !! index (ent it)) as [nid|]; [|done].
  destruct (nid <? 0); [done|].
  destruct (orb _ _); [done|].
  destruct (last_fvalue_map st !! Z.to_nat nid); [|done].
  destruct (andb _ _); [|done]. simpl. apply length_alter.
Qed.

Lemma midpoint_fold_length fid its st :
  length (mid_temp (foldl (midpoint_step position_ fid) st its))
  = length (mid_temp st).
Proof.
  revert st. induction its as [|it its IH]; intros st; simpl; [done|].
  by rewrite IH, midpoint_step_length.
Qed.

Lemma mid_node_done fid (e : ThreadEntry F) prev l :
  foldl (mid_node_step fid) (e, prev, true) l = (e, prev, true).
Proof.
  induction l as [|it l IH]; simpl; [done|].
  by rewrite orb_true_r.
Qed.

Lemma mid_node_skip fid (e : ThreadEntry F) prev upd l :
  SplitEntry.SplitIndex (best e) ≠ fid →
  foldl (mid_node_step fid) (e, prev, upd) l = (e, prev, upd).
Proof.
  intros Hne. induction l as [|it l IH]; simpl; [done|].
  by rewrite (proj2 (Nat.eqb_neq _ _) Hne).
Qed.

Lemma midpoint_step_view fid n st it (e : ThreadEntry F) :
  mid_temp st !! n = Some e →
  mid_view n (midpoint_step position_ fid st it)
  = if decide (node_of position_ it = Some n)
    then
      let '(e', p, u) :=
        mid_node_step fid
          (e, last_fvalue_map st !! n, bool_decide (n ∈ updated_nid st)) it in
      (Some e', p, u)
    else mid_view n st.
Proof.
  intros He. unfold midpoint_step, node_of, mid_view.
  destruct (position_ !! index (ent it)) as [nid|]; [|by rewrite decide_False].
  destruct (nid <? 0); [by rewrite decide_False|].
  destruct (decide (Z.to_nat nid = n)) as [Heq|Hne].
  - rewrite decide_True by (by f_equal). rewrite Heq.
    rewrite (list_lookup_total_correct _ _ _ He). unfold mid_node_step.
    destruct (negb _ || bool_decide (n ∈ updated_nid st)) eqn:Hskip.
    + by rewrite He.
    + apply orb_false_iff in Hskip as [_ Hup]. rewrite Hup.
      apply bool_decide_eq_false in Hup.
      destruct (last_fvalue_map st !! n) as [prev|]; simpl.
      * destruct (andb _ _); simpl.
        -- rewrite list_lookup_alter_eq, He, lookup_insert_eq. simpl.
           by rewrite bool_decide_eq_true_2 by set_solver.
        -- by rewrite He, lookup_insert_eq, bool_decide_eq_false_2.
      * by rewrite He, lookup_insert_eq, bool_decide_eq_false_2.
  - rewrite decide_False by congruence.
    destruct (orb _ _); [done|].
    destruct (last_fvalue_map st !! Z.to_nat nid) as [prev|]; simpl.
    + destruct (andb _ _); simpl.
      * rewrite list_lookup_alter_ne, lookup_insert_ne by done.
        do 2 f_equal. apply bool_decide_ext.
        rewrite elem_of_union, elem_of_singleton.
        split; [intros [Heq|?]; [by subst | done] | by right].
      * by rewrite lookup_insert_ne.
    + by rewrite lookup_insert_ne.
Qed.

Lemma midpoint_fold_view fid n its st (e : ThreadEntry F) :
  mid_temp st !! n = Some e →
  mid_view n (foldl (midpoint_step position_ fid) st its)
  = let '(e', p, u) :=
      foldl (mid_node_step fid)
        (e, last_fvalue_map st !! n, bool_decide (n ∈ updated_nid st))
        (entries_of position_ n its) in
    (Some e', p, u).
Proof.
  revert st e. induction its as [|it its IH]; intros st e He; cbn [foldl].
  - unfold mid_view. by rewrite He.
  - pose proof (midpoint_step_view fid n st it e He) as Hstep.
    unfold entries_of.
    destruct (decide (node_of position_ it = Some n)) as [Hn|Hn].
    + rewrite filter_cons_True by done. cbn [foldl].
      destruct (mid_node_step fid _ it) as [[e' p] u] eqn:Hnode.
      unfold mid_view in Hstep. injection Hstep as He' Hp Hu.
      rewrite (IH _ e' He'), Hp, Hu. done.
    + rewrite filter_cons_False by done.
      unfold mid_view in Hstep. injection Hstep as He' Hp Hu.
      rewrite He in He'. rewrite (IH _ e He'), Hp, Hu. done.
Qed.

Lemma mid_node_bracket fid (e : ThreadEntry F) p sc :
  SplitEntry.sindex (best e) = fid →
  (foldl (mid_node_step fid) (e, Some p, false) sc).1.1
  = match first_bracket (SplitEntry.split_value (best e)) p (val <$> sc) with
    | Some (a, b) => move_to_mid (Fhalf (Fadd b a)) e
    | None => e
    end.
Proof.
  intros Hfid. revert p. induction sc as [|it sc IH]; intros p; [done|].
  cbn [foldl fmap list_fmap first_bracket]. unfold mid_node_step at 2.
  unfold SplitEntry.SplitIndex. rewrite Hfid, Nat.eqb_refl. cbn [negb orb].
  destruct (Fltb p _ && Fleb _ (val it)).
  - by rewrite mid_node_done.
  - apply IH.
Qed.

Lemma mid_node_corrected fid (e : ThreadEntry F) sc :
  (foldl (mid_node_step fid) (e, None, false) sc).1.1
  = midpoint_corrected fid (val <$> sc) e.
Proof.
  unfold midpoint_corrected.
  destruct (SplitEntry.sindex (best e) =? fid)%nat eqn:Hfid.
  - apply Nat.eqb_eq in Hfid. subst fid. destruct sc as [|it sc]; [done|].
    cbn [foldl fmap list_fmap bracket]. unfold mid_node_step at 2.
    unfold SplitEntry.SplitIndex. rewrite Nat.eqb_refl. cbn [negb orb].
    rewrite (mid_node_bracket _ e (val it) sc eq_refl).
    by destruct (first_bracket _ _ _) as [[a b]|].
  - apply Nat.eqb_neq in Hfid. by rewrite mid_node_skip.
Qed.

Lemma first_bracket_app t x vs p v vs2 :
  last (x :: vs) = Some p →
  first_bracket t x vs = None →
  Fltb p t && Fleb t v = true →
  first_bracket t x (vs ++ v :: vs2) = Some (p, v).
Proof.
  revert x. induction vs as [|y vs IH]; intros x Hlast Hnone Hin.
  - injection Hlast as ->. simpl. by rewrite Hin.
  - simpl in Hnone |- *. destruct (Fltb x t && Fleb t y); [done|].
    apply IH; [|done..]. by rewrite last_cons_cons in Hlast.
Qed.

Lemma bracket_app t vs p v vs2 :
  last vs = Some p →
  bracket t vs = None →
  Fltb p t && Fleb t v = true →
  bracket t (vs ++ v :: vs2) = Some (p, v).
Proof.
  destruct vs as [|x vs]; [done|]. apply first_bracket_app.
Qed.

(** C6.  The pass that moves thresholds to midpoints, for a node [n] and
the values of its entries in the column, in the order of the scan: when
the best split of [n] is on the scanned feature, the first entry of [n]
for which the value recorded for [n] (that of its previous entry) and its
own value enclose the stored threshold, previous < threshold <= current,
has the threshold replaced by the average of the two values, loss_chg,
feature and default_left staying as they are; the entries that follow do
not change it again, and without such an entry, or with the best split on
another feature, the thread entry of [n] is left as it is.  This is the
last pass of [EnumerateSplit].  In particular, at an entry [it] of [n]
with the best split on the scanned feature, no correction among the
entries [l1] before it, [prev] the entry of [n] before it and
prev < threshold <= value of [it], the threshold becomes the average
whatever follows. *)
Theorem midpoint_pass_spec fid :
  (∀ its temp n,
     midpoint_pass position_ fid its temp !! n
     = midpoint_corrected fid (val <$> entries_of position_ n its) <$> temp !! n)
  ∧ (∀ data begin end_ d_step temp n,
       EnumerateSplit param_ position_ snode_ qexpand_ gpair data begin end_
         d_step fid temp !! n
       = midpoint_corrected fid
           (val <$> entries_of position_ n (scan data begin end_ d_step))
         <$> closing_pass param_ snode_ qexpand_ fid d_step
               (main_sweep param_ position_ snode_ gpair fid d_step
                  (scan data begin end_ d_step) (clear_pass qexpand_ temp)) !! n)
  ∧ (∀ l1 it l2 temp n e prev,
       temp !! n = Some e →
       node_of position_ it = Some n →
       SplitEntry.sindex (best e) = fid →
       last (entries_of position_ n l1) = Some prev →
       bracket (SplitEntry.split_value (best e))
         (val <$> entries_of position_ n l1) = None →
       Fltb (val prev) (SplitEntry.split_value (best e)) = true →
       Fleb (SplitEntry.split_value (best e)) (val it) = true →
       midpoint_pass position_ fid l1 temp !! n = Some e
       ∧ midpoint_pass position_ fid (l1 ++ it :: l2) temp !! n
         = Some (set_best e
                   (SplitEntry.mk (SplitEntry.loss_chg (best e))
                      (SplitEntry.sindex (best e))
                      (Fhalf (Fadd (val it) (val prev)))
                      (SplitEntry.default_left (best e))))).
Proof.
  assert (Hpass : ∀ its temp n,
     midpoint_pass position_ fid its temp !! n
     = midpoint_corrected fid (val <$> entries_of position_ n its) <$> temp !! n).
  { intros its temp n. unfold midpoint_pass.
    destruct (temp !! n) as [e|] eqn:He.
    - pose proof (midpoint_fold_view fid n its (mkMidState temp ∅ ∅) e He)
        as Hview.
      simpl in Hview. rewrite lookup_empty in Hview.
      rewrite bool_decide_eq_false_2 in Hview by set_solver.
      pose proof (mid_node_corrected fid e (entries_of position_ n its)) as Hc.
      destruct (foldl (mid_node_step fid) _ _) as [[e' q] u].
      unfold mid_view in Hview. injection Hview as -> _ _.
      simpl in Hc. by rewrite Hc.
    - apply lookup_ge_None in He. apply lookup_ge_None.
      by rewrite midpoint_fold_length. }
  split_and!.
  - exact Hpass.
  - intros data begin end_ d_step temp n. unfold EnumerateSplit. apply Hpass.
  - intros l1 it l2 temp n e prev He Hn Hfid Hprev Hnone Hlt Hle.
    rewrite !Hpass, He. simpl. unfold midpoint_corrected.
    rewrite Hfid, Nat.eqb_refl, Hnone. split; [done|].
    unfold entries_of. rewrite filter_app, filter_cons_True by done.
    rewrite fmap_app, fmap_cons.
    rewrite (bracket_app _ _ (val prev) (val it)); [done | | done |].
    + fold (entries_of position_ n l1). by rewrite fmap_last, Hprev.
    + by rewrite Hlt, Hle.
Qed.

End midpoint_props.

(** ** Without uncertainty: the forward sweep against [EnumerateSplitCacheOpt] *)

Section comparison.
Context {F : Type} `{!FloatOps F} `{!SplitEvaluator F}.
Context `{!StrictOrderLaws F} `{!GroupLaws F} `{!OrderedLaws F}.
Context (param_ : TrainParam F).
Context (position_ : list Z).
Context (snode_ : list (NodeEntry F)).
Context (qexpand_ : list nat).
Context (gpair : list (GradientPair F)).
Context (Heps0 : robust_eps param_ = F0).
Context (fid : nat) (b0 : SplitEntry.t F).

#[local] Abbreviation mcw := (min_child_weight param_).
#[local] Abbreviation val := (λ it : EntryPtr F, fvalue (ent it)).

Lemma Flt_le_trans (a b c : F) :
  Fltb a b = true → Fltb c b = false → Fltb a c = true.
Proof.
  intros Hab Hcb. destruct (Fltb b c) eqn:Hbc.
  - by eapply Fltb_trans.
  - by rewrite <- (Fltb_connected b c Hbc Hcb).
Qed.


Lemma Fle_trans (a b c : F) :
  Fltb b a = false → Fltb c b = false → Fltb c a = false.
Proof.
  intros Hba Hcb. destruct (Fltb c a) eqn:Hca; [|done].
  by rewrite (Flt_le_trans c a b Hca Hba) in Hcb.
Qed.






(** *** Draining everything *)




(** *** The two sweeps offer the same candidates *)













(** *** The closing passes offer the same candidate *)


(** *** The midpoint pass, node by node *)




(** *** The two enumerations *)




End comparison.

(** ** The fixed-point instance satisfies the laws *)

Module FixedPointLaws.
Import FixedPoint.

#[global] Instance strict_order : StrictOrderLaws Z.
Proof. split; simpl; intros; lia. Qed.

#[global] Instance group : GroupLaws Z.
Proof. split; simpl; intros; lia. Qed.

#[global] Instance ordered : OrderedLaws Z.
Proof.
  split; simpl; intros; try lia.
  pose proof (Z.div_mod (y + x) 2 ltac:(lia)).
  pose proof (Z.mod_pos_bound (y + x) 2 ltac:(lia)).
  lia.
Qed.

Lemma nonneg_budget_fp (eps : Z) : 0 ≤ eps → nonneg_budget eps.
Proof. intros Heps x y. simpl. lia. Qed.

End FixedPointLaws.

(** ** The scenario: the theorems at work *)

Module ScenarioFacts.
Import FixedPoint FixedPointLaws Scenario.

Lemma budget : nonneg_budget (robust_eps param).
Proof. apply nonneg_budget_fp. vm_compute. congruence. Qed.

Lemma clear_pass_spec_witness :
  ∃ e', clear_pass qexpand [after_first] !! 0%nat = Some e'
    ∧ stats e' = GradStats.Clear
    ∧ data_unc e' = []
    ∧ best e' = best after_first.
Proof.
  destruct (proj1 (proj2 (clear_pass_spec param position snode qexpand gpair
                            data 0 2 1 0%nat [after_first]))
              0%nat after_first) as (e' & He' & Hs & _ & _ & _ & _ & _ & Hu & _ & Hb & _).
  - set_solver.
  - reflexivity.
  - by exists e'.
Defined.


Lemma queues_suffix_witness :
  ∃ e, EnumerateSplit param position snode qexpand gpair data 0 2 1 0%nat temp
         !! 0%nat = Some e
    ∧ data_unc_right e `suffix_of` data_unc e.
Proof.
  destruct (queues_suffix param position snode qexpand gpair data 0 2 1 0%nat temp
              0%nat inhabitant) as (_ & e & He & Hsuf & _).
  - exact budget.
  - lia.
  - set_solver.
  - reflexivity.
  - exists e. split; [exact He | exact Hsuf].
Defined.


Lemma nominal_gate_only_witness :
  ∃ cand,
    robust_candidate param snode 0%nat 0%nat 1 (fp 2) (fp 1) at_second = Some cand
    ∧ is_minimum (cand_loss_chg cand) [fp 8; fp 8; 0; 0].
Proof.
  destruct (proj2 (nominal_gate_only param snode 0%nat 0%nat 1 (fp 2) (fp 1)
                     at_second)) as (cand & Hc & _ & Hmin).
  - reflexivity.
  - exists cand. split; [done|]. by apply Hmin.
Defined.

(** C2, as stated, fails.  At the second entry of the column the gate
passes; the partitions all-uncertain-right and swap have an empty left
side (sum_hess 0 < min_child_weight), the two admissible partitions have
loss change 8, and the candidate that is offered has loss change 0: the
partitions with an inadmissible side were compared. *)
Lemma inadmissible_partitions_compared :
  gate param snode 0%nat (fp 2) at_second = true
  ∧ admissible param snode 0%nat (all_uncertain_right at_second) = false
  ∧ ¬ only_admissible_compared param snode 0%nat 0%nat 1 (fp 2) (fp 1) at_second.
Proof.
  split; [reflexivity|]. split; [reflexivity|].
  intros Hclaim. destruct (Hclaim _ eq_refl) as [Hin _].
  vm_compute in Hin.
  repeat (apply elem_of_cons in Hin as [Hin|Hin]; [discriminate Hin|]).
  by apply elem_of_nil in Hin.
Qed.

Lemma closing_pass_candidate_witness :
  closing_pass param snode qexpand 0%nat 1 [after_first] !! 0%nat
  = Some (set_best after_first
            (SplitEntry.Update (best after_first) (fp 8) 0%nat (fp 1 + 1) false)).
Proof.
  exact (closing_pass_candidate param snode qexpand 0%nat 1 [after_first] 0%nat
           after_first (NoDup_singleton 0%nat) (list_elem_of_here 0%nat [])
           eq_refl (or_introl eq_refl)).
Defined.

Lemma commit_spec_witness :
  ∃ node' left right,
    commit param snode_found qexpand tree !! 0%nat = Some node'
    ∧ RegTree.IsLeaf node' = false
    ∧ RegTree.LeftChild node' = Z.of_nat left
    ∧ RegTree.RightChild node' = Z.of_nat right
    ∧ RegTree.SplitCond node' = fp 1.
Proof.
  destruct (commit_spec param snode_found qexpand tree 0%nat (RegTree.fresh (-1)))
    as (node' & left & right & Hn & Hl & Hlc & Hrc & _ & _ & _ & Hsc & _).
  - apply NoDup_singleton.
  - intros m ->%list_elem_of_singleton. simpl. lia.
  - set_solver.
  - reflexivity.
  - by exists node', left, right.
Defined.

Lemma SetEncodePosition_keeps_exclusion_witness :
  SetEncodePosition [Z.lnot 0; 0] 0%nat 2 !!! 0%nat = Z.lnot 2
  ∧ SetEncodePosition [Z.lnot 0; 0] 1%nat 2 !!! 1%nat = 2.
Proof.
  split.
  - destruct (proj1 (SetEncodePosition_keeps_exclusion (F := Z))
                [Z.lnot 0; 0] 0%nat 2) as (Hneg & _); [simpl; lia | lia |].
    apply Hneg. reflexivity.
  - destruct (proj1 (SetEncodePosition_keeps_exclusion (F := Z))
                [Z.lnot 0; 0] 1%nat 2) as (_ & Hpos & _); [simpl; lia | lia |].
    apply Hpos. discriminate.
Defined.

End ScenarioFacts.

(** ** The scenario with a missing value *)

Module MissingValueFacts.
Import FixedPoint FixedPointLaws MissingValue.

Lemma scan_ascending d_step :
  d_step = 1 ∨ d_step = -1 →
  ascending (scan data (if d_step =? 1 then 0 else 1)
               (if d_step =? 1 then 2 else -1) d_step).
Proof.
  intros [-> | ->]; unfold ascending;
    repeat first [ apply SSorted_nil | apply Forall_nil_2 | apply SSorted_cons
                 | apply Forall_cons_2; [reflexivity|] ].
Qed.


End MissingValueFacts.

(** ** The scenario with a hessian of zero *)

Module ZeroHessianFacts.
Import FixedPoint ZeroHessian.



End ZeroHessianFacts.

(** ** The two clusters *)

Module ClustersFacts.
Import FixedPoint FixedPointLaws Clusters.





Lemma midpoint_pass_spec_witness :
  best <$> swept !! 0%nat = Some (SplitEntry.mk (fp 6) 0%nat (fp 10) false)
  ∧ best <$> midpoint_pass position fid (scan data 0 6 1) swept !! 0%nat
    = Some (SplitEntry.mk (fp 6) 0%nat 5500000 false).
Proof.
  split; [vm_compute; reflexivity|].
  destruct (proj2 (proj2 (midpoint_pass_spec param position snode qexpand gpair
                            fid))
              (take 3 (scan data 0 6 1)) (mkPtr 3 (mkEntry 3%nat (fp 10)))
              (drop 4 (scan data 0 6 1)) swept 0%nat (swept !!! 0%nat)
              (mkPtr 2 (mkEntry 2%nat (fp 1)))) as [_ Hmoved].
  - vm_compute. reflexivity.
  - reflexivity.
  - reflexivity.
  - reflexivity.
  - vm_compute. reflexivity.
  - vm_compute. reflexivity.
  - vm_compute. reflexivity.
  - change (scan data 0 6 1)
      with (take 3 (scan data 0 6 1) ++ mkPtr 3 (mkEntry 3%nat (fp 10))
            :: drop 4 (scan data 0 6 1)) at 1.
    rewrite Hmoved. vm_compute. reflexivity.
Defined.

End ClustersFacts.

(** ** The fresh node with a negative value *)

Module NegativeValueFacts.
Import FixedPoint FixedPointLaws NegativeValue.

(** The condition of the forward comparison on the threshold of the best
split so far is needed.  The best split of a fresh node is (0, feature 0,
threshold 0); the column of feature 0 holds the values -3.0 and 1.0 and
no split is admitted.  [EnumerateSplit] still moves the threshold 0,
which the two values enclose, to their midpoint -1.0, while
[EnumerateSplitCacheOpt] leaves the best split as it is. *)
Lemma fresh_node_threshold_moved :
  robust_eps param = 0
  ∧ ascending (scan data 0 2 1)
  ∧ ¬ threshold_clear SplitEntry.init fid
        (entries_of position 0%nat (scan data 0 2 1))
  ∧ best <$> robust_forward !! 0%nat
    = Some (SplitEntry.mk 0 0%nat (fp (-1)) false)
  ∧ best <$> standard_forward !! 0%nat = Some SplitEntry.init.
Proof.
  split_and!; [reflexivity | | | vm_compute; reflexivity | vm_compute; reflexivity].
  - unfold ascending.
    repeat first [ apply SSorted_nil | apply Forall_nil_2 | apply SSorted_cons
                 | apply Forall_cons_2; [reflexivity|] ].
  - intros Hcl.
    specialize (Hcl eq_refl (mkPtr 0 (mkEntry 0%nat (fp (-3))))
                  (list_elem_of_here _ _)).
    discriminate Hcl.
Qed.

End NegativeValueFacts.

(** ** Repositioning the instances of a level *)

Section reposition_props.
Context {F : Type} `{!FloatOps F}.

Lemma nondefault_entry_length (tree : list (RegTree.Node F)) fid p e :
  length (nondefault_entry tree fid p e) = length p.
Proof.
  unfold nondefault_entry. destruct (andb _ _); [|done].
  destruct (Fltb _ _); apply SetEncodePosition_length.
Qed.

Lemma nondefault_entry_other (tree : list (RegTree.Node F)) fid p e r :
  r ≠ index e → nondefault_entry tree fid p e !! r = p !! r.
Proof.
  intros Hne. unfold nondefault_entry. destruct (andb _ _); [|done].
  destruct (Fltb _ _); by apply SetEncodePosition_other.
Qed.

Lemma column_length (tree : list (RegTree.Node F)) fid col p :
  length (foldl (nondefault_entry tree fid) p col) = length p.
Proof.
  revert p. induction col as [|e col IH]; intros p; simpl; [done|].
  by rewrite IH, nondefault_entry_length.
Qed.

Lemma columns_length (tree : list (RegTree.Node F)) (batch : list (list (Entry F)))
    fs p :
  length (foldl (λ p fid, foldl (nondefault_entry tree fid) p (batch !!! fid)) p fs)
  = length p.
Proof.
  revert p. induction fs as [|fid fs IH]; intros p; simpl; [done|].
  by rewrite IH, column_length.
Qed.

Lemma SetNonDefaultPosition_length qexpand batches (tree : list (RegTree.Node F))
    position_ :
  length (SetNonDefaultPosition qexpand batches tree position_) = length position_.
Proof.
  unfold SetNonDefaultPosition.
  generalize (sort_unique (RegTree.SplitIndex <$>
    filter (λ n, RegTree.IsLeaf n = false) ((tree !!!.) <$> qexpand))).
  intros fs. revert position_.
  induction batches as [|batch batches IH]; intros p; simpl; [done|].
  by rewrite IH, columns_length.
Qed.

Lemma reset_row_length (tree : list (RegTree.Node F)) p ridx p' :
  reset_row tree p ridx = Some p' → length p' = length p ∧ (ridx < length p)%nat.
Proof.
  unfold reset_row. case_bool_decide; [|done].
  destruct (RegTree.IsLeaf _).
  - destruct (_ =? _); intros [= <-]; by rewrite ?length_insert.
  - destruct (RegTree.DefaultLeft _); intros [= <-];
      by rewrite SetEncodePosition_length.
Qed.

Lemma reset_row_None (tree : list (RegTree.Node F)) p ridx :
  reset_row tree p ridx = None ↔ (length p ≤ ridx)%nat.
Proof.
  unfold reset_row. case_bool_decide as Hlt.
  - split; [|lia]. destruct (RegTree.IsLeaf _);
      [destruct (_ =? _) | destruct (RegTree.DefaultLeft _)]; done.
  - split; [lia | done].
Qed.

Lemma reset_rows_None (tree : list (RegTree.Node F)) rowset p :
  reset_rows tree rowset p = None
  ↔ ∃ ridx, ridx ∈ rowset ∧ (length p ≤ ridx)%nat.
Proof.
  revert p. induction rowset as [|r rowset IH]; intros p; simpl.
  - split; [done|]. intros (? & []%elem_of_nil & _).
  - destruct (reset_row tree p r) as [p1|] eqn:Hrow.
    + apply reset_row_length in Hrow as [Hlen Hr].
      rewrite IH, Hlen. split.
      * intros (ridx & Hin & Hge). exists ridx. split; [by right | done].
      * intros (ridx & [->|Hin]%elem_of_cons & Hge); [lia|]. by exists ridx.
    + apply reset_row_None in Hrow. split; [|done].
      intros _. exists r. split; [by left | done].
Qed.

(** [ResetPosition] fails exactly when some instance of the row set has no
position: the CHECK_LT of line 949 is the only way out, whatever the tree
and the columns are. *)
Theorem ResetPosition_fails_iff qexpand batches rowset
    (tree : list (RegTree.Node F)) position_ :
  ResetPosition qexpand batches rowset tree position_ = None
  ↔ ∃ ridx, ridx ∈ rowset ∧ (length position_ ≤ ridx)%nat.
Proof.
  unfold ResetPosition.
  by rewrite reset_rows_None, SetNonDefaultPosition_length.
Qed.

End reposition_props.
(** ** The frontier after the commit of a level *)

Section frontier_props.
Context {F : Type} `{!FloatOps F}.
Context (param_ : TrainParam F).
Context (snode_ : list (NodeEntry F)).

#[local] Abbreviation splits :=
  (λ n : nat, Fgtb (SplitEntry.loss_chg (node_best (snode_ !!! n))) kRtEps).

Lemma UpdateQueueExpand_bind (tree : list (RegTree.Node F)) qexpand :
  UpdateQueueExpand tree qexpand
  = qexpand ≫= (λ nid,
      if negb (RegTree.IsLeaf (tree !!! nid))
      then [RegTree.LeftChild (tree !!! nid); RegTree.RightChild (tree !!! nid)]
      else []).
Proof.
  unfold UpdateQueueExpand.
  assert (Hgen : ∀ acc,
    foldl (λ newnodes nid,
             if negb (RegTree.IsLeaf (tree !!! nid))
             then newnodes ++ [RegTree.LeftChild (tree !!! nid)]
                           ++ [RegTree.RightChild (tree !!! nid)]
             else newnodes) acc qexpand
    = acc ++ (qexpand ≫= (λ nid,
        if negb (RegTree.IsLeaf (tree !!! nid))
        then [RegTree.LeftChild (tree !!! nid); RegTree.RightChild (tree !!! nid)]
        else []))).
  { induction qexpand as [|n q IH]; intros acc; simpl.
    - by rewrite app_nil_r.
    - rewrite IH. destruct (negb _); simpl; [|done]. by rewrite <- app_assoc. }
  apply (Hgen []).
Qed.

Lemma elem_of_UpdateQueueExpand (tree : list (RegTree.Node F)) qexpand c :
  c ∈ UpdateQueueExpand tree qexpand
  ↔ ∃ n, n ∈ qexpand ∧ RegTree.IsLeaf (tree !!! n) = false
       ∧ (c = RegTree.LeftChild (tree !!! n) ∨ c = RegTree.RightChild (tree !!! n)).
Proof.
  rewrite UpdateQueueExpand_bind, list_elem_of_bind. split.
  - intros (n & Hc & Hn). exists n. split; [done|].
    destruct (RegTree.IsLeaf (tree !!! n)); simpl in Hc; [by apply elem_of_nil in Hc|].
    split; [done|]. set_solver.
  - intros (n & Hn & Hleaf & Hc). exists n. split; [|done].
    rewrite Hleaf. simpl. set_solver.
Qed.

Lemma UpdateQueueExpand_ext (tree tree' : list (RegTree.Node F)) qexpand :
  (∀ n, n ∈ qexpand → tree !!! n = tree' !!! n) →
  UpdateQueueExpand tree qexpand = UpdateQueueExpand tree' qexpand.
Proof.
  intros Heq. rewrite !UpdateQueueExpand_bind.
  induction qexpand as [|n q IH]; [done|].
  rewrite !bind_cons, IH by (intros; apply Heq; by right).
  by rewrite (Heq n) by (by left).
Qed.

Lemma commit_snoc qs n (tree : list (RegTree.Node F)) :
  commit param_ snode_ (qs ++ [n]) tree
  = commit_node param_ snode_ (commit param_ snode_ qs tree) n.
Proof. unfold commit. by rewrite foldl_app. Qed.

Lemma commit_grows qs (tree : list (RegTree.Node F)) :
  (length tree ≤ length (commit param_ snode_ qs tree))%nat.
Proof.
  unfold commit. revert tree.
  induction qs as [|m qs IH]; intros tree; simpl; [done|].
  etrans; [apply (commit_node_grows param_ snode_ tree m) | apply IH].
Qed.

Lemma commit_node_leaf (tree : list (RegTree.Node F)) nid :
  splits nid = false →
  commit_node param_ snode_ tree nid
  = alter (RegTree.SetLeaf (Fmul (weight (snode_ !!! nid)) (learning_rate param_))
             (-1)) nid tree.
Proof. intros Hs. unfold commit_node. by rewrite Hs. Qed.

(** The nodes of a level after its commit. *)
Lemma commit_nodes qs (tree : list (RegTree.Node F)) :
  NoDup qs →
  (∀ m, m ∈ qs → (m < length tree)%nat) →
  let tree' := commit param_ snode_ qs tree in
  length tree' = (length tree + 2 * length (filter (λ n, splits n = true) qs))%nat
  ∧ UpdateQueueExpand tree' qs
    = Z.of_nat <$> seq (length tree) (2 * length (filter (λ n, splits n = true) qs))
  ∧ (∀ n node, n ∈ qs → tree !! n = Some node →
       if splits n then
         ∃ left,
           tree' !! n
           = Some (RegTree.SetSplit (SplitEntry.SplitIndex (node_best (snode_ !!! n)))
                     (SplitEntry.split_value (node_best (snode_ !!! n)))
                     (SplitEntry.DefaultLeft (node_best (snode_ !!! n)))
                     (RegTree.SetChildren (Z.of_nat left) (Z.of_nat left + 1) node))
           ∧ (length tree ≤ left)%nat ∧ (S left < length tree')%nat
       else
         tree' !! n
         = Some (RegTree.SetLeaf
                   (Fmul (weight (snode_ !!! n)) (learning_rate param_)) (-1) node))
  ∧ (∀ k, (length tree ≤ k < length tree')%nat →
       ∃ n, n ∈ qs ∧ splits n = true
         ∧ tree' !! k = Some (RegTree.SetLeaf F0 0 (RegTree.fresh (Z.of_nat n)))).
Proof.
  induction qs as [|n qs IH] using rev_ind; intros Hnd Hlt tree'.
  - unfold tree'. simpl. split_and!.
    + lia.
    + done.
    + intros n node []%elem_of_nil.
    + intros k. lia.
  - apply NoDup_app in Hnd as (Hnd & Hnin & _).
    assert (Hn : n ∉ qs) by (intros Hin; apply (Hnin n Hin); by left).
    destruct IH as (Hlen & Hq & Hfr & Hnew);
      [done | intros m Hm; apply Hlt; set_solver |].
    set (t1 := commit param_ snode_ qs tree) in *.
    assert (Hnlt : (n < length tree)%nat) by (apply Hlt; set_solver).
    destruct (lookup_lt_is_Some_2 tree n Hnlt) as [node Hnode].
    assert (Hnode1 : t1 !! n = Some node).
    { unfold t1. rewrite commit_preserves; [done| |done|done].
      intros m Hm. apply Hlt. set_solver. }
    assert (Hother : ∀ k, k ≠ n → (k < length t1)%nat → tree' !! k = t1 !! k).
    { intros k Hk Hkl. unfold tree'. rewrite commit_snoc. fold t1.
      apply commit_node_other; [lia | done | done]. }
    assert (Hq1 : UpdateQueueExpand tree' qs = UpdateQueueExpand t1 qs).
    { apply UpdateQueueExpand_ext. intros m Hm.
      assert (m < length tree)%nat by (apply Hlt; set_solver).
      apply lookup_total_eq, Hother; [|lia]. intros ->. done. }
    rewrite filter_app, length_app.
    cbv beta in *. set (cnt := length (filter _ qs)) in *.
    destruct (splits n) eqn:Hs.
    + rewrite filter_cons_True, filter_nil by done.
      replace (2 * (cnt + length [n]))%nat with (2 * cnt + 2)%nat by (simpl; lia).
      pose proof (commit_node_split param_ snode_ t1 n node Hnode1 Hs) as Hsplit.
      assert (Htree' : tree' = commit_node param_ snode_ t1 n)
        by (unfold tree'; by rewrite commit_snoc).
      rewrite <- Htree' in Hsplit.
      assert (Hlen' : length tree' = (length t1 + 2)%nat).
      { rewrite Hsplit, length_app, length_alter. simpl. lia. }
      assert (Hn' : tree' !! n
                = Some (RegTree.SetSplit (SplitEntry.SplitIndex (node_best (snode_ !!! n)))
                     (SplitEntry.split_value (node_best (snode_ !!! n)))
                     (SplitEntry.DefaultLeft (node_best (snode_ !!! n)))
                     (RegTree.SetChildren (Z.of_nat (length t1))
                        (Z.of_nat (length t1) + 1) node))).
      { rewrite Hsplit, lookup_app_l by (rewrite length_alter; lia).
        by rewrite list_lookup_alter_eq, Hnode1. }
      split_and!.
      * lia.
      * rewrite UpdateQueueExpand_bind, bind_app, <- UpdateQueueExpand_bind.
        rewrite Hq1, Hq, seq_app, fmap_app. f_equal.
        rewrite bind_singleton.
        rewrite (list_lookup_total_correct _ _ _ Hn').
        unfold RegTree.IsLeaf, RegTree.LeftChild, RegTree.RightChild.
        cbn [RegTree.SetSplit RegTree.SetChildren RegTree.cleft RegTree.cright].
        rewrite (proj2 (Z.eqb_neq _ _)) by lia. cbn [negb seq fmap list_fmap].
        rewrite <- Hlen. f_equal. f_equal. lia.
      * intros m nodem [Hm|Hm%list_elem_of_singleton]%elem_of_app Hnodem.
        -- assert (m ≠ n) by (intros ->; done).
           assert (m < length tree)%nat by (apply Hlt; set_solver).
           rewrite Hother by lia.
           specialize (Hfr m nodem Hm Hnodem).
           destruct (Fgtb _ _); [|done].
           destruct Hfr as (left & Hl1 & Hl2 & Hl3). exists left.
           split_and!; [done | done | lia].
        -- subst m. rewrite Hs. rewrite Hnode in Hnodem. injection Hnodem as <-.
           exists (length t1). split_and!; [done | lia | lia].
      * intros k [Hk1 Hk2].
        destruct (decide (k < length t1)%nat) as [Hk|Hk].
        -- destruct (Hnew k) as (m & Hm & Hsm & Hkm); [lia|].
           exists m. split_and!; [set_solver | done |].
           rewrite Hother; [done | lia | done].
        -- exists n. split_and!; [set_solver | done |].
           rewrite Hsplit, lookup_app_r by (rewrite length_alter; lia).
           rewrite length_alter.
           assert (k - length t1 = 0 ∨ k - length t1 = 1)%nat as [-> | ->] by lia;
             done.
    + rewrite filter_cons_False, filter_nil by (by rewrite Hs).
      replace (2 * (cnt + length (@nil nat)))%nat with (2 * cnt)%nat by (simpl; lia).
      assert (Htree' : tree'
                = alter (RegTree.SetLeaf
                           (Fmul (weight (snode_ !!! n)) (learning_rate param_)) (-1))
                    n t1).
      { unfold tree'. rewrite commit_snoc. fold t1. by apply commit_node_leaf. }
      assert (Hlen' : length tree' = length t1) by (by rewrite Htree', length_alter).
      assert (Hn' : tree' !! n
                = Some (RegTree.SetLeaf
                          (Fmul (weight (snode_ !!! n)) (learning_rate param_))
                          (-1) node)).
      { by rewrite Htree', list_lookup_alter_eq, Hnode1. }
      split_and!.
      * lia.
      * rewrite UpdateQueueExpand_bind, bind_app, <- UpdateQueueExpand_bind.
        rewrite Hq1, Hq, bind_singleton.
        rewrite (list_lookup_total_correct _ _ _ Hn').
        by rewrite app_nil_r.
      * intros m nodem [Hm|Hm%list_elem_of_singleton]%elem_of_app Hnodem.
        -- assert (m ≠ n) by (intros ->; done).
           assert (m < length tree)%nat by (apply Hlt; set_solver).
           rewrite Hother by lia.
           specialize (Hfr m nodem Hm Hnodem).
           destruct (Fgtb _ _); [|done].
           destruct Hfr as (left & Hl1 & Hl2 & Hl3). exists left.
           split_and!; [done | done | lia].
        -- subst m. rewrite Hs. rewrite Hnode in Hnodem. by injection Hnodem as <-.
      * intros k [Hk1 Hk2].
        destruct (Hnew k) as (m & Hm & Hsm & Hkm); [lia|].
        exists m. split_and!; [set_solver | done |].
        rewrite Hother; [done | | lia]. intros ->. lia.
Qed.

End frontier_props.
(** ** Where an instance goes *)

Section routing_props.
Context {F : Type} `{!FloatOps F}.
Context (tree : list (RegTree.Node F)).

Lemma DecodePosition_SetEncodePosition position_ ridx nid :
  (ridx < length position_)%nat → 0 ≤ nid →
  DecodePosition (SetEncodePosition position_ ridx nid) ridx = nid.
Proof.
  intros Hlt Hnid. unfold DecodePosition.
  rewrite SetEncodePosition_same by done.
  destruct (Z.ltb_spec (position_ !!! ridx) 0).
  - rewrite (proj2 (Z.ltb_lt (Z.lnot nid) 0)) by (unfold Z.lnot; lia).
    apply Z.lnot_involutive.
  - by rewrite (proj2 (Z.ltb_ge nid 0)).
Qed.

Lemma DecodePosition_ext p' p r :
  p' !! r = p !! r → DecodePosition p' r = DecodePosition p r.
Proof. intros Heq. unfold DecodePosition. by rewrite (lookup_total_eq _ _ _ Heq). Qed.

(* an instance on a leaf is not moved by the scan of a column *)
Lemma nondefault_entry_leaf fid p e r :
  RegTree.IsLeaf (tree !!! Z.to_nat (DecodePosition p r)) = true →
  nondefault_entry tree fid p e !! r = p !! r.
Proof.
  intros Hleaf. destruct (decide (r = index e)) as [->|Hne];
    [|by apply nondefault_entry_other].
  unfold nondefault_entry. by rewrite Hleaf.
Qed.

Lemma column_leaf fid col p r :
  RegTree.IsLeaf (tree !!! Z.to_nat (DecodePosition p r)) = true →
  foldl (nondefault_entry tree fid) p col !! r = p !! r.
Proof.
  revert p. induction col as [|e col IH]; intros p Hleaf; simpl; [done|].
  pose proof (nondefault_entry_leaf fid p e r Hleaf) as Heq.
  rewrite IH; [done|]. by rewrite (DecodePosition_ext _ _ _ Heq).
Qed.

Lemma SetNonDefaultPosition_leaf qexpand batches position_ r :
  RegTree.IsLeaf (tree !!! Z.to_nat (DecodePosition position_ r)) = true →
  SetNonDefaultPosition qexpand batches tree position_ !! r = position_ !! r.
Proof.
  unfold SetNonDefaultPosition.
  generalize (sort_unique (RegTree.SplitIndex <$>
    filter (λ n, RegTree.IsLeaf n = false) ((tree !!!.) <$> qexpand))).
  intros fs.
  assert (Hbatch : ∀ (batch : list (list (Entry F))) fs p,
    RegTree.IsLeaf (tree !!! Z.to_nat (DecodePosition p r)) = true →
    foldl (λ p fid, foldl (nondefault_entry tree fid) p (batch !!! fid)) p fs !! r
    = p !! r).
  { intros batch fs'. induction fs' as [|fid fs' IH]; intros p Hleaf; simpl; [done|].
    pose proof (column_leaf fid (batch !!! fid) p r Hleaf) as Heq.
    rewrite IH; [done|]. by rewrite (DecodePosition_ext _ _ _ Heq). }
  revert position_. induction batches as [|batch batches IH]; intros p Hleaf; simpl;
    [done|].
  pose proof (Hbatch batch fs p Hleaf) as Heq.
  rewrite IH; [done|]. by rewrite (DecodePosition_ext _ _ _ Heq).
Qed.

Lemma reset_row_other position_ ridx p' r :
  reset_row tree position_ ridx = Some p' → ridx ≠ r →
  p' !! r = position_ !! r.
Proof.
  intros Hrow Hne. unfold reset_row in Hrow. case_bool_decide; [|done].
  set (nd := tree !!! Z.to_nat (DecodePosition position_ ridx)) in Hrow.
  destruct (RegTree.IsLeaf nd).
  - destruct (_ =? _); injection Hrow as <-; [|done].
    by rewrite list_lookup_insert_ne.
  - destruct (RegTree.DefaultLeft nd); injection Hrow as <-;
      by apply SetEncodePosition_other.
Qed.

(* an instance on a leaf in the second phase *)
Lemma reset_rows_leaf rowset position_ p' r :
  reset_rows tree rowset position_ = Some p' →
  RegTree.IsLeaf (tree !!! Z.to_nat (DecodePosition position_ r)) = true →
  DecodePosition p' r = DecodePosition position_ r
  ∧ (if bool_decide (r ∈ rowset)
        && (RegTree.RightChild (tree !!! Z.to_nat (DecodePosition position_ r)) =? -1)
     then p' !!! r = Z.lnot (DecodePosition position_ r)
     else p' !!! r = position_ !!! r).
Proof.
  revert position_.
  induction rowset as [|ridx rowset IH]; intros p Hrows Hleaf; simpl in Hrows.
  - injection Hrows as <-. done.
  - destruct (reset_row tree p ridx) as [p1|] eqn:Hrow; [|done].
    destruct (decide (ridx = r)) as [->|Hne].
    + rewrite bool_decide_eq_true_2 by (by left). cbn [andb].
      unfold reset_row in Hrow. case_bool_decide as Hlt; [|done].
      rewrite Hleaf in Hrow.
      destruct (Z.eqb_spec (RegTree.RightChild
                  (tree !!! Z.to_nat (DecodePosition p r))) (-1)) as [Hfin|Hfresh];
        injection Hrow as <-.
      * set (nid := DecodePosition p r) in *.
        assert (H1 : <[r:=Z.lnot nid]> p !!! r = Z.lnot nid).
        { apply list_lookup_total_correct. by rewrite list_lookup_insert_eq. }
        assert (Hd : DecodePosition (<[r:=Z.lnot nid]> p) r = nid).
        { unfold DecodePosition at 1. rewrite H1.
          pose proof (DecodePosition_nonneg p r) as Hnn. fold nid in Hnn.
          rewrite (proj2 (Z.ltb_lt (Z.lnot nid) 0)) by (unfold Z.lnot; lia).
          apply Z.lnot_involutive. }
        destruct (IH _ Hrows) as [Hd' Hp']; [by rewrite Hd|].
        rewrite Hd in Hd', Hp'. split; [done|].
        rewrite Hfin in Hp'. rewrite andb_true_r in Hp'.
        case_bool_decide; [done | by rewrite Hp', H1].
      * destruct (IH _ Hrows Hleaf) as [Hd' Hp']. split; [done|].
        rewrite (proj2 (Z.eqb_neq _ _) Hfresh), andb_false_r in Hp'. done.
    + pose proof (reset_row_other p ridx p1 r Hrow Hne) as Heq.
      destruct (IH _ Hrows) as [Hd' Hp'];
        [by rewrite (DecodePosition_ext _ _ _ Heq)|].
      rewrite (DecodePosition_ext _ _ _ Heq) in Hd', Hp'.
      rewrite (lookup_total_eq _ _ _ Heq) in Hp'. split; [done|].
      rewrite (bool_decide_ext (r ∈ ridx :: rowset) (r ∈ rowset)); [done|].
      rewrite elem_of_cons. split; [by intros [?|?] | by right].
Qed.

(** *** An instance on an inner node whose children are fresh leaves *)

Context (r n : nat).
Context (Hinner : RegTree.IsLeaf (tree !!! n) = false).
Context (Hleft : fresh_leaf_at tree (RegTree.LeftChild (tree !!! n))).
Context (Hright : fresh_leaf_at tree (RegTree.RightChild (tree !!! n))).

#[local] Abbreviation node := (tree !!! n).
#[local] Abbreviation fidn := (RegTree.SplitIndex (tree !!! n)).
#[local] Abbreviation mine := (filter (λ e : Entry F, index e = r)).
(* the node the instance is on when [seen] are its entries met so far in
   the columns of the feature of the split *)
#[local] Abbreviation at_ := (λ seen : list (Entry F),
  match head seen with
  | Some e => child_for (tree !!! n) (Some (fvalue e))
  | None => Z.of_nat n
  end).

Lemma child_for_fresh v : fresh_leaf_at tree (child_for node v).
Proof.
  unfold child_for. destruct v as [v|];
    [destruct (Fltb _ _) | destruct (RegTree.DefaultLeft _)]; done.
Qed.

Lemma nondefault_entry_row fid p e seen :
  (r < length p)%nat →
  DecodePosition p r = at_ seen →
  DecodePosition (nondefault_entry tree fid p e) r
  = at_ (seen ++ if decide (fid = fidn) then mine [e] else []).
Proof.
  intros Hlt Hat. destruct seen as [|e0 seen]; cbv beta in *; cbn [head app] in *.
  - destruct (decide (index e = r)) as [Hidx|Hidx].
    + rewrite filter_cons_True, filter_nil by done.
      unfold nondefault_entry. rewrite Hidx, Hat, Nat2Z.id, Hinner. simpl.
      destruct (Nat.eqb_spec fidn fid) as [Heq|Hneq].
      * rewrite decide_True by done. simpl.
        destruct (Fltb _ _); apply DecodePosition_SetEncodePosition;
          first [done | apply Hleft | apply Hright].
      * rewrite decide_False by done. simpl. done.
    + rewrite filter_cons_False, filter_nil by done.
      rewrite (DecodePosition_ext _ p) by (apply nondefault_entry_other; congruence).
      rewrite Hat. by destruct (decide _).
  - rewrite (DecodePosition_ext _ p); [done|].
    apply nondefault_entry_leaf. rewrite Hat.
    apply (child_for_fresh (Some (fvalue e0))).
Qed.

Lemma column_row fid col p seen :
  (r < length p)%nat →
  DecodePosition p r = at_ seen →
  DecodePosition (foldl (nondefault_entry tree fid) p col) r
  = at_ (seen ++ if decide (fid = fidn) then mine col else []).
Proof.
  revert p seen. induction col as [|e col IH]; intros p seen Hlt Hat; simpl.
  - rewrite filter_nil. destruct (decide _); by rewrite app_nil_r.
  - rewrite (IH _ (seen ++ if decide (fid = fidn) then mine [e] else []));
      [|by rewrite nondefault_entry_length | by apply nondefault_entry_row].
    f_equal. f_equal. rewrite <- app_assoc. f_equal.
    destruct (decide (fid = fidn)); [|done].
    by rewrite <- filter_app.
Qed.

Lemma columns_row (batch : list (list (Entry F))) fs p seen :
  NoDup fs →
  (r < length p)%nat →
  DecodePosition p r = at_ seen →
  DecodePosition
    (foldl (λ p fid, foldl (nondefault_entry tree fid) p (batch !!! fid)) p fs) r
  = at_ (seen ++ if decide (fidn ∈ fs) then mine (batch !!! fidn) else []).
Proof.
  intros Hnd. revert p seen.
  induction Hnd as [|fid fs Hfid Hnd IH]; intros p seen Hlt Hat; cbn [foldl].
  - rewrite decide_False by apply not_elem_of_nil. by rewrite app_nil_r.
  - rewrite (IH _ (seen ++ if decide (fid = fidn) then mine (batch !!! fid) else []));
      [|by rewrite column_length | by apply column_row].
    f_equal. f_equal. rewrite <- app_assoc. f_equal.
    destruct (decide (fid = fidn)) as [->|Hne].
    + rewrite (decide_False (P := fidn ∈ fs)) by done.
      rewrite decide_True by (by left). by rewrite app_nil_r.
    + cbn [app]. destruct (decide (fidn ∈ fs)).
      * by rewrite decide_True by (by right).
      * rewrite decide_False; [done|]. intros [?|?]%elem_of_cons; congruence.
Qed.

Lemma batches_row (batches : list (list (list (Entry F)))) fs p seen :
  NoDup fs → fidn ∈ fs →
  (r < length p)%nat →
  DecodePosition p r = at_ seen →
  DecodePosition
    (foldl (λ p batch,
              foldl (λ p fid, foldl (nondefault_entry tree fid) p (batch !!! fid))
                p fs) p batches) r
  = at_ (seen ++ mine (concat ((λ batch, batch !!! fidn) <$> batches))).
Proof.
  intros Hnd Hin. revert p seen.
  induction batches as [|batch batches IH]; intros p seen Hlt Hat; cbn [foldl].
  - by rewrite fmap_nil, concat_nil, filter_nil, app_nil_r.
  - rewrite fmap_cons, concat_cons.
    rewrite (IH _ (seen ++ mine (batch !!! fidn)));
      [|by rewrite columns_length|].
    + by rewrite <- app_assoc, <- filter_app.
    + rewrite (columns_row batch fs p seen) by done.
      by rewrite decide_True by done.
Qed.

Lemma elem_of_sort_unique (l : list nat) x : x ∈ sort_unique l ↔ x ∈ l.
Proof.
  unfold sort_unique. by rewrite merge_sort_Permutation, elem_of_remove_dups.
Qed.

Lemma NoDup_sort_unique (l : list nat) : NoDup (sort_unique l).
Proof.
  unfold sort_unique. rewrite merge_sort_Permutation. apply NoDup_remove_dups.
Qed.

Lemma SetNonDefaultPosition_row qexpand batches position_ :
  n ∈ qexpand →
  (r < length position_)%nat →
  DecodePosition position_ r = Z.of_nat n →
  DecodePosition (SetNonDefaultPosition qexpand batches tree position_) r
  = match first_value batches fidn r with
    | Some v => child_for node (Some v)
    | None => Z.of_nat n
    end.
Proof.
  intros Hin Hlt Hat. unfold SetNonDefaultPosition.
  rewrite (batches_row batches _ position_ []); [| | |done|done].
  - unfold first_value. simpl. by destruct (head _).
  - apply NoDup_sort_unique.
  - apply elem_of_sort_unique, list_elem_of_fmap. exists node. split; [done|].
    apply list_elem_of_filter. split; [done|].
    apply list_elem_of_fmap. by exists n.
Qed.

(* the second phase, for an instance that is still on the node *)
Lemma reset_rows_pending rowset position_ p' :
  reset_rows tree rowset position_ = Some p' →
  DecodePosition position_ r = Z.of_nat n →
  if bool_decide (r ∈ rowset)
  then DecodePosition p' r = child_for node None
  else DecodePosition p' r = Z.of_nat n.
Proof.
  revert position_.
  induction rowset as [|ridx rowset IH]; intros p Hrows Hpre; simpl in Hrows.
  - by injection Hrows as <-.
  - destruct (reset_row tree p ridx) as [p1|] eqn:Hrow; [|done].
    destruct (decide (ridx = r)) as [->|Hne].
    + rewrite bool_decide_eq_true_2 by (by left).
      assert (Hp1 : DecodePosition p1 r = child_for node None).
      { unfold reset_row in Hrow. case_bool_decide as Hlt; [|done].
        rewrite Hpre, Nat2Z.id, Hinner in Hrow. unfold child_for.
        destruct (RegTree.DefaultLeft node); injection Hrow as <-;
          apply DecodePosition_SetEncodePosition;
          first [done | apply Hleft | apply Hright]. }
      destruct (reset_rows_leaf rowset p1 p' r Hrows) as [Hd _].
      { rewrite Hp1. apply (child_for_fresh None). }
      by rewrite Hd.
    + pose proof (reset_row_other p ridx p1 r Hrow Hne) as Heq.
      specialize (IH p1 Hrows).
      rewrite (DecodePosition_ext _ _ _ Heq) in IH. specialize (IH Hpre).
      rewrite (bool_decide_ext (r ∈ ridx :: rowset) (r ∈ rowset)); [done|].
      rewrite elem_of_cons. split; [by intros [?|?] | by right].
Qed.

(* the two phases *)
Lemma ResetPosition_row qexpand batches rowset position_ p' :
  n ∈ qexpand → r ∈ rowset →
  DecodePosition position_ r = Z.of_nat n →
  ResetPosition qexpand batches rowset tree position_ = Some p' →
  DecodePosition p' r = child_for node (first_value batches fidn r).
Proof.
  intros Hn Hr Hat Hreset.
  assert (Hlt : (r < length position_)%nat).
  { destruct (decide (r < length position_)%nat) as [|Hge]; [done|].
    assert (Hnone : ResetPosition qexpand batches rowset tree position_ = None).
    { unfold ResetPosition. apply reset_rows_None. exists r. split; [done|].
      rewrite SetNonDefaultPosition_length. lia. }
    congruence. }
  unfold ResetPosition in Hreset.
  pose proof (SetNonDefaultPosition_row qexpand batches position_ Hn Hlt Hat) as H1.
  destruct (first_value batches fidn r) as [v|].
  - destruct (reset_rows_leaf rowset _ p' r Hreset) as [Hd _].
    { rewrite H1. apply (child_for_fresh (Some v)). }
    by rewrite Hd.
  - pose proof (reset_rows_pending rowset _ p' Hreset H1) as H2.
    by rewrite bool_decide_eq_true_2 in H2.
Qed.

End routing_props.
(** ** A level of the tree *)

Section level_props.
Context {F : Type} `{!FloatOps F}.
Context (param_ : TrainParam F).
Context (snode_ : list (NodeEntry F)).

(** An instance of the row set that is on an inner node of the frontier
whose children are leaves still to be expanded ends, after
[ResetPosition], on the child its value for the feature of the split sends
it to (left when the value is below the threshold), and on the default
child when it has no value for that feature.  Its exclusion mark does not
matter for the node it ends on. *)
Theorem ResetPosition_routes qexpand batches rowset (tree : list (RegTree.Node F))
    position_ p' (r n : nat) :
  n ∈ qexpand →
  r ∈ rowset →
  DecodePosition position_ r = Z.of_nat n →
  RegTree.IsLeaf (tree !!! n) = false →
  fresh_leaf_at tree (RegTree.LeftChild (tree !!! n)) →
  fresh_leaf_at tree (RegTree.RightChild (tree !!! n)) →
  ResetPosition qexpand batches rowset tree position_ = Some p' →
  DecodePosition p' r
  = child_for (tree !!! n)
      (first_value batches (RegTree.SplitIndex (tree !!! n)) r).
Proof.
  intros Hn Hr Hat Hinner Hleft Hright Hreset.
  by apply (ResetPosition_row tree r n Hinner Hleft Hright qexpand batches rowset
              position_).
Qed.

(** An instance on a leaf is not moved by [ResetPosition].  When the leaf
is finished (its right-child mark is -1) and the instance is in the row
set, its position becomes the complement of the leaf, whether it was
eligible or not; otherwise its position is as before. *)
Theorem ResetPosition_on_leaf qexpand batches rowset (tree : list (RegTree.Node F))
    position_ p' (r : nat) :
  ResetPosition qexpand batches rowset tree position_ = Some p' →
  RegTree.IsLeaf (tree !!! Z.to_nat (DecodePosition position_ r)) = true →
  if bool_decide (r ∈ rowset)
     && (RegTree.RightChild (tree !!! Z.to_nat (DecodePosition position_ r)) =? -1)
  then p' !!! r = Z.lnot (DecodePosition position_ r)
  else p' !!! r = position_ !!! r.
Proof.
  intros Hreset Hleaf. unfold ResetPosition in Hreset.
  pose proof (SetNonDefaultPosition_leaf tree qexpand batches position_ r Hleaf)
    as Heq.
  destruct (reset_rows_leaf tree rowset _ p' r Hreset) as [_ Hp'].
  { by rewrite (DecodePosition_ext _ _ _ Heq). }
  by rewrite (DecodePosition_ext _ _ _ Heq), (lookup_total_eq _ _ _ Heq) in Hp'.
Qed.

(** After the commit of a level the new frontier is the list of the nodes
added by the commit, in the order they were added: two for every node of
the old frontier whose best split has a loss change above kRtEps.  Each of
them is a leaf still to be expanded. *)
Theorem frontier_after_commit qexpand (tree : list (RegTree.Node F)) :
  NoDup qexpand →
  (∀ m, m ∈ qexpand → (m < length tree)%nat) →
  let tree' := commit param_ snode_ qexpand tree in
  let added :=
    (2 * length (filter (λ n, Fgtb (SplitEntry.loss_chg (node_best (snode_ !!! n)))
                                kRtEps = true) qexpand))%nat in
  length tree' = (length tree + added)%nat
  ∧ UpdateQueueExpand tree' qexpand = Z.of_nat <$> seq (length tree) added
  ∧ ∀ c, c ∈ UpdateQueueExpand tree' qexpand → fresh_leaf_at tree' c.
Proof.
  intros Hnd Hlt tree' added.
  destruct (commit_nodes param_ snode_ qexpand tree Hnd Hlt)
    as (Hlen & Hq & _ & Hnew).
  fold tree' in Hlen, Hq, Hnew. split_and!; [done | done |].
  intros c Hc. rewrite Hq in Hc.
  apply list_elem_of_fmap in Hc as (k & -> & Hk). apply elem_of_seq in Hk.
  destruct (Hnew k) as (m & _ & _ & Hkm); [unfold added in *; lia|].
  unfold fresh_leaf_at. rewrite Nat2Z.id, (list_lookup_total_correct _ _ _ Hkm).
  split_and!; [lia | done | done].
Qed.

(** The new frontier is empty, which ends the growth of the tree, exactly
when no node of the frontier has a best split with a loss change above
kRtEps. *)
Theorem frontier_empty_iff qexpand (tree : list (RegTree.Node F)) :
  NoDup qexpand →
  (∀ m, m ∈ qexpand → (m < length tree)%nat) →
  UpdateQueueExpand (commit param_ snode_ qexpand tree) qexpand = []
  ↔ ∀ n, n ∈ qexpand →
      Fgtb (SplitEntry.loss_chg (node_best (snode_ !!! n))) kRtEps = false.
Proof.
  intros Hnd Hlt.
  destruct (commit_nodes param_ snode_ qexpand tree Hnd Hlt) as (_ & Hq & _ & _).
  rewrite Hq. split.
  - intros Hnil n Hn.
    apply (f_equal length) in Hnil. rewrite length_fmap, length_seq in Hnil.
    simpl in Hnil.
    destruct (Fgtb _ _) eqn:Hs; [|done].
    assert (Hin : n ∈ filter (λ n, Fgtb (SplitEntry.loss_chg
                     (node_best (snode_ !!! n))) kRtEps = true) qexpand)
      by (by apply list_elem_of_filter).
    destruct (filter _ qexpand); [by apply elem_of_nil in Hin | simpl in Hnil; lia].
  - intros Hall.
    assert (Hf : filter (λ n, Fgtb (SplitEntry.loss_chg
                   (node_best (snode_ !!! n))) kRtEps = true) qexpand = []).
    { clear Hnd Hlt Hq. induction qexpand as [|m q IH]; [done|].
      rewrite filter_cons_False by (rewrite (Hall m) by (by left); done).
      apply IH. intros n Hn. apply Hall. by right. }
    by rewrite Hf.
Qed.

Lemma commit_children_are_nodes qexpand (tree : list (RegTree.Node F)) :
  NoDup qexpand →
  (∀ m, m ∈ qexpand → (m < length tree)%nat) →
  children_are_nodes tree →
  children_are_nodes (commit param_ snode_ qexpand tree).
Proof.
  intros Hnd Hlt Hwf i nd Hi Hleaf.
  destruct (commit_nodes param_ snode_ qexpand tree Hnd Hlt)
    as (Hlen & _ & Hfr & Hnew).
  destruct (decide (i < length tree)%nat) as [Hil|Hil].
  - destruct (decide (i ∈ qexpand)) as [Hin|Hnin].
    + destruct (lookup_lt_is_Some_2 tree i Hil) as [node0 Hnode0].
      specialize (Hfr i node0 Hin Hnode0).
      destruct (Fgtb _ _).
      * destruct Hfr as (left & Hl & _ & _). rewrite Hl in Hi.
        injection Hi as <-. unfold RegTree.LeftChild, RegTree.RightChild. simpl. lia.
      * rewrite Hfr in Hi. injection Hi as <-. done.
    + rewrite commit_preserves in Hi by done. by eapply Hwf.
  - destruct (Hnew i) as (m & _ & _ & Him).
    { split; [lia | by eapply lookup_lt_Some]. }
    rewrite Him in Hi. injection Hi as <-. done.
Qed.

(** A level keeps the eligible instances on the frontier: when every
eligible instance of the row set is on a node of the frontier, then after
the commit of the level and [ResetPosition] every eligible instance of the
row set is on a node of the new frontier.  (The instances of the leaves
the commit has finished are excluded.) *)
Theorem level_keeps_rows_on_frontier qexpand batches rowset
    (tree : list (RegTree.Node F)) position_ p' :
  NoDup qexpand →
  (∀ m, m ∈ qexpand → (m < length tree)%nat) →
  children_are_nodes tree →
  rows_on_frontier rowset (Z.of_nat <$> qexpand) position_ →
  let tree' := commit param_ snode_ qexpand tree in
  ResetPosition qexpand batches rowset tree' position_ = Some p' →
  rows_on_frontier rowset (UpdateQueueExpand tree' qexpand) p'.
Proof.
  intros Hnd Hlt Hwf Hrows tree' Hreset r Hr Hpos'.
  pose proof (commit_children_are_nodes qexpand tree Hnd Hlt Hwf) as Hwf'.
  fold tree' in Hwf'.
  destruct (commit_nodes param_ snode_ qexpand tree Hnd Hlt)
    as (Hlen & _ & Hfr & Hnew).
  fold tree' in Hlen, Hfr, Hnew.
  assert (Hpos : 0 ≤ position_ !!! r).
  { pose proof Hreset as Hreset'. unfold ResetPosition in Hreset'.
    destruct (SetNonDefaultPosition_sign qexpand batches tree' position_ Hwf')
      as [Hl Hs].
    destruct (reset_rows_kept tree' position_ rowset _ p' Hwf' Hl) as [_ Hk];
      [|done|].
    - intros q. specialize (Hs q). unfold exclusion_kept.
      destruct (Z.ltb_spec (position_ !!! q) 0); [left|right; left]; lia.
    - specialize (Hk r). unfold exclusion_kept in Hk. lia. }
  apply (Hrows r Hr), list_elem_of_fmap in Hpos as Hin.
  destruct Hin as (n & Hpn & Hn).
  assert (Hat : DecodePosition position_ r = Z.of_nat n).
  { unfold DecodePosition. rewrite Hpn. by rewrite (proj2 (Z.ltb_ge _ _)) by lia. }
  assert (Hdec' : DecodePosition p' r = p' !!! r).
  { unfold DecodePosition. by rewrite (proj2 (Z.ltb_ge _ _)) by lia. }
  destruct (lookup_lt_is_Some_2 tree n (Hlt n Hn)) as [node0 Hnode0].
  specialize (Hfr n node0 Hn Hnode0).
  destruct (Fgtb _ _) eqn:Hs.
  - destruct Hfr as (left & Hl & Hl1 & Hl2).
    pose proof (list_lookup_total_correct _ _ _ Hl) as Hn'.
    assert (Hinner : RegTree.IsLeaf (tree' !!! n) = false).
    { rewrite Hn'. unfold RegTree.IsLeaf. simpl. apply Z.eqb_neq. lia. }
    assert (Hkid : ∀ k, (length tree ≤ k < length tree')%nat →
              fresh_leaf_at tree' (Z.of_nat k)).
    { intros k Hk. destruct (Hnew k Hk) as (m & _ & _ & Hkm).
      unfold fresh_leaf_at.
      rewrite Nat2Z.id, (list_lookup_total_correct _ _ _ Hkm).
      split_and!; [lia | done | done]. }
    assert (HL : RegTree.LeftChild (tree' !!! n) = Z.of_nat left)
      by (by rewrite Hn').
    assert (HR : RegTree.RightChild (tree' !!! n) = Z.of_nat (S left))
      by (rewrite Hn'; unfold RegTree.RightChild; simpl; lia).
    pose proof (ResetPosition_row tree' r n Hinner) as Hrow.
    rewrite HL, HR in Hrow.
    specialize (Hrow (Hkid left ltac:(lia)) (Hkid (S left) ltac:(lia))
                  qexpand batches rowset position_ p' Hn Hr Hat Hreset).
    rewrite <- Hdec', Hrow. apply elem_of_UpdateQueueExpand.
    exists n. split_and!; [done | done |].
    unfold child_for.
    destruct (first_value _ _ _);
      [destruct (Fltb _ _) | destruct (RegTree.DefaultLeft _)]; auto.
  - exfalso.
    pose proof (list_lookup_total_correct _ _ _ Hfr) as Hn'.
    unfold ResetPosition in Hreset.
    assert (Hleaf : RegTree.IsLeaf (tree' !!! Z.to_nat (DecodePosition position_ r))
                    = true) by (by rewrite Hat, Nat2Z.id, Hn').
    pose proof (SetNonDefaultPosition_leaf tree' qexpand batches position_ r Hleaf)
      as Heq.
    destruct (reset_rows_leaf tree' rowset _ p' r Hreset) as [_ Hp'].
    { by rewrite (DecodePosition_ext _ _ _ Heq). }
    rewrite (DecodePosition_ext _ _ _ Heq), Hat, Nat2Z.id, Hn' in Hp'.
    rewrite bool_decide_eq_true_2 in Hp' by done. simpl in Hp'.
    unfold Z.lnot in Hp'. lia.
Qed.

End level_props.

(** ** The level of the small tree *)

Module LevelFacts.
Import FixedPoint FixedPointLaws Scenario LevelScenario.

Lemma ResetPosition_routes_witness :
  ∃ p', ResetPosition qexpand batches rowset tree_split position = Some p'
    ∧ DecodePosition p' 0%nat = 1
    ∧ DecodePosition p' 2%nat = 2.
Proof.
  eexists. split; [reflexivity|]. split.
  - refine (ResetPosition_routes qexpand batches rowset tree_split position _
              0%nat 0%nat _ _ _ _ _ _ eq_refl).
    + apply list_elem_of_here.
    + apply list_elem_of_here.
    + reflexivity.
    + reflexivity.
    + unfold fresh_leaf_at. simpl. split_and!; [lia | reflexivity | discriminate].
    + unfold fresh_leaf_at. simpl. split_and!; [lia | reflexivity | discriminate].
  - refine (ResetPosition_routes qexpand batches rowset tree_split position _
              2%nat 0%nat _ _ _ _ _ _ eq_refl).
    + apply list_elem_of_here.
    + do 2 apply list_elem_of_further. apply list_elem_of_here.
    + reflexivity.
    + reflexivity.
    + unfold fresh_leaf_at. simpl. split_and!; [lia | reflexivity | discriminate].
    + unfold fresh_leaf_at. simpl. split_and!; [lia | reflexivity | discriminate].
Defined.

Lemma ResetPosition_on_leaf_witness :
  ∃ p', ResetPosition qexpand batches rowset tree_leaf position = Some p'
    ∧ p' !!! 0%nat = Z.lnot 0.
Proof.
  eexists. split; [reflexivity|].
  exact (ResetPosition_on_leaf qexpand batches rowset tree_leaf position _ 0%nat
           eq_refl eq_refl).
Defined.

Lemma frontier_after_commit_witness :
  length tree_split = 3%nat
  ∧ UpdateQueueExpand tree_split qexpand = [1; 2].
Proof.
  destruct (frontier_after_commit param snode_found qexpand tree) as (Hl & Hq & _).
  - apply NoDup_singleton.
  - intros m ->%list_elem_of_singleton. simpl. lia.
  - split; [exact Hl | exact Hq].
Defined.

Lemma frontier_empty_iff_witness :
  UpdateQueueExpand tree_leaf qexpand = [].
Proof.
  apply (frontier_empty_iff param snode qexpand tree).
  - apply NoDup_singleton.
  - intros m ->%list_elem_of_singleton. simpl. lia.
  - intros n ->%list_elem_of_singleton. reflexivity.
Defined.

Lemma level_keeps_rows_on_frontier_witness :
  ∃ p', ResetPosition qexpand batches rowset tree_split position = Some p'
    ∧ rows_on_frontier rowset [1; 2] p'.
Proof.
  eexists. split; [reflexivity|].
  refine (level_keeps_rows_on_frontier param snode_found qexpand batches rowset tree
            position _ _ _ _ _ eq_refl).
  - apply NoDup_singleton.
  - intros m ->%list_elem_of_singleton. simpl. lia.
  - intros i n Hi Hleaf. destruct i as [|i]; [|done].
    injection Hi as <-. discriminate.
  - intros r Hr _.
    repeat (apply elem_of_cons in Hr as [->|Hr]; [apply list_elem_of_here|]).
    by apply elem_of_nil in Hr.
Defined.

End LevelFacts.

(** ** What a scan of a column does to the best splits *)

Section enumerate_frame.
Context {F : Type} `{!FloatOps F} `{!SplitEvaluator F}.
Context (param_ : TrainParam F).
Context (position_ : list Z).
Context (snode_ : list (NodeEntry F)).
Context (qexpand_ : list nat).
Context (gpair : list (GradientPair F)).
Context (fid : nat).

(* a relation between the best split of a node before and after *)
Context (P : SplitEntry.t F → SplitEntry.t F → Prop).
Context (P_refl : ∀ b, P b b).
Context (P_trans : ∀ b1 b2 b3, P b1 b2 → P b2 b3 → P b1 b3).
Context (P_Update : ∀ b l v dl, P b (SplitEntry.Update b l fid v dl)).
Context (P_mid : ∀ b v, SplitEntry.SplitIndex b = fid →
                   P b (SplitEntry.update_split_value b v)).

Lemma offer_rel b c :
  (∀ cand, c = Some cand → cand_fid cand = fid) → P b (offer b c).
Proof.
  intros Hc. destruct c as [cand|]; simpl; [|done].
  rewrite (Hc cand eq_refl). apply P_Update.
Qed.

Lemma drain_best eta (e : ThreadEntry F) : best (drain param_ gpair eta e) = best e.
Proof.
  unfold drain. destruct (drain_unc_right _ _ _ _ _) as [[? ?] ?].
  by destruct (drain_unc _ _ _ _ _ _) as [[[? ?] ?] ?].
Qed.

Lemma robust_candidate_fid nid d_step fv eta (e : ThreadEntry F) cand :
  robust_candidate param_ snode_ nid fid d_step fv eta e = Some cand →
  cand_fid cand = fid.
Proof.
  unfold robust_candidate. destruct (andb _ _); [|done].
  destruct (Fgeb _ _); [|done]. by intros [= <-].
Qed.

Lemma closing_candidate_fid nid d_step (e : ThreadEntry F) cand :
  closing_candidate param_ snode_ nid fid d_step e = Some cand →
  cand_fid cand = fid.
Proof.
  unfold closing_candidate. destruct (andb _ _); [|done]. by intros [= <-].
Qed.

Lemma robust_update_rel nid d_step (e : ThreadEntry F) it :
  P (best e) (best (robust_update param_ snode_ gpair nid fid d_step e it)).
Proof.
  unfold robust_update. destruct (GradStats.Empty _); simpl; [done|].
  rewrite drain_best. apply offer_rel. intros cand. apply robust_candidate_fid.
Qed.

Lemma foldl_robust_update_rel nid d_step its (e : ThreadEntry F) :
  P (best e) (best (foldl (robust_update param_ snode_ gpair nid fid d_step) e its)).
Proof.
  revert e. induction its as [|it its IH]; intros e; simpl; [done|].
  eapply P_trans; [apply (robust_update_rel nid d_step e it) | apply IH].
Qed.

Lemma closing_pass_rel d_step temp n (e : ThreadEntry F) :
  temp !! n = Some e →
  ∃ e', closing_pass param_ snode_ qexpand_ fid d_step temp !! n = Some e'
    ∧ P (best e) (best e').
Proof.
  unfold closing_pass. revert temp e.
  induction qexpand_ as [|m ns IH]; intros temp e He; simpl.
  - by exists e.
  - destruct (decide (m = n)) as [->|Hne].
    + destruct (IH (alter (closing_update param_ snode_ fid d_step n) n temp)
                  (closing_update param_ snode_ fid d_step n e)) as (e' & He' & HP).
      { by rewrite list_lookup_alter_eq, He. }
      exists e'. split; [done|]. eapply P_trans; [|exact HP].
      simpl. apply offer_rel. intros cand. apply closing_candidate_fid.
    + apply IH. by rewrite list_lookup_alter_ne.
Qed.

Lemma midpoint_step_rel st it n (e : ThreadEntry F) :
  mid_temp st !! n = Some e →
  ∃ e', mid_temp (midpoint_step position_ fid st it) !! n = Some e'
    ∧ P (best e) (best e').
Proof.
  intros He. unfold midpoint_step.
  destruct (position_ !! index (ent it)) as [nid|]; [|by exists e].
  destruct (nid <? 0); [by exists e|].
  destruct (negb (SplitEntry.SplitIndex (best (mid_temp st !!! Z.to_nat nid))
                  =? fid)%nat) eqn:Hfid; simpl; [by exists e|].
  destruct (bool_decide _); [by exists e|].
  destruct (last_fvalue_map st !! Z.to_nat nid); [|by exists e].
  destruct (andb _ _); [|by exists e]. simpl.
  destruct (decide (Z.to_nat nid = n)) as [Heq|Hne].
  - rewrite Heq in *. rewrite list_lookup_alter_eq, He. simpl.
    eexists. split; [done|]. simpl. apply P_mid.
    rewrite (list_lookup_total_correct _ _ _ He) in Hfid.
    apply negb_false_iff in Hfid. by apply Nat.eqb_eq.
  - rewrite list_lookup_alter_ne by done. by exists e.
Qed.

Lemma midpoint_pass_rel its temp n (e : ThreadEntry F) :
  temp !! n = Some e →
  ∃ e', midpoint_pass position_ fid its temp !! n = Some e'
    ∧ P (best e) (best e').
Proof.
  unfold midpoint_pass.
  assert (Hgen : ∀ st e, mid_temp st !! n = Some e →
    ∃ e', mid_temp (foldl (midpoint_step position_ fid) st its) !! n = Some e'
      ∧ P (best e) (best e')).
  { induction its as [|it its IH]; intros st e1 He1; simpl; [by exists e1|].
    destruct (midpoint_step_rel st it n e1 He1) as (e2 & He2 & HP2).
    destruct (IH _ _ He2) as (e3 & He3 & HP3).
    exists e3. split; [done|]. by eapply P_trans. }
  intros He. by apply (Hgen (mkMidState temp ∅ ∅)).
Qed.

Lemma EnumerateSplit_rel data begin end_ d_step temp n (e : ThreadEntry F) :
  temp !! n = Some e →
  ∃ e', EnumerateSplit param_ position_ snode_ qexpand_ gpair data begin end_
          d_step fid temp !! n = Some e'
    ∧ P (best e) (best e').
Proof.
  intros He. unfold EnumerateSplit.
  set (its := scan data begin end_ d_step).
  assert (H1 : ∃ e1, clear_pass qexpand_ temp !! n = Some e1 ∧ best e1 = best e).
  { destruct (decide (n ∈ qexpand_)).
    - rewrite clear_pass_lookup_in, He by done. by eexists.
    - rewrite clear_pass_lookup_notin, He by done. by eexists. }
  destruct H1 as (e1 & He1 & Hb1).
  pose proof (main_sweep_lookup param_ position_ snode_ gpair fid d_step its
                (clear_pass qexpand_ temp) n) as H2.
  rewrite He1 in H2. simpl in H2.
  destruct (closing_pass_rel d_step _ n _ H2) as (e3 & He3 & HP3).
  destruct (midpoint_pass_rel its _ n e3 He3) as (e4 & He4 & HP4).
  exists e4. split; [done|]. rewrite <- Hb1.
  eapply P_trans; [apply (foldl_robust_update_rel n d_step)|].
  by eapply P_trans.
Qed.

End enumerate_frame.
Section enumerate_more.
Context {F : Type} `{!FloatOps F} `{!SplitEvaluator F}.
Context (param_ : TrainParam F).
Context (position_ : list Z).
Context (snode_ : list (NodeEntry F)).
Context (qexpand_ : list nat).
Context (gpair : list (GradientPair F)).

(** The scan of the column of feature [fid] leaves the best split of a
node as it is or replaces it by a split on [fid]: a best split found on
another feature is never altered, only replaced.  This holds for every
node, in the frontier or not. *)
Theorem EnumerateSplit_keeps_other_features data begin end_ d_step fid temp n
    (e : ThreadEntry F) :
  temp !! n = Some e →
  ∃ e', EnumerateSplit param_ position_ snode_ qexpand_ gpair data begin end_
          d_step fid temp !! n = Some e'
    ∧ (best e' = best e ∨ SplitEntry.SplitIndex (best e') = fid).
Proof.
  apply (EnumerateSplit_rel param_ position_ snode_ qexpand_ gpair fid
           (λ b b', b' = b ∨ SplitEntry.SplitIndex b' = fid)).
  - by left.
  - intros b1 b2 b3 [->| H2] [->| H3]; auto.
  - intros b l v dl. unfold SplitEntry.Update.
    destruct (SplitEntry.NeedReplace _ _ _ _); [by right | by left].
  - intros b v Hb. by right.
Qed.

(** The loss change of the best split of a node never goes down in a scan
of a column, the order of the numbers being total. *)
Theorem EnumerateSplit_loss_chg_monotone `{!StrictOrderLaws F} `{!OrderedLaws F}
    data begin end_ d_step fid temp n (e : ThreadEntry F) :
  temp !! n = Some e →
  ∃ e', EnumerateSplit param_ position_ snode_ qexpand_ gpair data begin end_
          d_step fid temp !! n = Some e'
    ∧ Fltb (SplitEntry.loss_chg (best e')) (SplitEntry.loss_chg (best e)) = false.
Proof.
  apply (EnumerateSplit_rel param_ position_ snode_ qexpand_ gpair fid
           (λ b b', Fltb (SplitEntry.loss_chg b') (SplitEntry.loss_chg b) = false)).
  - intros b. apply Fltb_irrefl.
  - intros b1 b2 b3 H12 H23. by eapply Fle_trans.
  - intros b l v dl. unfold SplitEntry.Update, SplitEntry.NeedReplace.
    destruct (Fgtb l (SplitEntry.loss_chg b)) eqn:Hgt; simpl.
    + unfold Fgtb in Hgt.
      destruct (Fltb l (SplitEntry.loss_chg b)) eqn:Hlt; [|done].
      pose proof (Fltb_trans _ _ _ Hgt Hlt) as Hbb. by rewrite Fltb_irrefl in Hbb.
    + destruct (Feqb l (SplitEntry.loss_chg b)) eqn:Heq; simpl;
        [|apply Fltb_irrefl].
      apply Feqb_eq in Heq as ->.
      destruct (orb _ _); simpl; apply Fltb_irrefl.
  - intros b v _. simpl. apply Fltb_irrefl.
Qed.

Lemma gsum_union `{!GroupLaws F} (l1 l2 : list (EntryPtr F)) :
  gsum gpair (l1 ++ l2) = GradStats.SetUnion (gsum gpair l1) (gsum gpair l2).
Proof.
  induction l2 as [|x l2 IH] using rev_ind.
  - rewrite app_nil_r. symmetry. apply SetUnion_Clear_r.
  - rewrite app_assoc, !gsum_snoc, IH.
    unfold GradStats.SetUnion, GradStats.Add. simpl.
    by rewrite !Fadd_assoc.
Qed.

(** At every point of the main sweep, for a node of the frontier: [stats]
is the sum over the entries of the node scanned so far, [stats_unc] and
[stats_unc_right] are the sums over the entries in the queues [data_unc]
and [data_unc_right] (as the comments of the two fields say they should
be), and the entries that left a queue are the rest: stats_c_left +
stats_unc = stats and stats_left + stats_unc_right = stats.  Sums are exact
and eps is not negative. *)
Theorem sweep_conserves_statistics `{!GroupLaws F} fid d_step temp nid e0 l
    (e : ThreadEntry F) :
  nonneg_budget (robust_eps param_) →
  nid ∈ qexpand_ →
  temp !! nid = Some e0 →
  main_sweep param_ position_ snode_ gpair fid d_step l (clear_pass qexpand_ temp)
    !! nid = Some e →
  stats e = gsum gpair (entries_of position_ nid l)
  ∧ stats_unc e = gsum gpair (data_unc e)
  ∧ stats_unc_right e = gsum gpair (data_unc_right e)
  ∧ GradStats.SetUnion (stats_c_left e) (stats_unc e) = stats e
  ∧ GradStats.SetUnion (stats_left e) (stats_unc_right e) = stats e.
Proof.
  intros Heps Hin He0 He.
  rewrite (sweep_from_clear param_ position_ snode_ qexpand_ gpair fid d_step l
             temp nid e0 Hin He0) in He.
  destruct (foldl_robust_update_inv param_ snode_ gpair nid fid d_step
              (entries_of position_ nid l) [] 0 0 (clear_scan e0) Heps
              (proj1 (clear_scan_inv gpair e0)))
    as (j & i & _ & _ & Hq & Hs).
  specialize (Hs _ (proj2 (clear_scan_inv gpair e0))).
  injection He as He. rewrite He in Hq, Hs. simpl in Hq, Hs.
  destruct Hq as (_ & Hu & Hr). destruct Hs as (Hst & Hl & Hc & Hsr & Hsu).
  split_and!.
  - done.
  - by rewrite Hu.
  - by rewrite Hr.
  - by rewrite Hc, Hsu, Hst, <- gsum_union, take_drop.
  - by rewrite Hl, Hsr, Hst, <- gsum_union, take_drop.
Qed.

Lemma foldl_alter_fixed {A : Type} (g : nat → A → A) (ns : list nat) (l : list A)
    n a :
  g n a = a → l !! n = Some a →
  foldl (λ l m, alter (g m) m l) l ns !! n = Some a.
Proof.
  intros Hfix. revert l. induction ns as [|m ns IH]; intros l Hl; simpl; [done|].
  apply IH. destruct (decide (m = n)) as [->|Hne].
  - rewrite list_lookup_alter_eq, Hl. simpl. by rewrite Hfix.
  - by rewrite list_lookup_alter_ne.
Qed.

Lemma midpoint_fold_no_entry fid its st n :
  entries_of position_ n its = [] →
  mid_temp (foldl (midpoint_step position_ fid) st its) !! n = mid_temp st !! n.
Proof.
  revert st. induction its as [|it its IH]; intros st Hnone; simpl; [done|].
  unfold entries_of in Hnone.
  destruct (decide (node_of position_ it = Some n)) as [Hit|Hit].
  { by rewrite filter_cons_True in Hnone. }
  rewrite filter_cons_False in Hnone by done.
  rewrite IH by done.
  unfold midpoint_step, node_of in *.
  destruct (position_ !! index (ent it)) as [nid|]; [|done].
  destruct (nid <? 0); [done|].
  destruct (orb _ _); [done|].
  destruct (last_fvalue_map st !! Z.to_nat nid); [|done].
  destruct (andb _ _); [|done]. simpl.
  rewrite list_lookup_alter_ne; [done|]. congruence.
Qed.

(** A node of the frontier none of whose eligible instances has an entry
in the column (as for every node when the column is empty) gets no
candidate from the column when min_child_weight is positive: the scan
clears its scan state and leaves its best split as it is. *)
Theorem EnumerateSplit_no_entry data begin end_ d_step fid temp nid
    (e : ThreadEntry F) :
  Fleb (min_child_weight param_) F0 = false →
  nid ∈ qexpand_ →
  temp !! nid = Some e →
  entries_of position_ nid (scan data begin end_ d_step) = [] →
  EnumerateSplit param_ position_ snode_ qexpand_ gpair data begin end_ d_step
    fid temp !! nid = Some (clear_scan e).
Proof.
  intros Hmcw Hin He Hnone. unfold EnumerateSplit, midpoint_pass.
  rewrite midpoint_fold_no_entry by done. simpl.
  unfold closing_pass.
  apply (foldl_alter_fixed (closing_update param_ snode_ fid d_step)).
  - unfold closing_update, closing_candidate. simpl.
    unfold Fgeb. by rewrite Hmcw.
  - rewrite (sweep_from_clear param_ position_ snode_ qexpand_ gpair fid d_step _
               temp nid e Hin He).
    by rewrite Hnone.
Qed.

End enumerate_more.
Section scan_props.
Context {F : Type} `{!FloatOps F}.

Lemma walk_snoc (data : list (Entry F)) first step (len : nat) :
  walk data first step (S len)
  = walk data first step len
    ++ option_list (deref data (first + step * Z.of_nat len)).
Proof.
  unfold walk. by rewrite seqZ_S, omap_app.
Qed.

Lemma walk_cons (data : list (Entry F)) first step (len : nat) :
  walk data first step (S len)
  = option_list (deref data first) ++ walk data (first + step) step len.
Proof.
  unfold walk. rewrite seqZ_cons by lia.
  replace (Z.pred (Z.of_nat (S len))) with (Z.of_nat len) by lia.
  change (Z.succ 0) with (1 + 0). rewrite <- fmap_add_seqZ.
  cbn [omap list_omap]. replace (first + step * 0) with first by lia.
  assert (Heq : omap (λ k, deref data (first + step * k))
                  (Z.add 1 <$> seqZ 0 (Z.of_nat len))
                = omap (λ k, deref data (first + step + step * k))
                    (seqZ 0 (Z.of_nat len))).
  { generalize (seqZ 0 (Z.of_nat len)). intros l.
    induction l as [|k l IH]; [done|]. rewrite fmap_cons. cbn [omap list_omap].
    rewrite IH. by replace (first + step * (1 + k)) with (first + step + step * k)
      by lia. }
  rewrite Heq. by destruct (deref data first).
Qed.

Lemma walk_reverse (data : list (Entry F)) begin d_step (len : nat) :
  walk data (begin + d_step * Z.of_nat len - d_step) (- d_step) len
  = reverse (walk data begin d_step len).
Proof.
  induction len as [|len IH]; [done|].
  rewrite walk_cons, walk_snoc, reverse_app.
  replace (begin + d_step * Z.of_nat (S len) - d_step)
    with (begin + d_step * Z.of_nat len) by lia.
  replace (begin + d_step * Z.of_nat len + - d_step)
    with (begin + d_step * Z.of_nat len - d_step) by lia.
  rewrite IH. f_equal. by destruct (deref _ _).
Qed.

(** The order of the scan (lines 554-576): the entries of the slice from
[begin] to [end_] are scanned in the order of the slice, or in the reverse
order when the first value of the slice is greater than its last one; no
entry is left out and none is scanned twice. *)
Theorem scan_order (data : list (Entry F)) begin d_step (len : nat) :
  d_step = 1 ∨ d_step = -1 →
  let end_ := begin + d_step * Z.of_nat len in
  scan data begin end_ d_step
  = if descent data begin end_ d_step
    then reverse (walk data begin d_step len)
    else walk data begin d_step len.
Proof.
  intros Hd end_. unfold scan.
  replace (Z.abs_nat (begin - end_)) with len by (unfold end_; lia).
  destruct (descent data begin end_ d_step); [|done].
  unfold end_. apply walk_reverse.
Qed.

End scan_props.

(** ** The scenario again: what a scan keeps *)

Module ScanFacts.
Import FixedPoint FixedPointLaws Scenario.

Lemma EnumerateSplit_keeps_other_features_witness :
  ∃ e', EnumerateSplit param position snode qexpand gpair data 0 2 1 0%nat temp
          !! 0%nat = Some e'
    ∧ (best e' = SplitEntry.init ∨ SplitEntry.SplitIndex (best e') = 0%nat).
Proof.
  exact (EnumerateSplit_keeps_other_features param position snode qexpand gpair
           data 0 2 1 0%nat temp 0%nat inhabitant eq_refl).
Defined.

Lemma EnumerateSplit_loss_chg_monotone_witness :
  ∃ e', EnumerateSplit param position snode qexpand gpair data 0 2 1 0%nat temp
          !! 0%nat = Some e'
    ∧ Fltb (SplitEntry.loss_chg (best e')) 0 = false.
Proof.
  exact (EnumerateSplit_loss_chg_monotone param position snode qexpand gpair
           data 0 2 1 0%nat temp 0%nat inhabitant eq_refl).
Defined.

Lemma sweep_conserves_statistics_witness :
  stats after_first = gsum gpair [it0]
  ∧ stats_unc after_first = gsum gpair (data_unc after_first)
  ∧ stats_unc_right after_first = gsum gpair (data_unc_right after_first).
Proof.
  destruct (sweep_conserves_statistics param position snode qexpand gpair 0%nat 1
              temp 0%nat inhabitant [it0] after_first ScenarioFacts.budget)
    as (H1 & H2 & H3 & _).
  - apply list_elem_of_here.
  - reflexivity.
  - reflexivity.
  - exact (conj H1 (conj H2 H3)).
Defined.

Lemma EnumerateSplit_no_entry_witness :
  EnumerateSplit param position snode qexpand gpair data 0 0 1 0%nat temp !! 0%nat
  = Some (clear_scan inhabitant).
Proof.
  apply (EnumerateSplit_no_entry param position snode qexpand gpair data 0 0 1 0%nat
           temp 0%nat inhabitant).
  - reflexivity.
  - apply list_elem_of_here.
  - reflexivity.
  - reflexivity.
Defined.

Lemma scan_order_witness : scan data 1 (-1) (-1) = [it0; it1].
Proof. exact (scan_order data 1 (-1) 2%nat (or_intror eq_refl)). Defined.

End ScanFacts.

(** ** Reducing the best splits of the threads *)

Section sync_props.
Context {F : Type} `{!FloatOps F}.
Context (nthread_ : nat).
Context (stemp_ : list (list (ThreadEntry F))).

#[local] Abbreviation thread_best :=
  (λ tid nid : nat, best ((stemp_ !!! tid) !!! nid)).

Lemma UpdateEntry_cases (b o : SplitEntry.t F) :
  SplitEntry.UpdateEntry b o = o ∨ SplitEntry.UpdateEntry b o = b.
Proof.
  unfold SplitEntry.UpdateEntry, SplitEntry.Update.
  destruct (SplitEntry.NeedReplace _ _ _ _); [left; by destruct o | by right].
Qed.

Lemma UpdateEntry_not_below `{!StrictOrderLaws F} `{!OrderedLaws F}
    (b o : SplitEntry.t F) :
  Fltb (SplitEntry.loss_chg (SplitEntry.UpdateEntry b o)) (SplitEntry.loss_chg b)
  = false
  ∧ Fltb (SplitEntry.loss_chg (SplitEntry.UpdateEntry b o)) (SplitEntry.loss_chg o)
    = false.
Proof.
  unfold SplitEntry.UpdateEntry, SplitEntry.Update, SplitEntry.NeedReplace.
  destruct (Fgtb (SplitEntry.loss_chg o) (SplitEntry.loss_chg b)) eqn:Hgt; simpl.
  - split; [|apply Fltb_irrefl]. unfold Fgtb in Hgt.
    destruct (Fltb (SplitEntry.loss_chg o) (SplitEntry.loss_chg b)) eqn:Hlt; [|done].
    pose proof (Fltb_trans _ _ _ Hgt Hlt) as Hbb. by rewrite Fltb_irrefl in Hbb.
  - destruct (Feqb (SplitEntry.loss_chg o) (SplitEntry.loss_chg b)) eqn:Heq; simpl.
    + apply Feqb_eq in Heq. rewrite Heq.
      destruct (orb _ _); simpl; rewrite ?Heq; split; apply Fltb_irrefl.
    + split; [apply Fltb_irrefl | exact Hgt].
Qed.

Lemma sync_node_fields nid (e : NodeEntry F) tids :
  let e' := foldl (λ e tid,
                     set_node_best e
                       (SplitEntry.UpdateEntry (node_best e) (thread_best tid nid)))
              e tids in
  node_stats e' = node_stats e ∧ root_gain e' = root_gain e ∧ weight e' = weight e
  ∧ (node_best e' = node_best e
     ∨ ∃ tid, tid ∈ tids ∧ node_best e' = thread_best tid nid).
Proof.
  revert e. induction tids as [|tid tids IH]; intros e; simpl; [by auto|].
  destruct (IH (set_node_best e
                  (SplitEntry.UpdateEntry (node_best e) (thread_best tid nid))))
    as (Hs & Hg & Hw & Hb).
  simpl in *. split_and!; [done | done | done |].
  destruct Hb as [Hb|(t & Ht & Hb)].
  - rewrite Hb. destruct (UpdateEntry_cases (node_best e) (thread_best tid nid))
      as [-> | ->]; [right; exists tid; split; [by left | done] | by left].
  - right. exists t. split; [by right | done].
Qed.

Lemma sync_node_maximum `{!StrictOrderLaws F} `{!OrderedLaws F} nid
    (e : NodeEntry F) tids :
  let e' := foldl (λ e tid,
                     set_node_best e
                       (SplitEntry.UpdateEntry (node_best e) (thread_best tid nid)))
              e tids in
  Fltb (SplitEntry.loss_chg (node_best e')) (SplitEntry.loss_chg (node_best e))
  = false
  ∧ ∀ tid, tid ∈ tids →
      Fltb (SplitEntry.loss_chg (node_best e'))
        (SplitEntry.loss_chg (thread_best tid nid)) = false.
Proof.
  revert e. induction tids as [|tid tids IH]; intros e; simpl.
  - split; [apply Fltb_irrefl | intros tid []%elem_of_nil].
  - destruct (IH (set_node_best e
                    (SplitEntry.UpdateEntry (node_best e) (thread_best tid nid))))
      as [H1 H2].
    destruct (UpdateEntry_not_below (node_best e) (thread_best tid nid)) as [H3 H4].
    simpl in *. split.
    + by eapply Fle_trans.
    + intros t [->|Ht]%elem_of_cons; [by eapply Fle_trans | by apply H2].
Qed.

(** [SyncBestSolution] chooses, for every node of the frontier, among the
best split the node has and the best splits of the threads: the node ends
with one of them, none of them has a greater loss change (the order of the
numbers being total), and the statistics, the gain and the weight of the
node are as before.  The other nodes are not touched. *)
Theorem SyncBestSolution_selects `{!StrictOrderLaws F} `{!OrderedLaws F}
    qexpand (snode_ : list (NodeEntry F)) :
  NoDup qexpand →
  let snode' := SyncBestSolution nthread_ stemp_ qexpand snode_ in
  (∀ nid e, nid ∈ qexpand → snode_ !! nid = Some e →
     ∃ e', snode' !! nid = Some e'
       ∧ node_stats e' = node_stats e ∧ root_gain e' = root_gain e
       ∧ weight e' = weight e
       ∧ (node_best e' = node_best e
          ∨ ∃ tid, (tid < nthread_)%nat ∧ node_best e' = thread_best tid nid)
       ∧ Fltb (SplitEntry.loss_chg (node_best e')) (SplitEntry.loss_chg (node_best e))
         = false
       ∧ ∀ tid, (tid < nthread_)%nat →
           Fltb (SplitEntry.loss_chg (node_best e'))
             (SplitEntry.loss_chg (thread_best tid nid)) = false)
  ∧ (∀ nid, nid ∉ qexpand → snode' !! nid = snode_ !! nid).
Proof.
  intros Hnd snode'. split.
  - intros nid e Hin He. unfold snode', SyncBestSolution.
    rewrite (foldl_alter_lookup_once (sync_node nthread_ stemp_)) by done.
    rewrite He. simpl. eexists. split; [done|].
    destruct (sync_node_fields nid e (seq 0 nthread_)) as (Hs & Hg & Hw & Hb).
    destruct (sync_node_maximum nid e (seq 0 nthread_)) as [H1 H2].
    split_and!; [done | done | done | | done |].
    + destruct Hb as [?|(tid & Ht%elem_of_seq & Hb)]; [by left|].
      right. exists tid. split; [lia | done].
    + intros tid Ht. apply H2, elem_of_seq. lia.
  - intros nid Hnin. unfold snode', SyncBestSolution.
    by apply (foldl_alter_lookup_notin (sync_node nthread_ stemp_)).
Qed.

End sync_props.
(** ** The statistics of new nodes *)

Section init_new_node_props.
Context {F : Type} `{!FloatOps F} `{!WeightEvaluator F}.
Context (position_ : list Z).
Context (gpair : list (GradientPair F)).
Context (tree : list (RegTree.Node F)).

#[local] Abbreviation bump := (λ ridx (e : ThreadEntry F),
  set_stats e (GradStats.Add (stats e) (gpair !!! ridx))).

Lemma AddStats_Add `{!GroupLaws F} (a b : GradStats.t F) p :
  GradStats.AddStats a (GradStats.Add b p)
  = GradStats.Add (GradStats.AddStats a b) p.
Proof.
  unfold GradStats.AddStats, GradStats.Add. simpl. by rewrite !Fadd_assoc.
Qed.

Lemma AddStats_Add_l `{!GroupLaws F} (a b : GradStats.t F) p :
  GradStats.AddStats (GradStats.Add a p) b
  = GradStats.Add (GradStats.AddStats a b) p.
Proof.
  unfold GradStats.AddStats, GradStats.Add. simpl. f_equal.
  - by rewrite <- !Fadd_assoc, (Fadd_comm (grad p)).
  - by rewrite <- !Fadd_assoc, (Fadd_comm (hess p)).
Qed.

Lemma AddStats_Clear `{!GroupLaws F} (a : GradStats.t F) :
  GradStats.AddStats a GradStats.Clear = a.
Proof. destruct a. unfold GradStats.AddStats. simpl. by rewrite !Fadd_0_r. Qed.

(* the sum over the threads, from any start *)
Lemma sum_from_Add `{!GroupLaws F} (ss : list (list (ThreadEntry F))) nid a p :
  foldl (λ sum s, GradStats.AddStats sum (stats (s !!! nid))) (GradStats.Add a p) ss
  = GradStats.Add
      (foldl (λ sum s, GradStats.AddStats sum (stats (s !!! nid))) a ss) p.
Proof.
  revert a. induction ss as [|s ss IH]; intros a; simpl; [done|].
  by rewrite AddStats_Add_l, IH.
Qed.

Lemma node_sum_alter_same `{!GroupLaws F} (ss : list (list (ThreadEntry F)))
    tid nid ridx :
  (tid < length ss)%nat →
  (∀ s, s ∈ ss → (nid < length s)%nat) →
  node_sum (alter (alter (bump ridx) nid) tid ss) nid
  = GradStats.Add (node_sum ss nid) (gpair !!! ridx).
Proof.
  intros Htid Hlen. unfold node_sum. generalize (@GradStats.Clear F _).
  revert tid Htid.
  induction ss as [|s ss IH]; intros tid Htid a; simpl in Htid; [lia|].
  destruct tid as [|tid]; simpl.
  - destruct (lookup_lt_is_Some_2 s nid) as [e He]; [apply Hlen; by left|].
    rewrite (list_lookup_total_correct s nid e He).
    rewrite (list_lookup_total_correct (alter (bump ridx) nid s) nid (bump ridx e))
      by (by rewrite list_lookup_alter_eq, He).
    simpl. by rewrite AddStats_Add, sum_from_Add.
  - apply IH; [intros; apply Hlen; by right | lia].
Qed.

Lemma node_sum_alter_other (ss : list (list (ThreadEntry F))) tid nid m
    (g : ThreadEntry F → ThreadEntry F) :
  m ≠ nid → node_sum (alter (alter g m) tid ss) nid = node_sum ss nid.
Proof.
  intros Hne. unfold node_sum. generalize (@GradStats.Clear F _). revert tid.
  induction ss as [|s ss IH]; intros tid a; [done|].
  destruct tid as [|tid]; simpl.
  - f_equal. f_equal. f_equal. apply lookup_total_eq.
    by rewrite list_lookup_alter_ne.
  - apply IH.
Qed.

Lemma add_row_lengths (ss : list (list (ThreadEntry F))) it :
  length (add_row position_ gpair ss it) = length ss
  ∧ ∀ n, (∀ s, s ∈ ss → length s = n) →
         ∀ s, s ∈ add_row position_ gpair ss it → length s = n.
Proof.
  destruct it as [tid ridx]. unfold add_row.
  destruct (position_ !!! ridx <? 0); [done|].
  split; [apply length_alter|].
  intros n Hn s [k Hk]%list_elem_of_lookup.
  destruct (decide (k = tid)) as [->|Hne].
  - rewrite list_lookup_alter_eq in Hk.
    destruct (ss !! tid) as [s0|] eqn:Hs0; [|done]. injection Hk as <-.
    rewrite length_alter. apply Hn. by eapply list_elem_of_lookup_2.
  - rewrite list_lookup_alter_ne in Hk by done.
    apply Hn. by eapply list_elem_of_lookup_2.
Qed.

Lemma node_sum_add_row `{!GroupLaws F} (ss : list (list (ThreadEntry F)))
    tid ridx nid :
  (tid < length ss)%nat →
  (∀ s, s ∈ ss → (nid < length s)%nat) →
  node_sum (add_row position_ gpair ss (tid, ridx)) nid
  = if bool_decide (position_ !!! ridx = Z.of_nat nid)
    then GradStats.Add (node_sum ss nid) (gpair !!! ridx)
    else node_sum ss nid.
Proof.
  intros Htid Hlen. unfold add_row.
  destruct (Z.ltb_spec (position_ !!! ridx) 0) as [Hneg|Hpos].
  - rewrite bool_decide_eq_false_2 by lia. done.
  - case_bool_decide as Heq.
    + rewrite Heq, Nat2Z.id. by apply node_sum_alter_same.
    + apply node_sum_alter_other. lia.
Qed.

Lemma node_sum_rows `{!GroupLaws F} (its : list (nat * nat))
    (ss : list (list (ThreadEntry F))) nid n :
  (nid < n)%nat →
  (∀ s, s ∈ ss → length s = n) →
  Forall (λ it, it.1 < length ss)%nat its →
  node_sum (foldl (add_row position_ gpair) ss its) nid
  = foldl GradStats.Add (node_sum ss nid)
      ((gpair !!!.) <$> filter (λ ridx, position_ !!! ridx = Z.of_nat nid) its.*2).
Proof.
  intros Hnid. revert ss.
  induction its as [|[tid ridx] its IH]; intros ss Hlen Htid; [done|].
  apply Forall_cons in Htid as [Ht Htid]. simpl in Ht.
  destruct (add_row_lengths ss (tid, ridx)) as [Hl1 Hl2].
  cbn [foldl]. rewrite fmap_cons. cbn [snd].
  rewrite IH; [|by apply Hl2 | by rewrite Hl1].
  rewrite node_sum_add_row; [|done|intros s Hs; rewrite (Hlen s Hs); lia].
  case_bool_decide as Heq.
  - by rewrite filter_cons_True by done.
  - by rewrite filter_cons_False by done.
Qed.

Lemma node_sum_clear `{!GroupLaws F} (ss : list (list (ThreadEntry F))) nid :
  (∀ s, s ∈ ss → stats (s !!! nid) = GradStats.Clear) →
  node_sum ss nid = GradStats.Clear.
Proof.
  unfold node_sum. intros Hc.
  induction ss as [|s ss IH] using rev_ind; [done|].
  rewrite foldl_app. simpl. rewrite IH by (intros; apply Hc; set_solver).
  rewrite Hc by set_solver. apply AddStats_Clear.
Qed.

End init_new_node_props.
Section init_new_node_spec.
Context {F : Type} `{!FloatOps F} `{!WeightEvaluator F}.
Context (position_ : list Z).
Context (gpair : list (GradientPair F)).
Context (rowset : list nat).
Context (tree : list (RegTree.Node F)).
Context (thread_of : nat → nat).

Lemma imap_thread_rows (g : nat → nat) (rows : list nat) :
  (imap (λ i ridx, (g i, ridx)) rows).*2 = rows.
Proof.
  revert g. induction rows as [|r rows IH]; intros g; [done|].
  rewrite imap_cons, fmap_cons. simpl. f_equal. apply (IH (g ∘ S)).
Qed.

(** [InitNewNode] gives every node of [qexpand] the sum of the gradient
pairs of the eligible instances of the row set that are on the node,
whatever the assignment of the iterations to the threads is, and from that
sum its weight and its gain; the best split of the node is not written.
Sums are exact, and the statistics the threads hold for the node are clear
on entry (as they are for a node that is new).  The nodes outside
[qexpand] are only resized. *)
Theorem InitNewNode_stats `{!GroupLaws F} qexpand
    (stemp_ : list (list (ThreadEntry F))) (snode_ : list (NodeEntry F)) :
  (∀ i, (i < length rowset)%nat → (thread_of i < length stemp_)%nat) →
  let snode' :=
    (InitNewNode position_ gpair rowset tree thread_of qexpand stemp_ snode_).2 in
  (∀ nid, nid ∈ qexpand → (nid < length tree)%nat →
     (∀ s e, s ∈ stemp_ → s !! nid = Some e → stats e = GradStats.Clear) →
     ∃ e', snode' !! nid = Some e'
       ∧ node_stats e'
         = rows_sum gpair
             (filter (λ ridx, position_ !!! ridx = Z.of_nat nid) rowset)
       ∧ weight e'
         = ComputeWeight (RegTree.Parent (tree !!! nid) `mod` 2 ^ 32) (node_stats e')
       ∧ root_gain e'
         = ComputeScore (RegTree.Parent (tree !!! nid) `mod` 2 ^ 32) (node_stats e')
             (weight e')
       ∧ node_best e'
         = node_best (resize (length tree) inhabitant snode_ !!! nid))
  ∧ (∀ nid, nid ∉ qexpand →
       snode' !! nid = resize (length tree) inhabitant snode_ !! nid).
Proof.
  intros Htid snode'. unfold snode', InitNewNode. cbn [snd].
  set (S0 := resize (length tree) inhabitant <$> stemp_).
  set (its := imap (λ i ridx, (thread_of i, ridx)) rowset).
  set (S1 := foldl (add_row position_ gpair) S0 its).
  set (N0 := resize (length tree) inhabitant snode_).
  split.
  - intros nid Hin Hnid Hclear.
    assert (HS0 : ∀ s, s ∈ S0 → length s = length tree).
    { intros s (s0 & -> & _)%list_elem_of_fmap. apply length_resize. }
    assert (Hsum : node_sum S1 nid
              = rows_sum gpair
                  (filter (λ ridx, position_ !!! ridx = Z.of_nat nid) rowset)).
    { unfold S1. rewrite (node_sum_rows position_ gpair its S0 nid (length tree));
        [|done|done|].
      - unfold its. rewrite imap_thread_rows, node_sum_clear; [done|].
        intros s (s0 & -> & Hs0)%list_elem_of_fmap.
        destruct (decide (nid < length s0)%nat) as [Hlt|Hge].
        + rewrite lookup_total_resize by done.
          destruct (lookup_lt_is_Some_2 s0 nid Hlt) as [e He].
          rewrite (list_lookup_total_correct _ _ _ He). by eapply Hclear.
        + by rewrite lookup_total_resize_new by lia.
      - apply Forall_lookup. intros i [tid ridx] Hi. unfold its in Hi.
        rewrite list_lookup_imap in Hi.
        destruct (rowset !! i) as [r|] eqn:Hr; [|done]. injection Hi as <- <-.
        unfold S0. rewrite length_fmap. apply Htid. by eapply lookup_lt_Some. }
    destruct (lookup_lt_is_Some_2 N0 nid) as [e0 He0];
      [unfold N0; by rewrite length_resize|].
    rewrite (foldl_alter_lookup_in (set_weight tree)) by done.
    rewrite (foldl_alter_lookup_in (λ nid e, set_node_stats e (node_sum S1 nid)))
      by done.
    rewrite He0. simpl. eexists. split; [done|]. simpl.
    rewrite (list_lookup_total_correct _ _ _ He0). by rewrite Hsum.
  - intros nid Hnin.
    rewrite (foldl_alter_lookup_notin (set_weight tree)) by done.
    by rewrite (foldl_alter_lookup_notin
                  (λ nid e, set_node_stats e (node_sum S1 nid))) by done.
Qed.

End init_new_node_spec.
(** ** The first positions *)

Section init_data_props.
Context {F : Type} `{!FloatOps F}.
Context (subsample one : F).
Context (coin_flip : nat → bool).
Context (gpair : list (GradientPair F)).
Context (num_nodes num_roots : Z).

#[local] Abbreviation deleted := (λ ridx : nat, Fltb (hess (gpair !!! ridx)) F0).

Lemma set_roots_None (root_index : list Z) rows position_ :
  set_roots root_index num_roots rows position_ = None
  ↔ ∃ r, r ∈ rows ∧ num_roots `mod` 2 ^ 32 ≤ root_index !!! r.
Proof.
  revert position_. induction rows as [|r rows IH]; intros p; simpl.
  - split; [done|]. intros (? & []%elem_of_nil & _).
  - unfold set_root. destruct (Z.ltb_spec (root_index !!! r) (num_roots `mod` 2 ^ 32)).
    + rewrite IH. split.
      * intros (r' & Hin & Hr'). exists r'. split; [by right | done].
      * intros (r' & [->|Hin]%elem_of_cons & Hr'); [lia|]. by exists r'.
    + split; [|done]. intros _. exists r. split; [by left | done].
Qed.

(** [InitData] fails exactly when the tree has other nodes than its roots
(the CHECK_EQ of line 158) or, root indices being given, an instance of
the row set has a root index that is not below the number of roots (the
CHECK_LT of line 173). *)
Theorem InitData_fails_iff (root_index : list Z) rowset position_ :
  InitData_position subsample one coin_flip gpair root_index rowset num_nodes
    num_roots position_ = None
  ↔ num_nodes ≠ num_roots
    ∨ (root_index ≠ []
       ∧ ∃ r, r ∈ rowset ∧ num_roots `mod` 2 ^ 32 ≤ root_index !!! r).
Proof.
  unfold InitData_position.
  destruct (Z.eqb_spec num_nodes num_roots) as [Heq|Hne]; simpl.
  2: { split; [by left | done]. }
  destruct root_index as [|x xs].
  - split; [done|]. intros [?|[? _]]; done.
  - destruct (set_roots (x :: xs) num_roots rowset _) as [p1|] eqn:Hroots.
    + split; [done|]. intros [?|[_ Hex]]; [done|].
      by rewrite (proj2 (set_roots_None (x :: xs) rowset
                           (resize (length gpair) 0 position_)) Hex) in Hroots.
    + apply set_roots_None in Hroots. split; [|done].
      intros _. right. split; [done | done].
Qed.

(* the positions after the roots are set *)
Lemma set_roots_Some (root_index : list Z) rows position_ p1 :
  set_roots root_index num_roots rows position_ = Some p1 →
  length p1 = length position_
  ∧ (∀ r, r ∈ rows → (r < length position_)%nat →
       p1 !!! r = to_int (root_index !!! r)
       ∧ root_index !!! r < num_roots `mod` 2 ^ 32)
  ∧ (∀ r, r ∉ rows → p1 !! r = position_ !! r).
Proof.
  revert position_. induction rows as [|r0 rows IH]; intros p Hroots; simpl in Hroots.
  - injection Hroots as <-. split_and!; [done | intros r []%elem_of_nil | done].
  - unfold set_root in Hroots.
    destruct (Z.ltb_spec (root_index !!! r0) (num_roots `mod` 2 ^ 32)) as [Hlt|];
      [|done].
    destruct (IH _ Hroots) as (Hlen & Hin & Hout).
    rewrite length_insert in Hlen, Hin. split_and!; [done | |].
    + intros r Hr Hrl. destruct (decide (r ∈ rows)) as [Hr'|Hr']; [by apply Hin|].
      apply elem_of_cons in Hr as [->|?]; [|done].
      rewrite (lookup_total_eq _ _ _ (Hout r0 Hr')).
      split; [|done]. apply list_lookup_total_correct.
      by rewrite list_lookup_insert_eq.
    + intros r [Hne Hr]%not_elem_of_cons.
      by rewrite Hout, list_lookup_insert_ne.
Qed.

Lemma zero_roots rows (position_ : list Z) :
  let p1 := foldl (λ position_ ridx, <[ridx := 0]> position_) position_ rows in
  length p1 = length position_
  ∧ (∀ r, r ∈ rows → (r < length position_)%nat → p1 !!! r = 0)
  ∧ (∀ r, r ∉ rows → p1 !! r = position_ !! r).
Proof.
  revert position_. induction rows as [|r0 rows IH]; intros p; simpl.
  - split_and!; [done | intros r []%elem_of_nil | done].
  - destruct (IH (<[r0:=0]> p)) as (Hlen & Hin & Hout).
    rewrite length_insert in Hlen, Hin. split_and!; [done | |].
    + intros r Hr Hrl. destruct (decide (r ∈ rows)) as [Hr'|Hr']; [by apply Hin|].
      apply elem_of_cons in Hr as [->|?]; [|done].
      rewrite (lookup_total_eq _ _ _ (Hout r0 Hr')).
      apply list_lookup_total_correct. by rewrite list_lookup_insert_eq.
    + intros r [Hne Hr]%not_elem_of_cons.
      by rewrite Hout, list_lookup_insert_ne.
Qed.

Lemma mark_deleted_rows rows (position_ : list Z) :
  NoDup rows →
  let p2 := foldl (mark_deleted gpair) position_ rows in
  length p2 = length position_
  ∧ (∀ r, (r < length position_)%nat →
       p2 !!! r = if bool_decide (r ∈ rows) && deleted r
                  then Z.lnot (position_ !!! r) else position_ !!! r).
Proof.
  intros Hnd. revert position_.
  induction Hnd as [|r0 rows Hr0 Hnd IH]; intros p; simpl.
  - done.
  - destruct (IH (mark_deleted gpair p r0)) as (Hlen & Hval).
    assert (Hl0 : length (mark_deleted gpair p r0) = length p).
    { unfold mark_deleted. destruct (Fltb _ _); [apply length_insert | done]. }
    rewrite Hl0 in Hlen, Hval. split; [done|].
    intros r Hr. rewrite (Hval r Hr).
    destruct (decide (r = r0)) as [->|Hne].
    + rewrite bool_decide_eq_false_2 by done.
      rewrite bool_decide_eq_true_2 by (by left). simpl.
      unfold mark_deleted. destruct (Fltb _ _); [|done].
      apply list_lookup_total_correct. by rewrite list_lookup_insert_eq.
    + rewrite (bool_decide_ext (r ∈ r0 :: rows) (r ∈ rows))
        by (rewrite elem_of_cons; split; [by intros [?|?] | by right]).
      assert (Heq : mark_deleted gpair p r0 !!! r = p !!! r).
      { unfold mark_deleted. destruct (Fltb _ _); [|done].
        apply lookup_total_eq. by rewrite list_lookup_insert_ne. }
      by rewrite Heq.
Qed.

#[local] Abbreviation kept := (filter (λ r : nat, deleted r = false)).

Lemma mark_subsample_rows rows (position_ : list Z) draws :
  NoDup rows →
  let st := foldl (mark_subsample coin_flip gpair) (position_, draws) rows in
  length st.1 = length position_
  ∧ (∀ r, r ∉ rows → st.1 !! r = position_ !! r)
  ∧ (∀ pre r post, rows = pre ++ r :: post → (r < length position_)%nat →
       st.1 !!! r
       = if negb (deleted r) && negb (coin_flip (draws + length (kept pre)))
         then Z.lnot (position_ !!! r) else position_ !!! r).
Proof.
  intros Hnd. revert position_ draws.
  induction Hnd as [|r0 rows Hr0 Hnd IH]; intros p draws; cbn [foldl].
  - split_and!; [done | done |]. intros pre r post Hnil. by destruct pre.
  - set (st0 := mark_subsample coin_flip gpair (p, draws) r0).
    assert (H0 : length st0.1 = length p
                 ∧ (∀ r, r ≠ r0 → st0.1 !! r = p !! r)
                 ∧ st0.2 = (draws + length (kept [r0]))%nat
                 ∧ ((r0 < length p)%nat →
                    st0.1 !!! r0
                    = if negb (deleted r0) && negb (coin_flip draws)
                      then Z.lnot (p !!! r0) else p !!! r0)).
    { unfold st0, mark_subsample. cbv beta.
      destruct (Fltb (hess (gpair !!! r0)) F0) eqn:Hdel; simpl.
      - rewrite filter_cons_False by (by rewrite Hdel). simpl.
        split_and!; [done | done | lia | done].
      - rewrite filter_cons_True by done. simpl.
        destruct (coin_flip draws); simpl.
        + split_and!; [done | done | lia | done].
        + split_and!; [apply length_insert | | lia |].
          * intros r Hne. by rewrite list_lookup_insert_ne.
          * intros Hlt. apply list_lookup_total_correct.
            by rewrite list_lookup_insert_eq. }
    destruct H0 as (Hl0 & Ho0 & Hd0 & Hv0).
    destruct st0 as [p0 d0]. simpl in *. subst d0.
    destruct (IH p0 (draws + length (kept [r0]))%nat) as (Hlen & Hout & Hin).
    rewrite Hl0 in Hlen, Hin. split_and!; [done | |].
    + intros r [Hne Hr]%not_elem_of_cons. by rewrite Hout, Ho0.
    + intros pre r post Hrows Hlt. destruct pre as [|x pre]; simpl in Hrows.
      * injection Hrows as -> ->. rewrite filter_nil. simpl. rewrite Nat.add_0_r.
        rewrite (lookup_total_eq _ _ _ (Hout r Hr0)). by apply Hv0.
      * injection Hrows as <- Hrows.
        rewrite (Hin pre r post Hrows Hlt).
        assert (Hne : r ≠ r0).
        { intros ->. apply Hr0. rewrite Hrows. apply elem_of_app. right. by left. }
        rewrite (lookup_total_eq _ _ _ (Ho0 r Hne)).
        replace (draws + length (kept (r0 :: pre)))%nat
          with (draws + length (kept [r0]) + length (kept pre))%nat; [done|].
        rewrite (filter_app _ [r0] pre), length_app. lia.
Qed.

End init_data_props.
Section init_data_spec.
Context {F : Type} `{!FloatOps F}.
Context (subsample one : F).
Context (coin_flip : nat → bool).
Context (gpair : list (GradientPair F)).
Context (num_nodes num_roots : Z).

Lemma to_int_small x : 0 ≤ x < 2 ^ 31 → to_int x = x.
Proof. intros Hx. unfold to_int. rewrite Z.mod_small; lia. Qed.

(* the positions of the row set after the roots are set *)
Lemma rooted_rows (root_index : list Z) rowset position_ p1 :
  0 ≤ num_roots < 2 ^ 31 →
  (∀ r, r ∈ rowset → 0 ≤ root_index !!! r) →
  match root_index with
  | [] => Some (foldl (λ position_ ridx, <[ridx := 0]> position_) position_ rowset)
  | _ :: _ => set_roots root_index num_roots rowset position_
  end = Some p1 →
  length p1 = length position_
  ∧ ∀ r, r ∈ rowset → (r < length position_)%nat →
      p1 !!! r = match root_index with [] => 0 | _ :: _ => root_index !!! r end
      ∧ (root_index ≠ [] → 0 ≤ p1 !!! r < num_roots).
Proof.
  intros Hroots Hnn Hp1. destruct root_index as [|x xs].
  - injection Hp1 as <-.
    destruct (zero_roots rowset position_) as (Hlen & Hin & _).
    split; [done|]. intros r Hr Hlt. split; [by apply Hin | done].
  - destruct (set_roots_Some num_roots (x :: xs) rowset position_ p1 Hp1)
      as (Hlen & Hin & _).
    split; [done|]. intros r Hr Hlt. destruct (Hin r Hr Hlt) as [Hv Hb].
    rewrite Z.mod_small in Hb by lia.
    rewrite to_int_small in Hv by (specialize (Hnn r Hr); lia).
    split; [done|]. intros _. specialize (Hnn r Hr). lia.
Qed.

(** The positions [InitData] starts a tree with, for a row set without
repetition: every instance of the row set is on its root (node 0 when no
root indices are given), and it is excluded exactly when its hessian is
negative or, subsampling being on (subsample < 1), the coin flipped for it
fails; the coin of an instance is the one flipped after those of the
instances with a hessian that is not negative before it in the row set, an
instance with a negative hessian using no coin. *)
Theorem InitData_positions (root_index : list Z) rowset position_ p :
  NoDup rowset →
  (∀ r, r ∈ rowset → (r < length gpair)%nat) →
  0 ≤ num_roots < 2 ^ 31 →
  (∀ r, r ∈ rowset → 0 ≤ root_index !!! r) →
  InitData_position subsample one coin_flip gpair root_index rowset num_nodes
    num_roots position_ = Some p →
  length p = length gpair
  ∧ ∀ pre r post, rowset = pre ++ r :: post →
      DecodePosition p r
      = match root_index with [] => 0 | _ :: _ => root_index !!! r end
      ∧ (p !!! r < 0
         ↔ Fltb (hess (gpair !!! r)) F0 = true
           ∨ (Fltb subsample one = true
              ∧ coin_flip
                  (length (filter (λ r', Fltb (hess (gpair !!! r')) F0 = false) pre))
                = false)).
Proof.
  intros Hnd Hrange Hroots Hnn. unfold InitData_position.
  destruct (negb (num_nodes =? num_roots)); [done|].
  set (p0 := resize (length gpair) 0 position_).
  assert (Hl0 : length p0 = length gpair) by apply length_resize.
  destruct (match root_index with [] => _ | _ :: _ => _ end) as [p1|] eqn:Hp1;
    [|done].
  destruct (rooted_rows root_index rowset p0 p1 Hroots Hnn Hp1) as (Hl1 & Hv1).
  destruct (mark_deleted_rows gpair rowset p1 Hnd) as (Hl2 & Hv2).
  set (p2 := foldl (mark_deleted gpair) p1 rowset) in *.
  destruct (mark_subsample_rows coin_flip gpair rowset p2 0 Hnd) as (Hl3 & _ & Hv3).
  set (p3 := (foldl (mark_subsample coin_flip gpair) (p2, 0%nat) rowset).1) in *.
  intros [= <-]. split; [destruct (Fltb subsample one); congruence|].
  intros pre r post Hrows.
  assert (Hr : r ∈ rowset) by (rewrite Hrows; apply elem_of_app; right; by left).
  assert (Hlt : (r < length gpair)%nat) by by apply Hrange.
  destruct (Hv1 r Hr) as [Hroot Hbound]; [congruence|].
  set (root := match root_index with [] => 0 | _ :: _ => root_index !!! r end) in *.
  assert (Hroot0 : 0 ≤ root).
  { unfold root in *. destruct root_index; [done|]. by apply Hnn. }
  specialize (Hv2 r ltac:(congruence)).
  rewrite bool_decide_eq_true_2, Hroot in Hv2 by done. simpl in Hv2.
  specialize (Hv3 pre r post Hrows ltac:(congruence)). simpl in Hv3.
  rewrite Hv2 in Hv3. unfold DecodePosition.
  destruct (Fltb subsample one) eqn:Hsub.
  - rewrite Hv3. destruct (Fltb (hess (gpair !!! r)) F0) eqn:Hdel; simpl.
    + rewrite (proj2 (Z.ltb_lt (Z.lnot root) 0)) by (unfold Z.lnot; lia).
      rewrite Z.lnot_involutive. split; [done|]. unfold Z.lnot. split; [auto | lia].
    + destruct (coin_flip _) eqn:Hcoin; simpl.
      * rewrite (proj2 (Z.ltb_ge root 0)) by done. split; [done|].
        split; [lia|]. intros [?|[_ ?]]; done.
      * rewrite (proj2 (Z.ltb_lt (Z.lnot root) 0)) by (unfold Z.lnot; lia).
        rewrite Z.lnot_involutive. split; [done|]. unfold Z.lnot.
        split; [auto | lia].
  - rewrite Hv2. destruct (Fltb (hess (gpair !!! r)) F0) eqn:Hdel; simpl.
    + rewrite (proj2 (Z.ltb_lt (Z.lnot root) 0)) by (unfold Z.lnot; lia).
      rewrite Z.lnot_involutive. split; [done|]. unfold Z.lnot. split; [auto | lia].
    + rewrite (proj2 (Z.ltb_ge root 0)) by done. split; [done|].
      split; [lia|]. intros [?|[? _]]; done.
Qed.

Lemma flips_fold {A : Type} (f : list Z → A → list Z) (xs : list A) (p : list Z) :
  (∀ p x r, f p x !!! r = p !!! r ∨ f p x !!! r = Z.lnot (p !!! r)) →
  ∀ r, foldl f p xs !!! r = p !!! r ∨ foldl f p xs !!! r = Z.lnot (p !!! r).
Proof.
  intros Hf r. revert p. induction xs as [|x xs IH]; intros p; simpl; [by left|].
  destruct (IH (f p x)) as [-> | ->], (Hf p x r) as [-> | ->]; auto.
  left. apply Z.lnot_involutive.
Qed.

Lemma insert_flip (p : list Z) ridx r :
  <[ridx := Z.lnot (p !!! ridx)]> p !!! r = p !!! r
  ∨ <[ridx := Z.lnot (p !!! ridx)]> p !!! r = Z.lnot (p !!! r).
Proof.
  destruct (decide (r = ridx)) as [->|Hne].
  - destruct (decide (ridx < length p)%nat).
    + right. apply list_lookup_total_correct. by rewrite list_lookup_insert_eq.
    + left. by rewrite list_insert_ge by lia.
  - left. apply lookup_total_eq. by rewrite list_lookup_insert_ne.
Qed.

(** [InitData] starts a tree with every eligible instance of the row set
on a node of the first frontier, the roots. *)
Theorem InitData_rows_on_frontier (root_index : list Z) rowset position_ p :
  (∀ r, r ∈ rowset → (r < length gpair)%nat) →
  0 < num_roots < 2 ^ 31 →
  (∀ r, r ∈ rowset → 0 ≤ root_index !!! r) →
  InitData_position subsample one coin_flip gpair root_index rowset num_nodes
    num_roots position_ = Some p →
  rows_on_frontier rowset (Z.of_nat <$> InitData_qexpand num_roots) p.
Proof.
  intros Hrange Hroots Hnn. unfold InitData_position.
  destruct (negb (num_nodes =? num_roots)); [done|].
  set (p0 := resize (length gpair) 0 position_).
  assert (Hl0 : length p0 = length gpair) by apply length_resize.
  destruct (match root_index with [] => _ | _ :: _ => _ end) as [p1|] eqn:Hp1;
    [|done].
  destruct (rooted_rows root_index rowset p0 p1 ltac:(lia) Hnn Hp1) as (Hl1 & Hv1).
  intros [= <-] r Hr Hpos.
  destruct (Hv1 r Hr) as [Hroot Hbound]; [rewrite Hl0; by apply Hrange|].
  assert (Hb : 0 ≤ p1 !!! r < num_roots).
  { destruct root_index; [rewrite Hroot; lia | by apply Hbound]. }
  assert (Hmd : ∀ q x s, mark_deleted gpair q x !!! s = q !!! s
                         ∨ mark_deleted gpair q x !!! s = Z.lnot (q !!! s)).
  { intros q x s. unfold mark_deleted.
    destruct (Fltb (hess (gpair !!! x)) F0); [apply insert_flip | by left]. }
  pose proof (flips_fold (mark_deleted gpair) rowset p1 Hmd r) as H2.
  set (p2 := foldl (mark_deleted gpair) p1 rowset) in *.
  assert (H3 : ∀ rows st, (foldl (mark_subsample coin_flip gpair) st rows).1 !!! r
                 = st.1 !!! r
               ∨ (foldl (mark_subsample coin_flip gpair) st rows).1 !!! r
                 = Z.lnot (st.1 !!! r)).
  { induction rows as [|x rows IH]; intros st; simpl; [by left|].
    assert (Hx : (mark_subsample coin_flip gpair st x).1 !!! r = st.1 !!! r
               ∨ (mark_subsample coin_flip gpair st x).1 !!! r = Z.lnot (st.1 !!! r)).
    { destruct st as [q k]. unfold mark_subsample.
      destruct (Fltb (hess (gpair !!! x)) F0); [by left|].
      destruct (negb _); simpl; [apply insert_flip | by left]. }
    destruct (IH (mark_subsample coin_flip gpair st x)) as [-> | ->],
      Hx as [-> | ->]; auto.
    left. apply Z.lnot_involutive. }
  assert (Hfinal : (if Fltb subsample one
                    then (foldl (mark_subsample coin_flip gpair) (p2, 0%nat) rowset).1
                    else p2) !!! r = p1 !!! r).
  { destruct (Fltb subsample one).
    - destruct (H3 rowset (p2, 0%nat)) as [H|H], H2 as [H'|H']; simpl in H;
        rewrite H in Hpos |- *; rewrite H' in Hpos |- *;
        rewrite ?Z.lnot_involutive in *; first [done | unfold Z.lnot in Hpos; lia].
    - destruct H2 as [H'|H']; rewrite H' in Hpos |- *;
        first [done | unfold Z.lnot in Hpos; lia]. }
  rewrite Hfinal. apply list_elem_of_fmap. exists (Z.to_nat (p1 !!! r)).
  split; [lia|]. unfold InitData_qexpand. apply elem_of_seq. lia.
Qed.

End init_data_spec.
(** ** Positions after pruning *)

Section update_position_props.
Context {F : Type} `{!FloatOps F}.
Context (IsDeleted : RegTree.Node F → bool).
Context (tree : list (RegTree.Node F)).

Lemma live_ancestor_Some fuel nid a :
  live_ancestor IsDeleted tree fuel nid = Some (Some a) →
  0 ≤ nid →
  0 ≤ a
  ∧ IsDeleted (tree !!! Z.to_nat a) = false
  ∧ (IsDeleted (tree !!! Z.to_nat nid) = false → a = nid).
Proof.
  revert nid. induction fuel as [|fuel IH]; intros nid; simpl;
    destruct (IsDeleted (tree !!! Z.to_nat nid)) eqn:Hdel.
  - done.
  - intros [= <-] Hnid. by rewrite Hdel.
  - destruct (Z.leb_spec 0 (RegTree.Parent (tree !!! Z.to_nat nid))) as [Hp|Hp];
      [|done].
    intros Ha _. destruct (IH _ Ha Hp) as (H1 & H2 & _). done.
  - intros [= <-] Hnid. by rewrite Hdel.
Qed.

Lemma DecodePosition_insert (p : list Z) (r : nat) a :
  (r < length p)%nat → 0 ≤ a → DecodePosition (<[r := a]> p) r = a.
Proof.
  intros Hlt Ha. unfold DecodePosition.
  rewrite (list_lookup_total_correct (<[r:=a]> p) r a)
    by (by rewrite list_lookup_insert_eq).
  by rewrite (proj2 (Z.ltb_ge a 0)).
Qed.

(** [UpdatePosition], when it returns, leaves every instance of the row
set on a node that is not deleted, and eligible: the exclusion mark of an
instance is dropped.  An instance whose node is not deleted stays on it.
The instances outside the row set are not touched. *)
Theorem UpdatePosition_live fuel rowset position_ p' :
  UpdatePosition IsDeleted tree fuel rowset position_ = Some (Some p') →
  length p' = length position_
  ∧ (∀ r, r ∈ rowset → (r < length position_)%nat →
       0 ≤ p' !!! r
       ∧ IsDeleted (tree !!! Z.to_nat (p' !!! r)) = false
       ∧ (IsDeleted (tree !!! Z.to_nat (DecodePosition position_ r)) = false →
          p' !!! r = DecodePosition position_ r))
  ∧ (∀ r, r ∉ rowset → p' !! r = position_ !! r).
Proof.
  revert position_.
  induction rowset as [|r0 rows IH]; intros p Hup; simpl in Hup.
  - injection Hup as <-. split_and!; [done | intros r []%elem_of_nil | done].
  - destruct (live_ancestor IsDeleted tree fuel (DecodePosition p r0))
      as [[a|]|] eqn:Hlive; [|done|done].
    destruct (live_ancestor_Some _ _ _ Hlive (DecodePosition_nonneg p r0))
      as (Ha & Hda & Hsame).
    destruct (IH _ Hup) as (Hlen & Hin & Hout).
    rewrite length_insert in Hlen, Hin. split_and!; [done | |].
    + intros r Hr Hlt.
      destruct (decide (r = r0)) as [->|Hne].
      * assert (Hp' : p' !!! r0 = a).
        { destruct (decide (r0 ∈ rows)) as [Hr0|Hr0].
          - destruct (Hin r0 Hr0 Hlt) as (_ & _ & H3).
            rewrite DecodePosition_insert in H3 by done. by apply H3.
          - rewrite (lookup_total_eq _ _ _ (Hout r0 Hr0)).
            apply list_lookup_total_correct. by rewrite list_lookup_insert_eq. }
        rewrite Hp'. split_and!; [done | done | by intros ->%Hsame].
      * apply elem_of_cons in Hr as [?|Hr]; [done|].
        destruct (Hin r Hr Hlt) as (H1 & H2 & H3). split_and!; [done | done |].
        rewrite (DecodePosition_ext (<[r0:=a]> p) p r) in H3
          by (by rewrite list_lookup_insert_ne). done.
    + intros r [Hne Hr]%not_elem_of_cons.
      by rewrite Hout, list_lookup_insert_ne.
Qed.

Lemma live_ancestor_fuel fuel nid :
  (∀ n, IsDeleted (tree !!! n) = true → RegTree.Parent (tree !!! n) < Z.of_nat n) →
  0 ≤ nid < Z.of_nat fuel →
  ∃ res, live_ancestor IsDeleted tree fuel nid = Some res
    ∧ ∀ a, res = Some a → a ≤ nid.
Proof.
  intros Hwf. revert nid. induction fuel as [|fuel IH]; intros nid Hnid; simpl;
    destruct (IsDeleted (tree !!! Z.to_nat nid)) eqn:Hdel.
  - lia.
  - lia.
  - pose proof (Hwf _ Hdel) as Hpar.
    destruct (Z.leb_spec 0 (RegTree.Parent (tree !!! Z.to_nat nid))) as [Hp|Hp].
    + destruct (IH (RegTree.Parent (tree !!! Z.to_nat nid))) as (res & Hres & Hle);
        [lia|].
      exists res. split; [done|]. intros a Ha. specialize (Hle a Ha). lia.
    + eexists. split; [done|]. done.
  - eexists. split; [done|]. by intros a [= <-].
Qed.

(** [UpdatePosition] returns (with new positions or with a failed
CHECK_GE) when the parent of every deleted node has a smaller id than the
node: the walk from an instance then takes at most as many steps as the id
of its node, so that more fuel than the largest node id is enough. *)
Theorem UpdatePosition_returns fuel rowset position_ :
  (∀ n, IsDeleted (tree !!! n) = true → RegTree.Parent (tree !!! n) < Z.of_nat n) →
  (∀ r, r ∈ rowset → DecodePosition position_ r < Z.of_nat fuel) →
  ∃ res, UpdatePosition IsDeleted tree fuel rowset position_ = Some res.
Proof.
  intros Hwf. revert position_.
  induction rowset as [|r0 rows IH]; intros p Hfuel; simpl; [by eexists|].
  destruct (live_ancestor_fuel fuel (DecodePosition p r0) Hwf) as (res & Hres & Hle).
  { split; [apply DecodePosition_nonneg | apply Hfuel; by left]. }
  rewrite Hres. destruct res as [a|]; [|by eexists].
  apply IH. intros r Hr.
  destruct (decide (r = r0)) as [->|Hne].
  - destruct (decide (r0 < length p)%nat) as [Hlt|Hge].
    + destruct (live_ancestor_Some _ _ _ Hres (DecodePosition_nonneg p r0))
        as (Ha & _).
      rewrite DecodePosition_insert by done.
      specialize (Hle a eq_refl). specialize (Hfuel r0 ltac:(by left)). lia.
    + rewrite list_insert_ge by lia. apply Hfuel. by left.
  - rewrite (DecodePosition_ext (<[r0:=a]> p) p r)
      by (by rewrite list_lookup_insert_ne).
    apply Hfuel. by right.
Qed.

End update_position_props.

(** ** The start of the small tree *)

Module DriverFacts.
Import FixedPoint FixedPointLaws Scenario DriverScenario.

Lemma SyncBestSolution_selects_witness :
  ∃ e', SyncBestSolution nthread stemp_found qexpand snode !! 0%nat = Some e'
    ∧ node_best e' = SplitEntry.mk (fp 8) 0%nat (fp 1) false
    ∧ node_stats e' = GradStats.mk 0 (fp 2).
Proof.
  destruct (SyncBestSolution_selects nthread stemp_found qexpand snode
              (NoDup_singleton 0%nat)) as [Hin _].
  destruct (Hin 0%nat _ (list_elem_of_here _ _) eq_refl)
    as (e' & He' & Hs & _ & _ & _ & _ & _).
  exists e'. split; [exact He'|]. split; [|exact Hs].
  injection He' as <-. reflexivity.
Defined.

Lemma InitNewNode_stats_witness :
  ∃ e', (InitNewNode position gpair [0; 1]%nat tree thread_of qexpand [[]; []] []).2
          !! 0%nat = Some e'
    ∧ node_stats e' = GradStats.mk 0 (fp 2)
    ∧ weight e' = 0.
Proof.
  destruct (InitNewNode_stats position gpair [0; 1]%nat tree thread_of qexpand
              [[]; []] []) as [Hin _].
  - intros i Hi. unfold thread_of. simpl.
    pose proof (Nat.mod_upper_bound i 2). lia.
  - destruct (Hin 0%nat) as (e' & He' & Hs & Hw & _).
    + apply list_elem_of_here.
    + simpl. lia.
    + intros s e Hs He. repeat (apply elem_of_cons in Hs as [->|Hs]; [done|]).
      by apply elem_of_nil in Hs.
    + exists e'. split; [exact He'|]. split; [exact Hs|].
      rewrite Hw, Hs. reflexivity.
Defined.

Lemma InitData_positions_witness :
  ∃ p, InitData_position subsample (fp 1) coin_flip gpair3 [] rowset3 1 1 []
       = Some p
    ∧ DecodePosition p 2%nat = 0
    ∧ p !!! 2%nat < 0.
Proof.
  eexists. split; [reflexivity|].
  destruct (InitData_positions subsample (fp 1) coin_flip gpair3 1 1 [] rowset3 []
              _ ltac:(repeat constructor; set_solver)
              ltac:(intros r Hr; repeat (apply elem_of_cons in Hr as [->|Hr];
                      [simpl; lia|]); by apply elem_of_nil in Hr)
              ltac:(lia)
              ltac:(intros r Hr; repeat (apply elem_of_cons in Hr as [->|Hr];
                      [simpl; lia|]); by apply elem_of_nil in Hr)
              eq_refl) as [_ Hrow].
  destruct (Hrow [0; 1]%nat 2%nat [] eq_refl) as [Hd Hneg].
  split; [exact Hd|]. apply Hneg. right. split; reflexivity.
Defined.

Lemma InitData_rows_on_frontier_witness :
  ∃ p, InitData_position subsample (fp 1) coin_flip gpair3 [] rowset3 1 1 []
       = Some p
    ∧ rows_on_frontier rowset3 [0] p.
Proof.
  eexists. split; [reflexivity|].
  refine (InitData_rows_on_frontier subsample (fp 1) coin_flip gpair3 1 1 [] rowset3
            [] _ _ _ _ eq_refl).
  - intros r Hr. repeat (apply elem_of_cons in Hr as [->|Hr]; [simpl; lia|]).
    by apply elem_of_nil in Hr.
  - lia.
  - intros r Hr. repeat (apply elem_of_cons in Hr as [->|Hr]; [simpl; lia|]).
    by apply elem_of_nil in Hr.
Defined.

Lemma UpdatePosition_live_witness :
  ∃ p', UpdatePosition IsDeleted tree_pruned 3 rowset3 position_pruned
        = Some (Some p')
    ∧ 0 ≤ p' !!! 1%nat
    ∧ IsDeleted (tree_pruned !!! Z.to_nat (p' !!! 1%nat)) = false.
Proof.
  eexists. split; [reflexivity|].
  destruct (UpdatePosition_live IsDeleted tree_pruned 3 rowset3 position_pruned _
              eq_refl) as (_ & Hin & _).
  destruct (Hin 1%nat) as (H0 & H1 & _).
  - apply list_elem_of_further, list_elem_of_here.
  - simpl. lia.
  - exact (conj H0 H1).
Defined.

Lemma UpdatePosition_returns_witness :
  ∃ res, UpdatePosition IsDeleted tree_pruned 3 rowset3 position_pruned = Some res.
Proof.
  apply UpdatePosition_returns.
  - intros n Hn. destruct n as [|[|[|n]]]; simpl in *; try lia; discriminate.
  - intros r Hr. repeat (apply elem_of_cons in Hr as [->|Hr];
      [vm_compute; reflexivity|]). by apply elem_of_nil in Hr.
Defined.

End DriverFacts.

(** ** The distributed builder: where an instance goes *)

Section dist_props.
Context {F : Type} `{!FloatOps F}.
Context (num_col : nat).
Context (tree : list (RegTree.Node F)).
Context (position_ : list Z).

Lemma pop_back_columns_subseteq l x :
  x ∈ pop_back_columns num_col l → x ∈ l.
Proof.
  revert x. induction l as [|y l IH]; intros x; simpl; [done|].
  destruct (pop_back_columns num_col l) as [|z rest].
  - destruct (num_col <=? y)%nat; [intros []%elem_of_nil|].
    intros ->%list_elem_of_singleton. by left.
  - intros [->|Hx]%elem_of_cons; [by left|]. right. by apply IH.
Qed.

Lemma pop_back_columns_keeps l x :
  x ∈ l → (x < num_col)%nat → x ∈ pop_back_columns num_col l.
Proof.
  intros Hx Hlt. induction l as [|y l IH]; simpl; [done|].
  apply elem_of_cons in Hx as [->|Hx].
  - destruct (pop_back_columns num_col l) as [|z rest]; [|by left].
    rewrite (proj2 (Nat.leb_gt _ _)) by done. by left.
  - specialize (IH Hx). destruct (pop_back_columns num_col l) as [|z rest];
      [by apply elem_of_nil in IH | by right].
Qed.

Lemma mark_entry_flagged fid (b : list bool) e :
  mark_entry tree position_ fid b e
  = if flagged tree position_ fid e then <[index e := true]> b else b.
Proof.
  unfold mark_entry, flagged. cbv zeta.
  destruct (negb _ && (_ =? _)%nat); [|done]. cbn [andb].
  by destruct (Fltb _ _), (RegTree.DefaultLeft _).
Qed.

Lemma mark_entry_spec fid (b : list bool) e r :
  length (mark_entry tree position_ fid b e) = length b
  ∧ (mark_entry tree position_ fid b e !!! r = true
     ↔ b !!! r = true
       ∨ ((r < length b)%nat ∧ index e = r ∧ flagged tree position_ fid e = true)).
Proof.
  rewrite mark_entry_flagged. destruct (flagged tree position_ fid e) eqn:Hf.
  - split; [apply length_insert|].
    destruct (decide (index e = r)) as [<-|Hne].
    + destruct (decide (index e < length b)%nat) as [Hlt|Hge].
      * rewrite (list_lookup_total_correct (<[index e:=true]> b) (index e) true)
          by (by rewrite list_lookup_insert_eq).
        split; [intros _; right; done | done].
      * rewrite list_insert_ge by lia. split; [by left|].
        intros [?|[? _]]; [done | lia].
    + rewrite (lookup_total_eq (<[index e:=true]> b) b r)
        by (by rewrite list_lookup_insert_ne).
      split; [by left|]. intros [?|(_ & ? & _)]; done.
  - split; [done|]. split; [by left|]. intros [?|(_ & _ & ?)]; done.
Qed.

Lemma mark_column fid col (b : list bool) r :
  length (foldl (mark_entry tree position_ fid) b col) = length b
  ∧ (foldl (mark_entry tree position_ fid) b col !!! r = true
     ↔ b !!! r = true
       ∨ ((r < length b)%nat
          ∧ ∃ e, e ∈ col ∧ index e = r ∧ flagged tree position_ fid e = true)).
Proof.
  revert b. induction col as [|e col IH]; intros b; cbn [foldl].
  - split; [done|]. split; [by left|].
    intros [?|(_ & e & []%elem_of_nil & _)]. done.
  - destruct (IH (mark_entry tree position_ fid b e)) as [Hl Hv].
    destruct (mark_entry_spec fid b e r) as [Hl0 Hv0].
    rewrite Hl0 in Hl, Hv. split; [done|]. rewrite Hv, Hv0. split.
    + intros [[?|(? & ? & ?)]|(? & e' & ? & ? & ?)].
      * by left.
      * right. split; [done|]. exists e. split; [by left | done].
      * right. split; [done|]. exists e'. split; [by right | done].
    + intros [?|(? & e' & [->|?]%elem_of_cons & ? & ?)].
      * left. by left.
      * left. right. done.
      * right. split; [done|]. by exists e'.
Qed.

Lemma mark_columns (batch : list (list (Entry F))) fs (b : list bool) r :
  let b' := foldl (λ b fid, foldl (mark_entry tree position_ fid) b (batch !!! fid))
              b fs in
  length b' = length b
  ∧ (b' !!! r = true
     ↔ b !!! r = true
       ∨ ((r < length b)%nat
          ∧ ∃ fid e, fid ∈ fs ∧ e ∈ batch !!! fid ∧ index e = r
                     ∧ flagged tree position_ fid e = true)).
Proof.
  revert b. induction fs as [|fid fs IH]; intros b; cbn [foldl].
  - split; [done|]. split; [by left|].
    intros [?|(_ & fid & e & []%elem_of_nil & _)]. done.
  - destruct (IH (foldl (mark_entry tree position_ fid) b (batch !!! fid)))
      as [Hl Hv].
    destruct (mark_column fid (batch !!! fid) b r) as [Hl0 Hv0].
    cbv zeta in *. rewrite Hl0 in Hl, Hv. split; [done|]. rewrite Hv, Hv0. split.
    + intros [[?|(? & e & ? & ? & ?)]|(? & fid' & e & ? & ? & ? & ?)].
      * by left.
      * right. split; [done|]. exists fid, e. split; [by left | done].
      * right. split; [done|]. exists fid', e. split; [by right | done].
    + intros [?|(? & fid' & e & [->|?]%elem_of_cons & ? & ? & ?)].
      * left. by left.
      * left. right. split; [done|]. by exists e.
      * right. split; [done|]. by exists fid', e.
Qed.

Lemma mark_batches (batches : list (list (list (Entry F)))) fs (b : list bool) r :
  let b' :=
    foldl (λ b batch,
             foldl (λ b fid, foldl (mark_entry tree position_ fid) b (batch !!! fid))
               b fs) b batches in
  length b' = length b
  ∧ (b' !!! r = true
     ↔ b !!! r = true
       ∨ ((r < length b)%nat
          ∧ ∃ batch fid e, batch ∈ batches ∧ fid ∈ fs ∧ e ∈ batch !!! fid
                           ∧ index e = r ∧ flagged tree position_ fid e = true)).
Proof.
  revert b. induction batches as [|batch batches IH]; intros b; cbn [foldl].
  - split; [done|]. split; [by left|].
    intros [?|(_ & batch & fid & e & []%elem_of_nil & _)]. done.
  - destruct (IH (foldl (λ b fid, foldl (mark_entry tree position_ fid) b
                                     (batch !!! fid)) b fs)) as [Hl Hv].
    destruct (mark_columns batch fs b r) as [Hl0 Hv0].
    cbv zeta in *. rewrite Hl0 in Hl, Hv. split; [done|]. rewrite Hv, Hv0. split.
    + intros [[?|(? & fid & e & ? & ? & ? & ?)]
             |(? & batch' & fid & e & ? & ? & ? & ? & ?)].
      * by left.
      * right. split; [done|]. exists batch, fid, e. split; [by left | done].
      * right. split; [done|]. exists batch', fid, e. split; [by right | done].
    + intros [?|(? & batch' & fid & e & [->|?]%elem_of_cons & ? & ? & ? & ?)].
      * left. by left.
      * left. right. split; [done|]. by exists fid, e.
      * right. split; [done|]. by exists batch', fid, e.
Qed.

End dist_props.
Section dist_routing.
Context {F : Type} `{!FloatOps F}.
Context (allreduce : list bool → list bool).
Context (num_col : nat).
Context (tree : list (RegTree.Node F)).

Lemma elem_of_concat {A : Type} (x : A) (ls : list (list A)) :
  x ∈ concat ls ↔ ∃ l, x ∈ l ∧ l ∈ ls.
Proof.
  induction ls as [|l ls IH]; simpl.
  - split; [intros []%elem_of_nil | intros (l & _ & []%elem_of_nil)].
  - rewrite elem_of_app, IH. split.
    + intros [?|(l' & ? & ?)]; [exists l; split; [done | by left]|].
      exists l'. split; [done | by right].
    + intros (l' & ? & [->|?]%elem_of_cons); [by left|]. right. by exists l'.
Qed.

Lemma flip_row_other (bits : list bool) p ridx p1 r :
  flip_row tree bits p ridx = Some p1 → ridx ≠ r → p1 !! r = p !! r.
Proof.
  unfold flip_row. intros Hrow Hne.
  destruct (bits !!! ridx : bool); [|by injection Hrow as <-].
  set (nd := tree !!! Z.to_nat (DecodePosition p ridx)) in Hrow.
  destruct (RegTree.IsLeaf nd); [done|].
  destruct (RegTree.DefaultLeft nd); injection Hrow as <-;
    by apply SetEncodePosition_other.
Qed.

Lemma flip_row_length (bits : list bool) p ridx p1 :
  flip_row tree bits p ridx = Some p1 → length p1 = length p.
Proof.
  unfold flip_row. intros Hrow.
  destruct (bits !!! ridx : bool); [|by injection Hrow as <-].
  set (nd := tree !!! Z.to_nat (DecodePosition p ridx)) in Hrow.
  destruct (RegTree.IsLeaf nd); [done|].
  destruct (RegTree.DefaultLeft nd); injection Hrow as <-;
    apply SetEncodePosition_length.
Qed.

Lemma flip_rows_length (bits : list bool) rows p p1 :
  flip_rows tree bits rows p = Some p1 → length p1 = length p.
Proof.
  revert p. induction rows as [|r0 rows IH]; intros p Hrows; simpl in Hrows.
  - by injection Hrows as <-.
  - destruct (flip_row tree bits p r0) as [p0|] eqn:Hrow; [|done].
    rewrite (IH _ Hrows). by eapply flip_row_length.
Qed.

Lemma flip_rows_unflagged (bits : list bool) rows p p1 r :
  bits !!! r = false →
  flip_rows tree bits rows p = Some p1 → p1 !! r = p !! r.
Proof.
  intros Hbit. revert p. induction rows as [|r0 rows IH]; intros p Hrows;
    simpl in Hrows.
  - by injection Hrows as <-.
  - destruct (flip_row tree bits p r0) as [p0|] eqn:Hrow; [|done].
    rewrite (IH _ Hrows). destruct (decide (r0 = r)) as [->|Hne].
    + unfold flip_row in Hrow. rewrite Hbit in Hrow. by injection Hrow as <-.
    + by eapply flip_row_other.
Qed.

Context (r n : nat).
Context (Hinner : RegTree.IsLeaf (tree !!! n) = false).
Context (Hleft : fresh_leaf_at tree (RegTree.LeftChild (tree !!! n))).
Context (Hright : fresh_leaf_at tree (RegTree.RightChild (tree !!! n))).

#[local] Abbreviation node := (tree !!! n).
#[local] Abbreviation other_child :=
  (if RegTree.DefaultLeft (tree !!! n)
   then RegTree.RightChild (tree !!! n) else RegTree.LeftChild (tree !!! n)).

Lemma other_child_fresh : fresh_leaf_at tree other_child.
Proof. by destruct (RegTree.DefaultLeft _). Qed.

Lemma flip_rows_flagged (bits : list bool) rows p p1 :
  bits !!! r = true →
  flip_rows tree bits rows p = Some p1 →
  (r < length p)%nat →
  (RegTree.IsLeaf (tree !!! Z.to_nat (DecodePosition p r)) = true →
   (r ∉ rows) ∧ p1 !! r = p !! r)
  ∧ (DecodePosition p r = Z.of_nat n →
     DecodePosition p1 r = if bool_decide (r ∈ rows) then other_child else Z.of_nat n).
Proof.
  intros Hbit. revert p. induction rows as [|r0 rows IH]; intros p Hrows Hlt;
    simpl in Hrows.
  - injection Hrows as <-. split; [intros _; split; [apply not_elem_of_nil|done]|].
    done.
  - destruct (flip_row tree bits p r0) as [p0|] eqn:Hrow; [|done].
    pose proof (flip_row_length _ _ _ _ Hrow) as Hl0.
    destruct (IH p0 Hrows ltac:(lia)) as [IH1 IH2].
    destruct (decide (r0 = r)) as [->|Hne].
    + unfold flip_row in Hrow. rewrite Hbit in Hrow. split.
      * intros Hleaf. by rewrite Hleaf in Hrow.
      * intros Hat. rewrite Hat, Nat2Z.id, Hinner in Hrow.
        rewrite bool_decide_eq_true_2 by (by left).
        assert (Hp0 : DecodePosition p0 r = other_child).
        { destruct (RegTree.DefaultLeft node); injection Hrow as <-;
            apply DecodePosition_SetEncodePosition;
            first [done | apply Hleft | apply Hright]. }
        destruct IH1 as [_ Heq].
        { rewrite Hp0. apply other_child_fresh. }
        by rewrite (DecodePosition_ext _ _ _ Heq).
    + pose proof (flip_row_other _ _ _ _ r Hrow Hne) as Heq.
      rewrite (DecodePosition_ext _ _ _ Heq) in IH1, IH2. split.
      * intros Hleaf. destruct (IH1 Hleaf) as [Hnin Heq1].
        split; [|congruence]. intros [?|?]%elem_of_cons; done.
      * intros Hat. rewrite (IH2 Hat).
        rewrite (bool_decide_ext (r ∈ r0 :: rows) (r ∈ rows)); [done|].
        rewrite elem_of_cons. split; [by intros [?|?] | by right].
Qed.

(* the two phases of the distributed builder *)
Lemma ResetPosition_dist_row qexpand batches rowset position_ p' :
  r ∈ rowset →
  DecodePosition position_ r = Z.of_nat n →
  ResetPosition_dist allreduce num_col qexpand batches rowset tree position_
  = Some p' →
  DecodePosition p' r
  = if (allreduce (nondefault_bits num_col qexpand batches tree position_) !!! r
        : bool)
    then other_child else child_for node None.
Proof.
  intros Hr Hat. unfold ResetPosition_dist, SetNonDefaultPosition_dist.
  set (bits := allreduce (nondefault_bits num_col qexpand batches tree position_)).
  destruct (flip_rows tree bits rowset position_) as [p1|] eqn:Hflip; [|done].
  intros Hreset.
  pose proof (flip_rows_length _ _ _ _ Hflip) as Hl1.
  assert (Hlt : (r < length position_)%nat).
  { destruct (decide (r < length position_)%nat) as [|Hge]; [done|].
    assert (Hnone : reset_rows tree rowset p1 = None).
    { apply reset_rows_None. exists r. split; [done | lia]. }
    congruence. }
  destruct (bits !!! r) eqn:Hbit.
  - destruct (flip_rows_flagged bits rowset position_ p1 Hbit Hflip Hlt) as [_ H2].
    specialize (H2 Hat). rewrite bool_decide_eq_true_2 in H2 by done.
    destruct (reset_rows_leaf tree rowset p1 p' r Hreset) as [Hd _].
    { rewrite H2. apply other_child_fresh. }
    by rewrite Hd.
  - pose proof (flip_rows_unflagged bits rowset position_ p1 r Hbit Hflip) as Heq.
    pose proof (reset_rows_pending tree r n Hinner Hleft Hright rowset p1 p' Hreset)
      as H2.
    rewrite (DecodePosition_ext _ _ _ Heq) in H2. specialize (H2 Hat).
    by rewrite bool_decide_eq_true_2 in H2.
Qed.

(* the bit of the instance on this worker *)
Lemma nondefault_bits_row qexpand batches position_ :
  n ∈ qexpand →
  (RegTree.SplitIndex node < num_col)%nat →
  (r < length position_)%nat →
  DecodePosition position_ r = Z.of_nat n →
  nondefault_bits num_col qexpand batches tree position_ !!! r = true
  ↔ ∃ e, e ∈ filter (λ e, index e = r)
               (concat ((λ batch, batch !!! RegTree.SplitIndex node) <$> batches))
       ∧ (if Fltb (fvalue e) (RegTree.SplitCond node)
          then negb (RegTree.DefaultLeft node) else RegTree.DefaultLeft node) = true.
Proof.
  intros Hn Hcol Hlt Hat. unfold nondefault_bits.
  set (fs := pop_back_columns num_col _).
  destruct (mark_batches tree position_ batches fs
              (replicate (length position_) false) r) as [_ Hv].
  cbv zeta in Hv. rewrite Hv. clear Hv.
  rewrite lookup_total_replicate_2 by done. rewrite length_replicate.
  assert (Hflag : ∀ fid e, index e = r →
    flagged tree position_ fid e
    = (RegTree.SplitIndex node =? fid)%nat
      && (if Fltb (fvalue e) (RegTree.SplitCond node)
          then negb (RegTree.DefaultLeft node) else RegTree.DefaultLeft node)).
  { intros fid e He. unfold flagged. cbv zeta. by rewrite He, Hat, Nat2Z.id, Hinner. }
  split.
  - intros [?|(_ & batch & fid & e & Hb & Hfid & He & Hidx & Hfl)]; [done|].
    rewrite (Hflag fid e Hidx) in Hfl. apply andb_true_iff in Hfl as [Heq Hside].
    apply Nat.eqb_eq in Heq. subst fid.
    exists e. split; [|done]. apply list_elem_of_filter. split; [done|].
    apply elem_of_concat. exists (batch !!! RegTree.SplitIndex node).
    split; [done|]. apply list_elem_of_fmap. by exists batch.
  - intros (e & [Hidx He]%list_elem_of_filter & Hside).
    apply elem_of_concat in He as (col & He & Hcol').
    apply list_elem_of_fmap in Hcol' as (batch & -> & Hb).
    right. split; [done|]. exists batch, (RegTree.SplitIndex node), e.
    split_and!; [done | | done | done |].
    + unfold fs. apply pop_back_columns_keeps; [|done].
      apply elem_of_sort_unique, list_elem_of_fmap. exists node. split; [done|].
      apply list_elem_of_filter. split; [done|].
      apply list_elem_of_fmap. by exists n.
    + by rewrite (Hflag _ e Hidx), Nat.eqb_refl.
Qed.

End dist_routing.
Section dist_spec.
Context {F : Type} `{!FloatOps F}.
Context (allreduce : list bool → list bool).
Context (num_col : nat).

(** In the distributed builder, an instance of the row set that is on an
inner node whose children are leaves still to be expanded ends, after
[ResetPosition], on the child that is not the default one exactly when its
bit is set after the reduction over the workers, and on the default child
otherwise. *)
Theorem dist_routes_by_bit qexpand batches rowset (tree : list (RegTree.Node F))
    position_ p' (r n : nat) :
  r ∈ rowset →
  DecodePosition position_ r = Z.of_nat n →
  RegTree.IsLeaf (tree !!! n) = false →
  fresh_leaf_at tree (RegTree.LeftChild (tree !!! n)) →
  fresh_leaf_at tree (RegTree.RightChild (tree !!! n)) →
  ResetPosition_dist allreduce num_col qexpand batches rowset tree position_
  = Some p' →
  DecodePosition p' r
  = if (allreduce (nondefault_bits num_col qexpand batches tree position_) !!! r
        : bool)
    then (if RegTree.DefaultLeft (tree !!! n)
          then RegTree.RightChild (tree !!! n) else RegTree.LeftChild (tree !!! n))
    else child_for (tree !!! n) None.
Proof.
  intros Hr Hat Hinner Hleft Hright Hreset.
  by apply (ResetPosition_dist_row allreduce num_col tree r n Hinner Hleft Hright
              qexpand batches rowset position_).
Qed.

(** With one worker (the reduction returns the bits it is given) the
distributed builder sends an instance where the builder of one machine
does: to the child its value for the feature of the split selects, or to
the default child when it has none, provided the feature is a column of the
matrix and the instance has at most one entry in that column. *)
Theorem dist_routes_like_local qexpand batches rowset (tree : list (RegTree.Node F))
    position_ p' (r n : nat) :
  (∀ bits, allreduce bits = bits) →
  (RegTree.SplitIndex (tree !!! n) < num_col)%nat →
  (length (filter (λ e, index e = r)
             (concat ((λ batch, batch !!! RegTree.SplitIndex (tree !!! n))
                        <$> batches))) ≤ 1)%nat →
  n ∈ qexpand →
  r ∈ rowset →
  DecodePosition position_ r = Z.of_nat n →
  RegTree.IsLeaf (tree !!! n) = false →
  fresh_leaf_at tree (RegTree.LeftChild (tree !!! n)) →
  fresh_leaf_at tree (RegTree.RightChild (tree !!! n)) →
  ResetPosition_dist allreduce num_col qexpand batches rowset tree position_
  = Some p' →
  DecodePosition p' r
  = child_for (tree !!! n)
      (first_value batches (RegTree.SplitIndex (tree !!! n)) r).
Proof.
  intros Hone Hcol Huniq Hn Hr Hat Hinner Hleft Hright Hreset.
  rewrite (ResetPosition_dist_row allreduce num_col tree r n Hinner Hleft Hright
             qexpand batches rowset position_ p' Hr Hat Hreset).
  rewrite Hone.
  assert (Hlt : (r < length position_)%nat).
  { destruct (decide (r < length position_)%nat) as [|Hge]; [done|].
    unfold ResetPosition_dist, SetNonDefaultPosition_dist in Hreset.
    destruct (flip_rows _ _ _ _) as [p1|] eqn:Hflip; [|done].
    pose proof (flip_rows_length _ _ _ _ _ Hflip) as Hl1.
    assert (Hnone : reset_rows tree rowset p1 = None).
    { apply reset_rows_None. exists r. split; [done | lia]. }
    congruence. }
  pose proof (nondefault_bits_row num_col tree r n Hinner qexpand batches position_
                Hn Hcol Hlt Hat) as Hbit.
  unfold first_value.
  destruct (filter (λ e, index e = r) _) as [|e0 [|e1 es]] eqn:Hes;
    [| |simpl in Huniq; lia].
  - destruct (nondefault_bits _ _ _ _ _ !!! r) eqn:Hb; [|done].
    destruct (proj1 Hbit eq_refl) as (e & []%elem_of_nil & _).
  - simpl. unfold child_for.
    destruct (nondefault_bits _ _ _ _ _ !!! r) eqn:Hb.
    + destruct (proj1 Hbit eq_refl) as (e & ->%list_elem_of_singleton & Hside).
      destruct (Fltb _ _), (RegTree.DefaultLeft _); done.
    + assert (Hside : (if Fltb (fvalue e0) (RegTree.SplitCond (tree !!! n))
                       then negb (RegTree.DefaultLeft (tree !!! n))
                       else RegTree.DefaultLeft (tree !!! n)) = false).
      { destruct (if Fltb _ _ then _ else _) eqn:Hs; [|done].
        symmetry. apply Hbit. exists e0. split; [by left | done]. }
      destruct (Fltb _ _), (RegTree.DefaultLeft _); done.
Qed.

End dist_spec.

(** ** The level of the small tree in the distributed builder *)

Module DistFacts.
Import FixedPoint FixedPointLaws Scenario LevelScenario.

Lemma dist_routes_by_bit_witness :
  ∃ p', ResetPosition_dist (λ bits, bits) 1 qexpand batches rowset tree_split
          position = Some p'
    ∧ DecodePosition p' 0%nat = 1.
Proof.
  eexists. split; [reflexivity|].
  refine (dist_routes_by_bit (λ bits, bits) 1 qexpand batches rowset tree_split
            position _ 0%nat 0%nat _ _ _ _ _ eq_refl).
  - apply list_elem_of_here.
  - reflexivity.
  - reflexivity.
  - unfold fresh_leaf_at. simpl. split_and!; [lia | reflexivity | discriminate].
  - unfold fresh_leaf_at. simpl. split_and!; [lia | reflexivity | discriminate].
Defined.

Lemma dist_routes_like_local_witness :
  ∃ p', ResetPosition_dist (λ bits, bits) 1 qexpand batches rowset tree_split
          position = Some p'
    ∧ DecodePosition p' 2%nat = 2.
Proof.
  eexists. split; [reflexivity|].
  refine (dist_routes_like_local (λ bits, bits) 1 qexpand batches rowset tree_split
            position _ 2%nat 0%nat _ _ _ _ _ _ _ _ _ eq_refl).
  - reflexivity.
  - simpl. lia.
  - simpl. lia.
  - apply list_elem_of_here.
  - do 2 apply list_elem_of_further. apply list_elem_of_here.
  - reflexivity.
  - reflexivity.
  - unfold fresh_leaf_at. simpl. split_and!; [lia | reflexivity | discriminate].
  - unfold fresh_leaf_at. simpl. split_and!; [lia | reflexivity | discriminate].
Defined.

End DistFacts.

(** ** Relations between the rows of the threads *)

Section stemp_rel_facts.
Context {F : Type} `{!FloatOps F}.
Context (R : relation (ThreadEntry F)).

#[global] Instance row_rel_refl `{!Reflexive R} : Reflexive (row_rel R).
Proof. intros temp n e He. by exists e. Qed.

#[global] Instance row_rel_trans `{!Transitive R} : Transitive (row_rel R).
Proof.
  intros t1 t2 t3 H12 H23 n e He. destruct (H12 n e He) as (e2 & He2 & HP2).
  destruct (H23 n e2 He2) as (e3 & He3 & HP3). exists e3. split; [done|].
  by trans e2.
Qed.

#[global] Instance stemp_rel_refl `{!Reflexive R} : Reflexive (stemp_rel R).
Proof. intros s t n e He. by exists e. Qed.

#[global] Instance stemp_rel_trans `{!Transitive R} : Transitive (stemp_rel R).
Proof.
  intros s1 s2 s3 H12 H23 t n e He. destruct (H12 t n e He) as (e2 & He2 & HP2).
  destruct (H23 t n e2 He2) as (e3 & He3 & HP3). exists e3. split; [done|].
  by trans e2.
Qed.

Lemma row_rel_alter `{!Reflexive R} (f : ThreadEntry F → ThreadEntry F) m temp :
  (∀ e, temp !! m = Some e → R e (f e)) →
  row_rel R temp (alter f m temp).
Proof.
  intros Hf n e He. destruct (decide (m = n)) as [->|Hne].
  - rewrite list_lookup_alter_eq, He. simpl. eexists. split; [done|]. by apply Hf.
  - rewrite list_lookup_alter_ne by done. by exists e.
Qed.

Lemma row_rel_foldl `{!Reflexive R} `{!Transitive R} {A}
    (step : list (ThreadEntry F) → A → list (ThreadEntry F)) (l : list A) temp :
  (∀ temp x, row_rel R temp (step temp x)) → row_rel R temp (foldl step temp l).
Proof.
  intros Hstep. revert temp. induction l as [|x l IH]; intros temp; cbn [foldl].
  - reflexivity.
  - trans (step temp x); [apply Hstep | apply IH].
Qed.

Lemma stemp_rel_alter `{!Reflexive R}
    (g : list (ThreadEntry F) → list (ThreadEntry F)) t s :
  (∀ temp, s !! t = Some temp → row_rel R temp (g temp)) →
  stemp_rel R s (alter g t s).
Proof.
  intros Hg tid nid e He. unfold lookup_at in *.
  destruct (decide (t = tid)) as [->|Hne].
  - rewrite list_lookup_alter_eq. destruct (s !! tid) as [temp|] eqn:Ht; [|done].
    simpl in *. by apply (Hg temp).
  - rewrite list_lookup_alter_ne by done. by exists e.
Qed.

Lemma stemp_rel_alter_at `{!Reflexive R} (f : ThreadEntry F → ThreadEntry F) t n s :
  (∀ e, lookup_at s t n = Some e → R e (f e)) →
  stemp_rel R s (alter_at f t n s).
Proof.
  intros Hf. apply stemp_rel_alter. intros temp Ht. apply row_rel_alter.
  intros e He. apply Hf. unfold lookup_at. by rewrite Ht.
Qed.

Lemma stemp_rel_foldl `{!Reflexive R} `{!Transitive R} {A}
    (step : list (list (ThreadEntry F)) → A → list (list (ThreadEntry F)))
    (l : list A) s :
  (∀ s x, x ∈ l → stemp_rel R s (step s x)) → stemp_rel R s (foldl step s l).
Proof.
  revert s. induction l as [|x l IH]; intros s Hstep; cbn [foldl].
  - reflexivity.
  - trans (step s x).
    + apply Hstep, list_elem_of_here.
    + apply IH. intros s1 y Hy. by apply Hstep, list_elem_of_further.
Qed.

End stemp_rel_facts.

Section entry_relations.
Context {F : Type} `{!FloatOps F}.

#[global] Instance on_best_refl (P : relation (SplitEntry.t F)) `{!Reflexive P} :
  Reflexive (on_best P).
Proof. intros e. unfold on_best. reflexivity. Qed.

#[global] Instance on_best_trans (P : relation (SplitEntry.t F)) `{!Transitive P} :
  Transitive (on_best P).
Proof. intros e1 e2 e3. unfold on_best. apply transitivity. Qed.

#[global] Instance keeps_stats_refl : Reflexive (keeps_stats (F := F)).
Proof. done. Qed.

#[global] Instance keeps_stats_trans : Transitive (keeps_stats (F := F)).
Proof. unfold keeps_stats. intros e1 e2 e3. congruence. Qed.

#[global] Instance keeps_sums_refl sum : Reflexive (keeps_sums (F := F) sum).
Proof. done. Qed.

#[global] Instance keeps_sums_trans sum : Transitive (keeps_sums (F := F) sum).
Proof.
  unfold keeps_sums. intros e1 e2 e3 [H1 H1'] [H2 H2']. split; [congruence|auto].
Qed.

Lemma lookup_at_entry_at (s : list (list (ThreadEntry F))) t n e :
  lookup_at s t n = Some e → entry_at s t n = e.
Proof.
  unfold lookup_at, entry_at. destruct (s !! t) as [temp|] eqn:Ht; [|done].
  simpl. intros He. rewrite (list_lookup_total_correct _ _ _ Ht).
  by apply list_lookup_total_correct.
Qed.

End entry_relations.

(** ** What the scans of a batch do to the best splits *)

Section parallel_frame.
Context {F : Type} `{!FloatOps F} `{!SplitEvaluator F}.
Context (param_ : TrainParam F).
Context (position_ : list Z).
Context (snode_ : list (NodeEntry F)).
Context (qexpand_ : list nat).
Context (gpair : list (GradientPair F)).
Context (nthread_ : nat).
Context (fid : nat).
Context (P : relation (SplitEntry.t F)) `{!Reflexive P} `{!Transitive P}.
Context (P_Update : ∀ b l v dl, P b (SplitEntry.Update b l fid v dl)).

#[local] Ltac case_if :=
  match goal with |- context [if ?c then _ else _] => destruct c end.

Lemma collect_rel col tid temp :
  row_rel (on_best P) temp (collect position_ qexpand_ gpair nthread_ col tid temp).
Proof.
  unfold collect.
  trans (foldl (λ temp j, alter clear_stats j temp) temp qexpand_).
  - apply row_rel_foldl; [apply _..|]. intros t j. apply row_rel_alter; [apply _|].
    intros e _. unfold on_best. reflexivity.
  - apply row_rel_foldl; [apply _..|]. intros t e. unfold collect_entry.
    destruct (position_ !! index e) as [nid|]; [|reflexivity].
    destruct (nid <? 0); [reflexivity|].
    apply row_rel_alter; [apply _|]. intros e0 _. unfold on_best. simpl.
    destruct (GradStats.Empty _); reflexivity.
Qed.

Lemma prefix_steps_rel nid l sum s :
  stemp_rel (on_best P) s (foldl (prefix_step nid) (sum, s) l).2.
Proof.
  revert sum s. induction l as [|t l IH]; intros sum s; cbn [foldl].
  - reflexivity.
  - unfold prefix_step at 2.
    set (s1 := alter_at (λ e, set_stats e sum) t nid s).
    assert (H1 : stemp_rel (on_best P) s s1).
    { apply stemp_rel_alter_at; [apply _|]. intros e _. unfold on_best. reflexivity. }
    destruct (t =? 0)%nat.
    + trans s1; [exact H1 | apply IH].
    + trans s1; [exact H1|]. etrans; [|apply IH].
      etrans; (apply stemp_rel_alter_at; [apply _|]; intros e _;
               unfold on_best; reflexivity).
Qed.

Lemma boundary_step_rel nid nf nb sum s tid :
  stemp_rel (on_best P) s (boundary_step param_ snode_ nid fid nf nb sum s tid).
Proof using Type*.
  unfold boundary_step.
  set (s1 := alter_at (λ e, set_stats_extra e sum) tid nid s).
  assert (H1 : stemp_rel (on_best P) s s1).
  { apply stemp_rel_alter_at; [apply _|]. intros e _. unfold on_best. reflexivity. }
  trans s1; [exact H1|].
  match goal with |- context [match ?x with Some _ => _ | None => _ end] =>
    destruct x as [fsplit|] end; [|reflexivity].
  apply stemp_rel_alter_at; [apply _|]. intros e He.
  rewrite (lookup_at_entry_at _ _ _ _ He). unfold on_best. simpl.
  match goal with |- P _ (if nb then _ else ?b1) =>
    trans b1; [|generalize b1; intros b'] end.
  - destruct (nf && negb (tid =? 0)%nat); [|reflexivity].
    case_if; [apply P_Update|reflexivity].
  - destruct nb; [|reflexivity].
    case_if; [apply P_Update|reflexivity].
Qed.

Lemma closing_boundary_rel nid nb sum s :
  stemp_rel (on_best P) s (closing_boundary param_ snode_ nthread_ nid fid nb sum s).
Proof using Type*.
  unfold closing_boundary. destruct nb; [|reflexivity].
  case_if; [|reflexivity].
  apply stemp_rel_alter_at; [apply _|]. intros e _. apply P_Update.
Qed.

Lemma boundaries_rel nf nb s nid :
  stemp_rel (on_best P) s (boundaries param_ snode_ nthread_ fid nf nb s nid).
Proof using Type*.
  unfold boundaries.
  pose proof (prefix_steps_rel nid (seq 0 nthread_) GradStats.Clear s) as H1.
  destruct (foldl (prefix_step nid) _ _) as [sum s1]. simpl in H1.
  trans s1; [exact H1|]. etrans; [|apply closing_boundary_rel].
  apply stemp_rel_foldl; [apply _..|]. intros s2 t _. apply boundary_step_rel.
Qed.

Lemma rescan_update_rel nid nf nb e t :
  P (best t) (best (rescan_update param_ snode_ gpair nid fid nf nb e t)).
Proof using Type*.
  unfold rescan_update.
  destruct (GradStats.Empty _); simpl; [reflexivity|].
  destruct (Fneb _ _); [|reflexivity].
  match goal with |- P _ (if nb then _ else ?b1) =>
    trans b1; [|generalize b1; intros b'] end.
  - destruct nf; [|reflexivity].
    case_if; [apply P_Update|reflexivity].
  - destruct nb; [|reflexivity].
    case_if; [apply P_Update|reflexivity].
Qed.

Lemma ParallelFindSplit_rel nf nb col s :
  stemp_rel (on_best P) s
    (ParallelFindSplit param_ position_ snode_ qexpand_ gpair nthread_ nf nb
       col fid s).
Proof using Type*.
  unfold ParallelFindSplit.
  set (s1 := foldl (λ stemp_ tid, alter (collect _ _ _ _ col tid) tid stemp_) s
               (seq 0 nthread_)).
  set (s2 := foldl (boundaries _ _ _ fid nf nb) s1 qexpand_).
  assert (H1 : stemp_rel (on_best P) s s1).
  { apply stemp_rel_foldl; [apply _..|]. intros s0 t _.
    apply stemp_rel_alter; [apply _|]. intros temp _. apply collect_rel. }
  assert (H2 : stemp_rel (on_best P) s1 s2).
  { apply stemp_rel_foldl; [apply _..|]. intros s0 n _. apply boundaries_rel. }
  trans s1; [exact H1|]. trans s2; [exact H2|].
  apply stemp_rel_foldl; [apply _..|]. intros s0 t _.
  apply stemp_rel_alter; [apply _|]. intros temp _.
  apply row_rel_foldl; [apply _..|]. intros temp1 e. unfold rescan_entry.
  destruct (position_ !! index e) as [nid|]; [|reflexivity].
  destruct (nid <? 0); [reflexivity|].
  apply row_rel_alter; [apply _|]. intros e0 _. apply rescan_update_rel.
Qed.

End parallel_frame.

Section solution_frame.
Context {F : Type} `{!FloatOps F} `{!SplitEvaluator F}.
Context (param_ : TrainParam F).
Context (position_ : list Z).
Context (snode_ : list (NodeEntry F)).
Context (qexpand_ : list nat).
Context (gpair : list (GradientPair F)).
Context (nthread_ : nat).
Context (NeedForwardSearch NeedBackwardSearch : F → bool → bool).
Context (parallel_option : Z).
Context (GetColDensity : nat → F).
Context (thread_of : nat → nat).
Context (feat_set : list nat).
Context (P : relation (SplitEntry.t F)) `{!Reflexive P} `{!Transitive P}.
Context (P_Update : ∀ fid, scanned nthread_ parallel_option feat_set fid →
                      ∀ b l v dl, P b (SplitEntry.Update b l fid v dl)).
Context (P_mid : ∀ b v,
                   scanned nthread_ parallel_option feat_set (SplitEntry.SplitIndex b) →
                   P b (SplitEntry.update_split_value b v)).

Lemma enumerate_feature_rel batch fid temp :
  scanned nthread_ parallel_option feat_set fid →
  row_rel (on_best P) temp
    (enumerate_feature param_ position_ snode_ qexpand_ gpair NeedForwardSearch
       NeedBackwardSearch GetColDensity batch fid temp).
Proof using Type*.
  intros Hfid. unfold enumerate_feature.
  assert (Hscan : ∀ begin end_ d_step temp0,
    row_rel (on_best P) temp0
      (EnumerateSplit param_ position_ snode_ qexpand_ gpair (batch !!! fid)
         begin end_ d_step fid temp0)).
  { intros begin end_ d_step temp0 n e.
    apply (EnumerateSplit_rel param_ position_ snode_ qexpand_ gpair fid P
             reflexivity transitivity (P_Update _ Hfid)).
    intros b v Hb. apply P_mid. by rewrite Hb. }
  cbv zeta.
  match goal with |- row_rel _ _ (if _ then _ else ?t1) =>
    trans t1; [|generalize t1; intros temp1] end.
  - destruct (NeedForwardSearch _ _); [apply Hscan | reflexivity].
  - destruct (NeedBackwardSearch _ _); [apply Hscan | reflexivity].
Qed.

Lemma UpdateSolution_rel batch s :
  stemp_rel (on_best P) s
    (UpdateSolution param_ position_ snode_ qexpand_ gpair nthread_
       NeedForwardSearch NeedBackwardSearch parallel_option GetColDensity
       thread_of batch feat_set s).
Proof using Type*.
  unfold UpdateSolution.
  destruct (poption nthread_ parallel_option (length feat_set) =? 0) eqn:Hmode.
  - apply stemp_rel_foldl; [apply _..|]. intros s1 i Hi.
    apply elem_of_seq in Hi as [_ Hi]. simpl in Hi.
    apply stemp_rel_alter; [apply _|]. intros temp _.
    apply enumerate_feature_rel. unfold scanned. rewrite Hmode.
    by apply list_elem_of_lookup_total_2.
  - apply stemp_rel_foldl; [apply _..|]. intros s1 fid Hfid.
    apply elem_of_seq in Hfid as [_ Hfid]. simpl in Hfid.
    apply ParallelFindSplit_rel; [apply _..|].
    apply P_Update. unfold scanned. by rewrite Hmode.
Qed.

End solution_frame.

Section solution_spec.
Context {F : Type} `{!FloatOps F} `{!SplitEvaluator F}.
Context (param_ : TrainParam F).
Context (position_ : list Z).
Context (snode_ : list (NodeEntry F)).
Context (qexpand_ : list nat).
Context (gpair : list (GradientPair F)).
Context (nthread_ : nat).
Context (NeedForwardSearch NeedBackwardSearch : F → bool → bool).
Context (parallel_option : Z).
Context (GetColDensity : nat → F).
Context (thread_of : nat → nat).

Lemma Update_loss_chg `{!StrictOrderLaws F} `{!OrderedLaws F}
    (b : SplitEntry.t F) l fid v dl :
  Fltb (SplitEntry.loss_chg (SplitEntry.Update b l fid v dl))
    (SplitEntry.loss_chg b) = false.
Proof.
  unfold SplitEntry.Update, SplitEntry.NeedReplace.
  destruct (Fgtb l (SplitEntry.loss_chg b)) eqn:Hgt; simpl.
  - unfold Fgtb in Hgt.
    destruct (Fltb l (SplitEntry.loss_chg b)) eqn:Hlt; [|done].
    pose proof (Fltb_trans _ _ _ Hgt Hlt) as Hbb. by rewrite Fltb_irrefl in Hbb.
  - destruct (Feqb l (SplitEntry.loss_chg b)) eqn:Heq; simpl;
      [|apply Fltb_irrefl].
    apply Feqb_eq in Heq as ->.
    destruct (orb _ _); simpl; apply Fltb_irrefl.
Qed.

(** UpdateSolution leaves the best split of a node in the row of a thread
as it is or replaces it by a split on a feature it scans: a member of
feat_set when the features are shared among the threads (poption 0), but
one of the numbers 0, ..., |feat_set| - 1 when each column is shared among
the threads, whatever the members of feat_set are. *)
Theorem UpdateSolution_scans batch feat_set stemp_ tid nid (e : ThreadEntry F) :
  lookup_at stemp_ tid nid = Some e →
  ∃ e', lookup_at
          (UpdateSolution param_ position_ snode_ qexpand_ gpair nthread_
             NeedForwardSearch NeedBackwardSearch parallel_option GetColDensity
             thread_of batch feat_set stemp_) tid nid = Some e'
    ∧ (best e' = best e
       ∨ if poption nthread_ parallel_option (length feat_set) =? 0
         then SplitEntry.SplitIndex (best e') ∈ feat_set
         else (SplitEntry.SplitIndex (best e') < length feat_set)%nat).
Proof.
  set (P := λ b b' : SplitEntry.t F,
              b' = b
              ∨ scanned nthread_ parallel_option feat_set (SplitEntry.SplitIndex b')).
  assert (Hrefl : Reflexive P) by (by left).
  assert (Htrans : Transitive P).
  { unfold P. intros b1 b2 b3 [->| H2] [->| H3]; auto. }
  apply (UpdateSolution_rel param_ position_ snode_ qexpand_ gpair nthread_
           NeedForwardSearch NeedBackwardSearch parallel_option GetColDensity
           thread_of feat_set P).
  - intros fid Hfid b l v dl. unfold P, SplitEntry.Update.
    destruct (SplitEntry.NeedReplace _ _ _ _); [by right | by left].
  - intros b v Hb. by right.
Qed.

(** The loss change of the best split of a node in the row of a thread
never goes down in UpdateSolution, the order of the numbers being total. *)
Theorem UpdateSolution_loss_chg_monotone `{!StrictOrderLaws F} `{!OrderedLaws F}
    batch feat_set stemp_ tid nid (e : ThreadEntry F) :
  lookup_at stemp_ tid nid = Some e →
  ∃ e', lookup_at
          (UpdateSolution param_ position_ snode_ qexpand_ gpair nthread_
             NeedForwardSearch NeedBackwardSearch parallel_option GetColDensity
             thread_of batch feat_set stemp_) tid nid = Some e'
    ∧ Fltb (SplitEntry.loss_chg (best e')) (SplitEntry.loss_chg (best e)) = false.
Proof.
  set (P := λ b b' : SplitEntry.t F,
              Fltb (SplitEntry.loss_chg b') (SplitEntry.loss_chg b) = false).
  assert (Hrefl : Reflexive P) by (intros b; apply Fltb_irrefl).
  assert (Htrans : Transitive P)
    by (intros b1 b2 b3 H12 H23; by eapply Fle_trans).
  apply (UpdateSolution_rel param_ position_ snode_ qexpand_ gpair nthread_
           NeedForwardSearch NeedBackwardSearch parallel_option GetColDensity
           thread_of feat_set P).
  - intros fid _ b l v dl. apply Update_loss_chg.
  - intros b v _. apply Fltb_irrefl.
Qed.

End solution_spec.

(** ** The statistics that ParallelFindSplit leaves in the rows *)

Section chunk_facts.
Context {F : Type} `{!FloatOps F}.
Context (nthread_ : nat).

Lemma chunk_take (col : list (Entry F)) tid :
  let step := ((length col + nthread_ - 1) / nthread_)%nat in
  take (tid * step) col ++ chunk nthread_ col tid = take ((tid + 1) * step) col.
Proof.
  intros step. unfold chunk. fold step. rewrite take_take_drop.
  destruct (decide (tid * step ≤ length col)%nat) as [Hle|Hgt].
  - destruct (decide ((tid + 1) * step ≤ length col)%nat).
    + f_equal. lia.
    + rewrite !take_ge by lia. done.
  - rewrite !take_ge by lia. done.
Qed.

Lemma chunks_reach (col : list (Entry F)) :
  (0 < nthread_)%nat →
  (length col ≤ nthread_ * ((length col + nthread_ - 1) / nthread_))%nat.
Proof.
  intros Hn.
  pose proof (Nat.div_mod (length col + nthread_ - 1) nthread_ ltac:(lia)) as Hdm.
  pose proof (Nat.mod_upper_bound (length col + nthread_ - 1) nthread_ ltac:(lia)).
  lia.
Qed.

Lemma chunks_concat (col : list (Entry F)) k :
  concat (chunk nthread_ col <$> seq 0 k)
  = take (k * ((length col + nthread_ - 1) / nthread_)) col.
Proof.
  induction k as [|k IH].
  - by rewrite take_0.
  - rewrite seq_S. replace (S k) with (k + 1)%nat by lia.
    rewrite <- (chunk_take col k), fmap_app, concat_app, IH. f_equal.
    apply app_nil_r.
Qed.

End chunk_facts.

Section lookup_at_facts.
Context {F : Type} `{!FloatOps F}.

Lemma lookup_at_alter_at (f : ThreadEntry F → ThreadEntry F) t n s t' n' :
  lookup_at (alter_at f t n s) t' n'
  = if decide (t = t' ∧ n = n') then f <$> lookup_at s t n else lookup_at s t' n'.
Proof.
  unfold lookup_at, alter_at. destruct (decide (t = t')) as [->|Ht].
  - rewrite list_lookup_alter_eq. destruct (s !! t') as [temp|]; simpl.
    + destruct (decide (n = n')) as [->|Hn].
      * rewrite decide_True by done. apply list_lookup_alter_eq.
      * rewrite decide_False by tauto. by apply list_lookup_alter_ne.
    + by destruct (decide _).
  - rewrite list_lookup_alter_ne by done. by rewrite decide_False by tauto.
Qed.

Lemma lookup_at_alter_at_other (f : ThreadEntry F → ThreadEntry F) t m s t' n :
  m ≠ n → lookup_at (alter_at f t m s) t' n = lookup_at s t' n.
Proof. intros Hne. rewrite lookup_at_alter_at. by rewrite decide_False by tauto. Qed.

Lemma foldl_alter_seq {A} (g : nat → A → A) (s : list A) n t :
  foldl (λ s t, alter (g t) t s) s (seq 0 n) !! t
  = if decide (t < n)%nat then g t <$> s !! t else s !! t.
Proof.
  induction n as [|n IH].
  - by rewrite decide_False by lia.
  - rewrite seq_S, foldl_app. cbn [foldl]. rewrite Nat.add_0_l.
    destruct (decide (n = t)) as [->|Hne].
    + rewrite list_lookup_alter_eq, IH.
      rewrite (decide_False (P := (t < t)%nat)) by lia.
      by rewrite decide_True by lia.
    + rewrite list_lookup_alter_ne, IH by done.
      destruct (decide (t < n)%nat).
      * by rewrite decide_True by lia.
      * by rewrite decide_False by lia.
Qed.

Lemma entry_at_lookup_at (s : list (list (ThreadEntry F))) t n :
  entry_at s t n = default inhabitant (lookup_at s t n).
Proof.
  unfold entry_at, lookup_at. rewrite (list_lookup_total_alt s).
  destruct (s !! t) as [temp|]; simpl; by rewrite list_lookup_total_alt.
Qed.

Lemma prefix_sum_S (f : nat → GradStats.t F) k :
  prefix_sum f (S k) = GradStats.AddStats (prefix_sum f k) (f k).
Proof. unfold prefix_sum. by rewrite seq_S, foldl_app. Qed.

Lemma prefix_sum_ext (f g : nat → GradStats.t F) k :
  (∀ t, (t < k)%nat → f t = g t) → prefix_sum f k = prefix_sum g k.
Proof.
  induction k as [|k IH]; intros Hfg; [done|].
  rewrite !prefix_sum_S, IH by (intros; apply Hfg; lia).
  by rewrite Hfg by lia.
Qed.

Lemma threads_sum_ext (s s' : list (list (ThreadEntry F))) n k :
  (∀ t, lookup_at s' t n = lookup_at s t n) →
  threads_sum s' n k = threads_sum s n k.
Proof.
  intros Hs. apply prefix_sum_ext. intros t _.
  by rewrite !entry_at_lookup_at, Hs.
Qed.

Lemma node_rows_cons_in position_ nid (e : Entry F) es :
  position_ !! index e = Some (Z.of_nat nid) →
  node_rows position_ nid (e :: es) = index e :: node_rows position_ nid es.
Proof. intros He. unfold node_rows. by rewrite filter_cons_True. Qed.

Lemma node_rows_cons_out position_ nid (e : Entry F) es :
  position_ !! index e ≠ Some (Z.of_nat nid) →
  node_rows position_ nid (e :: es) = node_rows position_ nid es.
Proof. intros He. unfold node_rows. by rewrite filter_cons_False. Qed.

Lemma node_rows_app position_ nid (es1 es2 : list (Entry F)) :
  node_rows position_ nid (es1 ++ es2)
  = node_rows position_ nid es1 ++ node_rows position_ nid es2.
Proof. unfold node_rows. by rewrite filter_app, fmap_app. Qed.

Lemma foldl_Add_AddStats `{!GroupLaws F} (a : GradStats.t F) ps :
  foldl GradStats.Add a ps
  = GradStats.AddStats a (foldl GradStats.Add GradStats.Clear ps).
Proof.
  induction ps as [|p ps IH] using rev_ind; simpl.
  - by rewrite AddStats_Clear.
  - rewrite !foldl_app. cbn [foldl]. by rewrite IH, AddStats_Add.
Qed.

Lemma rows_sum_app `{!GroupLaws F} gpair (rows1 rows2 : list nat) :
  rows_sum (F := F) gpair (rows1 ++ rows2)
  = GradStats.AddStats (rows_sum gpair rows1) (rows_sum gpair rows2).
Proof.
  unfold rows_sum. by rewrite fmap_app, foldl_app, foldl_Add_AddStats.
Qed.

End lookup_at_facts.

Section parallel_stats.
Context {F : Type} `{!FloatOps F} `{!SplitEvaluator F}.
Context (param_ : TrainParam F).
Context (position_ : list Z).
Context (snode_ : list (NodeEntry F)).
Context (qexpand_ : list nat).
Context (gpair : list (GradientPair F)).
Context (nthread_ : nat).
(* the node of which the statistics are followed *)
Context (nid : nat).

(** *** The first region *)

Lemma clear_fold_stats l (temp : list (ThreadEntry F)) e :
  temp !! nid = Some e →
  nid ∈ l ∨ stats e = GradStats.Clear →
  ∃ e', foldl (λ temp j, alter clear_stats j temp) temp l !! nid = Some e'
    ∧ stats e' = GradStats.Clear.
Proof.
  revert temp e. induction l as [|j l IH]; intros temp e He Hin; cbn [foldl].
  - exists e. split; [done|]. destruct Hin as [Hin|]; [|done].
    by apply elem_of_nil in Hin.
  - destruct (decide (j = nid)) as [->|Hne].
    + apply (IH _ (clear_stats e)); [by rewrite list_lookup_alter_eq, He|].
      by right.
    + apply (IH _ e); [by rewrite list_lookup_alter_ne|].
      destruct Hin as [Hin|]; [left|by right].
      apply elem_of_cons in Hin as [?|?]; [congruence|done].
Qed.

Lemma collect_fold_stats es (temp : list (ThreadEntry F)) e :
  temp !! nid = Some e →
  ∃ e', foldl (collect_entry position_ gpair) temp es !! nid = Some e'
    ∧ stats e'
      = foldl GradStats.Add (stats e) ((gpair !!!.) <$> node_rows position_ nid es).
Proof.
  revert temp e. induction es as [|x es IH]; intros temp e He; cbn [foldl].
  - by exists e.
  - unfold collect_entry at 2.
    destruct (position_ !! index x) as [p|] eqn:Hp.
    + destruct (p <? 0) eqn:Hneg.
      * rewrite node_rows_cons_out; [by apply IH|].
        rewrite Hp. intros [= ->]. apply Z.ltb_lt in Hneg. lia.
      * apply Z.ltb_ge in Hneg.
        destruct (decide (Z.to_nat p = nid)) as [Heq|Hne].
        -- rewrite node_rows_cons_in by (rewrite Hp; f_equal; lia).
           rewrite Heq.
           edestruct IH as (e' & He' & Hs);
             [by rewrite list_lookup_alter_eq, He|].
           exists e'. split; [exact He'|]. rewrite Hs. simpl.
           by destruct (GradStats.Empty (stats e)).
        -- rewrite node_rows_cons_out.
           ++ apply IH. by rewrite list_lookup_alter_ne.
           ++ rewrite Hp. intros [= ->]. lia.
    + rewrite node_rows_cons_out; [by apply IH|]. by rewrite Hp.
Qed.

Lemma collect_stats col tid (temp : list (ThreadEntry F)) e :
  nid ∈ qexpand_ →
  temp !! nid = Some e →
  ∃ e', collect position_ qexpand_ gpair nthread_ col tid temp !! nid = Some e'
    ∧ stats e' = rows_sum gpair (node_rows position_ nid (chunk nthread_ col tid)).
Proof.
  intros Hin He. unfold collect.
  destruct (clear_fold_stats qexpand_ temp e He (or_introl Hin)) as (e1 & He1 & Hs1).
  destruct (collect_fold_stats (chunk nthread_ col tid) _ e1 He1) as (e2 & He2 & Hs2).
  exists e2. split; [done|]. by rewrite Hs2, Hs1.
Qed.

(** *** The third region *)

Lemma rescan_fold_stats fid nf nb es (temp : list (ThreadEntry F)) e :
  temp !! nid = Some e →
  ∃ e', foldl (rescan_entry param_ position_ snode_ gpair fid nf nb) temp es !! nid
        = Some e'
    ∧ stats e'
      = foldl GradStats.Add (stats e) ((gpair !!!.) <$> node_rows position_ nid es)
    ∧ stats_extra e' = stats_extra e.
Proof.
  revert temp e. induction es as [|x es IH]; intros temp e He; cbn [foldl].
  - by exists e.
  - unfold rescan_entry at 2.
    destruct (position_ !! index x) as [p|] eqn:Hp.
    + destruct (p <? 0) eqn:Hneg.
      * rewrite node_rows_cons_out; [by apply IH|].
        rewrite Hp. intros [= ->]. apply Z.ltb_lt in Hneg. lia.
      * apply Z.ltb_ge in Hneg.
        destruct (decide (Z.to_nat p = nid)) as [Heq|Hne].
        -- rewrite node_rows_cons_in by (rewrite Hp; f_equal; lia).
           rewrite Heq.
           edestruct IH as (e' & He' & Hs & Hx);
             [by rewrite list_lookup_alter_eq, He|].
           exists e'. split; [exact He'|]. rewrite Hs, Hx.
           unfold rescan_update. by destruct (GradStats.Empty (stats e)).
        -- rewrite node_rows_cons_out.
           ++ apply IH. by rewrite list_lookup_alter_ne.
           ++ rewrite Hp. intros [= ->]. lia.
    + rewrite node_rows_cons_out; [by apply IH|]. by rewrite Hp.
Qed.

(** *** The second region, at another node *)

Lemma prefix_steps_other m l sum (s : list (list (ThreadEntry F))) t :
  m ≠ nid →
  lookup_at (foldl (prefix_step m) (sum, s) l).2 t nid = lookup_at s t nid.
Proof.
  intros Hne. revert sum s. induction l as [|x l IH]; intros sum s; cbn [foldl].
  - done.
  - unfold prefix_step at 2. destruct (x =? 0)%nat; rewrite IH.
    + by rewrite lookup_at_alter_at_other.
    + by rewrite !lookup_at_alter_at_other.
Qed.

Lemma boundary_step_other m fid nf nb sum (s : list (list (ThreadEntry F))) x t :
  m ≠ nid →
  lookup_at (boundary_step param_ snode_ m fid nf nb sum s x) t nid
  = lookup_at s t nid.
Proof.
  intros Hne. unfold boundary_step.
  match goal with |- context [match ?o with Some _ => _ | None => _ end] =>
    destruct o end.
  - by rewrite !lookup_at_alter_at_other.
  - by rewrite lookup_at_alter_at_other.
Qed.

Lemma boundaries_other m fid nf nb (s : list (list (ThreadEntry F))) t :
  m ≠ nid →
  lookup_at (boundaries param_ snode_ nthread_ fid nf nb s m) t nid
  = lookup_at s t nid.
Proof.
  intros Hne. unfold boundaries.
  pose proof (prefix_steps_other m (seq 0 nthread_) GradStats.Clear s t Hne) as H1.
  destruct (foldl (prefix_step m) _ _) as [sum s1]. simpl in H1.
  rewrite <- H1.
  assert (H2 : ∀ l s2, lookup_at (foldl (boundary_step param_ snode_ m fid nf nb sum)
                                   s2 l) t nid = lookup_at s2 t nid).
  { induction l as [|x l IH]; intros s2; cbn [foldl]; [done|].
    by rewrite IH, boundary_step_other. }
  rewrite <- (H2 (seq 0 nthread_) s1).
  unfold closing_boundary. destruct nb; [|done].
  match goal with |- context [if ?c then _ else _] => destruct c end; [|done].
  by rewrite lookup_at_alter_at_other.
Qed.

Lemma boundaries_fold_other fid nf nb l (s : list (list (ThreadEntry F))) t :
  nid ∉ l →
  lookup_at (foldl (boundaries param_ snode_ nthread_ fid nf nb) s l) t nid
  = lookup_at s t nid.
Proof.
  revert s. induction l as [|m l IH]; intros s Hnin; cbn [foldl]; [done|].
  apply not_elem_of_cons in Hnin as [Hne Hnin].
  rewrite IH by done. by apply boundaries_other.
Qed.

(** *** The second region, at the node *)

Lemma prefix_steps_spec (s : list (list (ThreadEntry F))) k :
  (k ≤ nthread_)%nat →
  (∀ t, (t < nthread_)%nat → is_Some (lookup_at s t nid)) →
  ∃ s', foldl (prefix_step nid) (GradStats.Clear, s) (seq 0 k)
        = (threads_sum s nid k, s')
    ∧ ∀ t e, lookup_at s t nid = Some e →
        ∃ e', lookup_at s' t nid = Some e'
          ∧ stats e' = if decide (t < k)%nat then threads_sum s nid t else stats e.
Proof.
  intros Hk Hpres. induction k as [|k IH].
  - exists s. split; [done|]. intros t e He. exists e.
    by rewrite decide_False by lia.
  - destruct IH as (sk & Hfold & Hsk); [lia|].
    rewrite seq_S, foldl_app, Hfold. cbn [foldl]. rewrite Nat.add_0_l.
    destruct (Hpres k ltac:(lia)) as [ek Hek].
    destruct (Hsk k ek Hek) as (ek' & Hek' & Hsek).
    rewrite decide_False in Hsek by lia.
    unfold prefix_step.
    rewrite (lookup_at_entry_at _ _ _ _ Hek'), Hsek.
    assert (Hsum : GradStats.AddStats (threads_sum s nid k) (stats ek)
                   = threads_sum s nid (S k)).
    { unfold threads_sum. rewrite prefix_sum_S.
      by rewrite (lookup_at_entry_at _ _ _ _ Hek). }
    rewrite Hsum.
    set (sa := alter_at (λ e, set_stats e (threads_sum s nid k)) k nid sk).
    assert (Hsa : ∀ t e, lookup_at s t nid = Some e →
      ∃ e', lookup_at sa t nid = Some e'
        ∧ stats e' = if decide (t < S k)%nat then threads_sum s nid t else stats e).
    { intros t e He. destruct (Hsk t e He) as (e1 & He1 & Hs1).
      unfold sa. rewrite lookup_at_alter_at.
      destruct (decide (k = t ∧ nid = nid)) as [[-> _]|Hne].
      - rewrite He1. eexists. split; [done|]. simpl.
        by rewrite decide_True by lia.
      - exists e1. split; [done|]. rewrite Hs1.
        destruct (decide (t < k)%nat).
        + by rewrite decide_True by lia.
        + rewrite decide_False; [done|]. intros ?. apply Hne. split; [lia|done]. }
    destruct (k =? 0)%nat.
    + by exists sa.
    + eexists. split; [done|]. intros t e He.
      destruct (Hsa t e He) as (e1 & He1 & Hs1).
      assert (Hrel : stemp_rel keeps_stats sa
        (alter_at (λ e0, set_first_fvalue e0 (last_fvalue (entry_at sa (k - 1) nid)))
           k nid
           (alter_at (λ e0, set_last_fvalue e0 (first_fvalue (entry_at sa k nid)))
              (k - 1) nid sa))).
      { etrans; by (apply stemp_rel_alter_at; [apply _|]). }
      destruct (Hrel t nid e1 He1) as (e2 & He2 & Hs2).
      exists e2. split; [done|]. by rewrite Hs2.
Qed.

Lemma boundary_step_sums m fid nf nb sum (s : list (list (ThreadEntry F))) x :
  stemp_rel (keeps_sums sum) s (boundary_step param_ snode_ m fid nf nb sum s x).
Proof.
  unfold boundary_step.
  set (s1 := alter_at (λ e, set_stats_extra e sum) x m s).
  assert (H1 : stemp_rel (keeps_sums sum) s s1).
  { apply stemp_rel_alter_at; [apply _|]. by intros e _. }
  match goal with |- context [match ?o with Some _ => _ | None => _ end] =>
    destruct o end; [|done].
  trans s1; [exact H1|].
  apply stemp_rel_alter_at; [apply _|]. by intros e _.
Qed.

Lemma boundary_step_sets fid nf nb sum (s : list (list (ThreadEntry F))) t e :
  lookup_at s t nid = Some e →
  ∃ e', lookup_at (boundary_step param_ snode_ nid fid nf nb sum s t) t nid = Some e'
    ∧ stats e' = stats e ∧ stats_extra e' = sum.
Proof.
  intros He. unfold boundary_step.
  set (s1 := alter_at (λ e, set_stats_extra e sum) t nid s).
  assert (H1 : lookup_at s1 t nid = Some (set_stats_extra e sum)).
  { unfold s1. rewrite lookup_at_alter_at, decide_True by done. by rewrite He. }
  match goal with |- context [match ?o with Some _ => _ | None => _ end] =>
    destruct o end.
  - rewrite lookup_at_alter_at, decide_True, H1 by done. by eexists.
  - rewrite H1. by eexists.
Qed.

Lemma boundary_steps_set fid nf nb sum l (s : list (list (ThreadEntry F))) t e :
  t ∈ l →
  lookup_at s t nid = Some e →
  ∃ e', lookup_at (foldl (boundary_step param_ snode_ nid fid nf nb sum) s l) t nid
        = Some e'
    ∧ stats e' = stats e ∧ stats_extra e' = sum.
Proof.
  assert (Hrel : ∀ l s, stemp_rel (keeps_sums sum) s
            (foldl (boundary_step param_ snode_ nid fid nf nb sum) s l)).
  { intros l0 s0.
    apply stemp_rel_foldl; [apply _..|]. intros s1 x _. apply boundary_step_sums. }
  revert s e. induction l as [|x l IH]; intros s e Hin He; cbn [foldl].
  - by apply elem_of_nil in Hin.
  - destruct (decide (x = t)) as [->|Hne].
    + destruct (boundary_step_sets fid nf nb sum s t e He) as (e1 & He1 & Hs1 & Hx1).
      destruct (Hrel l _ t nid e1 He1) as (e2 & He2 & Hs2 & Hx2).
      exists e2. split; [done|]. split; [congruence|auto].
    + apply elem_of_cons in Hin as [?|Hin]; [congruence|].
      destruct (boundary_step_sums nid fid nf nb sum s x t nid e He)
        as (e1 & He1 & Hs1 & _).
      destruct (IH _ e1 Hin He1) as (e2 & He2 & Hs2 & Hx2).
      exists e2. split; [done|]. split; [congruence|done].
Qed.

Lemma closing_boundary_sums m fid nb sum (s : list (list (ThreadEntry F))) :
  stemp_rel (keeps_sums sum) s (closing_boundary param_ snode_ nthread_ m fid nb sum s).
Proof.
  unfold closing_boundary.
  destruct nb; [|reflexivity].
  match goal with |- context [if ?c then _ else _] => destruct c end; [|reflexivity].
  apply stemp_rel_alter_at; [apply _|]. by intros e _.
Qed.

Lemma boundaries_self fid nf nb (s : list (list (ThreadEntry F))) t :
  (∀ t, (t < nthread_)%nat → is_Some (lookup_at s t nid)) →
  (t < nthread_)%nat →
  ∃ e', lookup_at (boundaries param_ snode_ nthread_ fid nf nb s nid) t nid = Some e'
    ∧ stats e' = threads_sum s nid t
    ∧ stats_extra e' = threads_sum s nid nthread_.
Proof.
  intros Hpres Ht. unfold boundaries.
  destruct (prefix_steps_spec s nthread_ (le_n _) Hpres) as (s1 & -> & Hs1).
  destruct (Hpres t Ht) as [e He].
  destruct (Hs1 t e He) as (e1 & He1 & Hst1). rewrite decide_True in Hst1 by done.
  destruct (boundary_steps_set fid nf nb (threads_sum s nid nthread_)
              (seq 0 nthread_) s1 t e1) as (e2 & He2 & Hs2 & Hx2); [|done|].
  { apply elem_of_seq. lia. }
  destruct (closing_boundary_sums nid fid nb (threads_sum s nid nthread_) _
              t nid e2 He2) as (e3 & He3 & Hs3 & Hx3).
  exists e3. split; [done|]. split; [congruence|auto].
Qed.

Lemma boundaries_fold_self fid nf nb l (s : list (list (ThreadEntry F))) t :
  NoDup l → nid ∈ l →
  (∀ t, (t < nthread_)%nat → is_Some (lookup_at s t nid)) →
  (t < nthread_)%nat →
  ∃ e', lookup_at (foldl (boundaries param_ snode_ nthread_ fid nf nb) s l) t nid
        = Some e'
    ∧ stats e' = threads_sum s nid t
    ∧ stats_extra e' = threads_sum s nid nthread_.
Proof.
  intros Hnd Hin Hpres Ht. revert s Hin Hpres.
  induction Hnd as [|m l Hm Hnd IH]; intros s Hin Hpres; cbn [foldl].
  - by apply elem_of_nil in Hin.
  - destruct (decide (m = nid)) as [->|Hne].
    + rewrite boundaries_fold_other by done. by apply boundaries_self.
    + apply elem_of_cons in Hin as [?|Hin]; [congruence|].
      assert (Hsame : ∀ t, lookup_at (boundaries param_ snode_ nthread_ fid nf nb s m)
                              t nid = lookup_at s t nid).
      { intros t0. by apply boundaries_other. }
      rewrite <- !(threads_sum_ext s _ nid _ Hsame).
      apply IH; [done|]. intros t0 Ht0. rewrite Hsame. by apply Hpres.
Qed.

End parallel_stats.

Section parallel_spec.
Context {F : Type} `{!FloatOps F} `{!SplitEvaluator F} `{!GroupLaws F}.
Context (param_ : TrainParam F).
Context (position_ : list Z).
Context (snode_ : list (NodeEntry F)).
Context (qexpand_ : list nat).
Context (gpair : list (GradientPair F)).
Context (nthread_ : nat).

Lemma collected_sums (col : list (Entry F)) nid (s : list (list (ThreadEntry F))) k :
  (k ≤ nthread_)%nat →
  (∀ t, (t < nthread_)%nat →
     ∃ e, lookup_at s t nid = Some e
       ∧ stats e = rows_sum gpair (node_rows position_ nid (chunk nthread_ col t))) →
  threads_sum s nid k
  = rows_sum gpair
      (node_rows position_ nid
         (take (k * ((length col + nthread_ - 1) / nthread_)) col)).
Proof.
  intros Hk Hs. induction k as [|k IH].
  - by rewrite take_0.
  - unfold threads_sum in *. rewrite prefix_sum_S, IH by lia.
    destruct (Hs k ltac:(lia)) as (e & He & Hse).
    rewrite (lookup_at_entry_at _ _ _ _ He), Hse, <- rows_sum_app, <- node_rows_app.
    replace (S k) with (k + 1)%nat by lia. by rewrite chunk_take.
Qed.

(** Every entry of a column is in the chunk of exactly one thread: the
chunks of the threads 0, ..., nthread_ - 1, one after the other, are the
column. *)
Theorem chunks_cover (col : list (Entry F)) :
  (0 < nthread_)%nat →
  concat (chunk nthread_ col <$> seq 0 nthread_) = col.
Proof.
  intros Hn. rewrite chunks_concat. apply take_ge.
  pose proof (chunks_reach nthread_ col Hn). lia.
Qed.

(** After ParallelFindSplit on a column, the entry of a node of the
frontier in the row of thread [tid] holds in [stats] the gradient
statistics of the instances of the node in the chunks of the threads
0, ..., tid, and in [stats_extra] those of all the instances of the node
in the column, sums being exact: the partial sums of the second region and
the rescan of the third add up to the sequential sweep. *)
Theorem ParallelFindSplit_sums nf nb (col : list (Entry F)) fid stemp_ nid tid :
  NoDup qexpand_ →
  nid ∈ qexpand_ →
  (∀ t, (t < nthread_)%nat → is_Some (lookup_at stemp_ t nid)) →
  (tid < nthread_)%nat →
  ∃ e', lookup_at
          (ParallelFindSplit param_ position_ snode_ qexpand_ gpair nthread_
             nf nb col fid stemp_) tid nid = Some e'
    ∧ stats e'
      = rows_sum gpair
          (node_rows position_ nid
             (take ((tid + 1) * ((length col + nthread_ - 1) / nthread_)) col))
    ∧ stats_extra e' = rows_sum gpair (node_rows position_ nid col).
Proof.
  intros Hnd Hin Hpres Htid. unfold ParallelFindSplit.
  set (s1 := foldl (λ stemp_ tid, alter (collect _ _ _ _ col tid) tid stemp_)
               stemp_ (seq 0 nthread_)).
  set (s2 := foldl (boundaries _ _ _ fid nf nb) s1 qexpand_).
  assert (H1 : ∀ t, (t < nthread_)%nat →
    ∃ e, lookup_at s1 t nid = Some e
      ∧ stats e = rows_sum gpair (node_rows position_ nid (chunk nthread_ col t))).
  { intros t Ht. destruct (Hpres t Ht) as [e He]. unfold lookup_at in *.
    unfold s1. rewrite foldl_alter_seq, decide_True by done.
    destruct (stemp_ !! t) as [temp|]; [|done]. simpl in *.
    by apply (collect_stats position_ qexpand_ gpair nthread_ nid col t temp e). }
  assert (H2 : ∃ e, lookup_at s2 tid nid = Some e
    ∧ stats e = threads_sum s1 nid tid
    ∧ stats_extra e = threads_sum s1 nid nthread_).
  { apply boundaries_fold_self; [done..| |done].
    intros t Ht. destruct (H1 t Ht) as (e & -> & _). by eexists. }
  destruct H2 as (e2 & He2 & Hs2 & Hx2).
  unfold lookup_at in *. rewrite foldl_alter_seq, decide_True by done.
  destruct (s2 !! tid) as [temp2|]; [|done]. simpl in *.
  destruct (rescan_fold_stats param_ position_ snode_ gpair nid fid nf nb
              (chunk nthread_ col tid) temp2 e2 He2) as (e3 & He3 & Hs3 & Hx3).
  exists e3. split; [done|]. split.
  - rewrite Hs3, Hs2, (collected_sums col nid s1 tid) by (done || lia).
    rewrite <- chunk_take, node_rows_app. unfold rows_sum.
    by rewrite fmap_app, foldl_app.
  - rewrite Hx3, Hx2, (collected_sums col nid s1 nthread_) by done.
    rewrite take_ge; [done|].
    pose proof (chunks_reach nthread_ col ltac:(lia)). lia.
Qed.

End parallel_spec.

Module ParallelFacts.
Import FixedPoint FixedPointLaws Scenario DriverScenario ParallelScenario.

Lemma UpdateSolution_scans_witness :
  ∃ e', lookup_at
          (UpdateSolution param position snode qexpand gpair nthread
             NeedForwardSearch NeedBackwardSearch 1 GetColDensity thread_of
             batch feat_set stemp_found) 1 0 = Some e'
    ∧ (best e' = SplitEntry.mk (fp 8) 0%nat (fp 1) false
       ∨ if poption nthread 1 (length feat_set) =? 0
         then SplitEntry.SplitIndex (best e') ∈ feat_set
         else (SplitEntry.SplitIndex (best e') < length feat_set)%nat).
Proof.
  exact (UpdateSolution_scans param position snode qexpand gpair nthread
           NeedForwardSearch NeedBackwardSearch 1 GetColDensity thread_of
           batch feat_set stemp_found 1%nat 0%nat _ eq_refl).
Defined.

Lemma UpdateSolution_loss_chg_monotone_witness :
  ∃ e', lookup_at
          (UpdateSolution param position snode qexpand gpair nthread
             NeedForwardSearch NeedBackwardSearch 0 GetColDensity thread_of
             batch feat_set stemp_found) 1 0 = Some e'
    ∧ Fltb (SplitEntry.loss_chg (best e')) (fp 8) = false.
Proof.
  exact (UpdateSolution_loss_chg_monotone param position snode qexpand gpair
           nthread NeedForwardSearch NeedBackwardSearch 0 GetColDensity thread_of
           batch feat_set stemp_found 1%nat 0%nat _ eq_refl).
Defined.

Lemma chunks_cover_witness : concat (chunk nthread data <$> seq 0 nthread) = data.
Proof. apply (chunks_cover nthread data). unfold nthread. lia. Defined.

Lemma ParallelFindSplit_sums_witness :
  ∃ e', lookup_at
          (ParallelFindSplit param position snode qexpand gpair nthread true true
             data 0 stemp_start) 0 0 = Some e'
    ∧ stats e' = rows_sum gpair [0%nat]
    ∧ stats_extra e' = rows_sum gpair [0%nat; 1%nat].
Proof.
  apply (ParallelFindSplit_sums param position snode qexpand gpair nthread true
           true data 0%nat stemp_start 0%nat 0%nat).
  - apply NoDup_singleton.
  - apply list_elem_of_here.
  - intros [|[|t]] Ht; [by eexists..|]. unfold nthread in Ht. lia.
  - unfold nthread. lia.
Defined.

End ParallelFacts.

(** ** The splits that a level makes *)

Section find_split_props.
Context {F : Type} `{!FloatOps F} `{!SplitEvaluator F}.
Context (param_ : TrainParam F).
Context (position_ : list Z).
Context (qexpand_ : list nat).
Context (gpair : list (GradientPair F)).
Context (nthread_ : nat).
Context (NeedForwardSearch NeedBackwardSearch : F → bool → bool).
Context (parallel_option : Z).
Context (GetColDensity : nat → F).
Context (thread_of : nat → nat → nat).
Context (colsample_bylevel one : F).

Lemma scan_batches_rel (P : relation (SplitEntry.t F)) `{!Reflexive P}
    `{!Transitive P} snode_ feat_set batches s :
  (∀ fid, scanned nthread_ parallel_option feat_set fid →
     ∀ b l v dl, P b (SplitEntry.Update b l fid v dl)) →
  (∀ b v, scanned nthread_ parallel_option feat_set (SplitEntry.SplitIndex b) →
     P b (SplitEntry.update_split_value b v)) →
  stemp_rel (on_best P) s
    (scan_batches param_ position_ qexpand_ gpair nthread_ NeedForwardSearch
       NeedBackwardSearch parallel_option GetColDensity thread_of snode_ feat_set
       batches s).
Proof.
  intros HU Hmid. unfold scan_batches.
  apply stemp_rel_foldl; [apply _..|]. intros s1 [k batch] _.
  by apply UpdateSolution_rel.
Qed.

(* what the commit makes of a node of the frontier *)
Lemma commit_frontier_node snode_ qexpand (tree : list (RegTree.Node F)) nid :
  NoDup qexpand →
  (∀ m, m ∈ qexpand → (m < length tree)%nat) →
  nid ∈ qexpand →
  let node' := commit param_ snode_ qexpand tree !!! nid in
  if Fgtb (SplitEntry.loss_chg (node_best (snode_ !!! nid))) kRtEps
  then RegTree.IsLeaf node' = false
       ∧ RegTree.SplitIndex node' = SplitEntry.SplitIndex (node_best (snode_ !!! nid))
  else RegTree.IsLeaf node' = true.
Proof.
  intros Hnd Hlt Hin node'.
  destruct (commit_nodes param_ snode_ qexpand tree Hnd Hlt) as (_ & _ & Hfr & _).
  destruct (lookup_lt_is_Some_2 tree nid (Hlt nid Hin)) as [node Hnode].
  specialize (Hfr nid node Hin Hnode). cbv beta in Hfr.
  destruct (Fgtb (SplitEntry.loss_chg (node_best (snode_ !!! nid))) kRtEps).
  - destruct Hfr as (left & Hn' & _ & _). unfold node'.
    rewrite (list_lookup_total_correct _ _ _ Hn'). split; [|done].
    unfold RegTree.IsLeaf. simpl. apply Z.eqb_neq. lia.
  - unfold node'. by rewrite (list_lookup_total_correct _ _ _ Hfr).
Qed.

Lemma sync_frontier_node stemp_ qexpand (snode_ : list (NodeEntry F)) nid ne :
  NoDup qexpand → nid ∈ qexpand → snode_ !! nid = Some ne →
  SyncBestSolution nthread_ stemp_ qexpand snode_ !!! nid
  = sync_node nthread_ stemp_ nid ne.
Proof.
  intros Hnd Hin Hne. apply list_lookup_total_correct. unfold SyncBestSolution.
  rewrite (foldl_alter_lookup_once (sync_node nthread_ stemp_)) by done.
  by rewrite Hne.
Qed.

(** When the check on colsample_bylevel does not abort it, FindSplit
returns, and a split that it makes at a node of the frontier is a split
on a feature that UpdateSolution scans, if the best splits that the node
and the threads hold for it beforehand are not above the threshold kRtEps
(as those of a new node are): with the features shared among the threads,
on a member of feat_set. *)
Theorem FindSplit_splits_scanned feat_set batches qexpand stemp_ snode_
    (tree : list (RegTree.Node F)) nid ne :
  NoDup qexpand →
  (∀ m, m ∈ qexpand → (m < length tree)%nat) →
  nid ∈ qexpand →
  snode_ !! nid = Some ne →
  Fgtb (SplitEntry.loss_chg (node_best ne)) kRtEps = false →
  (∀ tid, (tid < nthread_)%nat →
     ∃ e, lookup_at stemp_ tid nid = Some e
       ∧ Fgtb (SplitEntry.loss_chg (best e)) kRtEps = false) →
  (if Fneb colsample_bylevel one then Fgtb colsample_bylevel F0 else true)
  = true →
  ∃ st',
    FindSplit param_ position_ qexpand_ gpair nthread_ NeedForwardSearch
      NeedBackwardSearch parallel_option GetColDensity thread_of
      colsample_bylevel one feat_set batches qexpand (stemp_, snode_, tree)
    = Some st'
    ∧ (RegTree.IsLeaf (st'.2 !!! nid) = false →
       scanned nthread_ parallel_option feat_set
         (RegTree.SplitIndex (st'.2 !!! nid))).
Proof.
  intros Hnd Hlt Hin Hne Hnode Hthreads Hcheck.
  unfold FindSplit. rewrite Hcheck. eexists. split; [reflexivity|].
  cbn [snd]. intros Hsplit.
  set (stemp' := scan_batches _ _ _ _ _ _ _ _ _ _ snode_ feat_set batches stemp_)
    in *.
  set (snode' := SyncBestSolution nthread_ stemp' qexpand snode_) in *.
  pose proof (commit_frontier_node snode' qexpand tree nid Hnd Hlt Hin) as Hc.
  cbv zeta in Hc.
  destruct (Fgtb (SplitEntry.loss_chg (node_best (snode' !!! nid))) kRtEps)
    eqn:Hgt; [|congruence].
  destruct Hc as [_ ->].
  unfold snode' in *. rewrite (sync_frontier_node _ _ _ _ ne Hnd Hin Hne) in *.
  destruct (sync_node_fields stemp' nid ne (seq 0 nthread_))
    as (_ & _ & _ & [Hb | (tid & Htid & Hb)]); cbv zeta in Hb.
  - unfold sync_node in Hgt. rewrite Hb in Hgt. congruence.
  - apply elem_of_seq in Htid as [_ Htid]. simpl in Htid.
    destruct (Hthreads tid Htid) as (e & He & Hle).
    set (P := λ b b' : SplitEntry.t F,
                b' = b
                ∨ scanned nthread_ parallel_option feat_set
                    (SplitEntry.SplitIndex b')).
    assert (Hrefl : Reflexive P) by (by left).
    assert (Htrans : Transitive P).
    { unfold P. intros b1 b2 b3 [->| H2] [->| H3]; auto. }
    destruct (scan_batches_rel P snode_ feat_set batches stemp_) with
      (tid := tid) (nid := nid) (e := e) as (e' & He' & HP); [| |done|].
    { intros fid Hfid b l v dl. unfold P, SplitEntry.Update.
      destruct (SplitEntry.NeedReplace _ _ _ _); [by right | by left]. }
    { intros b v Hb'. by right. }
    fold stemp' in He'. apply lookup_at_entry_at in He'.
    unfold entry_at in He'. unfold sync_node in Hgt |- *.
    rewrite Hb in Hgt |- *. rewrite He' in Hgt |- *.
    destruct HP as [HP|HP]; [|done]. rewrite HP in Hgt. congruence.
Qed.

(** When the check on colsample_bylevel does not abort it, FindSplit
returns, and it splits a node of the frontier exactly when the best split
that the node holds beforehand, or the best split that one of the threads
holds for it after the scans, has a loss change above kRtEps; otherwise it
makes the node a leaf.  The order of the numbers is total. *)
Theorem FindSplit_splits_iff `{!StrictOrderLaws F} `{!OrderedLaws F}
    feat_set batches qexpand stemp_ snode_ (tree : list (RegTree.Node F)) nid ne :
  NoDup qexpand →
  (∀ m, m ∈ qexpand → (m < length tree)%nat) →
  nid ∈ qexpand →
  snode_ !! nid = Some ne →
  (if Fneb colsample_bylevel one then Fgtb colsample_bylevel F0 else true)
  = true →
  ∃ st',
    FindSplit param_ position_ qexpand_ gpair nthread_ NeedForwardSearch
      NeedBackwardSearch parallel_option GetColDensity thread_of
      colsample_bylevel one feat_set batches qexpand (stemp_, snode_, tree)
    = Some st'
    ∧ (RegTree.IsLeaf (st'.2 !!! nid) = false
       ↔ Fgtb (SplitEntry.loss_chg (node_best ne)) kRtEps = true
         ∨ ∃ tid, (tid < nthread_)%nat
             ∧ Fgtb (SplitEntry.loss_chg (best (entry_at st'.1.1 tid nid)))
                 kRtEps = true).
Proof.
  intros Hnd Hlt Hin Hne Hcheck.
  unfold FindSplit. rewrite Hcheck. eexists. split; [reflexivity|].
  cbn [fst snd].
  set (stemp' := scan_batches _ _ _ _ _ _ _ _ _ _ snode_ feat_set batches stemp_)
    in *.
  set (snode' := SyncBestSolution nthread_ stemp' qexpand snode_) in *.
  pose proof (commit_frontier_node snode' qexpand tree nid Hnd Hlt Hin) as Hc.
  cbv zeta in Hc.
  assert (Hiff : RegTree.IsLeaf (commit param_ snode' qexpand tree !!! nid) = false
                 ↔ Fgtb (SplitEntry.loss_chg (node_best (snode' !!! nid))) kRtEps
                   = true).
  { destruct (Fgtb _ kRtEps); [by destruct Hc | by rewrite Hc]. }
  rewrite Hiff. clear Hc Hiff.
  unfold snode'. rewrite (sync_frontier_node _ _ _ _ ne Hnd Hin Hne).
  destruct (sync_node_fields stemp' nid ne (seq 0 nthread_))
    as (_ & _ & _ & Hb).
  destruct (sync_node_maximum stemp' nid ne (seq 0 nthread_))
    as [Hmax0 Hmax].
  cbv zeta in Hb, Hmax0, Hmax. fold (sync_node nthread_ stemp' nid ne) in *.
  unfold Fgtb, entry_at in *. split.
  - intros Hgt. destruct Hb as [Hb | (tid & Htid & Hb)].
    + left. by rewrite <- Hb.
    + right. exists tid. apply elem_of_seq in Htid. split; [lia|].
      by rewrite <- Hb.
  - intros [Hgt | (tid & Htid & Hgt)].
    + destruct (Fltb kRtEps (SplitEntry.loss_chg (node_best (sync_node _ _ _ _))))
        eqn:Hlt'; [done|].
      by rewrite (Fle_trans _ _ _ Hmax0 Hlt') in Hgt.
    + destruct (Fltb kRtEps (SplitEntry.loss_chg (node_best (sync_node _ _ _ _))))
        eqn:Hlt'; [done|].
      assert (Hin' : tid ∈ seq 0 nthread_) by (apply elem_of_seq; lia).
      by rewrite (Fle_trans _ _ _ (Hmax tid Hin') Hlt') in Hgt.
Qed.

End find_split_props.

Module FindSplitFacts.
Import FixedPoint FixedPointLaws Scenario DriverScenario ParallelScenario.

Lemma FindSplit_splits_scanned_witness :
  ∃ st',
    FindSplit param position qexpand gpair nthread NeedForwardSearch
      NeedBackwardSearch 1 GetColDensity (λ _, thread_of) (fp 1) (fp 1) feat_set
      [batch] qexpand (stemp_start, snode, tree) = Some st'
    ∧ (RegTree.IsLeaf (st'.2 !!! 0%nat) = false →
       scanned nthread 1 feat_set (RegTree.SplitIndex (st'.2 !!! 0%nat))).
Proof.
  apply (FindSplit_splits_scanned param position qexpand gpair nthread
           NeedForwardSearch NeedBackwardSearch 1 GetColDensity (λ _, thread_of)
           (fp 1) (fp 1) feat_set [batch] qexpand stemp_start snode tree 0%nat
           (snode !!! 0%nat)).
  - apply NoDup_singleton.
  - intros m ->%list_elem_of_singleton. simpl. lia.
  - apply list_elem_of_here.
  - reflexivity.
  - reflexivity.
  - intros [|[|t]] Ht; [by eexists..|]. unfold nthread in Ht. lia.
  - reflexivity.
Defined.

Lemma FindSplit_splits_iff_witness :
  ∃ st',
    FindSplit param position qexpand gpair nthread NeedForwardSearch
      NeedBackwardSearch 0 GetColDensity (λ _, thread_of) (fp 1) (fp 1) feat_set
      [batch] qexpand (stemp_start, snode, tree) = Some st'
    ∧ (RegTree.IsLeaf (st'.2 !!! 0%nat) = false
       ↔ Fgtb (SplitEntry.loss_chg (node_best (snode !!! 0%nat))) kRtEps = true
         ∨ ∃ tid, (tid < nthread)%nat
             ∧ Fgtb (SplitEntry.loss_chg (best (entry_at st'.1.1 tid 0)))
                 kRtEps = true).
Proof.
  apply (FindSplit_splits_iff param position qexpand gpair nthread
           NeedForwardSearch NeedBackwardSearch 0 GetColDensity (λ _, thread_of)
           (fp 1) (fp 1) feat_set [batch] qexpand stemp_start snode tree 0%nat
           (snode !!! 0%nat)).
  - apply NoDup_singleton.
  - intros m ->%list_elem_of_singleton. simpl. lia.
  - apply list_elem_of_here.
  - reflexivity.
  - reflexivity.
Defined.

End FindSplitFacts.

(** ** The growth of a tree *)

Section builder_props.
Context {F : Type} `{!FloatOps F}.
Context {E : Type}.
Context (split_evaluator : E → SplitEvaluator F).
Context (weight_evaluator : E → WeightEvaluator F).
Context (AddSplit : E → nat → Z → Z → nat → F → F → E).
Context (param_ : TrainParam F).
Context (max_depth : Z).
Context (subsample one : F).
Context (colsample_bytree colsample_bylevel : F).
Context (coin_flip : nat → bool).
Context (gpair : list (GradientPair F)).
Context (root_index : list Z).
Context (rowset : list nat).
Context (batches : list (list (list (Entry F)))).
Context (num_roots : Z).
Context (nthread_ : nat).
Context (NeedForwardSearch NeedBackwardSearch : F → bool → bool).
Context (parallel_option : Z).
Context (GetColDensity : nat → F).
Context (feat_set_at : nat → list nat).
Context (thread_of : nat → nat → nat → nat).
Context (row_thread_of : nat → nat).

#[local] Abbreviation run_level :=
  (level split_evaluator weight_evaluator AddSplit param_ one colsample_bylevel
     gpair rowset batches nthread_ NeedForwardSearch NeedBackwardSearch
     parallel_option GetColDensity feat_set_at thread_of row_thread_of).
#[local] Abbreviation run_grow :=
  (grow split_evaluator weight_evaluator AddSplit param_ one colsample_bylevel
     gpair rowset batches nthread_ NeedForwardSearch NeedBackwardSearch
     parallel_option GetColDensity feat_set_at thread_of row_thread_of).
(* the check of FindSplit on colsample_bylevel *)
#[local] Abbreviation bylevel_checked :=
  (if Fneb colsample_bylevel one then Fgtb colsample_bylevel F0 else true).

Lemma reset_rows_length (tree : list (RegTree.Node F)) rows p p' :
  reset_rows tree rows p = Some p' → length p' = length p.
Proof.
  revert p. induction rows as [|r rows IH]; intros p; simpl.
  - by intros [= <-].
  - destruct (reset_row tree p r) as [p1|] eqn:Hrow; [|done].
    intros Hrows. apply reset_row_length in Hrow as [<- _]. by apply IH.
Qed.

Lemma ResetPosition_Some_length qexpand (tree : list (RegTree.Node F)) p p' :
  ResetPosition qexpand batches rowset tree p = Some p' → length p' = length p.
Proof.
  unfold ResetPosition. intros Hreset.
  by rewrite (reset_rows_length _ _ _ _ Hreset), SetNonDefaultPosition_length.
Qed.

Lemma ResetPosition_is_Some qexpand (tree : list (RegTree.Node F)) p :
  (∀ r, r ∈ rowset → (r < length p)%nat) →
  is_Some (ResetPosition qexpand batches rowset tree p).
Proof.
  intros Hrows. unfold ResetPosition.
  destruct (reset_rows tree rowset _) as [p'|] eqn:Hreset; [by eexists|].
  apply reset_rows_None in Hreset as (r & Hr & Hlen).
  rewrite SetNonDefaultPosition_length in Hlen. specialize (Hrows r Hr). lia.
Qed.

Lemma init_new_nodes_fields nodes (st : BuilderState F E) :
  let st' := init_new_nodes weight_evaluator gpair rowset row_thread_of nodes st in
  st_position st' = st_position st ∧ st_qexpand st' = st_qexpand st
  ∧ st_tree st' = st_tree st ∧ st_evaluator st' = st_evaluator st.
Proof. unfold init_new_nodes. by destruct (InitNewNode _ _ _ _ _ _ _ _). Qed.

(* what a level makes of the positions, the frontier and the tree *)
Lemma level_fields depth (st st' : BuilderState F E) :
  run_level depth st = Some st' →
  ∃ snode',
    let tree' := commit param_ snode' (st_qexpand st) (st_tree st) in
    st_tree st' = tree'
    ∧ st_qexpand st' = Z.to_nat <$> UpdateQueueExpand tree' (st_qexpand st)
    ∧ ResetPosition (st_qexpand st) batches rowset tree' (st_position st)
      = Some (st_position st').
Proof.
  unfold level, FindSplit.
  destruct bylevel_checked; [|done].
  set (snode' := SyncBestSolution _ _ _ _).
  destruct (ResetPosition _ _ _ _ _) as [p'|] eqn:Hreset; [|done].
  intros [= <-]. exists snode'. by cbn.
Qed.

Lemma level_unchecked depth (st : BuilderState F E) :
  bylevel_checked = false → run_level depth st = None.
Proof. intros Hcheck. unfold level, FindSplit. by rewrite Hcheck. Qed.

Lemma level_is_Some depth (st : BuilderState F E) :
  bylevel_checked = true →
  (∀ r, r ∈ rowset → (r < length (st_position st))%nat) →
  is_Some (run_level depth st).
Proof.
  intros Hcheck Hrows. unfold level, FindSplit. rewrite Hcheck.
  set (snode' := SyncBestSolution _ _ _ _).
  destruct (ResetPosition_is_Some (st_qexpand st)
              (commit param_ snode' (st_qexpand st) (st_tree st))
              (st_position st) Hrows) as [p' ->].
  by eexists.
Qed.

Lemma level_wf depth (st st' : BuilderState F E) :
  builder_wf rowset st → run_level depth st = Some st' → builder_wf rowset st'.
Proof.
  intros (Hnd & Hlt & Hwf & Hpos & Hrows) Hlevel.
  destruct (level_fields depth st st' Hlevel) as (snode' & Ht & Hq & Hreset).
  cbv zeta in Ht, Hq, Hreset.
  set (tree' := commit param_ snode' (st_qexpand st) (st_tree st)) in *.
  pose proof (commit_children_are_nodes param_ snode' _ _ Hnd Hlt Hwf) as Hwf'.
  fold tree' in Hwf'.
  destruct (commit_nodes param_ snode' (st_qexpand st) (st_tree st) Hnd Hlt)
    as (Hlen & Hnew & Hfr & Hkids).
  fold tree' in Hlen, Hnew, Hfr, Hkids. cbv beta in *.
  set (cnt := length (filter _ (st_qexpand st))) in *.
  assert (Hq' : st_qexpand st' = seq (length (st_tree st)) (2 * cnt)).
  { rewrite Hq, Hnew, <- list_fmap_compose.
    rewrite (list_fmap_ext (Z.to_nat ∘ Z.of_nat) id) by (intros; apply Nat2Z.id).
    apply list_fmap_id. }
  pose proof (ResetPosition_Some_length _ _ _ _ Hreset) as Hplen.
  unfold builder_wf. rewrite Hq', Ht. split_and!.
  - apply NoDup_seq.
  - intros m Hm%elem_of_seq. lia.
  - done.
  - intros r Hr. rewrite Hplen. by apply Hpos.
  - intros r Hr. destruct (Hrows r Hr) as [Hn Hor]. unfold row_node in *.
    set (n := Z.to_nat (DecodePosition (st_position st) r)) in *.
    assert (Hat : DecodePosition (st_position st) r = Z.of_nat n).
    { unfold n. pose proof (DecodePosition_nonneg (st_position st) r). lia. }
    destruct (lookup_lt_is_Some_2 _ _ Hn) as [node0 Hnode0].
    assert (Hstay : RegTree.IsLeaf (tree' !!! n) = true →
              DecodePosition (st_position st') r = Z.of_nat n).
    { intros Hleaf. unfold ResetPosition in Hreset.
      assert (Hleaf' : RegTree.IsLeaf
                         (tree' !!! Z.to_nat (DecodePosition (st_position st) r))
                       = true) by done.
      pose proof (SetNonDefaultPosition_leaf tree' (st_qexpand st) batches
                    (st_position st) r Hleaf') as Heq.
      destruct (reset_rows_leaf tree' rowset _ _ r Hreset) as [Hd _].
      { by rewrite (DecodePosition_ext _ _ _ Heq). }
      by rewrite Hd, (DecodePosition_ext _ _ _ Heq). }
    destruct (decide (n ∈ st_qexpand st)) as [Hin|Hnin].
    + specialize (Hfr n node0 Hin Hnode0).
      destruct (Fgtb _ _) eqn:Hs.
      * destruct Hfr as (left & Hl & Hl1 & Hl2).
        pose proof (list_lookup_total_correct _ _ _ Hl) as Hn'.
        assert (Hinner : RegTree.IsLeaf (tree' !!! n) = false).
        { rewrite Hn'. unfold RegTree.IsLeaf. simpl. apply Z.eqb_neq. lia. }
        assert (Hkid : ∀ k, (length (st_tree st) ≤ k < length tree')%nat →
                  fresh_leaf_at tree' (Z.of_nat k)).
        { intros k Hk. destruct (Hkids k Hk) as (m & _ & _ & Hkm).
          unfold fresh_leaf_at.
          rewrite Nat2Z.id, (list_lookup_total_correct _ _ _ Hkm).
          split_and!; [lia | done | done]. }
        assert (HL : RegTree.LeftChild (tree' !!! n) = Z.of_nat left)
          by (by rewrite Hn').
        assert (HR : RegTree.RightChild (tree' !!! n) = Z.of_nat (S left))
          by (rewrite Hn'; unfold RegTree.RightChild; simpl; lia).
        pose proof (ResetPosition_row tree' r n Hinner) as Hrow.
        rewrite HL, HR in Hrow.
        specialize (Hrow (Hkid left ltac:(lia)) (Hkid (S left) ltac:(lia))
                      (st_qexpand st) batches rowset (st_position st)
                      (st_position st') Hin Hr Hat Hreset).
        rewrite Hrow. unfold child_for. rewrite HL, HR.
        assert (Hboth : ∀ k, k = left ∨ k = S left →
                  (k < length tree')%nat
                  ∧ (k ∈ seq (length (st_tree st)) (2 * cnt)
                     ∨ RegTree.IsLeaf (tree' !!! k) = true)).
        { intros k Hk. split; [lia|]. left. apply elem_of_seq. lia. }
        destruct (first_value _ _ _);
          [destruct (Fltb _ _) | destruct (RegTree.DefaultLeft _)];
          rewrite Nat2Z.id; apply Hboth; auto.
      * pose proof (list_lookup_total_correct _ _ _ Hfr) as Hn'.
        assert (Hleaf : RegTree.IsLeaf (tree' !!! n) = true) by (by rewrite Hn').
        rewrite (Hstay Hleaf), Nat2Z.id. split; [lia | by right].
    + destruct Hor as [?|Hleaf]; [done|].
      assert (Hsame : tree' !! n = st_tree st !! n)
        by (by apply commit_preserves).
      assert (Hleaf' : RegTree.IsLeaf (tree' !!! n) = true)
        by (by rewrite (lookup_total_eq _ _ _ Hsame)).
      rewrite (Hstay Hleaf'), Nat2Z.id. split; [lia | by right].
Qed.

Lemma grow_wf rounds depth (st st' : BuilderState F E) :
  builder_wf rowset st → run_grow rounds depth st = Some st' → builder_wf rowset st'.
Proof.
  revert depth st. induction rounds as [|rounds IH]; intros depth st Hwf; simpl.
  - by intros [= <-].
  - destruct (run_level depth st) as [st1|] eqn:Hlevel; [|done].
    pose proof (level_wf depth st st1 Hwf Hlevel) as Hwf1.
    destruct (st_qexpand st1); [by intros [= <-] | by apply IH].
Qed.

Lemma grow_is_Some rounds depth (st : BuilderState F E) :
  bylevel_checked = true →
  builder_wf rowset st → is_Some (run_grow rounds depth st).
Proof.
  intros Hcheck.
  revert depth st. induction rounds as [|rounds IH]; intros depth st Hwf; simpl.
  - by eexists.
  - destruct (level_is_Some depth st) as [st1 Hlevel]; [done | apply Hwf|].
    rewrite Hlevel. pose proof (level_wf depth st st1 Hwf Hlevel) as Hwf1.
    destruct (st_qexpand st1); [by eexists | by apply IH].
Qed.


Lemma foldl_length {A} (f : list Z → A → list Z) xs (p : list Z) :
  (∀ p x, length (f p x) = length p) → length (foldl f p xs) = length p.
Proof.
  intros Hf. revert p. induction xs as [|x xs IH]; intros p; simpl; [done|].
  by rewrite IH, Hf.
Qed.

Lemma mark_subsample_length rows (stp : list Z * nat) :
  length (foldl (mark_subsample coin_flip gpair) stp rows).1 = length stp.1.
Proof.
  revert stp. induction rows as [|x rows IH]; intros stp; simpl; [done|].
  rewrite IH. destruct stp as [q k]. unfold mark_subsample.
  destruct (Fltb (hess (gpair !!! x)) F0); [done|].
  destruct (negb _); simpl; [apply length_insert | done].
Qed.

Lemma mark_subsample_flips rows (stp : list Z * nat) r :
  (foldl (mark_subsample coin_flip gpair) stp rows).1 !!! r = stp.1 !!! r
  ∨ (foldl (mark_subsample coin_flip gpair) stp rows).1 !!! r
    = Z.lnot (stp.1 !!! r).
Proof.
  revert stp. induction rows as [|x rows IH]; intros stp; simpl; [by left|].
  assert (Hx : (mark_subsample coin_flip gpair stp x).1 !!! r = stp.1 !!! r
             ∨ (mark_subsample coin_flip gpair stp x).1 !!! r
               = Z.lnot (stp.1 !!! r)).
  { destruct stp as [q k]. unfold mark_subsample.
    destruct (Fltb (hess (gpair !!! x)) F0); [by left|].
    destruct (negb _); simpl; [apply insert_flip | by left]. }
  destruct (IH (mark_subsample coin_flip gpair stp x)) as [-> | ->],
    Hx as [-> | ->]; auto.
  left. apply Z.lnot_involutive.
Qed.

(* the nodes of the instances after InitData *)
Lemma InitData_position_decoded num_nodes position_ p :
  (∀ r, r ∈ rowset → (r < length gpair)%nat) →
  0 < num_roots < 2 ^ 31 →
  (∀ r, r ∈ rowset → 0 ≤ root_index !!! r) →
  InitData_position subsample one coin_flip gpair root_index rowset num_nodes
    num_roots position_ = Some p →
  num_nodes = num_roots
  ∧ length p = length gpair
  ∧ ∀ r, r ∈ rowset → 0 ≤ DecodePosition p r < num_roots.
Proof.
  intros Hrange Hroots Hnn. unfold InitData_position.
  destruct (Z.eqb_spec num_nodes num_roots) as [Heq|]; [|done]. simpl.
  set (p0 := resize (length gpair) 0 position_).
  assert (Hl0 : length p0 = length gpair) by apply length_resize.
  destruct (match root_index with [] => _ | _ :: _ => _ end) as [p1|] eqn:Hp1;
    [|done].
  destruct (rooted_rows num_roots root_index rowset p0 p1 ltac:(lia) Hnn Hp1)
    as (Hl1 & Hv1).
  assert (Hmd : ∀ q x s, mark_deleted gpair q x !!! s = q !!! s
                         ∨ mark_deleted gpair q x !!! s = Z.lnot (q !!! s)).
  { intros q x s. unfold mark_deleted.
    destruct (Fltb (hess (gpair !!! x)) F0); [apply insert_flip | by left]. }
  assert (Hml : ∀ q x, length (mark_deleted gpair q x) = length q).
  { intros q x. unfold mark_deleted.
    destruct (Fltb (hess (gpair !!! x)) F0); [apply length_insert | done]. }
  set (p2 := foldl (mark_deleted gpair) p1 rowset).
  assert (Hl2 : length p2 = length gpair).
  { unfold p2. rewrite foldl_length by done. congruence. }
  intros [= <-]. split; [done|]. split.
  { destruct (Fltb subsample one); [|done]. by rewrite mark_subsample_length. }
  intros r Hr.
  destruct (Hv1 r Hr) as [Hroot Hbound]; [rewrite Hl0; by apply Hrange|].
  assert (Hb : 0 ≤ p1 !!! r < num_roots).
  { destruct root_index; [rewrite Hroot; lia | by apply Hbound]. }
  pose proof (flips_fold (mark_deleted gpair) rowset p1 Hmd r) as H2.
  fold p2 in H2.
  assert (H3 : (if Fltb subsample one
                then (foldl (mark_subsample coin_flip gpair) (p2, 0%nat) rowset).1
                else p2) !!! r = p1 !!! r
             ∨ (if Fltb subsample one
                then (foldl (mark_subsample coin_flip gpair) (p2, 0%nat) rowset).1
                else p2) !!! r = Z.lnot (p1 !!! r)).
  { destruct (Fltb subsample one); [|done].
    pose proof (mark_subsample_flips rowset (p2, 0%nat) r) as H4.
    cbn [fst] in H4.
    destruct H4 as [H4|H4], H2 as [H2|H2]; rewrite H4, H2; auto.
    left. apply Z.lnot_involutive. }
  unfold DecodePosition.
  destruct H3 as [-> | ->].
  - by rewrite (proj2 (Z.ltb_ge _ _)) by lia.
  - rewrite (proj2 (Z.ltb_lt (Z.lnot (p1 !!! r)) 0)) by (unfold Z.lnot; lia).
    by rewrite Z.lnot_involutive.
Qed.

Lemma InitData_wf (st st1 : BuilderState F E) :
  (∀ r, r ∈ rowset → (r < length gpair)%nat) →
  0 < num_roots < 2 ^ 31 →
  (∀ r, r ∈ rowset → 0 ≤ root_index !!! r) →
  (∀ n, n ∈ st_tree st → RegTree.IsLeaf n = true) →
  InitData subsample one colsample_bytree coin_flip gpair root_index rowset
    num_roots nthread_ st
  = Some st1 →
  builder_wf rowset
    (init_new_nodes weight_evaluator gpair rowset row_thread_of (st_qexpand st1)
       st1).
Proof.
  intros Hrange Hroots Hnn Hleaves. unfold InitData.
  destruct (InitData_position _ _ _ _ _ _ _ _ _) as [p|] eqn:Hp; [|done].
  destruct (Fgtb colsample_bytree F0); [|done].
  intros [= <-].
  destruct (InitData_position_decoded _ _ _ Hrange Hroots Hnn Hp)
    as (Hnum & Hlen & Hdec).
  unfold builder_wf, row_node.
  match goal with |- context [init_new_nodes ?a ?b ?c ?d ?e ?s] =>
    destruct (init_new_nodes_fields e s) as (-> & -> & -> & _) end.
  cbn. unfold InitData_qexpand. rewrite <- Hnum, Nat2Z.id. split_and!.
  - apply NoDup_seq.
  - intros m Hm%elem_of_seq. lia.
  - intros i n Hi Hinner.
    rewrite (Hleaves n) in Hinner by (by eapply list_elem_of_lookup_2). done.
  - intros r Hr. rewrite Hlen. by apply Hrange.
  - intros r Hr. specialize (Hdec r Hr). split; [lia|]. left.
    apply elem_of_seq. lia.
Qed.

Lemma set_leaves_tree (g : nat → RegTree.Node F → RegTree.Node F) l
    (tree : list (RegTree.Node F)) n :
  (∀ m node, RegTree.IsLeaf (g m node) = true) →
  (n < length tree)%nat →
  n ∈ l ∨ RegTree.IsLeaf (tree !!! n) = true →
  let tree' := foldl (λ tree nid, alter (g nid) nid tree) tree l in
  length tree' = length tree ∧ RegTree.IsLeaf (tree' !!! n) = true.
Proof.
  intros Hg. revert tree. induction l as [|m l IH]; intros tree Hn Hor; cbn.
  - split; [done|]. destruct Hor as [Hin|]; [|done]. by apply elem_of_nil in Hin.
  - destruct (IH (alter (g m) m tree)) as [Hlen Hleaf].
    + by rewrite length_alter.
    + destruct (decide (m = n)) as [->|Hne].
      * right. destruct (lookup_lt_is_Some_2 _ _ Hn) as [node Hnode].
        rewrite (list_lookup_total_correct _ n (g n node)); [apply Hg|].
        by rewrite list_lookup_alter_eq, Hnode.
      * destruct Hor as [Hin|Hleaf].
        -- left. apply elem_of_cons in Hin as [?|?]; [congruence|done].
        -- right. by rewrite list_lookup_total_alter_ne.
    + split; [|done]. by rewrite Hlen, length_alter.
Qed.

(** When [Update] has grown a tree from its roots, every instance of the
row set, excluded from the statistics or not, is on a leaf of the tree. *)
Theorem Update_rows_on_leaves (st st' : BuilderState F E) stats :
  (∀ r, r ∈ rowset → (r < length gpair)%nat) →
  0 < num_roots < 2 ^ 31 →
  (∀ r, r ∈ rowset → 0 ≤ root_index !!! r) →
  (∀ n, n ∈ st_tree st → RegTree.IsLeaf n = true) →
  Update split_evaluator weight_evaluator AddSplit param_ max_depth subsample one
    colsample_bytree colsample_bylevel coin_flip gpair root_index rowset batches
    num_roots nthread_
    NeedForwardSearch NeedBackwardSearch parallel_option GetColDensity
    feat_set_at thread_of row_thread_of st = Some (st', stats) →
  ∀ r, r ∈ rowset →
    (row_node st' r < length (st_tree st'))%nat
    ∧ RegTree.IsLeaf (st_tree st' !!! row_node st' r) = true.
Proof.
  intros Hrange Hroots Hnn Hleaves. unfold Update.
  destruct (InitData _ _ _ _ _ _ _ _ _ st) as [st1|] eqn:Hinit; [|done].
  pose proof (InitData_wf st st1 Hrange Hroots Hnn Hleaves Hinit) as Hwf1.
  destruct (run_grow _ _ _) as [st2|] eqn:Hgrow; [|done].
  pose proof (grow_wf _ _ _ _ Hwf1 Hgrow) as (_ & _ & _ & _ & Hrows).
  intros [= <- _] r Hr. destruct (Hrows r Hr) as [Hn Hor].
  unfold row_node, set_leaves in *. cbn.
  destruct (set_leaves_tree
              (λ nid, RegTree.SetLeaf
                        (Fmul (weight (st_snode st2 !!! nid)) (learning_rate param_))
                        (-1))
              (st_qexpand st2) (st_tree st2) _ ltac:(done) Hn Hor) as [Hlen Hleaf].
  cbv zeta in Hlen, Hleaf. by rewrite Hlen.
Qed.

(** [Update] aborts exactly where one of the checks of [InitData] fails
(the CHECK_EQ on the number of nodes and the CHECK_LT on the root indices,
which are those of the positions, and the CHECK_GT on colsample_bytree) or,
when there is a level to grow, where the CHECK_GT of [FindSplit] on
colsample_bylevel fails: once the positions are set up, the CHECK_LT of
ResetPosition holds at every level, and the loop over the depths ends. *)
Theorem Update_aborts_iff (st : BuilderState F E) :
  (∀ r, r ∈ rowset → (r < length gpair)%nat) →
  0 < num_roots < 2 ^ 31 →
  (∀ r, r ∈ rowset → 0 ≤ root_index !!! r) →
  (∀ n, n ∈ st_tree st → RegTree.IsLeaf n = true) →
  Update split_evaluator weight_evaluator AddSplit param_ max_depth subsample one
    colsample_bytree colsample_bylevel coin_flip gpair root_index rowset batches
    num_roots nthread_
    NeedForwardSearch NeedBackwardSearch parallel_option GetColDensity
    feat_set_at thread_of row_thread_of st = None
  ↔ InitData_position subsample one coin_flip gpair root_index rowset
      (Z.of_nat (length (st_tree st))) num_roots (st_position st) = None
    ∨ Fgtb colsample_bytree F0 = false
    ∨ (0 < max_depth
       ∧ Fneb colsample_bylevel one = true
       ∧ Fgtb colsample_bylevel F0 = false).
Proof.
  intros Hrange Hroots Hnn Hleaves. unfold Update.
  destruct (InitData _ _ _ _ _ _ _ _ _ st) as [st1|] eqn:Hinit.
  - pose proof (InitData_wf st st1 Hrange Hroots Hnn Hleaves Hinit) as Hwf1.
    unfold InitData in Hinit.
    destruct (InitData_position _ _ _ _ _ _ _ _ _) as [p|]; [|done].
    destruct (Fgtb colsample_bytree F0); [|done].
    destruct bylevel_checked eqn:Hcheck.
    + destruct (grow_is_Some (Z.to_nat max_depth) 0 _ Hcheck Hwf1) as [st2 ->].
      split; [done|]. intros [?|[?|(_ & Hne & Hgt)]]; [done | done |].
      by rewrite Hne, Hgt in Hcheck.
    + assert (Hfail : Fneb colsample_bylevel one = true
                      ∧ Fgtb colsample_bylevel F0 = false)
        by (by destruct (Fneb colsample_bylevel one)).
      destruct (Z.to_nat max_depth) as [|rounds] eqn:Hdepth; cbn [grow].
      * split; [done|]. intros [?|[?|(? & _)]]; [done | done | lia].
      * rewrite (level_unchecked _ _ Hcheck).
        split; [|done]. intros _. right. right. split; [lia | done].
  - split; [|done]. intros _. unfold InitData in Hinit.
    destruct (InitData_position _ _ _ _ _ _ _ _ _); [|by left].
    destruct (Fgtb colsample_bytree F0); [done | by right; left].
Qed.


Lemma level_sizes depth (st st' : BuilderState F E) :
  builder_wf rowset st → run_level depth st = Some st' →
  ∃ c, (c ≤ length (st_qexpand st))%nat
    ∧ length (st_qexpand st') = (2 * c)%nat
    ∧ length (st_tree st') = (length (st_tree st) + 2 * c)%nat.
Proof.
  intros (Hnd & Hlt & _) Hlevel.
  destruct (level_fields depth st st' Hlevel) as (snode' & Ht & Hq & _).
  cbv zeta in Ht, Hq.
  destruct (commit_nodes param_ snode' (st_qexpand st) (st_tree st) Hnd Hlt)
    as (Hlen & Hnew & _).
  cbv beta in *. set (cnt := length (filter _ (st_qexpand st))) in *.
  exists cnt. split_and!.
  - apply length_filter.
  - by rewrite Hq, Hnew, !length_fmap, length_seq.
  - by rewrite Ht.
Qed.

Lemma grow_size rounds depth (st st' : BuilderState F E) :
  builder_wf rowset st → run_grow rounds depth st = Some st' →
  (length (st_tree st')
   ≤ length (st_tree st) + length (st_qexpand st) * (2 ^ (rounds + 1) - 2))%nat.
Proof.
  revert depth st. induction rounds as [|rounds IH]; intros depth st Hwf; simpl.
  - intros [= <-]. lia.
  - destruct (run_level depth st) as [st1|] eqn:Hlevel; [|done].
    pose proof (level_wf depth st st1 Hwf Hlevel) as Hwf1.
    destruct (level_sizes depth st st1 Hwf Hlevel) as (c & Hc & Hq1 & Ht1).
    assert (Hpow : (2 ≤ 2 ^ (rounds + 1))%nat).
    { rewrite Nat.pow_add_r. simpl.
      pose proof (Nat.pow_nonzero 2 rounds ltac:(lia)). lia. }
    set (k := (2 ^ (rounds + 1))%nat) in *.
    assert (Hbound : (length (st_tree st1) + length (st_qexpand st1) * (k - 2)
                      ≤ length (st_tree st)
                        + length (st_qexpand st) * (k + (k + 0) - 2))%nat).
    { rewrite Ht1, Hq1. nia. }
    destruct (st_qexpand st1) eqn:Hq.
    + intros [= <-]. simpl in Hbound. lia.
    + intros Hgrow. specialize (IH _ _ Hwf1 Hgrow). fold k in IH.
      rewrite Hq in IH. lia.
Qed.

(** The tree that [Update] grows from its roots has at most
num_roots * (2^(max_depth + 1) - 1) nodes: every level at most doubles the
frontier, and there are at most max_depth levels. *)
Theorem Update_size (st st' : BuilderState F E) stats :
  (∀ r, r ∈ rowset → (r < length gpair)%nat) →
  0 < num_roots < 2 ^ 31 →
  (∀ r, r ∈ rowset → 0 ≤ root_index !!! r) →
  (∀ n, n ∈ st_tree st → RegTree.IsLeaf n = true) →
  Update split_evaluator weight_evaluator AddSplit param_ max_depth subsample one
    colsample_bytree colsample_bylevel coin_flip gpair root_index rowset batches
    num_roots nthread_
    NeedForwardSearch NeedBackwardSearch parallel_option GetColDensity
    feat_set_at thread_of row_thread_of st = Some (st', stats) →
  (length (st_tree st')
   ≤ Z.to_nat num_roots * (2 ^ (Z.to_nat max_depth + 1) - 1))%nat
  ∧ length stats = length (st_tree st').
Proof.
  intros Hrange Hroots Hnn Hleaves. unfold Update.
  destruct (InitData _ _ _ _ _ _ _ _ _ st) as [st1|] eqn:Hinit; [|done].
  pose proof (InitData_wf st st1 Hrange Hroots Hnn Hleaves Hinit) as Hwf1.
  destruct (run_grow _ _ _) as [st2|] eqn:Hgrow; [|done].
  pose proof (grow_size _ _ _ _ Hwf1 Hgrow) as Hsize.
  match type of Hsize with context [init_new_nodes ?a ?b ?c ?d ?e ?s] =>
    destruct (init_new_nodes_fields e s) as (_ & Hq & Ht & _) end.
  cbv zeta in Hq, Ht. rewrite Hq, Ht in Hsize. clear Hq Ht.
  unfold InitData in Hinit.
  destruct (InitData_position _ _ _ _ _ _ _ _ _) as [p|] eqn:Hp; [|done].
  destruct (InitData_position_decoded _ _ _ Hrange Hroots Hnn Hp) as (Hnum & _).
  destruct (Fgtb colsample_bytree F0); [|done].
  injection Hinit as <-. cbn in Hsize.
  unfold InitData_qexpand in Hsize. rewrite length_seq, <- Hnum, Nat2Z.id in Hsize.
  intros [= <- <-].
  assert (Hlen : length (st_tree (set_leaves param_ st2)) = length (st_tree st2)).
  { unfold set_leaves. cbn. generalize (st_tree st2).
    induction (st_qexpand st2) as [|m l IH]; intros tree; cbn; [done|].
    by rewrite IH, length_alter. }
  split.
  - rewrite Hlen, <- Hnum, Nat2Z.id.
    assert (Hpow : (2 ≤ 2 ^ (Z.to_nat max_depth + 1))%nat).
    { rewrite Nat.pow_add_r. simpl.
      pose proof (Nat.pow_nonzero 2 (Z.to_nat max_depth) ltac:(lia)). lia. }
    nia.
  - unfold node_stats_of. by rewrite length_fmap, length_seq.
Qed.

End builder_props.

Module BuilderFacts.
Import FixedPoint FixedPointLaws Scenario DriverScenario ParallelScenario.
Import BuilderScenario.

Lemma Update_rows_on_leaves_witness :
  ∃ st' stats, Update_tree = Some (st', stats)
    ∧ ∀ r, r ∈ rowset2 →
        (row_node st' r < length (st_tree st'))%nat
        ∧ RegTree.IsLeaf (st_tree st' !!! row_node st' r) = true.
Proof.
  eexists _, _. split; [vm_compute; reflexivity|].
  eapply (Update_rows_on_leaves (λ _, evaluator) (λ _, weights) AddSplit param
           max_depth (fp 1) (fp 1) (fp 1) (fp 1) coin_flip gpair [] rowset2
           [batch] 1 nthread
           NeedForwardSearch NeedBackwardSearch 1 GetColDensity (λ _, feat_set)
           (λ _ _, thread_of) thread_of start).
  - intros r Hr. repeat (apply elem_of_cons in Hr as [->|Hr]; [simpl; lia|]).
    by apply elem_of_nil in Hr.
  - lia.
  - intros r _. done.
  - intros n ->%list_elem_of_singleton. reflexivity.
  - vm_compute. reflexivity.
Defined.

Lemma Update_aborts_iff_witness :
  Update_tree = None
  ↔ InitData_position (fp 1) (fp 1) coin_flip gpair [] rowset2 1 1 [] = None
    ∨ Fgtb (fp 1) F0 = false
    ∨ (0 < max_depth ∧ Fneb (fp 1) (fp 1) = true ∧ Fgtb (fp 1) F0 = false).
Proof.
  apply (Update_aborts_iff (λ _, evaluator) (λ _, weights) AddSplit param
           max_depth (fp 1) (fp 1) (fp 1) (fp 1) coin_flip gpair [] rowset2
           [batch] 1 nthread
           NeedForwardSearch NeedBackwardSearch 1 GetColDensity (λ _, feat_set)
           (λ _ _, thread_of) thread_of start).
  - intros r Hr. repeat (apply elem_of_cons in Hr as [->|Hr]; [simpl; lia|]).
    by apply elem_of_nil in Hr.
  - lia.
  - intros r _. done.
  - intros n ->%list_elem_of_singleton. reflexivity.
Defined.

Lemma Update_size_witness :
  ∃ st' stats, Update_tree = Some (st', stats)
    ∧ (length (st_tree st') ≤ 7)%nat ∧ length stats = length (st_tree st').
Proof.
  eexists _, _. split; [vm_compute; reflexivity|].
  eapply (Update_size (λ _, evaluator) (λ _, weights) AddSplit param
           max_depth (fp 1) (fp 1) (fp 1) (fp 1) coin_flip gpair [] rowset2
           [batch] 1 nthread
           NeedForwardSearch NeedBackwardSearch 1 GetColDensity (λ _, feat_set)
           (λ _ _, thread_of) thread_of start).
  - intros r Hr. repeat (apply elem_of_cons in Hr as [->|Hr]; [simpl; lia|]).
    by apply elem_of_nil in Hr.
  - lia.
  - intros r _. done.
  - intros n ->%list_elem_of_singleton. reflexivity.
  - vm_compute. reflexivity.
Defined.

End BuilderFacts.
